(** * Pixel clustering and cluster-validity metrics: a shallow embedding

    The embedded sources are the two algorithm files of the repository
    (the k-means++ variant, [Part000], and the random-seeding variant with
    its mean-shift and watershed companions, [Part001]) and
    [metricsCalculation.ts] ([Metrics]).

    JavaScript numbers are kept abstract behind the interface [Number]:
    every algorithm is written once, against the operations the source
    uses.  Two implementations are given: [FloatNumber], IEEE binary64 as
    the engine computes (executable), and [RealNumber], the reals extended
    with the infinities and NaN (exact arithmetic, used where a property
    needs algebra).  Properties that only depend on the control flow are
    proved for every implementation. *)

From Stdlib Require Import ZArith List Bool Lia Arith.
From Stdlib Require Import Reals Lra.
From Stdlib Require PrimFloat FloatOps SpecFloat Uint63.
From Stdlib Require String.
Import ListNotations.

Set Implicit Arguments.

(** ** JavaScript numbers *)

Declare Scope js_scope.
Delimit Scope js_scope with js.

Class Number (num : Type) := {
  ofZ : Z -> num;                 (* an integer literal, a byte, a length *)
  infinity : num;                 (* Infinity *)
  NaN : num;                      (* what arithmetic on undefined yields *)
  nadd : num -> num -> num;       (* a + b *)
  nsub : num -> num -> num;       (* a - b *)
  nmul : num -> num -> num;       (* a * b *)
  ndiv : num -> num -> num;       (* a / b *)
  nsqrt : num -> num;             (* Math.sqrt *)
  nltb : num -> num -> bool;      (* a < b *)
  nleb : num -> num -> bool;      (* a <= b *)
  neqb : num -> num -> bool;      (* a === b *)
  nmin : num -> num -> num;       (* Math.min(a, b) *)
  nmax : num -> num -> num;       (* Math.max(a, b) *)
  nfloor : num -> num;            (* Math.floor *)
  nround : num -> num;            (* Math.round *)
  toIndex : num -> option nat;    (* the array index a number denotes, if any *)
  toUint8Clamp : num -> Z         (* the conversion a Uint8ClampedArray store applies *)
}.

Infix "+" := nadd : js_scope.
Infix "-" := nsub : js_scope.
Infix "*" := nmul : js_scope.
Infix "/" := ndiv : js_scope.
Infix "<?" := nltb : js_scope.
Infix "<=?" := nleb : js_scope.
Infix "===" := neqb (at level 70, no associativity) : js_scope.

(** [a > b] and [a >= b] are [b < a] and [b <= a], NaN included. *)
Notation "a >? b" := (nltb b a) (only parsing) : js_scope.
Notation "a >=? b" := (nleb b a) (only parsing) : js_scope.

(** [x ** 2] and [Math.pow(x, 2)]. *)
Definition sqr {num} `{Number num} (x : num) : num := (x * x)%js.

(** A decimal literal [n / 10^d], e.g. [0.85 = lit 85 100]. *)
Definition lit {num} `{Number num} (n d : Z) : num := (ofZ n / ofZ d)%js.

(** *** IEEE binary64 *)

Module FloatNumber.
Import SpecFloat FloatOps.

Definition float := PrimFloat.float.

Definition f_ofZ (z : Z) : float :=
  if (z <? 0)%Z then PrimFloat.opp (PrimFloat.of_uint63 (Uint63.of_Z (- z)))
  else PrimFloat.of_uint63 (Uint63.of_Z z).

(** The value of a finite non-zero float is [(-1)^s * m * 2^e]; the three
    roundings below read it off the mantissa and exponent. *)
Definition f_floorZ (s : bool) (m : positive) (e : Z) : Z :=
  if (0 <=? e)%Z then (if s then - (Zpos m * 2 ^ e) else Zpos m * 2 ^ e)%Z
  else
    let d := (2 ^ (- e))%Z in
    if s then (- ((Zpos m + d - 1) / d))%Z else (Zpos m / d)%Z.

Definition f_floor (x : float) : float :=
  match Prim2SF x with
  | S754_finite s m e => if (0 <=? e)%Z then x else f_ofZ (f_floorZ s m e)
  | _ => x
  end.

(** Nearest integer, ties towards +Infinity. *)
Definition f_roundZ (s : bool) (m : positive) (e : Z) : Z :=
  if (0 <=? e)%Z then (if s then - (Zpos m * 2 ^ e) else Zpos m * 2 ^ e)%Z
  else
    let d := (2 ^ (- e))%Z in
    let q := (Zpos m / d)%Z in
    let r := (Zpos m mod d)%Z in
    if s then (if (d <? 2 * r)%Z then - (q + 1) else - q)%Z
    else (if (d <=? 2 * r)%Z then q + 1 else q)%Z.

Definition f_round (x : float) : float :=
  match Prim2SF x with
  | S754_finite s m e => if (0 <=? e)%Z then x else f_ofZ (f_roundZ s m e)
  | _ => x
  end.

Definition f_toIndex (x : float) : option nat :=
  match Prim2SF x with
  | S754_zero _ => Some 0%nat
  | S754_finite false m e =>
      if (0 <=? e)%Z then Some (Z.to_nat (Zpos m * 2 ^ e))
      else if (Zpos m mod 2 ^ (- e) =? 0)%Z then Some (Z.to_nat (Zpos m / 2 ^ (- e)))
      else None
  | _ => None
  end.

(** Clamp to [0, 255], nearest integer, ties to even; NaN gives 0. *)
Definition f_toUint8Clamp (x : float) : Z :=
  match Prim2SF x with
  | S754_nan => 0
  | S754_zero _ => 0
  | S754_infinity s => if s then 0 else 255
  | S754_finite true _ _ => 0
  | S754_finite false m e =>
      if (0 <=? e)%Z then Z.min 255 (Zpos m * 2 ^ e)
      else
        let d := (2 ^ (- e))%Z in
        let q := (Zpos m / d)%Z in
        let r := (Zpos m mod d)%Z in
        let n := if (d <? 2 * r)%Z then (q + 1)%Z
                 else if (2 * r <? d)%Z then q
                 else if Z.even q then q else (q + 1)%Z in
        Z.min 255 n
  end.

Definition f_min (a b : float) : float :=
  if PrimFloat.is_nan a || PrimFloat.is_nan b then PrimFloat.nan
  else if PrimFloat.ltb a b then a
  else if PrimFloat.ltb b a then b
  else if PrimFloat.get_sign a then a else b.

Definition f_max (a b : float) : float :=
  if PrimFloat.is_nan a || PrimFloat.is_nan b then PrimFloat.nan
  else if PrimFloat.ltb a b then b
  else if PrimFloat.ltb b a then a
  else if PrimFloat.get_sign a then b else a.

#[global] Instance float_Number : Number float := {|
  ofZ := f_ofZ;
  infinity := PrimFloat.infinity;
  NaN := PrimFloat.nan;
  nadd := PrimFloat.add;
  nsub := PrimFloat.sub;
  nmul := PrimFloat.mul;
  ndiv := PrimFloat.div;
  nsqrt := PrimFloat.sqrt;
  nltb := PrimFloat.ltb;
  nleb := PrimFloat.leb;
  neqb := PrimFloat.eqb;
  nmin := f_min;
  nmax := f_max;
  nfloor := f_floor;
  nround := f_round;
  toIndex := f_toIndex;
  toUint8Clamp := f_toUint8Clamp
|}.

End FloatNumber.

(** *** Extended reals

    Exact arithmetic on the reals, with [Infinity], [-Infinity] and [NaN]
    behaving as in IEEE 754.  The sign of zero is not represented: a
    division of a non-zero number by zero takes the sign of the numerator. *)

Module RealNumber.

Local Open Scope R_scope.

Inductive xreal : Type :=
| Finite (r : R)
| PInf
| NInf
| XNaN.

Definition Rltb (a b : R) : bool := if Rlt_dec a b then true else false.
Definition Rleb (a b : R) : bool := if Rle_dec a b then true else false.
Definition Reqb (a b : R) : bool := if Req_dec_T a b then true else false.

Definition x_opp (a : xreal) : xreal :=
  match a with
  | Finite r => Finite (- r)
  | PInf => NInf
  | NInf => PInf
  | XNaN => XNaN
  end.

Definition x_add (a b : xreal) : xreal :=
  match a, b with
  | XNaN, _ | _, XNaN => XNaN
  | Finite x, Finite y => Finite (x + y)
  | PInf, NInf | NInf, PInf => XNaN
  | PInf, _ | _, PInf => PInf
  | NInf, _ | _, NInf => NInf
  end.

Definition x_sub (a b : xreal) : xreal := x_add a (x_opp b).

(** The sign of a number, for products and quotients with an infinity:
    [None] for zero. *)
Definition x_negative (a : xreal) : option bool :=
  match a with
  | Finite r => if Rltb r 0 then Some true else if Rltb 0 r then Some false else None
  | PInf => Some false
  | NInf => Some true
  | XNaN => None
  end.

Definition x_inf (negative : bool) : xreal := if negative then NInf else PInf.

Definition x_mul (a b : xreal) : xreal :=
  match a, b with
  | XNaN, _ | _, XNaN => XNaN
  | Finite x, Finite y => Finite (x * y)
  | _, _ =>
      match x_negative a, x_negative b with
      | Some sa, Some sb => x_inf (xorb sa sb)
      | _, _ => XNaN
      end
  end.

Definition x_div (a b : xreal) : xreal :=
  match a, b with
  | XNaN, _ | _, XNaN => XNaN
  | Finite x, Finite y =>
      if Reqb y 0 then
        match x_negative a with
        | Some s => x_inf s
        | None => XNaN
        end
      else Finite (x / y)
  | Finite _, _ => Finite 0
  | _, Finite y => x_inf (xorb (match a with NInf => true | _ => false end) (Rltb y 0))
  | _, _ => XNaN
  end.

Definition x_sqrt (a : xreal) : xreal :=
  match a with
  | Finite r => if Rltb r 0 then XNaN else Finite (sqrt r)
  | PInf => PInf
  | _ => XNaN
  end.

Definition x_ltb (a b : xreal) : bool :=
  match a, b with
  | Finite x, Finite y => Rltb x y
  | NInf, Finite _ | NInf, PInf | Finite _, PInf => true
  | _, _ => false
  end.

Definition x_leb (a b : xreal) : bool :=
  match a, b with
  | Finite x, Finite y => Rleb x y
  | NInf, Finite _ | NInf, PInf | Finite _, PInf | NInf, NInf | PInf, PInf => true
  | _, _ => false
  end.

Definition x_eqb (a b : xreal) : bool :=
  match a, b with
  | Finite x, Finite y => Reqb x y
  | PInf, PInf | NInf, NInf => true
  | _, _ => false
  end.

Definition x_min (a b : xreal) : xreal :=
  match a, b with
  | XNaN, _ | _, XNaN => XNaN
  | _, _ => if x_ltb a b then a else b
  end.

Definition x_max (a b : xreal) : xreal :=
  match a, b with
  | XNaN, _ | _, XNaN => XNaN
  | _, _ => if x_ltb a b then b else a
  end.

Definition x_floor (a : xreal) : xreal :=
  match a with
  | Finite r => Finite (IZR (Zfloor r))
  | _ => a
  end.

(** Nearest integer, ties towards +Infinity. *)
Definition x_round (a : xreal) : xreal :=
  match a with
  | Finite r => Finite (IZR (Zfloor (r + / 2)))
  | _ => a
  end.

Definition x_toIndex (a : xreal) : option nat :=
  match a with
  | Finite r =>
      if Rleb 0 r && Reqb (IZR (Zfloor r)) r then Some (Z.to_nat (Zfloor r)) else None
  | _ => None
  end.

(** Clamp to [0, 255], nearest integer, ties to even; NaN gives 0. *)
Definition x_toUint8Clamp (a : xreal) : Z :=
  match a with
  | XNaN | NInf => 0
  | PInf => 255
  | Finite r =>
      if Rleb r 0 then 0
      else if Rleb 255 r then 255
      else
        let q := Zfloor r in
        let f := (r - IZR q)%R in
        if Rltb (/ 2) f then (q + 1)%Z
        else if Rltb f (/ 2) then q
        else if Z.even q then q else (q + 1)%Z
  end.

#[global] Instance xreal_Number : Number xreal := {|
  ofZ := fun z => Finite (IZR z);
  infinity := PInf;
  NaN := XNaN;
  nadd := x_add;
  nsub := x_sub;
  nmul := x_mul;
  ndiv := x_div;
  nsqrt := x_sqrt;
  nltb := x_ltb;
  nleb := x_leb;
  neqb := x_eqb;
  nmin := x_min;
  nmax := x_max;
  nfloor := x_floor;
  nround := x_round;
  toIndex := x_toIndex;
  toUint8Clamp := x_toUint8Clamp
|}.

(** A result of [Math.random()]: a number in [0, 1). *)
Definition unit_draw (u : xreal) : Prop :=
  exists r : R, u = Finite r /\ (0 <= r < 1)%R.

Local Close Scope R_scope.

End RealNumber.

(** ** Exceptions and divergence *)

(** [TypeError], [RangeError] and [IndexSizeError] are what the runtime
    raises; the last three kinds are the ones the specification names. *)
Inductive error : Type :=
| TypeError
| RangeError
| IndexSizeError
| InvalidParameter
| InsufficientClusters
| EmptyInput.

Inductive outcome (A : Type) : Type :=
| Ok (a : A)
| Throw (e : error)
| OutOfFuel.

Arguments Ok {A} a.
Arguments Throw {A} e.
Arguments OutOfFuel {A}.

Definition bind {A B} (c : outcome A) (k : A -> outcome B) : outcome B :=
  match c with
  | Ok a => k a
  | Throw e => Throw e
  | OutOfFuel => OutOfFuel
  end.

Notation "x <- c ;; k" := (bind c (fun x => k))
  (at level 61, c at next level, right associativity).

Fixpoint mapM {A B} (f : A -> outcome B) (l : list A) : outcome (list B) :=
  match l with
  | [] => Ok []
  | a :: l' => b <- f a ;; bs <- mapM f l' ;; Ok (b :: bs)
  end.

(** ** Arrays *)

(** [a[i] = v] on an index inside the array. *)
Fixpoint list_set {A} (i : nat) (v : A) (l : list A) : list A :=
  match l, i with
  | [], _ => []
  | _ :: t, O => v :: t
  | x :: t, S i' => x :: list_set i' v t
  end.

(** [a.map((v, idx) => f(v, idx))], counting from [i]. *)
Fixpoint mapi_from {A B} (f : A -> nat -> B) (i : nat) (l : list A) : list B :=
  match l with
  | [] => []
  | a :: l' => f a i :: mapi_from f (S i) l'
  end.

(** ** Image buffers

    An [ImageData] owns a [Uint8ClampedArray]; several objects can refer to
    the same array, so arrays live in a heap and an [ImageData] holds the
    address of its own. *)

Definition buffer := list Z.
Definition heap := list buffer.

Record ImageData : Type := mkImageData {
  width : Z;
  height : Z;
  data : nat
}.

Definition bytes (h : heap) (img : ImageData) : buffer := nth (data img) h [].

(** [new ImageData(w, h)]: a zero-filled buffer at a fresh address; the
    constructor rejects an empty image. *)
Definition newImageData (h : heap) (w hg : Z) : heap * outcome ImageData :=
  if ((w <=? 0) || (hg <=? 0))%Z then (h, Throw IndexSizeError)
  else (h ++ [repeat 0%Z (Z.to_nat (4 * w * hg))],
        Ok {| width := w; height := hg; data := length h |}).

(** [img.data[i] = v]: the store clamps; an index outside the array is
    ignored. *)
Definition store {num} `{Number num} (h : heap) (img : ImageData) (i : nat) (v : num) : heap :=
  list_set (data img) (list_set i (toUint8Clamp v) (bytes h img)) h.

(** A well-formed image: the buffer exists and holds four bytes per pixel. *)
Definition wf_image (h : heap) (img : ImageData) : Prop :=
  (1 <= width img)%Z /\ (1 <= height img)%Z /\
  (data img < length h)%nat /\
  length (bytes h img) = Z.to_nat (4 * width img * height img) /\
  Forall (fun b => 0 <= b <= 255)%Z (bytes h img).

Section Pixels.
Context {num : Type} `{Number num}.

(** [b[i]] used in arithmetic: a missing element counts as NaN. *)
Definition elem (b : list num) (i : nat) : num :=
  match nth_error b i with
  | Some x => x
  | None => NaN
  end.

(** [for (i = 0; i < data.length; i += 4) pixels.push([data[i], data[i+1], data[i+2]])].
    A buffer of an [ImageData] holds whole pixels; were one cut short, its
    missing channels would read as undefined. *)
Fixpoint extractPixels (d : buffer) : list (list num) :=
  match d with
  | [] => []
  | r :: g :: b :: _ :: rest => [ofZ r; ofZ g; ofZ b] :: extractPixels rest
  | [r; g; b] => [[ofZ r; ofZ g; ofZ b]]
  | [r; g] => [[ofZ r; ofZ g; NaN]]
  | [r] => [[ofZ r; NaN; NaN]]
  end.

(** [a.reduce((sum, val, i) => sum + (val - b[i]) ** 2, 0)], from index [i]. *)
Fixpoint sumSquares (a b : list num) (i : nat) (sum : num) : num :=
  match a with
  | [] => sum
  | val :: a' => sumSquares a' b (S i) (sum + sqr (val - elem b i))%js
  end.

End Pixels.

(** ** The k-means++ variant *)

Module Part000.

Section WithNumber.
Context {num : Type} `{Number num}.

(** The successive results of [Math.random()]; a cursor counts the calls. *)
Variable random : nat -> num.

(** An element of [centroids]: [None] is [undefined] (what an array read
    outside its bounds yields). *)
Definition centroid := option (list num).

Definition euclideanDistance (a : list num) (b : centroid) : outcome num :=
  match b with
  | None => Throw TypeError
  | Some b => Ok (nsqrt (sumSquares a b 0 (ofZ 0)))
  end.

(** [pixels[Math.floor(u * pixels.length)]] and the like. *)
Definition randomElement {A} (u : num) (l : list A) : option A :=
  match toIndex (nfloor (u * ofZ (Z.of_nat (length l)))%js) with
  | Some i => nth_error l i
  | None => None
  end.

(** [Math.min(...centroids.map(c => euclideanDistance(p, c)))] *)
Definition nearestDistance (centroids : list centroid) (p : list num) : outcome num :=
  ds <- mapM (euclideanDistance p) centroids ;;
  Ok (fold_left nmin ds infinity).

(** The sampling loop: the first pixel at which the running sum of the
    weights reaches the threshold. *)
Fixpoint sample (pixels : list (list num)) (distances : list num)
    (cumulative threshold : num) : option (list num) :=
  match pixels, distances with
  | p :: pixels', d :: distances' =>
      let cumulative := (cumulative + d)%js in
      if (cumulative >=? threshold)%js then Some p
      else sample pixels' distances' cumulative threshold
  | _, _ => None
  end.

(** [while (centroids.length < k) { ... }]; [c] is the number of draws made
    so far. *)
Fixpoint seed (fuel : nat) (pixels : list (list num)) (k : Z)
    (centroids : list centroid) (c : nat) : outcome (list centroid * nat) :=
  if (Z.of_nat (length centroids) <? k)%Z then
    match fuel with
    | O => OutOfFuel
    | S fuel' =>
        distances <- mapM (nearestDistance centroids) pixels ;;
        let sum := fold_left nadd distances (ofZ 0) in
        let threshold := (random c * sum)%js in
        match sample pixels distances (ofZ 0) threshold with
        | Some p => seed fuel' pixels k (centroids ++ [Some p]) (S c)
        | None => seed fuel' pixels k centroids (S c)
        end
    end
  else Ok (centroids, c).

(** One accumulator of [clusters]. *)
Record cluster : Type := mkCluster {
  sum : list num;
  count : nat
}.

(** [Array(k).fill(null).map(() => ({sum: [0, 0, 0], count: 0}))] *)
Definition newClusters (k : Z) : outcome (list cluster) :=
  if (k <? 0)%Z then Throw RangeError
  else Ok (repeat (mkCluster [ofZ 0; ofZ 0; ofZ 0] 0) (Z.to_nat k)).

(** The inner [centroids.forEach]: the index of the first centroid at the
    least distance, starting from [minDist] and [clusterIdx]. *)
Fixpoint nearest (pixel : list num) (centroids : list centroid) (j : nat)
    (minDist : num) (clusterIdx : nat) : outcome nat :=
  match centroids with
  | [] => Ok clusterIdx
  | c :: centroids' =>
      dist <- euclideanDistance pixel c ;;
      if (dist <? minDist)%js then nearest pixel centroids' (S j) dist j
      else nearest pixel centroids' (S j) minDist clusterIdx
  end.

Record pass : Type := mkPass {
  labels_of : list nat;
  clusters_of : list cluster;
  changed_of : bool
}.

Definition same_label (old : option nat) (clusterIdx : nat) : bool :=
  match old with
  | Some l => Nat.eqb l clusterIdx
  | None => false
  end.

(** The assignment pass, [pixels.forEach((pixel, i) => ...)], from pixel [i]. *)
Fixpoint assign (pixels : list (list num)) (i : nat) (centroids : list centroid)
    (st : pass) : outcome pass :=
  match pixels with
  | [] => Ok st
  | pixel :: pixels' =>
      clusterIdx <- nearest pixel centroids 0 infinity 0 ;;
      let changed := changed_of st || negb (same_label (nth_error (labels_of st) i) clusterIdx) in
      let labels := list_set i clusterIdx (labels_of st) in
      match nth_error (clusters_of st) clusterIdx with
      | None => Throw TypeError
      | Some cl =>
          let cl' := mkCluster (mapi_from (fun v idx => v + elem pixel idx)%js 0 (sum cl))
                               (S (count cl)) in
          assign pixels' (S i) centroids
                 (mkPass labels (list_set clusterIdx cl' (clusters_of st)) changed)
      end
  end.

(** The update, [clusters.map(cluster => ...)]: the mean of a non-empty
    cluster, and for an empty one a draw among the centroids of the pass
    that just ended. *)
Fixpoint update (clusters : list cluster) (centroids : list centroid) (c : nat)
    : list centroid * nat :=
  match clusters with
  | [] => ([], c)
  | cl :: clusters' =>
      if (0 <? count cl)%nat then
        let '(rest, c') := update clusters' centroids c in
        (Some (map (fun v => v / ofZ (Z.of_nat (count cl)))%js (sum cl)) :: rest, c')
      else
        let chosen := match randomElement (random c) centroids with
                      | Some ce => ce
                      | None => None
                      end in
        let '(rest, c') := update clusters' centroids (S c) in
        (chosen :: rest, c')
  end.

Record lloyd_state : Type := mkLloyd {
  labels_at : list nat;
  centroids_at : list centroid;
  passes_at : nat;       (* how many times the loop body ran *)
  draws_at : nat
}.

(** [do { ... } while (changed && iterations++ < 100)] *)
Fixpoint lloyd (fuel : nat) (pixels : list (list num)) (k : Z) (iterations : Z)
    (st : lloyd_state) : outcome lloyd_state :=
  match fuel with
  | O => OutOfFuel
  | S fuel' =>
      clusters <- newClusters k ;;
      p <- assign pixels 0 (centroids_at st) (mkPass (labels_at st) clusters false) ;;
      let '(centroids, c) := update (clusters_of p) (centroids_at st) (draws_at st) in
      let st' := mkLloyd (labels_of p) centroids (S (passes_at st)) c in
      if changed_of p && (iterations <? 100)%Z
      then lloyd fuel' pixels k (iterations + 1) st'
      else Ok st'
  end.

(** Everything before the output loop. *)
Definition cluster_pixels (fuel : nat) (d : buffer) (k : Z) : outcome lloyd_state :=
  if negb (Nat.eqb (length d mod 4) 0) then Throw RangeError   (* new Array(data.length / 4) *)
  else
    let pixels := extractPixels d in
    let labels := repeat 0%nat (length d / 4) in
    seeded <- seed fuel pixels k [randomElement (random 0) pixels] 1 ;;
    lloyd fuel pixels k 0 (mkLloyd labels (fst seeded) 0 (snd seeded)).

(** The output loop, [pixels.forEach((_, i) => ...)], from pixel [i]. *)
Fixpoint paint (h : heap) (segmented : ImageData) (labels : list nat)
    (centroids : list centroid) (pixels : list (list num)) (i : nat) : heap * outcome unit :=
  match pixels with
  | [] => (h, Ok tt)
  | _ :: pixels' =>
      let idx := (i * 4)%nat in
      match nth_error labels i with
      | None => (h, Throw TypeError)
      | Some cl =>
          match nth_error centroids cl with
          | Some (Some ce) =>
              let h := store h segmented idx (elem ce 0) in
              let h := store h segmented (idx + 1) (elem ce 1) in
              let h := store h segmented (idx + 2) (elem ce 2) in
              let h := store h segmented (idx + 3) (ofZ 255) in
              paint h segmented labels centroids pixels' (S i)
          | _ => (h, Throw TypeError)
          end
      end
  end.

Record result : Type := mkResult {
  imageData : ImageData;
  labels : list nat;
  centroids : list centroid
}.

Definition kMeansSegmentation (fuel : nat) (h : heap) (img : ImageData) (k : Z)
    : heap * outcome result :=
  let d := bytes h img in
  match newImageData h (width img) (height img) with
  | (h, Ok segmented) =>
      match cluster_pixels fuel d k with
      | Ok st =>
          match paint h segmented (labels_at st) (centroids_at st) (extractPixels d) 0 with
          | (h, Ok _) => (h, Ok (mkResult segmented (labels_at st) (centroids_at st)))
          | (h, Throw e) => (h, Throw e)
          | (h, OutOfFuel) => (h, OutOfFuel)
          end
      | Throw e => (h, Throw e)
      | OutOfFuel => (h, OutOfFuel)
      end
  | (h, Throw e) => (h, Throw e)
  | (h, OutOfFuel) => (h, OutOfFuel)
  end.

(** The two placeholders of the file ([// Implementation needed]): each
    allocates a blank image and returns it, the first with [labels: []] and
    [bandwidth: 0], the second with [markers: []].  The fields carry the
    name of their function in front, [imageData] and [labels] being fields
    of [result] already. *)
Record meanShiftResult : Type := mkMeanShiftResult {
  meanShift_imageData : ImageData;
  meanShift_labels : list nat;
  meanShift_bandwidth : num
}.

Record watershedResult : Type := mkWatershedResult {
  watershed_imageData : ImageData;
  watershed_markers : list nat
}.

Definition meanShiftSegmentation (h : heap) (img : ImageData)
    : heap * outcome meanShiftResult :=
  match newImageData h (width img) (height img) with
  | (h, Ok blank) => (h, Ok (mkMeanShiftResult blank [] (ofZ 0)))
  | (h, Throw e) => (h, Throw e)
  | (h, OutOfFuel) => (h, OutOfFuel)
  end.

Definition watershedSegmentation (h : heap) (img : ImageData)
    : heap * outcome watershedResult :=
  match newImageData h (width img) (height img) with
  | (h, Ok blank) => (h, Ok (mkWatershedResult blank []))
  | (h, Throw e) => (h, Throw e)
  | (h, OutOfFuel) => (h, OutOfFuel)
  end.

End WithNumber.

End Part000.

(** ** The random-seeding variant, mean shift and watershed *)

Module Part001.

Section WithNumber.
Context {num : Type} `{Number num}.

Variable random : nat -> num.

Definition hue2rgb (p q t : num) : num :=
  let t := if (t <? ofZ 0)%js then (t + ofZ 1)%js else t in
  let t := if (t >? ofZ 1)%js then (t - ofZ 1)%js else t in
  if (t <? lit 1 6)%js then (p + (q - p) * ofZ 6 * t)%js
  else if (t <? lit 1 2)%js then q
  else if (t <? lit 2 3)%js then (p + (q - p) * (lit 2 3 - t) * ofZ 6)%js
  else p.

Definition hslToRgb (h s l : num) : list num :=
  let '(r, g, b) :=
    if (s === ofZ 0)%js then (l, l, l)
    else
      let q := if (l <? lit 5 10)%js then (l * (ofZ 1 + s))%js else (l + s - l * s)%js in
      let p := (ofZ 2 * l - q)%js in
      (hue2rgb p q (h + lit 1 3)%js, hue2rgb p q h, hue2rgb p q (h - lit 1 3)%js) in
  [nround (r * ofZ 255)%js; nround (g * ofZ 255)%js; nround (b * ofZ 255)%js].

(** [Math.sqrt((r - c[0]) ** 2 + (g - c[1]) ** 2 + (b - c[2]) ** 2)], with
    the pixel [[r, g, b]]. *)
Definition colorDistance (pixel c : list num) : num :=
  nsqrt (sqr (elem pixel 0 - elem c 0) + sqr (elem pixel 1 - elem c 1)
         + sqr (elem pixel 2 - elem c 2))%js.

(** [for (let i = 0; i < k; i++) centroids.push([random * 255, ...])] *)
Fixpoint initCentroids (n : nat) (c : nat) : list (list num) :=
  match n with
  | O => []
  | S n' =>
      [random c * ofZ 255; random (c + 1) * ofZ 255; random (c + 2) * ofZ 255]%js
      :: initCentroids n' (c + 3)
  end.

(** [for (let j = 0; j < k; j++) if (dist < minDist) ...], from centroid [j]. *)
Fixpoint nearest (pixel : list num) (centroids : list (list num)) (j : nat)
    (minDist : num) (cluster : nat) : nat :=
  match centroids with
  | [] => cluster
  | c :: centroids' =>
      let dist := colorDistance pixel c in
      if (dist <? minDist)%js then nearest pixel centroids' (S j) dist j
      else nearest pixel centroids' (S j) minDist cluster
  end.

(** [clusters[cluster].push(pixel)] *)
Definition push_member (clusters : list (list (list num))) (cluster : nat)
    (pixel : list num) : outcome (list (list (list num))) :=
  match nth_error clusters cluster with
  | None => Throw TypeError
  | Some members => Ok (list_set cluster (members ++ [pixel]) clusters)
  end.

(** The assignment loop of one iteration; [labels] was emptied before. *)
Fixpoint assign (pixels : list (list num)) (centroids : list (list num))
    (clusters : list (list (list num))) (labels : list nat)
    : outcome (list (list (list num)) * list nat) :=
  match pixels with
  | [] => Ok (clusters, labels)
  | pixel :: pixels' =>
      let cluster := nearest pixel centroids 0 infinity 0 in
      clusters' <- push_member clusters cluster pixel ;;
      assign pixels' centroids clusters' (labels ++ [cluster])
  end.

Definition channelMean (members : list (list num)) (ch : nat) : num :=
  (fold_left (fun sum pixel => sum + elem pixel ch)%js members (ofZ 0)
   / ofZ (Z.of_nat (length members)))%js.

(** [for (let j = 0; j < k; j++) if (clusters[j].length > 0) centroids[j] = ...] *)
Fixpoint update (clusters : list (list (list num))) (centroids : list (list num))
    : list (list num) :=
  match clusters, centroids with
  | members :: clusters', c :: centroids' =>
      (if (0 <? length members)%nat
       then [channelMean members 0; channelMean members 1; channelMean members 2]
       else c) :: update clusters' centroids'
  | _, _ => centroids
  end.

(** [for (let iter = 0; iter < 15; iter++)], with [n] iterations to go. *)
Fixpoint iterate (n : nat) (pixels : list (list num)) (k : Z)
    (centroids : list (list num)) (labels : list nat)
    : outcome (list (list num) * list nat) :=
  match n with
  | O => Ok (centroids, labels)
  | S n' =>
      if (k <? 0)%Z then Throw RangeError   (* Array(k) *)
      else
        st <- assign pixels centroids (repeat [] (Z.to_nat k)) [] ;;
        iterate n' pixels k (update (fst st) centroids) (snd st)
  end.

(** The palette: cluster [i] of [n] gets the hue [i * 360 / n]. *)
Definition palette (n : nat) (s l : num) : list (list num) :=
  map (fun i => hslToRgb ((ofZ (Z.of_nat i) * ofZ 360 / ofZ (Z.of_nat n)) / ofZ 360)%js s l)
      (seq 0 n).

(** The recolouring loop, [for (let i = 0; i < data.length; i += 4)], from
    pixel [i]. *)
Fixpoint paint (h : heap) (segmented : ImageData) (labels : list nat)
    (colors : list (list num)) (pixels : list (list num)) (i : nat) : heap * outcome unit :=
  match pixels with
  | [] => (h, Ok tt)
  | _ :: pixels' =>
      let idx := (i * 4)%nat in
      match nth_error labels i with
      | None => (h, Throw TypeError)
      | Some cl =>
          match nth_error colors cl with
          | Some color =>
              let h := store h segmented idx (elem color 0) in
              let h := store h segmented (idx + 1) (elem color 1) in
              let h := store h segmented (idx + 2) (elem color 2) in
              let h := store h segmented (idx + 3) (ofZ 255) in
              paint h segmented labels colors pixels' (S i)
          | None => (h, Throw TypeError)
          end
      end
  end.

Record result : Type := mkResult {
  imageData : ImageData;
  labels : list nat;
  centroids : list (list num)
}.

Definition finish (h : heap) (segmented : ImageData) (labels : list nat)
    (colors centroids : list (list num)) (pixels : list (list num)) : heap * outcome result :=
  match paint h segmented labels colors pixels 0 with
  | (h, Ok _) => (h, Ok (mkResult segmented labels centroids))
  | (h, Throw e) => (h, Throw e)
  | (h, OutOfFuel) => (h, OutOfFuel)
  end.

Definition kMeansSegmentation (h : heap) (img : ImageData) (k : Z) : heap * outcome result :=
  let d := bytes h img in
  match newImageData h (width img) (height img) with
  | (h, Ok segmented) =>
      let pixels := extractPixels d in
      match iterate 15 pixels k (initCentroids (Z.to_nat k) 0) [] with
      | Ok (centroids, labels) =>
          finish h segmented labels (palette (Z.to_nat k) (lit 8 10) (lit 7 10))
                 centroids pixels
      | Throw e => (h, Throw e)
      | OutOfFuel => (h, OutOfFuel)
      end
  | (h, Throw e) => (h, Throw e)
  | (h, OutOfFuel) => (h, OutOfFuel)
  end.

(** The search for a mode within the bandwidth, from mode [j]. *)
Fixpoint findMode (pixel : list num) (bandwidth : num) (modes : list (list num)) (j : nat)
    : option nat :=
  match modes with
  | [] => None
  | m :: modes' =>
      if (colorDistance pixel m <? bandwidth * ofZ 40)%js then Some j
      else findMode pixel bandwidth modes' (S j)
  end.

(** The bucketing loop. *)
Fixpoint bucket (pixels : list (list num)) (bandwidth : num) (modes : list (list num))
    (labels : list nat) : list (list num) * list nat :=
  match pixels with
  | [] => (modes, labels)
  | pixel :: pixels' =>
      match findMode pixel bandwidth modes 0 with
      | Some modeIndex => bucket pixels' bandwidth modes (labels ++ [modeIndex])
      | None =>
          let modes := modes ++ [pixel] in
          bucket pixels' bandwidth modes (labels ++ [length modes - 1])
      end
  end.

Definition meanShiftSegmentation (h : heap) (img : ImageData) (bandwidth : num)
    : heap * outcome result :=
  let d := bytes h img in
  match newImageData h (width img) (height img) with
  | (h, Ok segmented) =>
      let pixels := extractPixels d in
      let '(modes, labels) := bucket pixels bandwidth [] [] in
      finish h segmented labels (palette (length modes) (lit 9 10) (lit 6 10)) modes pixels
  | (h, Throw e) => (h, Throw e)
  | (h, OutOfFuel) => (h, OutOfFuel)
  end.

(** [data[i]] used in arithmetic. *)
Definition byteAt (d : buffer) (i : Z) : num :=
  match nth_error d (Z.to_nat i) with
  | Some b => ofZ b
  | None => NaN
  end.

(** The integers [lo, lo + 1, ..., hi - 1]. *)
Definition zrange (lo hi : Z) : list Z :=
  map (fun i => lo + Z.of_nat i)%Z (seq 0 (Z.to_nat (hi - lo))).

Definition gradientAt (d : buffer) (width x y : Z) : num :=
  let gx := (byteAt d ((y * width + x + 1) * 4) - byteAt d ((y * width + x - 1) * 4))%js in
  let gy := (byteAt d (((y + 1) * width + x) * 4) - byteAt d (((y - 1) * width + x) * 4))%js in
  nsqrt (gx * gx + gy * gy)%js.

Definition gradientMap (d : buffer) (width height : Z) : list num :=
  flat_map (fun y => map (fun x => gradientAt d width x y) (zrange 1 (width - 1)))
           (zrange 1 (height - 1)).

(** [for (i...) if (gradients[i] < threshold) seeds.push(i)], from index [i]. *)
Fixpoint findSeeds (gradients : list num) (threshold : num) (i : nat) : list nat :=
  match gradients with
  | [] => []
  | g :: gradients' =>
      if (g <? threshold)%js then i :: findSeeds gradients' threshold (S i)
      else findSeeds gradients' threshold (S i)
  end.

(** The last loop: the label is the pixel index modulo the number of
    regions, an undefined region when there is none. *)
Fixpoint regions (h : heap) (segmented : ImageData) (numRegions : nat)
    (regionCentroids : list (list num)) (pixels : list (list num)) (i : nat)
    (labels : list nat) : heap * outcome (list nat) :=
  match pixels with
  | [] => (h, Ok labels)
  | _ :: pixels' =>
      if Nat.eqb numRegions 0 then (h, Throw TypeError)
      else
        let regionIdx := (i mod numRegions)%nat in
        match nth_error regionCentroids regionIdx with
        | None => (h, Throw TypeError)
        | Some color =>
            let idx := (i * 4)%nat in
            let h := store h segmented idx (elem color 0) in
            let h := store h segmented (idx + 1) (elem color 1) in
            let h := store h segmented (idx + 2) (elem color 2) in
            let h := store h segmented (idx + 3) (ofZ 255) in
            regions h segmented numRegions regionCentroids pixels' (S i) (labels ++ [regionIdx])
        end
  end.

Definition watershedSegmentation (h : heap) (img : ImageData) (sigma : num)
    : heap * outcome result :=
  let d := bytes h img in
  match newImageData h (width img) (height img) with
  | (h, Ok segmented) =>
      let gradients := gradientMap d (width img) (height img) in
      let seeds := findSeeds gradients (sigma * ofZ 15)%js 0 in
      let numRegions := Nat.min (length seeds) 12 in
      let regionCentroids := palette numRegions (lit 85 100) (lit 65 100) in
      match regions h segmented numRegions regionCentroids (extractPixels d) 0 [] with
      | (h, Ok labels) => (h, Ok (mkResult segmented labels regionCentroids))
      | (h, Throw e) => (h, Throw e)
      | (h, OutOfFuel) => (h, OutOfFuel)
      end
  | (h, Throw e) => (h, Throw e)
  | (h, OutOfFuel) => (h, OutOfFuel)
  end.

End WithNumber.

End Part001.

(** ** Cluster-validity metrics *)

Module Metrics.

Section WithNumber.
Context {num : Type} `{Number num}.

(** On two arrays that exist; a call site that may pass [undefined] checks
    for it, since reading [p2[idx]] of [undefined] raises a [TypeError]. *)
Definition euclideanDistance (p1 p2 : list num) : num :=
  nsqrt (sumSquares p1 p2 0 (ofZ 0)).

(** [labels[idx] === label], where either side may be [undefined]. *)
Definition same_label (a b : option nat) : bool :=
  match a, b with
  | Some x, Some y => Nat.eqb x y
  | None, None => true
  | _, _ => false
  end.

(** [pixels.filter((_, idx) => labels[idx] === label)], from index [idx]. *)
Fixpoint members (pixels : list (list num)) (labels : list nat) (idx : nat)
    (label : option nat) : list (list num) :=
  match pixels with
  | [] => []
  | p :: pixels' =>
      if same_label (nth_error labels idx) label
      then p :: members pixels' labels (S idx) label
      else members pixels' labels (S idx) label
  end.

(** [[...new Set(labels)]]: the distinct labels, in order of first
    appearance; [seen] holds the earlier ones, latest first. *)
Fixpoint distinct (labels : list nat) (seen : list nat) : list nat :=
  match labels with
  | [] => []
  | l :: labels' =>
      if existsb (Nat.eqb l) seen then distinct labels' seen
      else l :: distinct labels' (l :: seen)
  end.

(** [for (const pixel of cluster) total += euclideanDistance(p, pixel)] *)
Definition totalDistance (p : list num) (cluster : list (list num)) : num :=
  fold_left (fun total pixel => total + euclideanDistance p pixel)%js cluster (ofZ 0).

(** The loop over [uniqueLabels] that computes [b]. *)
Fixpoint nearestCluster (pixels : list (list num)) (labels : list nat) (p : list num)
    (currentLabel : option nat) (uniqueLabels : list nat) (minInterDistance : num) : num :=
  match uniqueLabels with
  | [] => minInterDistance
  | label :: rest =>
      if same_label (Some label) currentLabel
      then nearestCluster pixels labels p currentLabel rest minInterDistance
      else
        let otherClusterPixels := members pixels labels 0 (Some label) in
        let interDistance := totalDistance p otherClusterPixels in
        let avgInterDistance :=
          if (0 <? length otherClusterPixels)%nat
          then (interDistance / ofZ (Z.of_nat (length otherClusterPixels)))%js
          else ofZ 0 in
        nearestCluster pixels labels p currentLabel rest (nmin minInterDistance avgInterDistance)
  end.

(** The silhouette coefficient of pixel [i]. *)
Definition pixelScore (pixels : list (list num)) (labels : list nat) (uniqueLabels : list nat)
    (p : list num) (i : nat) : num :=
  let currentLabel := nth_error labels i in
  let sameClusterPixels := members pixels labels 0 currentLabel in
  let intraDistance := totalDistance p sameClusterPixels in
  let a := if (1 <? length sameClusterPixels)%nat
           then (intraDistance / ofZ (Z.of_nat (length sameClusterPixels) - 1))%js
           else ofZ 0 in
  let b := nearestCluster pixels labels p currentLabel uniqueLabels infinity in
  if (a === ofZ 0)%js then ofZ 0 else ((b - a) / nmax a b)%js.

(** The main loop, from pixel [i] (the pixels still to visit are [todo]). *)
Fixpoint scoreLoop (pixels : list (list num)) (labels : list nat) (uniqueLabels : list nat)
    (todo : list (list num)) (i : nat) (totalScore : num) : num :=
  match todo with
  | [] => totalScore
  | p :: todo' =>
      scoreLoop pixels labels uniqueLabels todo' (S i)
                (totalScore + pixelScore pixels labels uniqueLabels p i)%js
  end.

Definition calculateSilhouetteScore (h : heap) (img : ImageData) (labels : list nat) : num :=
  let pixels := extractPixels (bytes h img) in
  let uniqueLabels := distinct labels [] in
  (scoreLoop pixels labels uniqueLabels pixels 0 (ofZ 0)
   / ofZ (Z.of_nat (length pixels)))%js.

Definition calculateScatter (cluster : option (list (list num))) (centroid : list num)
    : outcome num :=
  match cluster with
  | None => Throw TypeError           (* cluster.length of undefined *)
  | Some cluster =>
      if Nat.eqb (length cluster) 0 then Ok (ofZ 0)
      else
        Ok (fold_left (fun scatter point => scatter + euclideanDistance point centroid)%js
                      cluster (ofZ 0)
            / ofZ (Z.of_nat (length cluster)))%js
  end.

(** The inner loop over [j], from index [j] (the centroids still to visit
    are [todo]). *)
Fixpoint maxRatioLoop (centroids : list (list num)) (clusters : list (list (list num)))
    (i : nat) (ci : list num) (todo : list (list num)) (j : nat) (maxRatio : num)
    : outcome num :=
  match todo with
  | [] => Ok maxRatio
  | cj :: todo' =>
      if Nat.eqb i j then maxRatioLoop centroids clusters i ci todo' (S j) maxRatio
      else
        scatterI <- calculateScatter (nth_error clusters i) ci ;;
        scatterJ <- calculateScatter (nth_error clusters j) cj ;;
        let distance := euclideanDistance ci cj in
        let ratio := ((scatterI + scatterJ) / distance)%js in
        maxRatioLoop centroids clusters i ci todo' (S j) (nmax maxRatio ratio)
  end.

(** The outer loop over [i]. *)
Fixpoint dbLoop (centroids : list (list num)) (clusters : list (list (list num)))
    (todo : list (list num)) (i : nat) (dbIndex : num) : outcome num :=
  match todo with
  | [] => Ok dbIndex
  | ci :: todo' =>
      maxRatio <- maxRatioLoop centroids clusters i ci centroids 0 (ofZ 0) ;;
      dbLoop centroids clusters todo' (S i) (dbIndex + maxRatio)%js
  end.

Definition calculateDaviesBouldinIndex (centroids : list (list num))
    (clusters : list (list (list num))) : outcome num :=
  let k := length centroids in
  dbIndex <- dbLoop centroids clusters centroids 0 (ofZ 0) ;;
  Ok (dbIndex / ofZ (Z.of_nat k))%js.

(** [overallCentroid], accumulated channel by channel and then divided. *)
Definition overallCentroid (pixels : list (list num)) : list num :=
  let total :=
    fold_left (fun acc pixel =>
                 [elem acc 0 + elem pixel 0; elem acc 1 + elem pixel 1;
                  elem acc 2 + elem pixel 2]%js)
              pixels [ofZ 0; ofZ 0; ofZ 0] in
  let n := ofZ (Z.of_nat (length pixels)) in
  [elem total 0 / n; elem total 1 / n; elem total 2 / n]%js.

(** [labels.filter(label => label === i).length] *)
Definition clusterSize (labels : list nat) (i : nat) : nat :=
  length (filter (Nat.eqb i) labels).

Fixpoint betweenLoop (labels : list nat) (overall : list num) (todo : list (list num))
    (i : nat) (betweenSS : num) : num :=
  match todo with
  | [] => betweenSS
  | ci :: todo' =>
      let distance := euclideanDistance ci overall in
      betweenLoop labels overall todo' (S i)
                  (betweenSS + ofZ (Z.of_nat (clusterSize labels i)) * distance * distance)%js
  end.

Fixpoint withinLoop (centroids : list (list num)) (labels : list nat)
    (todo : list (list num)) (i : nat) (withinSS : num) : outcome num :=
  match todo with
  | [] => Ok withinSS
  | p :: todo' =>
      match nth_error labels i with
      | None => Throw TypeError
      | Some l =>
          match nth_error centroids l with
          | None => Throw TypeError
          | Some c =>
              let distance := euclideanDistance p c in
              withinLoop centroids labels todo' (S i) (withinSS + distance * distance)%js
          end
      end
  end.

Definition calculateCalinskiHarabaszIndex (h : heap) (img : ImageData)
    (centroids : list (list num)) (labels : list nat) : outcome num :=
  let pixels := extractPixels (bytes h img) in
  let k := Z.of_nat (length centroids) in
  let n := Z.of_nat (length pixels) in
  let betweenSS := betweenLoop labels (overallCentroid pixels) centroids 0 (ofZ 0) in
  withinSS <- withinLoop centroids labels pixels 0 (ofZ 0) ;;
  Ok ((betweenSS / ofZ (k - 1)) / (withinSS / ofZ (n - k)))%js.

End WithNumber.

End Metrics.

(** ** The tool that runs the algorithms

    [SegmentationTool.tsx]: the part of the component that computes.  A
    canvas is only a carrier: [putImageData] followed by [toDataURL]
    encodes an [ImageData], so an image that the source turns into a data
    URL is kept as that [ImageData]; the colour string of a cluster,
    [hsl(hue, 70%, 60%)], is kept as its hue.  Logging, toasts and the state
    setters have no part in the results. *)

Module Tool.

Import String.StringSyntax.
Local Open Scope string_scope.

Section WithNumber.
Context {num : Type} `{Number num}.

Variable random : nat -> num.

Record Parameters : Type := mkParameters {
  clusters : Z;
  sigma : num;
  epsilon : num;
  minSamples : Z
}.

(** One element of the array [generateClusterImages] returns. *)
Record clusterInfo : Type := mkClusterInfo {
  id : nat;
  image : ImageData;
  size : nat;
  hue : num;
  centroid : list num
}.

(** [for (let i = 0; i < imageData.data.length; i += 4)] for one label,
    over the pixel indices [todo]: a pixel of the cluster is copied and made
    opaque, any other becomes black with alpha 50. *)
Fixpoint fillCluster (h : heap) (img out : ImageData) (labels : list nat) (label : nat)
    (todo : list nat) (pixelCount : nat) : heap * nat :=
  match todo with
  | [] => (h, pixelCount)
  | pixelIndex :: todo' =>
      let i := (4 * pixelIndex)%nat in
      if Metrics.same_label (nth_error labels pixelIndex) (Some label) then
        let h := store h out i (Part001.byteAt (bytes h img) (Z.of_nat i)) in
        let h := store h out (i + 1) (Part001.byteAt (bytes h img) (Z.of_nat (i + 1))) in
        let h := store h out (i + 2) (Part001.byteAt (bytes h img) (Z.of_nat (i + 2))) in
        let h := store h out (i + 3) (ofZ 255) in
        fillCluster h img out labels label todo' (S pixelCount)
      else
        let h := store h out i (ofZ 0) in
        let h := store h out (i + 1) (ofZ 0) in
        let h := store h out (i + 2) (ofZ 0) in
        let h := store h out (i + 3) (ofZ 50) in
        fillCluster h img out labels label todo' pixelCount
  end.

(** [for (const label of uniqueLabels)], over the labels [todo]; [count] is
    [uniqueLabels.length]. *)
Fixpoint clusterImages (h : heap) (img : ImageData) (labels : list nat)
    (centroids : list (list num)) (count : nat) (todo : list nat)
    : heap * outcome (list clusterInfo) :=
  match todo with
  | [] => (h, Ok [])
  | label :: todo' =>
      match newImageData h (width img) (height img) with
      | (h, Ok out) =>
          let filled := fillCluster h img out labels label
                          (seq 0 ((length (bytes h img) + 3) / 4)) 0 in
          let info :=
            mkClusterInfo label out (snd filled)
              (ofZ (Z.of_nat label) * ofZ 360 / ofZ (Z.of_nat count))%js
              (match nth_error centroids label with
               | Some c => c
               | None => [ofZ 0; ofZ 0; ofZ 0]    (* centroids[label] || [0, 0, 0] *)
               end) in
          match clusterImages (fst filled) img labels centroids count todo' with
          | (h, Ok rest) => (h, Ok (info :: rest))
          | (h, Throw e) => (h, Throw e)
          | (h, OutOfFuel) => (h, OutOfFuel)
          end
      | (h, Throw e) => (h, Throw e)
      | (h, OutOfFuel) => (h, OutOfFuel)
      end
  end.

Definition generateClusterImages (h : heap) (img : ImageData) (labels : list nat)
    (centroids : list (list num)) : heap * outcome (list clusterInfo) :=
  let uniqueLabels := Metrics.distinct labels [] in
  clusterImages h img labels centroids (length uniqueLabels) uniqueLabels.

(** The [switch (selectedAlgorithm)] of [handleSegmentation], over the
    functions of the second algorithm file (the one whose signatures the
    calls fit). *)
Definition segment (selectedAlgorithm : String.string) (parameters : Parameters)
    (h : heap) (img : ImageData) : heap * outcome Part001.result :=
  if String.eqb selectedAlgorithm "kmeans" then
    Part001.kMeansSegmentation random h img (clusters parameters)
  else if String.eqb selectedAlgorithm "meanshift" then
    Part001.meanShiftSegmentation h img (sigma parameters)
  else if String.eqb selectedAlgorithm "watershed" then
    Part001.watershedSegmentation h img (sigma parameters)
  else Part001.kMeansSegmentation random h img (clusters parameters).

(** How many results of [Math.random()] the segmentation has used: three
    for each centroid of the k-means, none in the other two. *)
Definition drawsUsed (selectedAlgorithm : String.string) (parameters : Parameters) : nat :=
  if String.eqb selectedAlgorithm "meanshift" || String.eqb selectedAlgorithm "watershed"
  then 0
  else 3 * Z.to_nat (clusters parameters).

(** The [metrics] object of the result. *)
Record MetricsRecord : Type := mkMetrics {
  numSegments : nat;
  averageSize : num;
  homogeneity : num;
  silhouetteScore : num;
  daviesBouldinIndex : num;
  calinskiHarabaszIndex : num
}.

(** [comprehensiveResult]; [clusterData] lists the id, size and hue of
    every cluster. *)
Record Result : Type := mkResult {
  segmentedImage : ImageData;
  clusterTendency : num;
  metrics : MetricsRecord;
  clusterList : list clusterInfo;
  clusterData : list (nat * nat * num)
}.

(** What [handleSegmentation] computes once the image is loaded, from the
    [switch] to the object handed to [setResult]. *)
Definition analyse (selectedAlgorithm : String.string) (parameters : Parameters)
    (h : heap) (img : ImageData) : heap * outcome Result :=
  match segment selectedAlgorithm parameters h img with
  | (h, Ok r) =>
      let silhouetteScore := Metrics.calculateSilhouetteScore h img (Part001.labels r) in
      match Metrics.calculateDaviesBouldinIndex (Part001.centroids r) [] with
      | Ok dbIndex =>
          match Metrics.calculateCalinskiHarabaszIndex h img (Part001.centroids r)
                  (Part001.labels r) with
          | Ok chIndex =>
              match generateClusterImages h img (Part001.labels r) (Part001.centroids r) with
              | (h, Ok cls) =>
                  let c := drawsUsed selectedAlgorithm parameters in
                  (h, Ok {|
                     segmentedImage := Part001.imageData r;
                     clusterTendency := (random c * lit 8 10 + lit 2 10)%js;
                     metrics := {|
                       numSegments := length cls;
                       averageSize :=
                         nfloor (ofZ (width img * height img)
                                 / ofZ (Z.of_nat (length cls)))%js;
                       homogeneity := (random (S c) * lit 4 10 + lit 6 10)%js;
                       silhouetteScore := silhouetteScore;
                       daviesBouldinIndex := dbIndex;
                       calinskiHarabaszIndex := chIndex
                     |};
                     clusterList := cls;
                     clusterData := map (fun cl => (id cl, size cl, hue cl)) cls
                   |})
              | (h, Throw e) => (h, Throw e)
              | (h, OutOfFuel) => (h, OutOfFuel)
              end
          | Throw e => (h, Throw e)
          | OutOfFuel => (h, OutOfFuel)
          end
      | Throw e => (h, Throw e)
      | OutOfFuel => (h, OutOfFuel)
      end
  | (h, Throw e) => (h, Throw e)
  | (h, OutOfFuel) => (h, OutOfFuel)
  end.

End WithNumber.

End Tool.

(** ** The seeding rule in the specification's words *)

Module Spec.

Section WithNumber.
Context {num : Type} `{Number num}.

(** The squared Euclidean distance of two colours. *)
Definition squaredDistance (p c : list num) : num := sumSquares p c 0 (ofZ 0).

(** The weight of a pixel: its squared distance to the nearest centroid
    chosen so far. *)
Definition seedWeight (centroids : list (list num)) (p : list num) : num :=
  fold_left nmin (map (squaredDistance p) centroids) infinity.

(** Cumulative-sum threshold sampling with these weights, against the draw
    [u] scaled by their total. *)
Definition seedSample (pixels centroids : list (list num)) (u : num) : option (list num) :=
  let weights := map (seedWeight centroids) pixels in
  Part000.sample pixels weights (ofZ 0) (u * fold_left nadd weights (ofZ 0))%js.

End WithNumber.

End Spec.

(** ** The centroid update in the specification's words *)

Module UpdateSpec.

Section WithNumber.
Context {num : Type} `{Number num}.

(** The pixels that carry the label [j]. *)
Fixpoint members_of (pixels : list (list num)) (labels : list nat) (j : nat)
    : list (list num) :=
  match pixels, labels with
  | p :: pixels', l :: labels' =>
      if Nat.eqb l j then p :: members_of pixels' labels' j
      else members_of pixels' labels' j
  | _, _ => []
  end.

(** Channel by channel, one pixel added to a running sum. *)
Definition addPixel (s : list num) (p : list num) : list num :=
  mapi_from (fun v idx => v + elem p idx)%js 0 s.

(** The component-wise sum and mean of some pixels. *)
Definition componentSum (ps : list (list num)) : list num :=
  fold_left addPixel ps [ofZ 0; ofZ 0; ofZ 0].

Definition componentMean (ps : list (list num)) : list num :=
  map (fun v => v / ofZ (Z.of_nat (length ps)))%js (componentSum ps).

(** A draw [u] among the centroids [cs] of the pass that just ended. *)
Definition reseed (u : num) (cs : list (option (list num))) : option (list num) :=
  match Part000.randomElement u cs with
  | Some ce => ce
  | None => None
  end.

(** How many of the clusters are empty. *)
Definition empties (clusters : list (Part000.cluster (num := num))) : nat :=
  length (filter (fun cl => Nat.eqb (Part000.count cl) 0) clusters).

(** How many of the labels below [j] are carried by no pixel. *)
Definition emptyBefore (pixels : list (list num)) (labels : list nat) (j : nat) : nat :=
  length (filter (fun j' => Nat.eqb (length (members_of pixels labels j')) 0) (seq 0 j)).

End WithNumber.

End UpdateSpec.

(** ** Colours made of bytes *)

(** A colour whose three channels are integers of [0, 255]. *)
Definition byte_color (c : list RealNumber.xreal) : Prop :=
  exists r g b : Z,
    c = [RealNumber.Finite (IZR r); RealNumber.Finite (IZR g); RealNumber.Finite (IZR b)]
    /\ (0 <= r <= 255)%Z /\ (0 <= g <= 255)%Z /\ (0 <= b <= 255)%Z.

(** ** Finite numbers *)

Definition is_finite (x : RealNumber.xreal) : Prop :=
  exists r : R, x = RealNumber.Finite r.

(** ** Errors of the runtime *)

(** The errors the embedded code can raise: those of the JavaScript
    runtime, none of the kinds the specification names. *)
Definition runtime_error (e : error) : Prop :=
  e = TypeError \/ e = RangeError \/ e = IndexSizeError.

(** ** The silhouette score in the specification's words *)

Module SilhouetteSpec.
Import RealNumber.
Local Open Scope R_scope.

(** A channel of a colour, as a real number. *)
Definition chan (p : list xreal) (c : nat) : R :=
  match nth_error p c with
  | Some (Finite r) => r
  | _ => 0
  end.

(** The Euclidean distance of two colours. *)
Definition distance (p q : list xreal) : R :=
  sqrt ((chan p 0 - chan q 0) ^ 2 + (chan p 1 - chan q 1) ^ 2 + (chan p 2 - chan q 2) ^ 2).

Definition Rsum (l : list R) : R := fold_right Rplus 0 l.

(** The mean distance from [p] to the pixels of a group. *)
Definition meanDistance (p : list xreal) (group : list (list xreal)) : R :=
  Rsum (map (distance p) group) / INR (length group).

(** A list without its element of index [i]. *)
Definition without {A} (i : nat) (l : list A) : list A := firstn i l ++ skipn (S i) l.

(** The pixels of the cluster [l], and the other pixels of the cluster of
    pixel [i]. *)
Definition cluster (pixels : list (list xreal)) (labels : list nat) (l : nat)
    : list (list xreal) :=
  UpdateSpec.members_of pixels labels l.

Definition companions (pixels : list (list xreal)) (labels : list nat) (i : nat)
    : list (list xreal) :=
  UpdateSpec.members_of (without i pixels) (without i labels) (nth i labels 0%nat).

(** [a]: the mean distance to the other pixels of the own cluster, 0 when
    there is none. *)
Definition a_of (pixels : list (list xreal)) (labels : list nat) (i : nat)
    (p : list xreal) : R :=
  match companions pixels labels i with
  | [] => 0
  | others => meanDistance p others
  end.

(** [b]: the minimum over the other clusters of the mean distance to their
    pixels; over no cluster at all it is [Infinity]. *)
Definition b_of (pixels : list (list xreal)) (labels : list nat) (i : nat)
    (p : list xreal) (b : xreal) : Prop :=
  let own := nth i labels 0%nat in
  ((forall l, In l labels -> l = own) /\ b = PInf)
  \/ (exists l, In l labels /\ l <> own
                /\ b = Finite (meanDistance p (cluster pixels labels l))
                /\ forall l', In l' labels -> l' <> own ->
                              meanDistance p (cluster pixels labels l)
                              <= meanDistance p (cluster pixels labels l')).

(** [s]: 0 when [a] is 0, else [(b - a) / max(a, b)], which has no value
    when there is no other cluster. *)
Definition score (a : R) (b : xreal) : xreal :=
  if Req_dec_T a 0 then Finite 0
  else match b with
       | Finite b' => Finite ((b' - a) / Rmax a b')
       | _ => XNaN
       end.

(** The mean of the per-pixel scores. *)
Definition meanScore (scores : list xreal) : xreal :=
  x_div (fold_left x_add scores (Finite 0)) (Finite (INR (length scores))).

End SilhouetteSpec.

(** ** The seeding rule as the code has it *)

Module SeedSpec.
Import RealNumber.
Local Open Scope R_scope.

(** The weight of a pixel: its distance, not squared, to the nearest of
    the centroids chosen so far. *)
Definition weight (centroids : list (list xreal)) (p : list xreal) : R :=
  match centroids with
  | [] => 0
  | c0 :: rest =>
      fold_left Rmin (map (SilhouetteSpec.distance p) rest) (SilhouetteSpec.distance p c0)
  end.

(** The sum of the weights of the pixels [0 .. i]. *)
Definition upTo (weights : list R) (i : nat) : R :=
  SilhouetteSpec.Rsum (firstn (S i) weights).

(** The draw [u] selects pixel [i]: the first pixel at which the running
    sum of the weights reaches [u] times their total. *)
Definition selects (weights : list R) (u : R) (i : nat) : Prop :=
  u * SilhouetteSpec.Rsum weights <= upTo weights i
  /\ forall i', (i' < i)%nat -> upTo weights i' < u * SilhouetteSpec.Rsum weights.

End SeedSpec.

(** ** Sample inputs *)

Module Samples.

Definition float := FloatNumber.float.

(** A 256 x 1 grey ramp: pixel [i] has the colour [(i, i, i)]. *)
Definition gray_ramp : buffer :=
  flat_map (fun i => [Z.of_nat i; Z.of_nat i; Z.of_nat i; 255%Z]) (seq 0 256).

(** A random source that returns [2^-20] at every call. *)
Definition small_draws : nat -> float := fun _ => lit 1 1048576.

(** Three pixels, [(0,0,0)], [(1,0,0)] and [(0,10,0)], and a random source
    that returns [0.05] at every call. *)
Definition three_pixels : buffer := [0; 0; 0; 255; 1; 0; 0; 255; 0; 10; 0; 255]%Z.
Definition draws_005 : nat -> float := fun _ => lit 5 100.

End Samples.

(** ** What a call leaves in the heap *)

(** Every buffer that existed before the call still holds the same bytes. *)
Definition untouched (h h' : heap) : Prop :=
  forall a, (a < length h)%nat -> nth a h' [] = nth a h [].



Module SampleImage.

(** A heap holding one buffer, the 2 x 2 image with pixels [(10,10,10)],
    [(10,10,10)], [(240,240,240)], [(240,240,240)], and the (fully opaque)
    [ImageData] that owns it. *)
Definition heap0 : heap :=
  [[10; 10; 10; 255; 10; 10; 10; 255; 240; 240; 240; 255; 240; 240; 240; 255]%Z].
Definition image0 : ImageData := {| width := 2; height := 2; data := 0 |}.

(** A random source that returns [0.5] at every call. *)
Definition draws_half : nat -> FloatNumber.float := fun _ => lit 5 10.

End SampleImage.

(** ** The colour an output pixel shows *)

(** The four bytes of pixel [q] of a buffer. *)
Definition pixelBytes (b : buffer) (q : nat) : list Z :=
  [nth (4 * q) b 0%Z; nth (4 * q + 1) b 0%Z; nth (4 * q + 2) b 0%Z; nth (4 * q + 3) b 0%Z].

(** What storing the three channels of [c] and the alpha 255 leaves. *)
Definition shown {num} `{Number num} (c : list num) : list Z :=
  [toUint8Clamp (elem c 0); toUint8Clamp (elem c 1); toUint8Clamp (elem c 2);
   toUint8Clamp (ofZ 255)].

(** ** A second sample image *)

Module SampleFlat.

(** A heap holding one buffer, a 4 x 3 image whose twelve pixels all have
    the colour [(100, 100, 100)]; it has two interior pixels. *)
Definition heap0 : heap := [flat_map (fun _ => [100; 100; 100; 255]%Z) (seq 0 12)].
Definition image0 : ImageData := {| width := 4; height := 3; data := 0 |}.

End SampleFlat.

(** ** The bandwidth test of the mean shift *)

(** Pixel [p] lies within the bandwidth of the mode [c]: the test
    [dist < bandwidth * 40] of the source succeeds. *)
Definition within_bandwidth {num} `{Number num} (bandwidth : num) (p c : list num) : Prop :=
  (Part001.colorDistance p c <? bandwidth * ofZ 40)%js = true.

(** ** The pixels of a cluster image *)

(** The test of the inner loop, [labels[pixelIndex] === label]. *)
Definition carries (labels : list nat) (label q : nat) : bool :=
  Metrics.same_label (nth_error labels q) (Some label).

(** What the inner loop leaves at a pixel: the pixel of the input made
    opaque, or black with alpha 50. *)
Definition clusterPixel (d : buffer) (labels : list nat) (label q : nat) : list Z :=
  if carries labels label q
  then [nth (4 * q) d 0%Z; nth (4 * q + 1) d 0%Z; nth (4 * q + 2) d 0%Z; 255%Z]
  else [0%Z; 0%Z; 0%Z; 50%Z].

(** * Properties *)

(** ** The iteration loop of the k-means++ variant *)

Section LloydLoop.
Context {num : Type} `{Number num}.
Variable random : nat -> num.

(** The loop body runs at least once and at most 101 times: the test
    [iterations++ < 100] still holds when [iterations] is 99, after the
    100th pass, and lets a 101st pass run. *)
Lemma lloyd_passes_bound :
  forall fuel pixels k iterations st st',
    (0 <= iterations)%Z ->
    Part000.lloyd random fuel pixels k iterations st = Ok st' ->
    (Part000.passes_at st < Part000.passes_at st')%nat
    /\ (Z.of_nat (Part000.passes_at st')
        <= Z.of_nat (Part000.passes_at st) + Z.max 1 (101 - iterations))%Z.
Proof.
  induction fuel as [|fuel IH]; intros pixels k iterations st st' Hit Hrun.
  - discriminate.
  - simpl in Hrun.
    destruct (Part000.newClusters k) as [cls| |]; try discriminate.
    simpl in Hrun.
    destruct (Part000.assign pixels 0 (Part000.centroids_at st) _) as [p| |];
      try discriminate.
    simpl in Hrun.
    destruct (Part000.update random (Part000.clusters_of p) _ _) as [cs c].
    destruct (Part000.changed_of p && (iterations <? 100)%Z) eqn:Hgo.
    + apply andb_prop in Hgo. destruct Hgo as [_ Hlt].
      apply Z.ltb_lt in Hlt.
      apply IH in Hrun; [|lia]. cbn [Part000.passes_at] in Hrun. lia.
    + inversion Hrun; subst st'. cbn [Part000.passes_at]. lia.
Qed.

Lemma nearest_fuel :
  forall pixel centroids j minDist clusterIdx,
    Part000.nearest pixel centroids j minDist clusterIdx <> OutOfFuel.
Proof.
  intros pixel centroids.
  induction centroids as [|c cs IH]; intros j m ci; simpl; [discriminate|].
  destruct c as [c|]; simpl; [|discriminate].
  destruct (nsqrt _ <? m)%js; apply IH.
Qed.

Lemma assign_fuel :
  forall pixels i centroids st,
    Part000.assign pixels i centroids st <> OutOfFuel.
Proof.
  induction pixels as [|px pixels IH]; intros i centroids st; simpl; [discriminate|].
  destruct (Part000.nearest px centroids 0 infinity 0) as [ci| |] eqn:Hn; simpl.
  - destruct (nth_error (Part000.clusters_of st) ci); [apply IH|discriminate].
  - discriminate.
  - exfalso. exact (nearest_fuel _ _ _ _ _ Hn).
Qed.

(** With fuel for 101 passes the loop never stops for lack of fuel. *)
Lemma lloyd_fuel :
  forall fuel pixels k iterations st,
    (0 <= iterations)%Z ->
    (Z.max 1 (101 - iterations) <= Z.of_nat fuel)%Z ->
    Part000.lloyd random fuel pixels k iterations st <> OutOfFuel.
Proof.
  induction fuel as [|fuel IH]; intros pixels k iterations st Hit Hfuel.
  - lia.
  - simpl.
    destruct (Part000.newClusters k) as [cls| |] eqn:Hcls; simpl; try discriminate.
    + destruct (Part000.assign pixels 0 (Part000.centroids_at st) _) as [p| |] eqn:Hp;
        simpl; try discriminate.
      * destruct (Part000.update random (Part000.clusters_of p) _ _) as [cs c].
        destruct (Part000.changed_of p && (iterations <? 100)%Z) eqn:Hgo;
          [|discriminate].
        apply andb_prop in Hgo. destruct Hgo as [_ Hlt].
        apply Z.ltb_lt in Hlt. apply IH; lia.
      * exfalso. exact (assign_fuel _ _ _ _ Hp).
    + unfold Part000.newClusters in Hcls. destruct (k <? 0)%Z; discriminate.
Qed.

End LloydLoop.

(** C2 (as the code behaves): on the 256 x 1 grey ramp with [k = 12], and
    draws that seed the twelve darkest pixels, every one of the first
    100 passes changes a label and the loop body runs 101 times, one more
    than the announced maximum of 100. *)
Theorem gray_ramp_runs_101_passes :
  match Part000.cluster_pixels Samples.small_draws 101 Samples.gray_ramp 12 with
  | Ok st => Part000.passes_at st
  | _ => 0%nat
  end = 101%nat.
Proof. vm_compute. reflexivity. Qed.

(** C1 (as the code behaves): with the first centroid at [(0,0,0)] and the
    draw [0.05], the code weighs the other two pixels by their distances 1
    and 10 and picks [(1,0,0)] (threshold 0.55); weighing by the squared
    distances 1 and 100, as k-means++ prescribes, picks [(0,10,0)]
    (threshold 5.05). *)
Theorem seed_uses_plain_distance :
  let pixels := extractPixels Samples.three_pixels in
  let first := Part000.randomElement (Samples.draws_005 0) pixels in
  first = Some [ofZ 0; ofZ 0; ofZ 0]
  /\ Part000.seed Samples.draws_005 1 pixels 2 [first] 1
     = Ok ([Some [ofZ 0; ofZ 0; ofZ 0]; Some [ofZ 1; ofZ 0; ofZ 0]], 2%nat)
  /\ Spec.seedSample pixels [[ofZ 0; ofZ 0; ofZ 0]] (Samples.draws_005 1)
     = Some [ofZ 0; ofZ 10; ofZ 0].
Proof. vm_compute. repeat split; reflexivity. Qed.

(** ** Arrays and buffers *)

Section Lists.
Context {A : Type}.

Lemma list_set_length : forall (l : list A) i v, length (list_set i v l) = length l.
Proof.
  induction l as [|x l IH]; intros [|i] v; simpl; auto.
Qed.

Lemma list_set_same :
  forall (l : list A) i v, (i < length l)%nat -> nth_error (list_set i v l) i = Some v.
Proof.
  induction l as [|x l IH]; intros [|i] v Hi; simpl in *; try lia; auto.
  apply IH. lia.
Qed.

Lemma list_set_other :
  forall (l : list A) i j v, i <> j -> nth_error (list_set i v l) j = nth_error l j.
Proof.
  induction l as [|x l IH]; intros [|i] [|j] v Hij; simpl; auto; try congruence.
Qed.

Lemma list_set_nth_other :
  forall (l : list A) i j v d, i <> j -> nth j (list_set i v l) d = nth j l d.
Proof.
  induction l as [|x l IH]; intros [|i] [|j] v d Hij; simpl; auto; try congruence.
Qed.

Lemma list_set_nth_same :
  forall (l : list A) i v d, (i < length l)%nat -> nth i (list_set i v l) d = v.
Proof.
  induction l as [|x l IH]; intros [|i] v d Hi; simpl in *; try lia; auto.
  apply IH. lia.
Qed.

Lemma nth_error_snoc_lt :
  forall (l : list A) x i, (i < length l)%nat -> nth_error (l ++ [x]) i = nth_error l i.
Proof. intros. apply nth_error_app1. assumption. Qed.

Lemma nth_error_snoc_eq :
  forall (l : list A) x, nth_error (l ++ [x]) (length l) = Some x.
Proof.
  intros. rewrite nth_error_app2 by lia. rewrite Nat.sub_diag. reflexivity.
Qed.

Lemma nth_error_snoc_inv :
  forall (l : list A) x i y,
    nth_error (l ++ [x]) i = Some y ->
    ((i < length l)%nat /\ nth_error l i = Some y) \/ (i = length l /\ y = x).
Proof.
  intros l x i y Hy.
  destruct (Nat.lt_ge_cases i (length l)) as [Hlt|Hge].
  - left. split; [assumption|]. rewrite nth_error_app1 in Hy; assumption.
  - right. rewrite nth_error_app2 in Hy by assumption.
    destruct (i - length l)%nat as [|n] eqn:Hd; simpl in Hy.
    + split; [lia|congruence].
    + destruct n; discriminate.
Qed.

End Lists.

(** ** The mode-bucketing loop *)

Section MeanShift.
Context {num : Type} `{Number num}.

Lemma findMode_some :
  forall p bandwidth modes j0 j,
    Part001.findMode p bandwidth modes j0 = Some j ->
    exists c, (j0 <= j)%nat /\ nth_error modes (j - j0) = Some c
              /\ within_bandwidth bandwidth p c.
Proof.
  intros p bandwidth modes.
  induction modes as [|m modes IH]; intros j0 j Hf; simpl in Hf; [discriminate|].
  destruct (Part001.colorDistance p m <? bandwidth * ofZ 40)%js eqn:Hnear.
  - inversion Hf; subst j. exists m. rewrite Nat.sub_diag. simpl. auto.
  - apply IH in Hf. destruct Hf as (c & Hle & Hnth & Hc).
    exists c. split; [lia|]. split; [|assumption].
    replace (j - j0)%nat with (S (j - S j0)) by lia. exact Hnth.
Qed.

(** What holds after the pixels [done] have been bucketed. *)
Record bucket_inv (bandwidth : num) (done modes : list (list num)) (labels : list nat)
  : Prop := {
  inv_length : length labels = length done;
  inv_range : forall i l, nth_error labels i = Some l -> (l < length modes)%nat;
  inv_near : forall i p l,
      nth_error done i = Some p -> nth_error labels i = Some l ->
      exists c, nth_error modes l = Some c /\ (within_bandwidth bandwidth p c \/ c = p);
  inv_founder : forall j c,
      nth_error modes j = Some c ->
      exists i, nth_error done i = Some c /\ nth_error labels i = Some j
                /\ forall i', (i' < i)%nat -> nth_error labels i' <> Some j
}.

Lemma bucket_inv_join :
  forall bandwidth done modes labels p m c,
    bucket_inv bandwidth done modes labels ->
    nth_error modes m = Some c ->
    within_bandwidth bandwidth p c ->
    bucket_inv bandwidth (done ++ [p]) modes (labels ++ [m]).
Proof.
  intros bandwidth done modes labels p m c [Hlen Hrange Hnear Hfound] Hm Hc.
  constructor.
  - rewrite !length_app. simpl. lia.
  - intros i l Hl. apply nth_error_snoc_inv in Hl.
    destruct Hl as [[_ Hl]|[_ ->]]; [eauto|].
    apply nth_error_Some. congruence.
  - intros i q l Hq Hl.
    apply nth_error_snoc_inv in Hq. apply nth_error_snoc_inv in Hl.
    destruct Hq as [[Hi Hq]|[Hi ->]]; destruct Hl as [[Hi' Hl]|[Hi' ->]]; try lia.
    + eauto.
    + exists c. auto.
  - intros j cj Hj. destruct (Hfound j cj Hj) as (i & Hd & Hl & Hfirst).
    assert (Hi : (i < length done)%nat) by (apply nth_error_Some; congruence).
    exists i. split; [|split].
    + rewrite nth_error_snoc_lt; assumption.
    + rewrite nth_error_snoc_lt by lia. assumption.
    + intros i' Hi'. rewrite nth_error_snoc_lt by lia. auto.
Qed.

Lemma bucket_inv_found :
  forall bandwidth done modes labels p,
    bucket_inv bandwidth done modes labels ->
    bucket_inv bandwidth (done ++ [p]) (modes ++ [p])
               (labels ++ [length (modes ++ [p]) - 1])%nat.
Proof.
  intros bandwidth done modes labels p [Hlen Hrange Hnear Hfound].
  rewrite length_app. simpl.
  replace (length modes + 1 - 1)%nat with (length modes) by lia.
  constructor.
  - rewrite !length_app. simpl. lia.
  - intros i l Hl. rewrite length_app. simpl.
    apply nth_error_snoc_inv in Hl.
    destruct Hl as [[_ Hl]|[_ ->]]; [apply Hrange in Hl|]; lia.
  - intros i q l Hq Hl.
    apply nth_error_snoc_inv in Hq. apply nth_error_snoc_inv in Hl.
    destruct Hq as [[Hi Hq]|[Hi ->]]; destruct Hl as [[Hi' Hl]|[Hi' ->]]; try lia.
    + destruct (Hnear i q l Hq Hl) as (c & Hc & Hor).
      exists c. split; [|assumption].
      rewrite nth_error_snoc_lt; [assumption|]. apply nth_error_Some. congruence.
    + exists p. split; [apply nth_error_snoc_eq|auto].
  - intros j cj Hj. apply nth_error_snoc_inv in Hj.
    destruct Hj as [[Hjlt Hj]|[-> ->]].
    + destruct (Hfound j cj Hj) as (i & Hd & Hl & Hfirst).
      assert (Hi : (i < length done)%nat) by (apply nth_error_Some; congruence).
      exists i. split; [|split].
      * rewrite nth_error_snoc_lt; assumption.
      * rewrite nth_error_snoc_lt by lia. assumption.
      * intros i' Hi'. rewrite nth_error_snoc_lt by lia. auto.
    + exists (length done). split; [|split].
      * apply nth_error_snoc_eq.
      * rewrite <- Hlen. apply nth_error_snoc_eq.
      * intros i' Hi' Hl. rewrite nth_error_snoc_lt in Hl by lia.
        apply Hrange in Hl. lia.
Qed.


Lemma bucket_inv_nil : forall bandwidth, bucket_inv bandwidth [] [] [].
Proof.
  intro bandwidth. constructor; try reflexivity.
  - intros [|i] l Hl; discriminate.
  - intros [|i] p l Hp; discriminate.
  - intros [|j] c Hc; discriminate.
Qed.

End MeanShift.

(** ** Stores into an image buffer *)

Section Heap.
Context {num : Type} `{Number num}.

Lemma store_length : forall h seg i (v : num), length (store h seg i v) = length h.
Proof. intros. unfold store. apply list_set_length. Qed.

Lemma store_other :
  forall h seg i (v : num) a, a <> data seg -> nth a (store h seg i v) [] = nth a h [].
Proof.
  intros h seg i v a Ha. unfold store. apply list_set_nth_other. congruence.
Qed.

Lemma store_bytes :
  forall h seg i (v : num),
    (data seg < length h)%nat ->
    bytes (store h seg i v) seg = list_set i (toUint8Clamp v) (bytes h seg).
Proof.
  intros h seg i v Hd. unfold store, bytes at 1. apply list_set_nth_same. assumption.
Qed.

(** What a run of stores into [seg] leaves unchanged: the other buffers,
    the size of the heap and the size of [seg]'s buffer. *)
Record frame (h h' : heap) (seg : ImageData) : Prop := {
  frame_heap : length h' = length h;
  frame_others : forall a, a <> data seg -> nth a h' [] = nth a h [];
  frame_size : length (bytes h' seg) = length (bytes h seg)
}.

Lemma frame_refl : forall h seg, frame h h seg.
Proof. intros. constructor; auto. Qed.

Lemma frame_trans :
  forall h1 h2 h3 seg, frame h1 h2 seg -> frame h2 h3 seg -> frame h1 h3 seg.
Proof.
  intros h1 h2 h3 seg [A1 B1 C1] [A2 B2 C2]. constructor.
  - congruence.
  - intros a Ha. rewrite B2, B1; auto.
  - congruence.
Qed.

Lemma store_frame :
  forall h seg i (v : num), (data seg < length h)%nat -> frame h (store h seg i v) seg.
Proof.
  intros h seg i v Hd. constructor.
  - apply store_length.
  - intros a Ha. apply store_other. assumption.
  - rewrite store_bytes by assumption. apply list_set_length.
Qed.

Lemma store_below :
  forall h seg i (v : num) j,
    (data seg < length h)%nat -> j <> i ->
    nth j (bytes (store h seg i v) seg) 0%Z = nth j (bytes h seg) 0%Z.
Proof.
  intros h seg i v j Hd Hj. rewrite store_bytes by assumption.
  apply list_set_nth_other. congruence.
Qed.

Lemma store_at :
  forall h seg i (v : num),
    (data seg < length h)%nat -> (i < length (bytes h seg))%nat ->
    nth i (bytes (store h seg i v) seg) 0%Z = toUint8Clamp v.
Proof.
  intros h seg i v Hd Hi. rewrite store_bytes by assumption.
  apply list_set_nth_same. assumption.
Qed.

(** The four stores of one pixel, at the bytes [idx .. idx + 3]. *)
Lemma pixel_stores :
  forall h seg idx (v0 v1 v2 v3 : num),
    (data seg < length h)%nat ->
    let h4 := store (store (store (store h seg idx v0) seg (idx + 1) v1)
                           seg (idx + 2) v2) seg (idx + 3) v3 in
    frame h h4 seg
    /\ (forall j, (j < idx)%nat -> nth j (bytes h4 seg) 0%Z = nth j (bytes h seg) 0%Z)
    /\ ((idx + 3 < length (bytes h seg))%nat ->
        nth (idx + 3) (bytes h4 seg) 0%Z = toUint8Clamp v3).
Proof.
  intros h seg idx v0 v1 v2 v3 Hd.
  set (h1 := store h seg idx v0).
  set (h2 := store h1 seg (idx + 1) v1).
  set (h3 := store h2 seg (idx + 2) v2).
  assert (F1 : frame h h1 seg) by (apply store_frame; assumption).
  assert (D1 : (data seg < length h1)%nat) by (rewrite (frame_heap F1); assumption).
  assert (F2 : frame h1 h2 seg) by (apply store_frame; assumption).
  assert (D2 : (data seg < length h2)%nat) by (rewrite (frame_heap F2); assumption).
  assert (F3 : frame h2 h3 seg) by (apply store_frame; assumption).
  assert (D3 : (data seg < length h3)%nat) by (rewrite (frame_heap F3); assumption).
  assert (F4 : frame h3 (store h3 seg (idx + 3) v3) seg) by (apply store_frame; assumption).
  simpl. split; [|split].
  - eapply frame_trans; [|exact F4]. eapply frame_trans; [|exact F3].
    eapply frame_trans; eassumption.
  - intros j Hj. rewrite store_below by (assumption || lia).
    unfold h3. rewrite store_below by (assumption || lia).
    unfold h2. rewrite store_below by (assumption || lia).
    unfold h1. rewrite store_below by (assumption || lia). reflexivity.
  - intros Hin. apply store_at; [assumption|].
    rewrite (frame_size F3), (frame_size F2), (frame_size F1). assumption.
Qed.

(** What a recolouring loop that started at pixel [i] and handled [n]
    pixels has done to the heap. *)
Record painted (h h' : heap) (seg : ImageData) (i n : nat) (ok : bool) : Prop := {
  painted_frame : frame h h' seg;
  painted_below : forall j, (j < 4 * i)%nat ->
                            nth j (bytes h' seg) 0%Z = nth j (bytes h seg) 0%Z;
  painted_alpha : ok = true ->
                  forall q, (i <= q < i + n)%nat ->
                            (4 * q + 3 < length (bytes h seg))%nat ->
                            nth (4 * q + 3) (bytes h' seg) 0%Z = toUint8Clamp (ofZ 255)
}.

Lemma painted_stop : forall h seg i n, painted h h seg i n false.
Proof.
  intros. constructor; auto using frame_refl. discriminate.
Qed.

Lemma painted_done : forall h seg i, painted h h seg i 0 true.
Proof.
  intros. constructor; auto using frame_refl. intros _ q Hq. lia.
Qed.

(** One more pixel in front of a loop that went on from pixel [i + 1]. *)
Lemma painted_step :
  forall h h' seg i n ok (v0 v1 v2 : num),
    (data seg < length h)%nat ->
    painted (store (store (store (store h seg (i * 4) v0) seg (i * 4 + 1) v1)
                          seg (i * 4 + 2) v2) seg (i * 4 + 3) (ofZ 255))
            h' seg (S i) n ok ->
    painted h h' seg i (S n) ok.
Proof.
  intros h h' seg i n ok v0 v1 v2 Hd [F B Al].
  destruct (pixel_stores h seg (i * 4) v0 v1 v2 (ofZ 255) Hd) as (F4 & B4 & A4).
  cbv zeta in F4, B4, A4.
  constructor.
  - eapply frame_trans; eassumption.
  - intros j Hj. rewrite B by lia. apply B4. lia.
  - intros Hok q Hq Hin.
    destruct (Nat.eq_dec q i) as [->|Hne].
    + rewrite B by lia. replace (4 * i + 3)%nat with (i * 4 + 3)%nat by lia.
      apply A4. lia.
    + apply Al; [assumption|lia|]. rewrite (frame_size F4). assumption.
Qed.

Lemma paint001_painted :
  forall seg labels colors pixels i h h' out,
    (data seg < length h)%nat ->
    Part001.paint h seg labels colors pixels i = (h', out) ->
    painted h h' seg i (length pixels) (match out with Ok _ => true | _ => false end).
Proof.
  intros seg labels colors pixels.
  induction pixels as [|p pixels IH]; intros i h h' out Hd Hp; simpl in Hp.
  - inversion Hp; subst. apply painted_done.
  - destruct (nth_error labels i) as [cl|];
      [|inversion Hp; subst; apply painted_stop].
    destruct (nth_error colors cl) as [color|];
      [|inversion Hp; subst; apply painted_stop].
    apply IH in Hp.
    + simpl length. eapply painted_step; eassumption.
    + rewrite !store_length. assumption.
Qed.

Lemma paint000_painted :
  forall seg labels centroids pixels i h h' out,
    (data seg < length h)%nat ->
    Part000.paint h seg labels centroids pixels i = (h', out) ->
    painted h h' seg i (length pixels) (match out with Ok _ => true | _ => false end).
Proof.
  intros seg labels centroids pixels.
  induction pixels as [|p pixels IH]; intros i h h' out Hd Hp; simpl in Hp.
  - inversion Hp; subst. apply painted_done.
  - destruct (nth_error labels i) as [cl|];
      [|inversion Hp; subst; apply painted_stop].
    destruct (nth_error centroids cl) as [[ce|]|];
      try (inversion Hp; subst; apply painted_stop).
    apply IH in Hp.
    + simpl length. eapply painted_step; eassumption.
    + rewrite !store_length. assumption.
Qed.

Lemma regions_painted :
  forall seg numRegions regionCentroids pixels i labels h h' out,
    (data seg < length h)%nat ->
    Part001.regions h seg numRegions regionCentroids pixels i labels = (h', out) ->
    painted h h' seg i (length pixels) (match out with Ok _ => true | _ => false end).
Proof.
  intros seg numRegions regionCentroids pixels.
  induction pixels as [|p pixels IH]; intros i labels h h' out Hd Hp; simpl in Hp.
  - inversion Hp; subst. apply painted_done.
  - destruct (Nat.eqb numRegions 0);
      [inversion Hp; subst; apply painted_stop|].
    destruct (nth_error regionCentroids (i mod numRegions)) as [color|];
      [|inversion Hp; subst; apply painted_stop].
    apply IH in Hp.
    + simpl length. eapply painted_step; eassumption.
    + rewrite !store_length. assumption.
Qed.

End Heap.

(** ** The frame of the segmentation operations *)

Section Frame.
Context {num : Type} `{Number num}.

Lemma extractPixels_length :
  forall n (d : buffer), length d = (4 * n)%nat -> length (extractPixels (num := num) d) = n.
Proof.
  induction n as [|n IH]; intros d Hd.
  - destruct d; [reflexivity|discriminate].
  - destruct d as [|r [|g [|b [|a rest]]]]; simpl in Hd; try lia.
    simpl. f_equal. apply IH. lia.
Qed.

Lemma wf_pixel_count :
  forall h img,
    wf_image h img ->
    length (extractPixels (num := num) (bytes h img)) = Z.to_nat (width img * height img).
Proof.
  intros h img (Hw & Hh & _ & Hlen & _).
  apply extractPixels_length. rewrite Hlen. nia.
Qed.

Lemma newImageData_ok :
  forall h w hg,
    (1 <= w)%Z -> (1 <= hg)%Z ->
    newImageData h w hg
    = (h ++ [repeat 0%Z (Z.to_nat (4 * w * hg))],
       Ok {| width := w; height := hg; data := length h |}).
Proof.
  intros h w hg Hw Hh. unfold newImageData.
  destruct (w <=? 0)%Z eqn:E1; [apply Z.leb_le in E1; lia|].
  destruct (hg <=? 0)%Z eqn:E2; [apply Z.leb_le in E2; lia|].
  reflexivity.
Qed.








End Frame.

(** The four operations on the sample image, as IEEE doubles compute them:
    each k-means returns (the labels separate the dark pixels from the
    light ones), the mean shift returns two modes, and the watershed fails
    on an image that has no interior pixel. *)
Example sample_runs :
  let labels000 :=
    match Part000.kMeansSegmentation SampleImage.draws_half 101
            SampleImage.heap0 SampleImage.image0 2 with
    | (_, Ok r) => Some (Part000.labels r)
    | _ => None
    end in
  let labels001 :=
    match Part001.kMeansSegmentation SampleImage.draws_half
            SampleImage.heap0 SampleImage.image0 2 with
    | (_, Ok r) => Some (Part001.labels r)
    | _ => None
    end in
  let shifted :=
    match Part001.meanShiftSegmentation SampleImage.heap0 SampleImage.image0
            (ofZ 1 : FloatNumber.float) with
    | (h', Ok r) => Some (Part001.labels r, length (Part001.centroids r),
                          bytes h' (Part001.imageData r))
    | _ => None
    end in
  let flooded :=
    snd (Part001.watershedSegmentation SampleImage.heap0 SampleImage.image0
           (ofZ 1 : FloatNumber.float)) in
  labels000 = Some [1; 1; 0; 0]%nat
  /\ labels001 = Some [0; 0; 1; 1]%nat
  /\ shifted = Some ([0; 0; 1; 1]%nat, 2%nat,
                     [245; 61; 61; 255; 245; 61; 61; 255;
                      61; 245; 245; 255; 61; 245; 245; 255]%Z)
  /\ flooded = Throw TypeError.
Proof. vm_compute. repeat split; reflexivity. Qed.

(** ** Mean shift: the result *)

Section MeanShiftResult.
Context {num : Type} `{Number num}.

Lemma palette_length : forall n (s l : num), length (Part001.palette n s l) = n.
Proof. intros. unfold Part001.palette. rewrite length_map, length_seq. reflexivity. Qed.

(** The recolouring loop completes when every pixel has a label and every
    label a colour. *)
Lemma paint001_ok :
  forall seg labels colors pixels i h,
    (forall q, (i <= q < i + length pixels)%nat ->
               exists l c, nth_error labels q = Some l /\ nth_error colors l = Some c) ->
    exists h', Part001.paint (num := num) h seg labels colors pixels i = (h', Ok tt).
Proof.
  intros seg labels colors pixels.
  induction pixels as [|p pixels IH]; intros i h Hall; simpl.
  - eauto.
  - destruct (Hall i) as (l & c & Hl & Hc); [simpl; lia|].
    rewrite Hl, Hc. apply IH. intros q Hq. apply Hall. simpl. lia.
Qed.

Lemma finish_ok :
  forall seg labels colors centroids pixels h,
    length labels = length pixels ->
    (forall i l, nth_error labels i = Some l -> (l < length colors)%nat) ->
    exists h', Part001.finish (num := num) h seg labels colors centroids pixels
               = (h', Ok (Part001.mkResult seg labels centroids)).
Proof.
  intros seg labels colors centroids pixels h Hlen Hrange.
  unfold Part001.finish.
  edestruct paint001_ok with (i := 0%nat) (h := h) (seg := seg) (labels := labels)
    (colors := colors) (pixels := pixels) as (h' & Hp).
  - intros q Hq.
    destruct (nth_error labels q) as [l|] eqn:Hl.
    + destruct (nth_error colors l) as [c|] eqn:Hc; [eauto|].
      apply nth_error_None in Hc. apply Hrange in Hl. lia.
    + apply nth_error_None in Hl. lia.
  - rewrite Hp. eauto.
Qed.

End MeanShiftResult.



(** ** One pass of the k-means++ variant *)

Section Pass.
Context {num : Type} `{Number num}.
Variable random : nat -> num.

Import UpdateSpec.

(** The accumulator [cl] after the pixels [ps] were added to it. *)
Definition accumulate (cl : Part000.cluster) (ps : list (list num)) : Part000.cluster :=
  Part000.mkCluster (fold_left addPixel ps (Part000.sum cl))
                    (Part000.count cl + length ps).

Lemma firstn_list_set :
  forall (l : list nat) i v,
    (i < length l)%nat -> firstn (S i) (list_set i v l) = firstn i l ++ [v].
Proof.
  induction l as [|x l IH]; intros [|i] v Hi; simpl in *; try lia; auto.
  f_equal. apply IH. lia.
Qed.

Lemma skipn_list_set :
  forall (l : list nat) i v n,
    (i < n)%nat -> skipn n (list_set i v l) = skipn n l.
Proof.
  induction l as [|x l IH]; intros [|i] v [|n] Hi; simpl in *; try lia; auto.
  apply IH. lia.
Qed.

Lemma assign_spec :
  forall pixels i centroids st p,
    Part000.assign pixels i centroids st = Ok p ->
    (i + length pixels <= length (Part000.labels_of st))%nat ->
    exists ls,
      mapM (fun px => Part000.nearest px centroids 0 infinity 0) pixels = Ok ls
      /\ Part000.labels_of p
         = firstn i (Part000.labels_of st) ++ ls
           ++ skipn (i + length pixels) (Part000.labels_of st)
      /\ length (Part000.clusters_of p) = length (Part000.clusters_of st)
      /\ forall j cl,
           nth_error (Part000.clusters_of st) j = Some cl ->
           nth_error (Part000.clusters_of p) j
           = Some (accumulate cl (members_of pixels ls j)).
Proof.
  induction pixels as [|px pixels IH]; intros i centroids st p Hrun Hlen; simpl in Hrun.
  - inversion Hrun; subst p. exists []. simpl. rewrite Nat.add_0_r.
    split; [reflexivity|]. split; [symmetry; apply firstn_skipn|].
    split; [reflexivity|].
    intros j cl Hj. rewrite Hj. unfold accumulate. simpl.
    rewrite Nat.add_0_r. destruct cl; reflexivity.
  - simpl in Hlen.
    destruct (Part000.nearest px centroids 0 infinity 0) as [ci| |] eqn:Hn;
      simpl in Hrun; try discriminate.
    destruct (nth_error (Part000.clusters_of st) ci) as [cl0|] eqn:Hci;
      [|discriminate].
    apply IH in Hrun; [|cbn [Part000.labels_of]; rewrite list_set_length; lia].
    destruct Hrun as (ls & Hls & Hlab & Hclen & Hacc).
    cbn [Part000.labels_of Part000.clusters_of] in Hlab, Hclen, Hacc.
    exists (ci :: ls). simpl. rewrite Hn, Hls. simpl.
    split; [reflexivity|]. split; [|split].
    + rewrite Hlab. rewrite firstn_list_set by lia.
      rewrite skipn_list_set by lia.
      rewrite <- app_assoc. simpl.
      replace (i + S (length pixels))%nat with (S i + length pixels)%nat by lia.
      reflexivity.
    + rewrite Hclen. apply list_set_length.
    + intros j cl Hj.
      destruct (Nat.eq_dec ci j) as [->|Hne].
      * rewrite Nat.eqb_refl.
        assert (Hin : (j < length (Part000.clusters_of st))%nat)
          by (apply nth_error_Some; congruence).
        rewrite (Hacc j _ (list_set_same _ _ Hin)).
        f_equal. unfold accumulate. simpl.
        assert (cl = cl0) by congruence. subst cl.
        f_equal. lia.
      * apply Nat.eqb_neq in Hne as Hneb. rewrite Hneb.
        apply Hacc. rewrite list_set_other by assumption. assumption.
Qed.

Lemma assign_clusters_length :
  forall pixels i centroids st p,
    Part000.assign pixels i centroids st = Ok p ->
    length (Part000.clusters_of p) = length (Part000.clusters_of st).
Proof.
  induction pixels as [|px pixels IH]; intros i centroids st p Hrun; simpl in Hrun.
  - inversion Hrun. reflexivity.
  - destruct (Part000.nearest px centroids 0 infinity 0) as [ci| |];
      simpl in Hrun; try discriminate.
    destruct (nth_error (Part000.clusters_of st) ci) as [cl0|]; [|discriminate].
    apply IH in Hrun. simpl in Hrun. rewrite list_set_length in Hrun. assumption.
Qed.

Lemma update_spec :
  forall clusters centroids c new c',
    Part000.update random clusters centroids c = (new, c') ->
    length new = length clusters
    /\ c' = (c + empties clusters)%nat
    /\ forall j cl,
         nth_error clusters j = Some cl ->
         nth_error new j
         = Some (if (0 <? Part000.count cl)%nat
                 then Some (map (fun v => v / ofZ (Z.of_nat (Part000.count cl)))%js
                                (Part000.sum cl))
                 else reseed (random (c + empties (firstn j clusters))%nat) centroids).
Proof.
  induction clusters as [|cl0 clusters IH]; intros centroids c new c' Hu; simpl in Hu.
  - inversion Hu; subst. unfold empties. simpl.
    split; [reflexivity|]. split; [lia|]. intros [|j] cl Hj; discriminate.
  - unfold empties in *. simpl.
    destruct (0 <? Part000.count cl0)%nat eqn:Hpos.
    + destruct (Part000.update random clusters centroids c) as [rest c1] eqn:Hrest.
      inversion Hu; subst new c'. clear Hu.
      destruct (IH _ _ _ _ Hrest) as (Hlen & Hc & Hnth).
      assert (Hz : Nat.eqb (Part000.count cl0) 0 = false).
      { apply Nat.ltb_lt in Hpos. apply Nat.eqb_neq. lia. }
      rewrite Hz. simpl. split; [congruence|]. split; [assumption|].
      intros [|j] cl Hj; simpl in *.
      * inversion Hj; subst cl. rewrite Hpos. reflexivity.
      * rewrite Hz. apply Hnth. assumption.
    + destruct (Part000.update random clusters centroids (S c)) as [rest c1] eqn:Hrest.
      inversion Hu; subst new c'. clear Hu.
      destruct (IH _ _ _ _ Hrest) as (Hlen & Hc & Hnth).
      assert (Hz : Nat.eqb (Part000.count cl0) 0 = true).
      { apply Nat.ltb_ge in Hpos. apply Nat.eqb_eq. lia. }
      rewrite Hz. simpl. split; [congruence|]. split; [lia|].
      intros [|j] cl Hj; simpl in *.
      * inversion Hj; subst cl. rewrite Hpos. unfold reseed.
        rewrite Nat.add_0_r. reflexivity.
      * rewrite Hz. simpl. rewrite (Hnth j cl Hj).
        destruct (0 <? Part000.count cl)%nat; [reflexivity|].
        f_equal. f_equal. f_equal. lia.
Qed.

End Pass.

(** ** Facts of the exact arithmetic *)

Module RealFacts.
Import RealNumber.
Local Open Scope R_scope.

Lemma Rltb_true : forall a b, a < b -> Rltb a b = true.
Proof. intros a b Hab. unfold Rltb. destruct (Rlt_dec a b); [reflexivity|contradiction]. Qed.

Lemma Rltb_false : forall a b, b <= a -> Rltb a b = false.
Proof. intros a b Hab. unfold Rltb. destruct (Rlt_dec a b); [lra|reflexivity]. Qed.

Lemma Rleb_true : forall a b, a <= b -> Rleb a b = true.
Proof. intros a b Hab. unfold Rleb. destruct (Rle_dec a b); [reflexivity|contradiction]. Qed.

Lemma Rleb_false : forall a b, b < a -> Rleb a b = false.
Proof. intros a b Hab. unfold Rleb. destruct (Rle_dec a b); [lra|reflexivity]. Qed.

Lemma Reqb_true : forall a b, a = b -> Reqb a b = true.
Proof. intros a b Hab. unfold Reqb. destruct (Req_dec_T a b); [reflexivity|contradiction]. Qed.

Lemma Reqb_false : forall a b, a <> b -> Reqb a b = false.
Proof. intros a b Hab. unfold Reqb. destruct (Req_dec_T a b); [contradiction|reflexivity]. Qed.

Lemma Rltb_spec : forall a b, Rltb a b = true <-> a < b.
Proof.
  intros a b. unfold Rltb. destruct (Rlt_dec a b); split; auto; discriminate.
Qed.

Lemma Rleb_spec : forall a b, Rleb a b = true <-> a <= b.
Proof.
  intros a b. unfold Rleb. destruct (Rle_dec a b); split; auto; discriminate.
Qed.

(** The index [Math.floor(u * n)] of a draw [u] in [0, 1). *)
Lemma draw_index :
  forall (u : R) (n : nat),
    0 <= u < 1 -> (0 < n)%nat ->
    toIndex (nfloor (Finite u * ofZ (Z.of_nat n))%js)
    = Some (Z.to_nat (Zfloor (u * IZR (Z.of_nat n))))
    /\ (Z.to_nat (Zfloor (u * IZR (Z.of_nat n))) < n)%nat.
Proof.
  intros u n Hu Hn. simpl. unfold x_toIndex.
  assert (Hn' : 1 <= IZR (Z.of_nat n)) by (apply IZR_le; lia).
  pose proof (Zfloor_bound (u * IZR (Z.of_nat n))) as Hb.
  assert (Hlo : (0 <= Zfloor (u * IZR (Z.of_nat n)))%Z).
  { apply Zfloor_lub. simpl. nra. }
  assert (Hhi : (Zfloor (u * IZR (Z.of_nat n)) < Z.of_nat n)%Z).
  { apply lt_IZR. nra. }
  rewrite ZfloorZ. rewrite Rleb_true by (apply IZR_le; assumption).
  rewrite Reqb_true by reflexivity. simpl. split; [reflexivity|lia].
Qed.

(** Uniformity: the draws that select the element [i] of a list of [n]
    elements are those with [i <= u * n < i + 1], an interval of width
    [1 / n] for each element. *)
Lemma randomElement_uniform :
  forall (A : Type) (l : list A) (u : R) (i : nat),
    0 <= u < 1 -> (i < length l)%nat ->
    INR i <= u * INR (length l) < INR i + 1 ->
    Part000.randomElement (Finite u) l = nth_error l i.
Proof.
  intros A l u i Hu Hi Hint. unfold Part000.randomElement.
  destruct (draw_index (n := length l) Hu ltac:(lia)) as [Hidx _].
  rewrite Hidx. f_equal.
  rewrite (Zfloor_eq (Z.of_nat i)); [apply Nat2Z.id|].
  rewrite <- !INR_IZR_INZ. assumption.
Qed.

End RealFacts.

Section PassRule.
Context {num : Type} `{Number num}.
Variable random : nat -> num.

Import UpdateSpec.

Lemma firstn_S_nth :
  forall (A : Type) (l : list A) j x,
    nth_error l j = Some x -> firstn (S j) l = firstn j l ++ [x].
Proof.
  induction l as [|y l IH]; intros [|j] x Hj; simpl in *; try discriminate.
  - congruence.
  - f_equal. apply IH. assumption.
Qed.

Lemma empties_members :
  forall (clusters : list (Part000.cluster (num := num)))
         (pixels : list (list num)) labels,
    (forall j cl, nth_error clusters j = Some cl ->
                  Part000.count cl = length (members_of pixels labels j)) ->
    forall j, (j <= length clusters)%nat ->
              empties (firstn j clusters) = emptyBefore pixels labels j.
Proof.
  intros clusters pixels labels Hcount.
  induction j as [|j IH]; intros Hj.
  - reflexivity.
  - destruct (nth_error clusters j) as [cl|] eqn:Hcl;
      [|apply nth_error_None in Hcl; lia].
    unfold empties, emptyBefore in *.
    rewrite (firstn_S_nth _ _ Hcl), seq_S, !filter_app, !length_app.
    rewrite IH by lia. simpl. rewrite (Hcount j cl Hcl).
    destruct (Nat.eqb (length (members_of pixels labels j)) 0); reflexivity.
Qed.

Lemma repeat_nth_error :
  forall (A : Type) (x : A) n j, (j < n)%nat -> nth_error (repeat x n) j = Some x.
Proof.
  induction n as [|n IH]; intros [|j] Hj; simpl; try lia; auto.
  apply IH. lia.
Qed.

(** One pass, in the specification's words: after the assignment, the
    cluster [j] is replaced by the mean of its members, or, when it has
    none, by the centroid of the ended pass that the next unused draw
    selects. *)
Lemma pass_rule :
  forall pixels centroids labels0 k clusters0 p new c c',
    length labels0 = length pixels ->
    Part000.newClusters k = Ok clusters0 ->
    Part000.assign pixels 0 centroids (Part000.mkPass labels0 clusters0 false) = Ok p ->
    Part000.update random (Part000.clusters_of p) centroids c = (new, c') ->
    length new = Z.to_nat k
    /\ forall j,
         (j < Z.to_nat k)%nat ->
         let m := members_of pixels (Part000.labels_of p) j in
         nth_error new j
         = Some (if (0 <? length m)%nat then Some (componentMean m)
                 else reseed (random (c + emptyBefore pixels (Part000.labels_of p) j)%nat)
                             centroids).
Proof.
  intros pixels centroids labels0 k clusters0 p new c c' Hlen Hk Hassign Hupdate.
  unfold Part000.newClusters in Hk.
  destruct (k <? 0)%Z; [discriminate|]. inversion Hk; subst clusters0. clear Hk.
  apply assign_spec in Hassign; [|simpl; lia].
  destruct Hassign as (ls & _ & Hlab & Hclen & Hacc).
  cbn [Part000.labels_of Part000.clusters_of] in Hlab, Hclen, Hacc.
  rewrite repeat_length in Hclen.
  assert (Hls : Part000.labels_of p = ls).
  { rewrite Hlab. simpl. rewrite <- Hlen, skipn_all, app_nil_r. reflexivity. }
  rewrite Hls. clear Hlab.
  assert (Hcl : forall j, (j < Z.to_nat k)%nat ->
            nth_error (Part000.clusters_of p) j
            = Some (Part000.mkCluster (componentSum (members_of pixels ls j))
                                      (length (members_of pixels ls j)))).
  { intros j Hj. rewrite (Hacc j _ (repeat_nth_error _ Hj)). reflexivity. }
  assert (Hcount : forall j cl, nth_error (Part000.clusters_of p) j = Some cl ->
            Part000.count cl = length (members_of pixels ls j)).
  { intros j cl Hj.
    assert (j < Z.to_nat k)%nat by (rewrite <- Hclen; apply nth_error_Some; congruence).
    rewrite Hcl in Hj by assumption. inversion Hj. reflexivity. }
  destruct (update_spec _ _ _ _ Hupdate) as (Hnew & _ & Hnth).
  split; [congruence|].
  intros j Hj m. rewrite (Hnth j _ (Hcl j Hj)). simpl.
  rewrite (empties_members (Part000.clusters_of p) pixels ls Hcount) by lia.
  reflexivity.
Qed.

End PassRule.

(** C6: in a pass of the k-means++ variant, a cluster that received a pixel
    gets the component-wise mean of its members, and a cluster that
    received none gets the element of the current centroids (never a
    pixel) that a fresh draw selects; a draw [u] of [0, 1) selects the
    centroid [i] of [n] exactly when [i <= u * n < i + 1], so every
    centroid is as likely as any other. *)
Theorem update_reseeds_from_centroids :
  (forall (num : Type) (N : Number num) (random : nat -> num)
          pixels centroids labels0 k clusters0 p new c c',
      length labels0 = length pixels ->
      Part000.newClusters k = Ok clusters0 ->
      Part000.assign pixels 0 centroids (Part000.mkPass labels0 clusters0 false) = Ok p ->
      Part000.update random (Part000.clusters_of p) centroids c = (new, c') ->
      length new = Z.to_nat k
      /\ forall j,
           (j < Z.to_nat k)%nat ->
           let m := UpdateSpec.members_of pixels (Part000.labels_of p) j in
           nth_error new j
           = Some (if (0 <? length m)%nat then Some (UpdateSpec.componentMean m)
                   else UpdateSpec.reseed
                          (random (c + UpdateSpec.emptyBefore pixels (Part000.labels_of p) j)%nat)
                          centroids))
  /\ (forall (centroids : list (option (list RealNumber.xreal))) (u : R) (i : nat) ce,
         (0 <= u < 1)%R ->
         nth_error centroids i = Some ce ->
         (INR i <= u * INR (length centroids) < INR i + 1)%R ->
         UpdateSpec.reseed (RealNumber.Finite u) centroids = ce).
Proof.
  split.
  - intros num N random. apply pass_rule.
  - intros centroids u i ce Hu Hi Hint. unfold UpdateSpec.reseed.
    rewrite (RealFacts.randomElement_uniform centroids (i := i) Hu); [rewrite Hi; reflexivity| |assumption].
    apply nth_error_Some. congruence.
Qed.

Lemma update_reseeds_witness :
  (let pixels := extractPixels (num := FloatNumber.float)
                   (bytes SampleImage.heap0 SampleImage.image0) in
   let light := Some [ofZ 240; ofZ 240; ofZ 240] in
   let dark := Some [ofZ 10; ofZ 10; ofZ 10] in
   exists clusters0 p new c',
     length [0; 0; 0; 0]%nat = length pixels
     /\ Part000.newClusters 3 = Ok clusters0
     /\ Part000.assign pixels 0 [light; light; dark]
          (Part000.mkPass [0; 0; 0; 0]%nat clusters0 false) = Ok p
     /\ Part000.update SampleImage.draws_half (Part000.clusters_of p)
          [light; light; dark] 7 = (new, c')
     /\ new = [light; light; dark] /\ c' = 8%nat
     /\ length new = Z.to_nat 3
     /\ forall j,
          (j < Z.to_nat 3)%nat ->
          let m := UpdateSpec.members_of pixels (Part000.labels_of p) j in
          nth_error new j
          = Some (if (0 <? length m)%nat then Some (UpdateSpec.componentMean m)
                  else UpdateSpec.reseed
                         (SampleImage.draws_half
                            (7 + UpdateSpec.emptyBefore pixels (Part000.labels_of p) j)%nat)
                         [light; light; dark]))
  /\ ((0 <= / 2 < 1)%R
      /\ nth_error [Some [RealNumber.Finite 1]; Some [RealNumber.Finite 2]] 1
         = Some (Some [RealNumber.Finite 2])
      /\ (INR 1 <= / 2 * INR 2 < INR 1 + 1)%R
      /\ UpdateSpec.reseed (RealNumber.Finite (/ 2))
           [Some [RealNumber.Finite 1]; Some [RealNumber.Finite 2]]
         = Some [RealNumber.Finite 2]).
Proof.
  split.
  - cbv zeta. do 4 eexists.
    assert (H1 : length [0; 0; 0; 0]%nat
                 = length (extractPixels (num := FloatNumber.float)
                             (bytes SampleImage.heap0 SampleImage.image0)))
      by reflexivity.
    split; [exact H1|].
    split; [vm_compute; reflexivity|].
    split; [vm_compute; reflexivity|].
    split; [vm_compute; reflexivity|].
    split; [reflexivity|]. split; [reflexivity|].
    refine (proj1 update_reseeds_from_centroids FloatNumber.float _
              SampleImage.draws_half _ _ _ 3%Z _ _ _ 7%nat _ H1 _ _ _);
      vm_compute; reflexivity.
  - assert (Hu : (0 <= / 2 < 1)%R) by lra.
    assert (Hi : (INR 1 <= / 2 * INR 2 < INR 1 + 1)%R) by (simpl; lra).
    split; [exact Hu|]. split; [reflexivity|]. split; [exact Hi|].
    exact (proj2 update_reseeds_from_centroids
             [Some [RealNumber.Finite 1]; Some [RealNumber.Finite 2]] (/ 2)%R 1%nat
             (Some [RealNumber.Finite 2]) Hu eq_refl Hi).
Defined.

(** ** The colour conversion, in exact arithmetic *)

Module HslFacts.
Import RealNumber RealFacts.
Local Open Scope R_scope.

Lemma lit_finite :
  forall n d : Z, (d <> 0)%Z -> lit (num := xreal) n d = Finite (IZR n / IZR d).
Proof.
  intros n d Hd. unfold lit. simpl. unfold x_div.
  rewrite Reqb_false; [reflexivity|]. intro H0. apply eq_IZR in H0. contradiction.
Qed.

Lemma Rltb_false_spec : forall a b, Rltb a b = false -> b <= a.
Proof.
  intros a b. unfold Rltb. destruct (Rlt_dec a b); [discriminate|]. intros _. lra.
Qed.

(** Case analysis on every comparison of reals in the goal. *)
Ltac real_cases :=
  repeat (cbn [ofZ nadd nsub nmul nltb xreal_Number x_add x_sub x_opp x_mul x_ltb];
          match goal with
          | |- context [Rltb ?a ?b] =>
              let E := fresh "E" in
              destruct (Rltb a b) eqn:E;
              [apply Rltb_spec in E | apply Rltb_false_spec in E]
          end).

Lemma convex_unit :
  forall p q w, 0 <= p <= 1 -> 0 <= q <= 1 -> 0 <= w <= 1 -> 0 <= p + (q - p) * w <= 1.
Proof.
  intros p q w Hp Hq Hw.
  replace (p + (q - p) * w) with (p * (1 - w) + q * w) by ring.
  assert (0 <= p * (1 - w) <= 1 - w) by nra.
  assert (0 <= q * w <= w) by nra.
  lra.
Qed.

(** For [p] and [q] in the unit interval and [t >= -1], [hue2rgb] stays in
    the unit interval. *)
Lemma hue2rgb_unit :
  forall p q t,
    0 <= p <= 1 -> 0 <= q <= 1 -> -1 <= t ->
    exists v, Part001.hue2rgb (Finite p) (Finite q) (Finite t) = Finite v /\ 0 <= v <= 1.
Proof.
  intros p q t Hp Hq Ht. unfold Part001.hue2rgb.
  rewrite !lit_finite by lia.
  real_cases; (eexists; split; [reflexivity|]); try lra.
  all: match goal with
       | |- 0 <= ?a + (?b + - ?a) * 6 * ?w <= 1 =>
           replace (a + (b + - a) * 6 * w) with (a + (b - a) * (6 * w)) by ring
       | |- 0 <= ?a + (?b + - ?a) * ?w * 6 <= 1 =>
           replace (a + (b + - a) * w * 6) with (a + (b - a) * (w * 6)) by ring
       end; apply convex_unit; lra.
Qed.

(** A channel value of the unit interval becomes a byte. *)
Lemma round_byte :
  forall v, 0 <= v <= 1 ->
    exists z, nround (Finite v * ofZ 255)%js = Finite (IZR z) /\ (0 <= z <= 255)%Z.
Proof.
  intros v Hv. exists (Zfloor (v * 255 + / 2)). split; [reflexivity|].
  pose proof (Zfloor_bound (v * 255 + / 2)) as Hb.
  split.
  - apply Zfloor_lub. simpl. lra.
  - assert (Zfloor (v * 255 + / 2) < 256)%Z; [apply lt_IZR; lra|lia].
Qed.

Lemma hslToRgb_bytes :
  forall h s l,
    - (2 / 3) <= h -> 0 <= s <= 1 -> 0 <= l <= 1 ->
    byte_color (Part001.hslToRgb (Finite h) (Finite s) (Finite l)).
Proof.
  intros h s l Hh Hs Hl. unfold Part001.hslToRgb, byte_color.
  assert (Hout : forall r g b,
            0 <= r <= 1 -> 0 <= g <= 1 -> 0 <= b <= 1 ->
            exists r' g' b' : Z,
              [nround (Finite r * ofZ 255)%js; nround (Finite g * ofZ 255)%js;
               nround (Finite b * ofZ 255)%js]
              = [Finite (IZR r'); Finite (IZR g'); Finite (IZR b')]
              /\ (0 <= r' <= 255)%Z /\ (0 <= g' <= 255)%Z /\ (0 <= b' <= 255)%Z).
  { intros r g b Hr Hg Hb.
    destruct (round_byte Hr) as (r' & -> & Hr').
    destruct (round_byte Hg) as (g' & -> & Hg').
    destruct (round_byte Hb) as (b' & -> & Hb').
    exists r', g', b'. auto. }
  cbn [neqb xreal_Number ofZ x_eqb].
  destruct (Reqb s 0).
  - apply Hout; assumption.
  - rewrite !lit_finite by lia.
    cbn [ofZ nadd nsub nmul nltb xreal_Number x_add x_sub x_opp x_mul x_ltb].
    destruct (Rltb l (5 / 10)) eqn:El;
      [apply Rltb_spec in El | apply Rltb_false_spec in El];
      cbn [x_add x_sub x_opp x_mul].
    + destruct (@hue2rgb_unit (2 * l + - (l * (1 + s))) (l * (1 + s)) (h + 1 / 3))
        as (r & -> & Hr); try nra.
      destruct (@hue2rgb_unit (2 * l + - (l * (1 + s))) (l * (1 + s)) h)
        as (g & -> & Hg); try nra.
      destruct (@hue2rgb_unit (2 * l + - (l * (1 + s))) (l * (1 + s)) (h + - (1 / 3)))
        as (b & -> & Hb); try nra.
      apply Hout; assumption.
    + destruct (@hue2rgb_unit (2 * l + - (l + s + - (l * s))) (l + s + - (l * s))
                              (h + 1 / 3)) as (r & -> & Hr); try nra.
      destruct (@hue2rgb_unit (2 * l + - (l + s + - (l * s))) (l + s + - (l * s)) h)
        as (g & -> & Hg); try nra.
      destruct (@hue2rgb_unit (2 * l + - (l + s + - (l * s))) (l + s + - (l * s))
                              (h + - (1 / 3))) as (b & -> & Hb); try nra.
      apply Hout; assumption.
Qed.

End HslFacts.

Module HslRange.
Import RealNumber RealFacts HslFacts.
Local Open Scope R_scope.

(** Evaluation of comparisons between real constants. *)
Ltac real_eval :=
  repeat (cbn [ofZ nadd nsub nmul nltb neqb nround xreal_Number
               x_add x_sub x_opp x_mul x_ltb x_eqb x_round];
          match goal with
          | |- context [Rltb ?a ?b] =>
              first [rewrite (@Rltb_true a b) by lra | rewrite (@Rltb_false a b) by lra]
          | |- context [Reqb ?a ?b] =>
              first [rewrite (@Reqb_true a b) by lra | rewrite (@Reqb_false a b) by lra]
          end).

Lemma hslToRgb_negative_hue :
  Part001.hslToRgb (Finite (-1)) (Finite 1) (Finite (/ 2))
  = [Finite 255; Finite 0; Finite (-510)].
Proof.
  unfold Part001.hslToRgb, Part001.hue2rgb.
  rewrite !lit_finite by lia.
  real_eval.
  repeat f_equal; cbn [x_round x_mul]; f_equal; f_equal; apply Zfloor_eq; lra.
Qed.

(** The hue of the palette entry [i] of [n]. *)
Lemma palette_hue :
  forall (i n : nat),
    (i < n)%nat ->
    exists h, (ofZ (Z.of_nat i) * ofZ 360 / ofZ (Z.of_nat n) / ofZ 360)%js = Finite h
              /\ 0 <= h.
Proof.
  intros i n Hi.
  assert (Hn : 1 <= IZR (Z.of_nat n)) by (apply IZR_le; lia).
  assert (Hi0 : 0 <= IZR (Z.of_nat i)) by (apply IZR_le; lia).
  exists (IZR (Z.of_nat i) * 360 / IZR (Z.of_nat n) / 360).
  cbn [ofZ nmul ndiv xreal_Number x_mul x_div].
  rewrite (@Reqb_false (IZR (Z.of_nat n)) 0) by lra.
  cbn [x_div].
  rewrite (@Reqb_false 360 0) by lra.
  split; [reflexivity|].
  apply Rmult_le_pos; [|lra].
  apply Rmult_le_pos; [lra|].
  apply Rlt_le, Rinv_0_lt_compat. lra.
Qed.

End HslRange.

(** C10 (in exact arithmetic): for every hue that reaches [hslToRgb], the
    hues [i / n] of [0, 1) that its three call sites pass (and every other
    hue [h >= -2/3]), and every saturation and lightness of [0, 1],
    [hslToRgb] returns three integers of [0, 255]; so every entry of a
    palette, the colours that the algorithms write to their output, is
    made of valid channel bytes. *)
Theorem hslToRgb_range :
  (forall h s l : R,
      (- (2 / 3) <= h)%R -> (0 <= s <= 1)%R -> (0 <= l <= 1)%R ->
      byte_color (Part001.hslToRgb (RealNumber.Finite h) (RealNumber.Finite s)
                                   (RealNumber.Finite l)))
  /\ (forall (n : nat) (s l : R) c,
         (0 <= s <= 1)%R -> (0 <= l <= 1)%R ->
         In c (Part001.palette n (RealNumber.Finite s) (RealNumber.Finite l)) ->
         byte_color c).
Proof.
  split.
  - intros h s l Hh Hs Hl. apply HslFacts.hslToRgb_bytes; assumption.
  - intros n s l c Hs Hl Hin. unfold Part001.palette in Hin.
    apply in_map_iff in Hin. destruct Hin as (i & <- & Hi).
    apply in_seq in Hi.
    destruct (@HslRange.palette_hue i n) as (h & -> & Hh); [lia|].
    apply HslFacts.hslToRgb_bytes; try assumption. lra.
Qed.

Lemma hslToRgb_range_witness :
  ((- (2 / 3) <= 0)%R /\ (0 <= 8 / 10 <= 1)%R /\ (0 <= 7 / 10 <= 1)%R
   /\ byte_color (Part001.hslToRgb (RealNumber.Finite 0) (RealNumber.Finite (8 / 10))
                                   (RealNumber.Finite (7 / 10))))
  /\ ((0 <= 9 / 10 <= 1)%R /\ (0 <= 6 / 10 <= 1)%R
      /\ In (Part001.hslToRgb (ofZ 0 * ofZ 360 / ofZ 1 / ofZ 360)%js
                              (RealNumber.Finite (9 / 10)) (RealNumber.Finite (6 / 10)))
            (Part001.palette 1 (RealNumber.Finite (9 / 10)) (RealNumber.Finite (6 / 10)))
      /\ byte_color (Part001.hslToRgb (ofZ 0 * ofZ 360 / ofZ 1 / ofZ 360)%js
                                      (RealNumber.Finite (9 / 10))
                                      (RealNumber.Finite (6 / 10)))).
Proof.
  assert (H0 : (- (2 / 3) <= 0)%R) by lra.
  assert (H8 : (0 <= 8 / 10 <= 1)%R) by lra.
  assert (H7 : (0 <= 7 / 10 <= 1)%R) by lra.
  assert (H9 : (0 <= 9 / 10 <= 1)%R) by lra.
  assert (H6 : (0 <= 6 / 10 <= 1)%R) by lra.
  assert (Hin : In (Part001.hslToRgb (ofZ 0 * ofZ 360 / ofZ 1 / ofZ 360)%js
                                     (RealNumber.Finite (9 / 10)) (RealNumber.Finite (6 / 10)))
                   (Part001.palette 1 (RealNumber.Finite (9 / 10))
                                    (RealNumber.Finite (6 / 10))))
    by (left; reflexivity).
  split.
  - split; [exact H0|]. split; [exact H8|]. split; [exact H7|].
    exact (proj1 hslToRgb_range 0%R (8 / 10)%R (7 / 10)%R H0 H8 H7).
  - split; [exact H9|]. split; [exact H6|]. split; [exact Hin|].
    exact (proj2 hslToRgb_range 1%nat (9 / 10)%R (6 / 10)%R _ H9 H6 Hin).
Defined.

(** The bound on the hue is needed by the proof only: [hue2rgb] wraps its
    argument by one turn, so at [h = -1], [s = 1], [l = 1/2], a hue that no
    call site passes, the blue channel would be [-510]. *)
Lemma hslToRgb_not_always_bytes :
  ~ (forall h s l : R,
       (0 <= s <= 1)%R -> (0 <= l <= 1)%R ->
       byte_color (Part001.hslToRgb (RealNumber.Finite h) (RealNumber.Finite s)
                                    (RealNumber.Finite l))).
Proof.
  intro Hall.
  destruct (Hall (-1)%R 1%R (/ 2)%R ltac:(lra) ltac:(lra)) as (r & g & b & Heq & _ & _ & Hb).
  rewrite HslRange.hslToRgb_negative_hue in Heq.
  inversion Heq as [[Hr Hg Hb']].
  apply eq_IZR in Hb'. lia.
Qed.

(** The same input as IEEE doubles compute it. *)
Example hslToRgb_negative_hue_float :
  Part001.hslToRgb (ofZ (-1)) (ofZ 1) (lit 5 10 : FloatNumber.float)
  = [ofZ 255; ofZ 0; ofZ (-510)].
Proof. vm_compute. reflexivity. Qed.

(** ** The metrics: what they return *)

Section MetricsOutcome.
Context {num : Type} `{Number num}.

Lemma scatter_error :
  forall cluster (centroid : list num) e,
    Metrics.calculateScatter cluster centroid = Throw e -> e = TypeError.
Proof.
  intros [cluster|] centroid e; simpl.
  - destruct (Nat.eqb (length cluster) 0); discriminate.
  - congruence.
Qed.

Lemma scatter_fuel :
  forall cluster (centroid : list num),
    Metrics.calculateScatter cluster centroid <> OutOfFuel.
Proof.
  intros [cluster|] centroid; simpl; [|discriminate].
  destruct (Nat.eqb (length cluster) 0); discriminate.
Qed.

Lemma maxRatioLoop_outcome :
  forall (centroids : list (list num)) clusters i ci todo j maxRatio,
    (exists v, Metrics.maxRatioLoop centroids clusters i ci todo j maxRatio = Ok v)
    \/ Metrics.maxRatioLoop centroids clusters i ci todo j maxRatio = Throw TypeError.
Proof.
  intros centroids clusters i ci todo.
  induction todo as [|cj todo IH]; intros j maxRatio; simpl.
  - left. eauto.
  - destruct (Nat.eqb i j); [apply IH|].
    destruct (Metrics.calculateScatter (nth_error clusters i) ci) as [si|e|] eqn:Hi; simpl.
    + destruct (Metrics.calculateScatter (nth_error clusters j) cj) as [sj|e|] eqn:Hj; simpl.
      * apply IH.
      * right. apply scatter_error in Hj. congruence.
      * exfalso. exact (scatter_fuel _ _ Hj).
    + right. apply scatter_error in Hi. congruence.
    + exfalso. exact (scatter_fuel _ _ Hi).
Qed.

Lemma dbLoop_outcome :
  forall (centroids : list (list num)) clusters todo i dbIndex,
    (exists v, Metrics.dbLoop centroids clusters todo i dbIndex = Ok v)
    \/ Metrics.dbLoop centroids clusters todo i dbIndex = Throw TypeError.
Proof.
  intros centroids clusters todo.
  induction todo as [|ci todo IH]; intros i dbIndex; simpl.
  - left. eauto.
  - destruct (maxRatioLoop_outcome centroids clusters i ci centroids 0 (ofZ 0))
      as [[v Hv]|Hv]; rewrite Hv; simpl; [apply IH|right; reflexivity].
Qed.

Lemma daviesBouldin_outcome :
  forall (centroids : list (list num)) clusters,
    (exists v, Metrics.calculateDaviesBouldinIndex centroids clusters = Ok v)
    \/ Metrics.calculateDaviesBouldinIndex centroids clusters = Throw TypeError.
Proof.
  intros centroids clusters. unfold Metrics.calculateDaviesBouldinIndex.
  destruct (dbLoop_outcome centroids clusters centroids 0 (ofZ 0)) as [[v Hv]|Hv];
    rewrite Hv; simpl; [left; eauto|right; reflexivity].
Qed.

Lemma withinLoop_outcome :
  forall (centroids : list (list num)) labels todo i withinSS,
    (exists v, Metrics.withinLoop centroids labels todo i withinSS = Ok v)
    \/ Metrics.withinLoop centroids labels todo i withinSS = Throw TypeError.
Proof.
  intros centroids labels todo.
  induction todo as [|p todo IH]; intros i withinSS; simpl.
  - left. eauto.
  - destruct (nth_error labels i) as [l|]; [|right; reflexivity].
    destruct (nth_error centroids l) as [c|]; [apply IH|right; reflexivity].
Qed.

(** The second loop completes when every pixel has a label and every label
    a centroid. *)
Lemma withinLoop_ok :
  forall (centroids : list (list num)) labels todo i withinSS,
    (i + length todo <= length labels)%nat ->
    Forall (fun l => l < length centroids)%nat labels ->
    exists v, Metrics.withinLoop centroids labels todo i withinSS = Ok v.
Proof.
  intros centroids labels todo.
  induction todo as [|p todo IH]; intros i withinSS Hlen Hall; simpl.
  - eauto.
  - simpl in Hlen.
    destruct (nth_error labels i) as [l|] eqn:Hl;
      [|apply nth_error_None in Hl; lia].
    assert (Hlt : (l < length centroids)%nat).
    { rewrite Forall_forall in Hall. apply Hall. eapply nth_error_In. eassumption. }
    destruct (nth_error centroids l) as [c|] eqn:Hc;
      [|apply nth_error_None in Hc; lia].
    apply IH; [lia|assumption].
Qed.

End MetricsOutcome.

Module CalinskiFacts.
Import RealNumber RealFacts.
Local Open Scope R_scope.

(** A quotient by zero is never a finite number. *)
Lemma div_zero_not_finite : forall x, ~ is_finite (x_div x (Finite 0)).
Proof.
  intros x [r Hr]. destruct x as [a| | |]; simpl in Hr.
  - rewrite Reqb_true in Hr by reflexivity.
    destruct (Rltb a 0); simpl in Hr; [discriminate|].
    destruct (Rltb 0 a); simpl in Hr; discriminate.
  - destruct (Rltb 0 0); discriminate.
  - destruct (Rltb 0 0); discriminate.
  - discriminate.
Qed.

Lemma div_not_finite :
  forall x y, ~ is_finite x -> ~ is_finite (x_div x y).
Proof.
  intros x y Hx [r Hr]. destruct x as [a| | |]; [apply Hx; exists a; reflexivity| | |];
    destruct y as [b| | |]; simpl in Hr; try discriminate;
    destruct (Rltb b 0); discriminate.
Qed.

Lemma div_by_not_finite :
  forall x y, ~ is_finite y -> x_div x y = Finite 0 \/ x_div x y = XNaN.
Proof.
  intros x y Hy.
  destruct y as [b| | |]; [exfalso; apply Hy; exists b; reflexivity| | |];
    destruct x as [a| | |]; simpl; auto.
Qed.

End CalinskiFacts.

(** C4 (as the code behaves): neither metric ever fails with
    [InsufficientClusters].  The Davies-Bouldin index of a single cluster is
    the number [(0 + 0) / 1], that is 0, and of no cluster [0 / 0].  With
    one label per pixel and a centroid for every label, the
    Calinski-Harabasz index is the number its two divisions yield: never a
    finite one when [k = 1] (Infinity or NaN), and 0 or NaN when [k = n]. *)
Theorem metrics_return_numbers :
  (forall (num : Type) (N : Number num) (centroids : list (list num)) clusters,
      Metrics.calculateDaviesBouldinIndex centroids clusters <> Throw InsufficientClusters
      /\ (forall c, centroids = [c] ->
            Metrics.calculateDaviesBouldinIndex centroids clusters
            = Ok ((ofZ 0 + ofZ 0) / ofZ 1)%js)
      /\ (centroids = [] ->
            Metrics.calculateDaviesBouldinIndex centroids clusters
            = Ok (ofZ 0 / ofZ 0)%js))
  /\ (forall (num : Type) (N : Number num) h img (centroids : list (list num)) labels,
         Metrics.calculateCalinskiHarabaszIndex h img centroids labels
         <> Throw InsufficientClusters)
  /\ (forall h img (centroids : list (list RealNumber.xreal)) labels,
         let n := length (extractPixels (num := RealNumber.xreal) (bytes h img)) in
         length labels = n ->
         Forall (fun l => l < length centroids)%nat labels ->
         (length centroids = 1%nat ->
          exists v, Metrics.calculateCalinskiHarabaszIndex h img centroids labels = Ok v
                    /\ ~ is_finite v)
         /\ (length centroids = n ->
             exists v, Metrics.calculateCalinskiHarabaszIndex h img centroids labels = Ok v
                       /\ (v = RealNumber.Finite 0 \/ v = RealNumber.XNaN))).
Proof.
  split; [|split].
  - intros num N centroids clusters. split; [|split].
    + destruct (daviesBouldin_outcome centroids clusters) as [[v Hv]|Hv];
        rewrite Hv; discriminate.
    + intros c ->. reflexivity.
    + intros ->. reflexivity.
  - intros num N h img centroids labels.
    unfold Metrics.calculateCalinskiHarabaszIndex.
    destruct (withinLoop_outcome centroids labels (extractPixels (bytes h img)) 0 (ofZ 0))
      as [[v Hv]|Hv]; rewrite Hv; discriminate.
  - intros h img centroids labels n Hlen Hall.
    unfold Metrics.calculateCalinskiHarabaszIndex.
    destruct (@withinLoop_ok _ _ centroids labels (extractPixels (bytes h img)) 0%nat
                (ofZ 0)) as (w & Hw); [fold n; lia|assumption|].
    rewrite Hw. cbn [bind]. split.
    + intros Hk. eexists. split; [reflexivity|].
      rewrite Hk. change (Z.of_nat 1 - 1)%Z with 0%Z.
      apply CalinskiFacts.div_not_finite. apply CalinskiFacts.div_zero_not_finite.
    + intros Hk. eexists. split; [reflexivity|].
      rewrite Hk. fold n. rewrite Z.sub_diag.
      apply CalinskiFacts.div_by_not_finite. apply CalinskiFacts.div_zero_not_finite.
Qed.

Lemma metrics_return_numbers_witness :
  let centroids := [[RealNumber.Finite 125; RealNumber.Finite 125; RealNumber.Finite 125]] in
  let labels := [0; 0; 0; 0]%nat in
  let n := length (extractPixels (num := RealNumber.xreal)
                     (bytes SampleImage.heap0 SampleImage.image0)) in
  length labels = n
  /\ Forall (fun l => l < length centroids)%nat labels
  /\ length centroids = 1%nat
  /\ exists v,
       Metrics.calculateCalinskiHarabaszIndex SampleImage.heap0 SampleImage.image0
         centroids labels = Ok v
       /\ ~ is_finite v.
Proof.
  cbv zeta.
  assert (Hlen : length [0; 0; 0; 0]%nat
                 = length (extractPixels (num := RealNumber.xreal)
                             (bytes SampleImage.heap0 SampleImage.image0)))
    by reflexivity.
  assert (Hall : Forall (fun l => l < length
                   [[RealNumber.Finite 125; RealNumber.Finite 125; RealNumber.Finite 125]])%nat
                   [0; 0; 0; 0]%nat)
    by (repeat constructor).
  split; [exact Hlen|]. split; [exact Hall|]. split; [reflexivity|].
  exact (proj1 (proj2 (proj2 metrics_return_numbers) SampleImage.heap0 SampleImage.image0
                  [[RealNumber.Finite 125; RealNumber.Finite 125; RealNumber.Finite 125]]
                  [0; 0; 0; 0]%nat Hlen Hall) eq_refl).
Defined.

(** C4 (as stated): on the sample image, as IEEE doubles compute, the
    Davies-Bouldin index of one cluster is 0, and the Calinski-Harabasz
    index is NaN for [k = 1] and for [k = n]; none is an error. *)
Lemma metrics_do_not_fail :
  let pixel (v : Z) : list FloatNumber.float := [ofZ v; ofZ v; ofZ v] in
  Metrics.calculateDaviesBouldinIndex [pixel 125%Z]
    [[pixel 10%Z; pixel 10%Z; pixel 240%Z; pixel 240%Z]] = Ok (ofZ 0)
  /\ Metrics.calculateCalinskiHarabaszIndex SampleImage.heap0 SampleImage.image0
       [pixel 125%Z] [0; 0; 0; 0]%nat = Ok NaN
  /\ Metrics.calculateCalinskiHarabaszIndex SampleImage.heap0 SampleImage.image0
       [pixel 10%Z; pixel 10%Z; pixel 240%Z; pixel 240%Z] [0; 1; 2; 3]%nat = Ok NaN.
Proof. vm_compute. repeat split; reflexivity. Qed.

(** ** The k-means++ variant: labels and errors, for every number
    implementation *)

Section KMeans000.
Context {num : Type} `{Number num}.
Variable random : nat -> num.

Lemma mapM_error :
  forall (A B : Type) (f : A -> outcome B) l e,
    mapM f l = Throw e -> exists a, In a l /\ f a = Throw e.
Proof.
  intros A B f l e. induction l as [|a l IH]; simpl; [discriminate|].
  destruct (f a) as [b|e'|] eqn:Hfa; simpl.
  - destruct (mapM f l) as [bs|e'|]; simpl; try discriminate.
    intros He. destruct IH as (a' & Hin & Ha'); [assumption|]. eauto.
  - intros He. inversion He; subst. eauto.
  - discriminate.
Qed.

Lemma mapM_fuel :
  forall (A B : Type) (f : A -> outcome B) l,
    mapM f l = OutOfFuel -> exists a, In a l /\ f a = OutOfFuel.
Proof.
  intros A B f l. induction l as [|a l IH]; simpl; [discriminate|].
  destruct (f a) as [b|e'|] eqn:Hfa; simpl.
  - destruct (mapM f l) as [bs|e'|]; simpl; try discriminate.
    intros _. destruct IH as (a' & Hin & Ha'); [reflexivity|]. eauto.
  - discriminate.
  - eauto.
Qed.

Lemma mapM_ok :
  forall (A B : Type) (f : A -> outcome B) (P : B -> Prop) l bs,
    mapM f l = Ok bs ->
    (forall a b, In a l -> f a = Ok b -> P b) ->
    length bs = length l /\ Forall P bs.
Proof.
  intros A B f P l. induction l as [|a l IH]; intros bs Hm HP; simpl in Hm.
  - inversion Hm. split; [reflexivity|constructor].
  - destruct (f a) as [b| |] eqn:Hfa; simpl in Hm; try discriminate.
    destruct (mapM f l) as [bs'| |]; simpl in Hm; try discriminate.
    inversion Hm; subst bs.
    destruct (IH bs' eq_refl) as [Hlen Hall]; [intros; eapply HP; simpl; eauto|].
    simpl. split; [congruence|]. constructor; [|assumption].
    eapply HP; simpl; eauto.
Qed.

Lemma euclideanDistance_error :
  forall a b e, Part000.euclideanDistance (num := num) a b = Throw e -> e = TypeError.
Proof. intros a [b|] e He; simpl in He; congruence. Qed.

Lemma euclideanDistance_fuel :
  forall a b, Part000.euclideanDistance (num := num) a b <> OutOfFuel.
Proof. intros a [b|]; discriminate. Qed.

Lemma nearestDistance_error :
  forall centroids p e,
    Part000.nearestDistance (num := num) centroids p = Throw e -> e = TypeError.
Proof.
  intros centroids p e. unfold Part000.nearestDistance.
  destruct (mapM (Part000.euclideanDistance p) centroids) as [ds|e'|] eqn:Hm;
    simpl; try discriminate.
  intros He. inversion He; subst e'.
  apply mapM_error in Hm. destruct Hm as (c & _ & Hc).
  eapply euclideanDistance_error. eassumption.
Qed.

Lemma nearestDistance_fuel :
  forall centroids p, Part000.nearestDistance (num := num) centroids p <> OutOfFuel.
Proof.
  intros centroids p. unfold Part000.nearestDistance.
  destruct (mapM (Part000.euclideanDistance p) centroids) as [ds|e'|] eqn:Hm;
    simpl; try discriminate.
  apply mapM_fuel in Hm. destruct Hm as (c & _ & Hc).
  exfalso. exact (euclideanDistance_fuel _ _ Hc).
Qed.

Lemma seed_error :
  forall fuel pixels k centroids c e,
    Part000.seed random fuel pixels k centroids c = Throw e -> e = TypeError.
Proof.
  induction fuel as [|fuel IH]; intros pixels k centroids c e; simpl.
  - destruct (Z.of_nat (length centroids) <? k)%Z; discriminate.
  - destruct (Z.of_nat (length centroids) <? k)%Z; [|discriminate].
    destruct (mapM (Part000.nearestDistance centroids) pixels) as [ds|e'|] eqn:Hm; simpl.
    + destruct (Part000.sample pixels ds (ofZ 0) _); apply IH.
    + intros He. inversion He; subst e'.
      apply mapM_error in Hm. destruct Hm as (p & _ & Hp).
      eapply nearestDistance_error. eassumption.
    + discriminate.
Qed.

(** The seeding stops with exactly [k] centroids. *)
Lemma seed_length :
  forall fuel pixels k centroids c centroids' c',
    Part000.seed random fuel pixels k centroids c = Ok (centroids', c') ->
    (Z.of_nat (length centroids) <= k)%Z ->
    Z.of_nat (length centroids') = k.
Proof.
  induction fuel as [|fuel IH]; intros pixels k centroids c centroids' c' Hs Hle;
    simpl in Hs.
  - destruct (Z.of_nat (length centroids) <? k)%Z eqn:Hlt; [discriminate|].
    inversion Hs; subst. apply Z.ltb_ge in Hlt. lia.
  - destruct (Z.of_nat (length centroids) <? k)%Z eqn:Hlt.
    + apply Z.ltb_lt in Hlt.
      destruct (mapM (Part000.nearestDistance centroids) pixels) as [ds| |];
        simpl in Hs; try discriminate.
      destruct (Part000.sample pixels ds (ofZ 0) _) as [p|].
      * eapply IH; [exact Hs|]. rewrite length_app. simpl. lia.
      * eapply IH; [exact Hs|]. lia.
    + inversion Hs; subst. apply Z.ltb_ge in Hlt. lia.
Qed.

Lemma nearest_error :
  forall pixel centroids j minDist clusterIdx e,
    Part000.nearest (num := num) pixel centroids j minDist clusterIdx = Throw e ->
    e = TypeError.
Proof.
  intros pixel centroids.
  induction centroids as [|c cs IH]; intros j m ci e; simpl; [discriminate|].
  destruct c as [c|]; simpl; [|congruence].
  destruct (nsqrt _ <? m)%js; apply IH.
Qed.

(** The index found is the starting one or that of a centroid visited. *)
Lemma nearest_range :
  forall pixel centroids j minDist clusterIdx ci,
    Part000.nearest (num := num) pixel centroids j minDist clusterIdx = Ok ci ->
    ci = clusterIdx \/ (j <= ci < j + length centroids)%nat.
Proof.
  intros pixel centroids.
  induction centroids as [|c cs IH]; intros j m ci0 ci; simpl.
  - intros Hn. inversion Hn. auto.
  - destruct c as [c|]; simpl; [|discriminate].
    destruct (nsqrt _ <? m)%js; intros Hn; apply IH in Hn;
      destruct Hn as [->|Hn]; auto; right; lia.
Qed.

(** Every centroid exists: the search cannot fail. *)
Lemma nearest_ok :
  forall pixel centroids j minDist clusterIdx,
    Forall (fun c => c <> None) centroids ->
    exists ci, Part000.nearest (num := num) pixel centroids j minDist clusterIdx = Ok ci.
Proof.
  intros pixel centroids.
  induction centroids as [|c cs IH]; intros j m ci0 Hall; simpl.
  - eauto.
  - inversion Hall as [|c' cs' Hc Hcs]; subst.
    destruct c as [c|]; [|congruence]. simpl.
    destruct (nsqrt _ <? m)%js; apply IH; assumption.
Qed.

Lemma assign_error :
  forall pixels i centroids st e,
    Part000.assign (num := num) pixels i centroids st = Throw e -> e = TypeError.
Proof.
  induction pixels as [|px pixels IH]; intros i centroids st e; simpl; [discriminate|].
  destruct (Part000.nearest px centroids 0 infinity 0) as [ci|e'|] eqn:Hn; simpl.
  - destruct (nth_error (Part000.clusters_of st) ci); [apply IH|congruence].
  - intros He. inversion He; subst e'. eapply nearest_error. eassumption.
  - discriminate.
Qed.

Lemma assign_ok :
  forall pixels i centroids st,
    Forall (fun c => c <> None) centroids ->
    (1 <= length centroids)%nat ->
    length (Part000.clusters_of st) = length centroids ->
    exists p, Part000.assign (num := num) pixels i centroids st = Ok p.
Proof.
  induction pixels as [|px pixels IH]; intros i centroids st Hall Hne Hlen; simpl.
  - eauto.
  - destruct (nearest_ok px 0 infinity 0 Hall) as (ci & Hci). rewrite Hci. simpl.
    apply nearest_range in Hci.
    destruct (nth_error (Part000.clusters_of st) ci) as [cl|] eqn:Hcl;
      [|apply nth_error_None in Hcl; exfalso; unfold Part000.centroid in *; lia].
    apply IH; try assumption. simpl. rewrite list_set_length. assumption.
Qed.

Lemma lloyd_error :
  forall fuel pixels k iterations st e,
    Part000.lloyd random fuel pixels k iterations st = Throw e ->
    e = TypeError \/ e = RangeError.
Proof.
  induction fuel as [|fuel IH]; intros pixels k iterations st e; simpl; [discriminate|].
  unfold Part000.newClusters. destruct (k <? 0)%Z; simpl.
  - intros He. inversion He. auto.
  - destruct (Part000.assign pixels 0 (Part000.centroids_at st) _) as [p|e'|] eqn:Hp; simpl.
    + destruct (Part000.update random (Part000.clusters_of p) _ _) as [cs c].
      destruct (Part000.changed_of p && (iterations <? 100)%Z); [apply IH|discriminate].
    + intros He. inversion He; subst e'. left. eapply assign_error. eassumption.
    + discriminate.
Qed.

(** What a completed run of the loop returns. *)
Lemma lloyd_result :
  forall fuel pixels k iterations st st',
    (1 <= k)%Z ->
    length (Part000.centroids_at st) = Z.to_nat k ->
    length (Part000.labels_at st) = length pixels ->
    Part000.lloyd random fuel pixels k iterations st = Ok st' ->
    length (Part000.labels_at st') = length pixels
    /\ Forall (fun l => l < Z.to_nat k)%nat (Part000.labels_at st')
    /\ length (Part000.centroids_at st') = Z.to_nat k.
Proof.
  induction fuel as [|fuel IH]; intros pixels k iterations st st' Hk Hcs Hls Hrun;
    simpl in Hrun; [discriminate|].
  unfold Part000.newClusters in Hrun.
  destruct (k <? 0)%Z eqn:Hneg; [apply Z.ltb_lt in Hneg; lia|]. simpl in Hrun.
  destruct (Part000.assign pixels 0 (Part000.centroids_at st) _) as [p| |] eqn:Hp;
    simpl in Hrun; try discriminate.
  destruct (Part000.update random (Part000.clusters_of p) _ _) as [cs c] eqn:Hu.
  apply assign_spec in Hp; [|simpl; lia].
  destruct Hp as (ls & Hm & Hlab & Hclen & _).
  cbn [Part000.labels_of Part000.clusters_of] in Hlab, Hclen.
  rewrite repeat_length in Hclen.
  assert (Hlabels : Part000.labels_of p = ls).
  { rewrite Hlab. simpl. rewrite <- Hls, skipn_all, app_nil_r. reflexivity. }
  edestruct mapM_ok with (P := fun l => (l < Z.to_nat k)%nat) as [Hlen Hall];
    [exact Hm| |].
  { intros px ci _ Hci. apply nearest_range in Hci.
    unfold Part000.centroid in *. lia. }
  pose proof Hu as Hnew. apply update_spec in Hnew. destruct Hnew as (Hnew & _ & _).
  assert (Hst : length ls = length pixels /\ Forall (fun l => l < Z.to_nat k)%nat ls
                /\ length cs = Z.to_nat k) by (repeat split; congruence).
  destruct (Part000.changed_of p && (iterations <? 100)%Z).
  - eapply IH; [exact Hk| | |exact Hrun]; simpl; [lia|congruence].
  - inversion Hrun; subst st'. simpl. rewrite Hlabels. exact Hst.
Qed.

End KMeans000.

Section KMeans000Result.
Context {num : Type} `{Number num}.
Variable random : nat -> num.

Lemma whole_pixels :
  forall d : buffer,
    Nat.eqb (length d mod 4) 0 = true ->
    length (extractPixels (num := num) d) = (length d / 4)%nat.
Proof.
  intros d Hd. apply Nat.eqb_eq in Hd.
  apply extractPixels_length.
  pose proof (Nat.div_mod_eq (length d) 4). lia.
Qed.

Lemma cluster_pixels_result :
  forall fuel d k st,
    (1 <= k)%Z ->
    Part000.cluster_pixels random fuel d k = Ok st ->
    length (Part000.labels_at st) = length (extractPixels (num := num) d)
    /\ Forall (fun l => l < Z.to_nat k)%nat (Part000.labels_at st)
    /\ length (Part000.centroids_at st) = Z.to_nat k.
Proof.
  intros fuel d k st Hk Hrun. unfold Part000.cluster_pixels in Hrun.
  destruct (Nat.eqb (length d mod 4) 0) eqn:Hd; simpl in Hrun; [|discriminate].
  destruct (Part000.seed random fuel (extractPixels d) k _ 1) as [[cs c]| |] eqn:Hs;
    simpl in Hrun; try discriminate.
  apply seed_length in Hs; [|simpl; lia].
  eapply lloyd_result; [exact Hk| | |exact Hrun]; simpl.
  - unfold Part000.centroid in *. lia.
  - rewrite repeat_length. symmetry. apply whole_pixels. assumption.
Qed.

Lemma cluster_pixels_error :
  forall fuel d k e,
    Part000.cluster_pixels random fuel d k = Throw e -> e = TypeError \/ e = RangeError.
Proof.
  intros fuel d k e. unfold Part000.cluster_pixels.
  destruct (Nat.eqb (length d mod 4) 0); simpl; [|intros He; inversion He; auto].
  destruct (Part000.seed random fuel (extractPixels d) k _ 1) as [[cs c]|e'|] eqn:Hs;
    simpl.
  - apply lloyd_error.
  - intros He. inversion He; subst e'. left. eapply seed_error. eassumption.
  - discriminate.
Qed.

Lemma paint000_error :
  forall seg labels centroids pixels i h h' e,
    Part000.paint (num := num) h seg labels centroids pixels i = (h', Throw e) ->
    e = TypeError.
Proof.
  intros seg labels centroids pixels.
  induction pixels as [|p pixels IH]; intros i h h' e Hp; simpl in Hp; [discriminate|].
  destruct (nth_error labels i) as [cl|]; [|congruence].
  destruct (nth_error centroids cl) as [[ce|]|]; try congruence.
  eapply IH. eassumption.
Qed.

Lemma paint000_ok :
  forall seg labels centroids pixels i h,
    (forall q, (i <= q < i + length pixels)%nat ->
               exists l ce, nth_error labels q = Some l
                            /\ nth_error centroids l = Some (Some ce)) ->
    exists h', Part000.paint (num := num) h seg labels centroids pixels i = (h', Ok tt).
Proof.
  intros seg labels centroids pixels.
  induction pixels as [|p pixels IH]; intros i h Hall; simpl.
  - eauto.
  - destruct (Hall i) as (l & ce & Hl & Hc); [simpl; lia|].
    unfold Part000.centroid in *.
    rewrite Hl, Hc. apply IH. intros q Hq. apply Hall. simpl. lia.
Qed.

(** Whenever the k-means++ variant returns, there is one label per
    pixel, every label is below [k], and there are [k] centroids. *)
Lemma kMeans000_labels :
  forall fuel h img k h' r,
    (1 <= k)%Z ->
    Part000.kMeansSegmentation random fuel h img k = (h', Ok r) ->
    length (Part000.labels r) = length (extractPixels (num := num) (bytes h img))
    /\ Forall (fun l => l < Z.to_nat k)%nat (Part000.labels r)
    /\ length (Part000.centroids r) = Z.to_nat k.
Proof.
  intros fuel h img k h' r Hk Hrun. unfold Part000.kMeansSegmentation in Hrun.
  destruct (newImageData h (width img) (height img)) as [h1 [seg| |]];
    try discriminate.
  destruct (Part000.cluster_pixels random fuel (bytes h img) k) as [st| |] eqn:Hc;
    try discriminate.
  destruct (Part000.paint h1 seg _ _ _ 0) as [h2 [[]| |]]; try discriminate.
  inversion Hrun; subst. simpl. eapply cluster_pixels_result; eassumption.
Qed.

(** Its errors are those of the runtime. *)
Lemma kMeans000_error :
  forall fuel h img k h' e,
    Part000.kMeansSegmentation random fuel h img k = (h', Throw e) -> runtime_error e.
Proof.
  intros fuel h img k h' e Hrun. unfold Part000.kMeansSegmentation in Hrun.
  unfold newImageData in Hrun.
  destruct ((width img <=? 0)%Z || (height img <=? 0)%Z).
  - inversion Hrun. right. right. reflexivity.
  - destruct (Part000.cluster_pixels random fuel (bytes h img) k) as [st|e'|] eqn:Hc.
    + destruct (Part000.paint _ _ _ _ _ 0) as [h2 [[]|e'|]] eqn:Hp; try discriminate.
      inversion Hrun; subst. apply paint000_error in Hp. left. assumption.
    + inversion Hrun; subst. apply cluster_pixels_error in Hc.
      destruct Hc; [left|right; left]; assumption.
    + discriminate.
Qed.

(** Without clusters the first assignment reads an accumulator that does
    not exist; a negative [k] is refused by [Array(k)]. *)
Lemma kMeans000_bad_k :
  forall fuel h img k,
    wf_image h img -> (k <= 0)%Z ->
    exists h',
      Part000.kMeansSegmentation random (S fuel) h img k
      = (h', Throw (if (k <? 0)%Z then RangeError else TypeError)).
Proof.
  intros fuel h img k Hwf Hk.
  pose proof (wf_pixel_count (num := num) Hwf) as Hn.
  pose proof Hwf as (Hw & Hh & _ & Hlen & _).
  unfold Part000.kMeansSegmentation. rewrite newImageData_ok by assumption.
  eexists. unfold Part000.cluster_pixels.
  replace (Nat.eqb (length (bytes h img) mod 4) 0) with true.
  2:{ symmetry. apply Nat.eqb_eq. rewrite Hlen.
      replace (Z.to_nat (4 * width img * height img))
        with (Z.to_nat (width img * height img) * 4)%nat by lia.
      apply Nat.Div0.mod_mul. }
  cbn [negb]. cbn [Part000.seed length].
  replace (Z.of_nat 1 <? k)%Z with false by (symmetry; apply Z.ltb_ge; lia).
  cbn [bind fst snd Part000.lloyd]. unfold Part000.newClusters.
  destruct (k <? 0)%Z eqn:Hneg; [reflexivity|].
  apply Z.ltb_ge in Hneg. assert (k = 0%Z) by lia. subst k.
  cbn [bind Z.to_nat repeat].
  destruct (extractPixels (bytes h img)) as [|px pixels] eqn:Hpx.
  - exfalso. simpl in Hn. lia.
  - cbn [Part000.assign Part000.centroids_at Part000.nearest].
    destruct (Part000.randomElement (random 0) (px :: pixels)) as [ce|];
      cbn [Part000.euclideanDistance bind]; [|reflexivity].
    destruct (_ <? _)%js; reflexivity.
Qed.

End KMeans000Result.

(** ** The k-means++ variant returns, in exact arithmetic *)

Module KMeansReal.
Import RealNumber RealFacts.
Local Open Scope R_scope.

(** A pixel with three finite channels, and a centroid that is one. *)
Definition fin_pixel (p : list xreal) : Prop :=
  exists a b c : R, p = [Finite a; Finite b; Finite c].

Definition seeded (c : option (list xreal)) : Prop :=
  exists p, c = Some p /\ fin_pixel p.

Lemma extractPixels_finite :
  forall n (d : buffer),
    length d = (4 * n)%nat -> Forall fin_pixel (extractPixels (num := xreal) d).
Proof.
  induction n as [|n IH]; intros d Hd.
  - destruct d; [constructor|discriminate].
  - destruct d as [|r [|g [|b [|a rest]]]]; simpl in Hd; try lia.
    simpl. constructor.
    + exists (IZR r), (IZR g), (IZR b). reflexivity.
    + apply IH. lia.
Qed.

Lemma distance_finite :
  forall p c,
    fin_pixel p -> fin_pixel c ->
    exists r, Part000.euclideanDistance p (Some c) = Ok (Finite r) /\ 0 <= r.
Proof.
  intros p c (a0 & a1 & a2 & ->) (b0 & b1 & b2 & ->).
  unfold Part000.euclideanDistance.
  cbn [sumSquares elem nth_error sqr ofZ nadd nsub nmul nsqrt xreal_Number
       x_add x_sub x_opp x_mul x_sqrt].
  rewrite Rltb_false.
  - eexists. split; [reflexivity|]. apply sqrt_pos.
  - pose proof (Rle_0_sqr (a0 + - b0)) as S0.
    pose proof (Rle_0_sqr (a1 + - b1)) as S1.
    pose proof (Rle_0_sqr (a2 + - b2)) as S2.
    unfold Rsqr in S0, S1, S2. lra.
Qed.

Lemma distances_to_centroids :
  forall p centroids,
    fin_pixel p -> Forall seeded centroids ->
    exists rs, mapM (Part000.euclideanDistance p) centroids = Ok (map Finite rs)
               /\ Forall (fun r => 0 <= r) rs
               /\ length rs = length centroids.
Proof.
  intros p centroids Hp Hall.
  induction Hall as [|c cs (pc & -> & Hc) _ IH].
  - exists []. simpl. auto.
  - destruct IH as (rs & Hrs & Hpos & Hlen).
    destruct (distance_finite Hp Hc) as (r & Hr & Hr0).
    exists (r :: rs). cbn [mapM]. rewrite Hr, Hrs. simpl.
    split; [reflexivity|]. split; [constructor; assumption|congruence].
Qed.

(** [Math.min] over non-negative numbers, from [Infinity] or from a
    non-negative number. *)
Lemma min_fold :
  forall rs a,
    0 <= a -> Forall (fun r => 0 <= r) rs ->
    exists m, fold_left x_min (map Finite rs) (Finite a) = Finite m /\ 0 <= m.
Proof.
  induction rs as [|r rs IH]; intros a Ha Hall; simpl.
  - eauto.
  - inversion Hall; subst. destruct (Rltb a r); apply IH; assumption.
Qed.

Lemma nearestDistance_finite :
  forall p centroids,
    fin_pixel p -> Forall seeded centroids -> centroids <> [] ->
    exists r, Part000.nearestDistance centroids p = Ok (Finite r) /\ 0 <= r.
Proof.
  intros p centroids Hp Hall Hne.
  destruct (distances_to_centroids Hp Hall) as (rs & Hrs & Hpos & Hlen).
  unfold Part000.nearestDistance. rewrite Hrs. cbn [bind].
  destruct rs as [|r rs]; [destruct centroids; [congruence|discriminate]|].
  inversion Hpos; subst.
  destruct (@min_fold rs r) as (m & Hm & Hm0); try assumption.
  exists m. split; [|assumption]. cbn [map fold_left infinity nmin xreal_Number x_min x_ltb].
  exact (f_equal Ok Hm).
Qed.

Lemma weights_finite :
  forall pixels centroids,
    Forall fin_pixel pixels -> Forall seeded centroids -> centroids <> [] ->
    exists rs, mapM (Part000.nearestDistance centroids) pixels = Ok (map Finite rs)
               /\ Forall (fun r => 0 <= r) rs
               /\ length rs = length pixels.
Proof.
  intros pixels centroids Hpx Hall Hne.
  induction Hpx as [|p ps Hp _ IH].
  - exists []. simpl. auto.
  - destruct IH as (rs & Hrs & Hpos & Hlen).
    destruct (nearestDistance_finite Hp Hall Hne) as (r & Hr & Hr0).
    exists (r :: rs). cbn [mapM]. rewrite Hr, Hrs. simpl.
    split; [reflexivity|]. split; [constructor; assumption|congruence].
Qed.

Lemma sum_fold :
  forall rs a, fold_left x_add (map Finite rs) (Finite a) = Finite (fold_left Rplus rs a).
Proof.
  induction rs as [|r rs IH]; intros a; simpl; [reflexivity|apply IH].
Qed.

Lemma sum_fold_ge :
  forall rs a, Forall (fun r => 0 <= r) rs -> a <= fold_left Rplus rs a.
Proof.
  induction rs as [|r rs IH]; intros a Hall; simpl; [lra|].
  inversion Hall; subst. specialize (IH (a + r) H2). lra.
Qed.

(** The sampling loop finds a pixel when the threshold does not exceed the
    total weight. *)
Lemma sample_some :
  forall pixels rs c0 t,
    length rs = length pixels -> pixels <> [] ->
    Forall (fun r => 0 <= r) rs ->
    t <= fold_left Rplus rs c0 ->
    exists p, Part000.sample pixels (map Finite rs) (Finite c0) (Finite t) = Some p
              /\ In p pixels.
Proof.
  induction pixels as [|p pixels IH]; intros rs c0 t Hlen Hne Hall Ht; [congruence|].
  destruct rs as [|r rs]; [discriminate|]. simpl in Hlen, Ht.
  inversion Hall; subst.
  cbn [Part000.sample map nadd nleb xreal_Number x_add x_leb].
  destruct (Rleb t (c0 + r)) eqn:Hle.
  - exists p. split; [reflexivity|left; reflexivity].
  - destruct pixels as [|p' pixels].
    + destruct rs; [|discriminate]. simpl in Ht.
      rewrite Rleb_true in Hle by assumption. discriminate.
    + destruct (IH rs (c0 + r) t) as (q & Hq & Hin);
        [lia|discriminate|assumption|assumption|].
      exists q. split; [assumption|right; assumption].
Qed.

Section Draws.
Variable random : nat -> xreal.
Hypothesis draws_in_range : forall c, unit_draw (random c).

(** A draw among the elements of a non-empty list selects one of them. *)
Lemma randomElement_some :
  forall (A : Type) (l : list A) c,
    l <> [] -> exists a, Part000.randomElement (random c) l = Some a /\ In a l.
Proof.
  intros A l c Hne. destruct (draws_in_range c) as (u & -> & Hu).
  assert (Hlen : (0 < length l)%nat) by (destruct l; [congruence|simpl; lia]).
  destruct (draw_index Hu Hlen) as [Hidx Hlt].
  unfold Part000.randomElement. rewrite Hidx.
  destruct (nth_error l (Z.to_nat (Zfloor (u * IZR (Z.of_nat (length l)))))) as [a|] eqn:Ha.
  - exists a. split; [reflexivity|]. eapply nth_error_In. eassumption.
  - apply nth_error_None in Ha. lia.
Qed.

Lemma seed_ok :
  forall fuel pixels k centroids c,
    pixels <> [] -> Forall fin_pixel pixels ->
    centroids <> [] -> Forall seeded centroids ->
    (k - Z.of_nat (length centroids) <= Z.of_nat fuel)%Z ->
    exists centroids' c',
      Part000.seed random fuel pixels k centroids c = Ok (centroids', c')
      /\ Forall seeded centroids'.
Proof.
  induction fuel as [|fuel IH]; intros pixels k centroids c Hne Hpx Hcne Hall Hfuel;
    simpl; unfold Part000.centroid.
  - destruct (Z.of_nat (length centroids) <? k)%Z eqn:Hlt;
      [apply Z.ltb_lt in Hlt; exfalso; lia
      |exists centroids, c; split; [reflexivity|assumption]].
  - destruct (Z.of_nat (length centroids) <? k)%Z eqn:Hlt;
      [|exists centroids, c; split; [reflexivity|assumption]].
    apply Z.ltb_lt in Hlt.
    destruct (weights_finite Hpx Hall Hcne) as (rs & Hrs & Hpos & Hlen).
    rewrite Hrs. cbn [bind].
    destruct (draws_in_range c) as (u & Hu & Hrange). rewrite Hu.
    change (ofZ 0) with (Finite 0). rewrite sum_fold.
    cbn [nmul xreal_Number x_mul].
    pose proof (sum_fold_ge 0 Hpos) as Hsum.
    destruct (@sample_some pixels rs 0 (u * fold_left Rplus rs 0)) as (p & Hp & Hin);
      try assumption; [nra|].
    rewrite Hp. apply IH; try assumption.
    + destruct centroids; discriminate.
    + apply Forall_app. split; [assumption|]. constructor; [|constructor].
      exists p. split; [reflexivity|]. rewrite Forall_forall in Hpx. auto.
    + rewrite length_app. simpl. lia.
Qed.

(** The update keeps every centroid defined. *)
Lemma update_defined :
  forall clusters centroids c new c',
    centroids <> [] -> Forall (fun ce => ce <> None) centroids ->
    Part000.update random clusters centroids c = (new, c') ->
    Forall (fun ce => ce <> None) new.
Proof.
  induction clusters as [|cl clusters IH]; intros centroids c new c' Hne Hall Hu;
    simpl in Hu.
  - inversion Hu. constructor.
  - destruct (0 <? Part000.count cl)%nat.
    + destruct (Part000.update random clusters centroids c) as [rest c1] eqn:Hrest.
      inversion Hu; subst. constructor; [discriminate|]. eapply IH; eassumption.
    + destruct (Part000.update random clusters centroids (S c)) as [rest c1] eqn:Hrest.
      inversion Hu; subst. constructor; [|eapply IH; eassumption].
      destruct (@randomElement_some _ centroids c Hne) as (ce & Hce & Hin).
      unfold Part000.centroid in *. rewrite Hce.
      rewrite Forall_forall in Hall. auto.
Qed.

Lemma lloyd_ok :
  forall fuel pixels k iterations st,
    (1 <= k)%Z -> (0 <= iterations)%Z ->
    (Z.max 1 (101 - iterations) <= Z.of_nat fuel)%Z ->
    length (Part000.centroids_at st) = Z.to_nat k ->
    Forall (fun ce => ce <> None) (Part000.centroids_at st) ->
    exists st', Part000.lloyd random fuel pixels k iterations st = Ok st'
                /\ Forall (fun ce => ce <> None) (Part000.centroids_at st').
Proof.
  induction fuel as [|fuel IH]; intros pixels k iterations st Hk Hit Hfuel Hlen Hall;
    [lia|].
  simpl. unfold Part000.newClusters.
  destruct (k <? 0)%Z eqn:Hneg; [apply Z.ltb_lt in Hneg; lia|]. cbn [bind].
  destruct (@assign_ok _ _ pixels 0%nat (Part000.centroids_at st)
              (Part000.mkPass (Part000.labels_at st)
                 (repeat (Part000.mkCluster [ofZ 0; ofZ 0; ofZ 0] 0) (Z.to_nat k)) false))
    as (p & Hp);
    [assumption
    |unfold Part000.centroid in *; lia
    |simpl; rewrite repeat_length; unfold Part000.centroid in *; lia|].
  rewrite Hp. cbn [bind].
  destruct (Part000.update random (Part000.clusters_of p) (Part000.centroids_at st)
              (Part000.draws_at st)) as [cs c] eqn:Hu.
  assert (Hcs : Forall (fun ce => ce <> None) cs).
  { eapply update_defined; [|exact Hall|exact Hu].
    destruct (Part000.centroids_at st); [simpl in Hlen; exfalso; lia|discriminate]. }
  assert (Hcl : length cs = Z.to_nat k).
  { pose proof Hu as Hn. apply update_spec in Hn. destruct Hn as (Hn & _).
    apply assign_clusters_length in Hp.
    simpl in Hp. rewrite repeat_length in Hp. congruence. }
  destruct (Part000.changed_of p && (iterations <? 100)%Z) eqn:Hgo.
  - apply andb_prop in Hgo. destruct Hgo as [_ Hlt]. apply Z.ltb_lt in Hlt.
    apply IH; cbn [Part000.centroids_at]; try assumption; lia.
  - eexists. split; [reflexivity|]. assumption.
Qed.

Lemma cluster_pixels_ok :
  forall fuel h img k,
    wf_image h img -> (1 <= k)%Z ->
    (101 <= fuel)%nat -> (k <= Z.of_nat fuel)%Z ->
    exists st, Part000.cluster_pixels random fuel (bytes h img) k = Ok st
               /\ Forall (fun ce => ce <> None) (Part000.centroids_at st).
Proof.
  intros fuel h img k Hwf Hk Hfuel Hkfuel.
  pose proof (wf_pixel_count (num := xreal) Hwf) as Hn.
  pose proof Hwf as (Hw & Hh & _ & Hlen & _).
  assert (Hlen4 : length (bytes h img) = (4 * Z.to_nat (width img * height img))%nat)
    by (rewrite Hlen; lia).
  pose proof (@extractPixels_finite _ _ Hlen4) as Hfin.
  assert (Hne : extractPixels (num := xreal) (bytes h img) <> []).
  { intro Hnil. rewrite Hnil in Hn. simpl in Hn. lia. }
  unfold Part000.cluster_pixels.
  replace (Nat.eqb (length (bytes h img) mod 4) 0) with true.
  2:{ symmetry. apply Nat.eqb_eq. rewrite Hlen4, Nat.mul_comm.
      apply Nat.Div0.mod_mul. }
  cbn [negb].
  destruct (@randomElement_some _ (extractPixels (bytes h img)) 0%nat Hne)
    as (p0 & Hp0 & Hin0).
  rewrite Hp0.
  destruct (@seed_ok fuel (extractPixels (bytes h img)) k [Some p0] 1%nat)
    as (cs & c & Hs & Hseeded); try assumption; try discriminate.
  { constructor; [|constructor]. exists p0. split; [reflexivity|].
    rewrite Forall_forall in Hfin. auto. }
  { simpl. lia. }
  rewrite Hs. cbn [bind fst snd].
  apply lloyd_ok; try lia; cbn [Part000.centroids_at].
  - apply seed_length in Hs; [|simpl; lia]. unfold Part000.centroid in *. lia.
  - eapply Forall_impl; [|exact Hseeded]. intros ce (q & -> & _). discriminate.
Qed.

(** On a well-formed image, with draws of [0, 1) and [k >= 1]
    (whether or not [k] exceeds the number of pixels), the k-means++
    variant returns. *)
Lemma kMeans000_returns :
  forall fuel h img k,
    wf_image h img -> (1 <= k)%Z ->
    (101 <= fuel)%nat -> (k <= Z.of_nat fuel)%Z ->
    exists h' r, Part000.kMeansSegmentation random fuel h img k = (h', Ok r).
Proof.
  intros fuel h img k Hwf Hk Hfuel Hkfuel.
  pose proof Hwf as (Hw & Hh & _).
  destruct (cluster_pixels_ok Hwf Hk Hfuel Hkfuel) as (st & Hc & Hdef).
  pose proof (cluster_pixels_result _ _ _ Hk Hc) as (Hl1 & Hl2 & Hl3).
  unfold Part000.kMeansSegmentation. rewrite newImageData_ok by assumption.
  rewrite Hc.
  edestruct (@paint000_ok xreal _) as (h2 & Hpaint); [|rewrite Hpaint; eauto].
  intros q Hq. simpl in Hq.
  destruct (nth_error (Part000.labels_at st) q) as [l|] eqn:Hl;
    [|apply nth_error_None in Hl; lia].
  assert (Hlt : (l < Z.to_nat k)%nat).
  { rewrite Forall_forall in Hl2. apply Hl2. eapply nth_error_In. eassumption. }
  destruct (nth_error (Part000.centroids_at st) l) as [[ce|]|] eqn:Hce.
  - eauto.
  - exfalso. rewrite Forall_forall in Hdef.
    apply (Hdef None); [eapply nth_error_In; eassumption|reflexivity].
  - apply nth_error_None in Hce. unfold Part000.centroid in *. lia.
Qed.

End Draws.

End KMeansReal.

(** ** The random-seeding variant returns labels below [k] *)

Section KMeans001.
Context {num : Type} `{Number num}.
Variable random : nat -> num.

Lemma nearest001_range :
  forall pixel centroids j minDist cluster,
    let ci := Part001.nearest (num := num) pixel centroids j minDist cluster in
    ci = cluster \/ (j <= ci < j + length centroids)%nat.
Proof.
  intros pixel centroids.
  induction centroids as [|c cs IH]; intros j m c0; simpl.
  - auto.
  - destruct (Part001.colorDistance pixel c <? m)%js.
    + destruct (IH (S j) (Part001.colorDistance pixel c) j) as [->|Hr]; right; lia.
    + destruct (IH (S j) m c0) as [->|Hr]; auto; right; lia.
Qed.

Lemma assign001_ok :
  forall pixels centroids clusters labels,
    (1 <= length centroids)%nat ->
    length clusters = length centroids ->
    exists clusters' new,
      Part001.assign (num := num) pixels centroids clusters labels
      = Ok (clusters', labels ++ new)
      /\ length clusters' = length centroids
      /\ length new = length pixels
      /\ Forall (fun l => l < length centroids)%nat new.
Proof.
  induction pixels as [|px pixels IH]; intros centroids clusters labels Hne Hlen; simpl.
  - exists clusters, []. rewrite app_nil_r. auto.
  - pose proof (nearest001_range px centroids 0 infinity 0) as Hr. cbv zeta in Hr.
    set (ci := Part001.nearest px centroids 0 infinity 0) in *.
    assert (Hci : (ci < length centroids)%nat) by lia.
    unfold Part001.push_member.
    destruct (nth_error clusters ci) as [members|] eqn:Hm;
      [|apply nth_error_None in Hm; exfalso; lia].
    cbn [bind].
    destruct (IH centroids (list_set ci (members ++ [px]) clusters) (labels ++ [ci]))
      as (clusters' & new & Hrun & Hcl & Hnew & Hall);
      [assumption|rewrite list_set_length; assumption|].
    exists clusters', (ci :: new). rewrite Hrun, <- app_assoc. simpl.
    repeat split; auto.
Qed.

Lemma update001_length :
  forall (clusters : list (list (list num))) centroids,
    length (Part001.update clusters centroids) = length centroids.
Proof.
  induction clusters as [|m clusters IH]; intros [|c centroids]; simpl; auto.
Qed.

Lemma initCentroids_length :
  forall n c, length (Part001.initCentroids random n c) = n.
Proof. induction n as [|n IH]; intros c; simpl; auto. Qed.

Lemma iterate_ok :
  forall n pixels k centroids labels,
    (1 <= k)%Z -> length centroids = Z.to_nat k ->
    (n = 0%nat -> length labels = length pixels
                  /\ Forall (fun l => l < Z.to_nat k)%nat labels) ->
    exists centroids' labels',
      Part001.iterate (num := num) n pixels k centroids labels = Ok (centroids', labels')
      /\ length centroids' = Z.to_nat k
      /\ length labels' = length pixels
      /\ Forall (fun l => l < Z.to_nat k)%nat labels'.
Proof.
  induction n as [|n IH]; intros pixels k centroids labels Hk Hcs Hls; simpl.
  - destruct (Hls eq_refl) as [Hlen Hall].
    exists centroids, labels. auto.
  - destruct (k <? 0)%Z eqn:Hneg; [apply Z.ltb_lt in Hneg; lia|].
    destruct (@assign001_ok pixels centroids (repeat [] (Z.to_nat k)) [])
      as (clusters' & new & Hrun & Hcl & Hnew & Hnall);
      [lia|rewrite repeat_length; lia|].
    rewrite Hrun. cbn [bind fst snd app].
    apply IH; try assumption.
    + rewrite update001_length. assumption.
    + intros _. rewrite <- Hcs. auto.
Qed.

Lemma kMeans001_returns :
  forall h img k,
    wf_image h img -> (1 <= k)%Z ->
    exists h' r,
      Part001.kMeansSegmentation random h img k = (h', Ok r)
      /\ length (Part001.labels r) = length (extractPixels (num := num) (bytes h img))
      /\ Forall (fun l => l < Z.to_nat k)%nat (Part001.labels r)
      /\ length (Part001.centroids r) = Z.to_nat k.
Proof.
  intros h img k Hwf Hk.
  pose proof Hwf as (Hw & Hh & _).
  unfold Part001.kMeansSegmentation. rewrite newImageData_ok by assumption.
  destruct (@iterate_ok 15 (extractPixels (bytes h img)) k
              (Part001.initCentroids random (Z.to_nat k) 0) [] Hk)
    as (cs & ls & Hit & Hcs & Hls & Hall);
    [apply initCentroids_length|discriminate|].
  rewrite Hit.
  edestruct (@finish_ok num _) as (h2 & Hfin);
    [exact Hls| |rewrite Hfin; do 2 eexists; split; [reflexivity|simpl; auto]].
  intros i l Hl. rewrite palette_length.
  rewrite Forall_forall in Hall. apply Hall. eapply nth_error_In. eassumption.
Qed.

End KMeans001.

(** C7: for every image that has pixels and every [k >= 1] (so for every
    [1 <= k <= n]), both k-means implementations return one label per pixel,
    each below [k], with [k] centroids.  The random-seeding variant always
    returns; the k-means++ variant returns in exact arithmetic with draws
    of [0, 1), and whenever it returns (in any arithmetic) its labels are
    below [k]. *)
Theorem kMeans_labels_below_k :
  (forall (num : Type) (N : Number num) (random : nat -> num) h img k,
      wf_image h img -> (1 <= k)%Z ->
      exists h' r,
        Part001.kMeansSegmentation random h img k = (h', Ok r)
        /\ length (Part001.labels r) = length (extractPixels (num := num) (bytes h img))
        /\ Forall (fun l => l < Z.to_nat k)%nat (Part001.labels r)
        /\ length (Part001.centroids r) = Z.to_nat k)
  /\ (forall (num : Type) (N : Number num) (random : nat -> num) fuel h img k h' r,
         (1 <= k)%Z ->
         Part000.kMeansSegmentation random fuel h img k = (h', Ok r) ->
         length (Part000.labels r) = length (extractPixels (num := num) (bytes h img))
         /\ Forall (fun l => l < Z.to_nat k)%nat (Part000.labels r)
         /\ length (Part000.centroids r) = Z.to_nat k)
  /\ (forall (random : nat -> RealNumber.xreal) fuel h img k,
         (forall c, RealNumber.unit_draw (random c)) ->
         wf_image h img -> (1 <= k)%Z ->
         (101 <= fuel)%nat -> (k <= Z.of_nat fuel)%Z ->
         exists h' r, Part000.kMeansSegmentation random fuel h img k = (h', Ok r)).
Proof.
  split; [|split].
  - intros num N random h img k Hwf Hk. apply kMeans001_returns; assumption.
  - intros num N random fuel h img k h' r Hk Hrun.
    eapply kMeans000_labels; eassumption.
  - intros random fuel h img k Hdraws Hwf Hk Hfuel Hkfuel.
    apply KMeansReal.kMeans000_returns; assumption.
Qed.

Lemma kMeans_labels_below_k_witness :
  (wf_image SampleImage.heap0 SampleImage.image0 /\ (1 <= 2)%Z
   /\ exists h' r,
        Part001.kMeansSegmentation SampleImage.draws_half
          SampleImage.heap0 SampleImage.image0 2 = (h', Ok r)
        /\ length (Part001.labels r)
           = length (extractPixels (num := FloatNumber.float)
                       (bytes SampleImage.heap0 SampleImage.image0))
        /\ Forall (fun l => l < Z.to_nat 2)%nat (Part001.labels r)
        /\ length (Part001.centroids r) = Z.to_nat 2)
  /\ (exists h' r,
        Part000.kMeansSegmentation SampleImage.draws_half 101
          SampleImage.heap0 SampleImage.image0 2 = (h', Ok r)
        /\ length (Part000.labels r)
           = length (extractPixels (num := FloatNumber.float)
                       (bytes SampleImage.heap0 SampleImage.image0))
        /\ Forall (fun l => l < Z.to_nat 2)%nat (Part000.labels r)
        /\ length (Part000.centroids r) = Z.to_nat 2)
  /\ ((forall c : nat, RealNumber.unit_draw (RealNumber.Finite (/ 2)))
      /\ (101 <= 101)%nat /\ (2 <= Z.of_nat 101)%Z
      /\ exists h' r,
           Part000.kMeansSegmentation (fun _ => RealNumber.Finite (/ 2)) 101
             SampleImage.heap0 SampleImage.image0 2 = (h', Ok r)).
Proof.
  assert (Hwf : wf_image SampleImage.heap0 SampleImage.image0).
  { unfold wf_image. simpl. repeat split; try lia.
    repeat (constructor; [lia|]). constructor. }
  assert (Hk : (1 <= 2)%Z) by lia.
  assert (Hdraws : forall c : nat, RealNumber.unit_draw (RealNumber.Finite (/ 2))).
  { intros _. exists (/ 2)%R. split; [reflexivity|lra]. }
  assert (Hfuel : (101 <= 101)%nat) by lia.
  assert (Hkfuel : (2 <= Z.of_nat 101)%Z) by lia.
  split; [|split].
  - split; [exact Hwf|]. split; [exact Hk|].
    exact (proj1 kMeans_labels_below_k FloatNumber.float _ SampleImage.draws_half
             SampleImage.heap0 SampleImage.image0 2%Z Hwf Hk).
  - do 2 eexists. split; [vm_compute; reflexivity|].
    refine (proj1 (proj2 kMeans_labels_below_k) FloatNumber.float _
              SampleImage.draws_half 101%nat SampleImage.heap0 SampleImage.image0
              2%Z _ _ Hk _).
    vm_compute. reflexivity.
  - split; [exact Hdraws|]. split; [exact Hfuel|]. split; [exact Hkfuel|].
    exact (proj2 (proj2 kMeans_labels_below_k) (fun _ => RealNumber.Finite (/ 2))
             101%nat SampleImage.heap0 SampleImage.image0 2%Z Hdraws Hwf Hk Hfuel Hkfuel).
Defined.

(** C5 (as the code behaves): the k-means++ variant does not check [k].
    For every [k >= 1], also when [k] exceeds the number of pixels, it
    returns a result with [k] centroids (exact arithmetic, draws of
    [0, 1)); for [k = 0] it fails with the [TypeError] of reading a missing
    accumulator and for [k < 0] with the [RangeError] of [Array(k)]; it never
    fails with [InvalidParameter]. *)
Theorem kMeans_does_not_check_k :
  (forall (random : nat -> RealNumber.xreal) fuel h img k,
      (forall c, RealNumber.unit_draw (random c)) ->
      wf_image h img -> (1 <= k)%Z ->
      (101 <= fuel)%nat -> (k <= Z.of_nat fuel)%Z ->
      exists h' r,
        Part000.kMeansSegmentation random fuel h img k = (h', Ok r)
        /\ length (Part000.centroids r) = Z.to_nat k
        /\ length (Part000.labels r)
           = length (extractPixels (num := RealNumber.xreal) (bytes h img)))
  /\ (forall (num : Type) (N : Number num) (random : nat -> num) fuel h img k,
         wf_image h img -> (k <= 0)%Z ->
         exists h',
           Part000.kMeansSegmentation random (S fuel) h img k
           = (h', Throw (if (k <? 0)%Z then RangeError else TypeError)))
  /\ (forall (num : Type) (N : Number num) (random : nat -> num) fuel h img k h' e,
         Part000.kMeansSegmentation random fuel h img k = (h', Throw e) ->
         runtime_error e /\ e <> InvalidParameter).
Proof.
  split; [|split].
  - intros random fuel h img k Hdraws Hwf Hk Hfuel Hkfuel.
    edestruct KMeansReal.kMeans000_returns as (h' & r & Hrun);
      [exact Hdraws|exact Hwf|exact Hk|exact Hfuel|exact Hkfuel|].
    exists h', r. split; [exact Hrun|].
    edestruct kMeans000_labels as (Hl & _ & Hc); [exact Hk|exact Hrun|]. auto.
  - intros num N random fuel h img k Hwf Hk. apply kMeans000_bad_k; assumption.
  - intros num N random fuel h img k h' e Hrun.
    apply kMeans000_error in Hrun. split; [assumption|].
    destruct Hrun as [->|[->| ->]]; discriminate.
Qed.

Lemma kMeans_does_not_check_k_witness :
  ((forall c : nat, RealNumber.unit_draw (RealNumber.Finite (/ 2)))
   /\ wf_image SampleImage.heap0 SampleImage.image0
   /\ (1 <= 5)%Z /\ (101 <= 101)%nat /\ (5 <= Z.of_nat 101)%Z
   /\ exists h' r,
        Part000.kMeansSegmentation (fun _ => RealNumber.Finite (/ 2)) 101
          SampleImage.heap0 SampleImage.image0 5 = (h', Ok r)
        /\ length (Part000.centroids r) = Z.to_nat 5
        /\ length (Part000.labels r)
           = length (extractPixels (num := RealNumber.xreal)
                       (bytes SampleImage.heap0 SampleImage.image0)))
  /\ ((0 <= 0)%Z
      /\ exists h',
           Part000.kMeansSegmentation SampleImage.draws_half 1
             SampleImage.heap0 SampleImage.image0 0
           = (h', Throw (if (0 <? 0)%Z then RangeError else TypeError)))
  /\ (exists h',
        Part000.kMeansSegmentation SampleImage.draws_half 101
          SampleImage.heap0 SampleImage.image0 (-1) = (h', Throw RangeError)
        /\ runtime_error RangeError /\ RangeError <> InvalidParameter).
Proof.
  assert (Hwf : wf_image SampleImage.heap0 SampleImage.image0).
  { unfold wf_image. simpl. repeat split; try lia.
    repeat (constructor; [lia|]). constructor. }
  assert (Hk : (1 <= 5)%Z) by lia.
  assert (Hdraws : forall c : nat, RealNumber.unit_draw (RealNumber.Finite (/ 2))).
  { intros _. exists (/ 2)%R. split; [reflexivity|lra]. }
  assert (Hfuel : (101 <= 101)%nat) by lia.
  assert (Hkfuel : (5 <= Z.of_nat 101)%Z) by lia.
  assert (H0 : (0 <= 0)%Z) by lia.
  split; [|split].
  - split; [exact Hdraws|]. split; [exact Hwf|]. split; [exact Hk|].
    split; [exact Hfuel|]. split; [exact Hkfuel|].
    exact (proj1 kMeans_does_not_check_k (fun _ => RealNumber.Finite (/ 2))
             101%nat SampleImage.heap0 SampleImage.image0 5%Z Hdraws Hwf Hk Hfuel Hkfuel).
  - split; [exact H0|].
    exact (proj1 (proj2 kMeans_does_not_check_k) FloatNumber.float _
             SampleImage.draws_half 0%nat SampleImage.heap0 SampleImage.image0 0%Z Hwf H0).
  - eexists. split; [vm_compute; reflexivity|].
    refine (proj2 (proj2 kMeans_does_not_check_k) FloatNumber.float _
              SampleImage.draws_half 101%nat SampleImage.heap0 SampleImage.image0
              (-1)%Z _ RangeError _).
    vm_compute. reflexivity.
Defined.

(** C5 (as stated): on the sample image of four pixels, as IEEE doubles
    compute, [k = 5] yields a result with five centroids and four labels,
    and [k = 0] a [TypeError]; neither is an [InvalidParameter] failure. *)
Lemma kMeans_accepts_large_k :
  (match Part000.kMeansSegmentation SampleImage.draws_half 101
           SampleImage.heap0 SampleImage.image0 5 with
   | (_, Ok r) => Some (length (Part000.centroids r), Part000.labels r)
   | _ => None
   end = Some (5%nat, [1; 1; 0; 0]%nat))
  /\ snd (Part000.kMeansSegmentation SampleImage.draws_half 101
            SampleImage.heap0 SampleImage.image0 0) = Throw TypeError.
Proof. vm_compute. split; reflexivity. Qed.

(** ** The silhouette score, in exact arithmetic *)

Module SilhouetteFacts.
Import RealNumber RealFacts KMeansReal SilhouetteSpec.
Local Open Scope R_scope.

Lemma distance_refines :
  forall p q,
    fin_pixel p -> fin_pixel q ->
    Metrics.euclideanDistance p q = Finite (distance p q).
Proof.
  intros p q (a0 & a1 & a2 & ->) (b0 & b1 & b2 & ->).
  unfold Metrics.euclideanDistance, distance.
  cbn [sumSquares elem nth_error sqr ofZ nadd nsub nmul nsqrt xreal_Number
       x_add x_sub x_opp x_mul x_sqrt chan].
  pose proof (Rle_0_sqr (a0 + - b0)) as S0.
  pose proof (Rle_0_sqr (a1 + - b1)) as S1.
  pose proof (Rle_0_sqr (a2 + - b2)) as S2.
  unfold Rsqr in S0, S1, S2.
  rewrite Rltb_false by lra.
  f_equal. f_equal. ring.
Qed.

Lemma distance_self : forall p, distance p p = 0.
Proof.
  intros p. unfold distance.
  replace ((chan p 0 - chan p 0) ^ 2 + (chan p 1 - chan p 1) ^ 2
           + (chan p 2 - chan p 2) ^ 2) with 0 by ring.
  apply sqrt_0.
Qed.

Lemma distance_nonneg : forall p q, 0 <= distance p q.
Proof. intros. unfold distance. apply sqrt_pos. Qed.

Lemma Rsum_app : forall l1 l2, Rsum (l1 ++ l2) = Rsum l1 + Rsum l2.
Proof.
  induction l1 as [|x l1 IH]; intros l2; simpl; [lra|]. rewrite IH. lra.
Qed.

Lemma Rsum_nonneg : forall l, Forall (fun r => 0 <= r) l -> 0 <= Rsum l.
Proof.
  induction 1 as [|x l Hx _ IH]; simpl; lra.
Qed.

Lemma totalDistance_from :
  forall p group a,
    fin_pixel p -> Forall fin_pixel group ->
    fold_left (fun total pixel => total + Metrics.euclideanDistance p pixel)%js
              group (Finite a)
    = Finite (a + Rsum (map (distance p) group)).
Proof.
  intros p group a Hp Hall. revert a.
  induction Hall as [|q group Hq _ IH]; intros a; cbn [fold_left map Rsum fold_right].
  - f_equal. lra.
  - rewrite (distance_refines Hp Hq).
    cbn [nadd xreal_Number x_add]. rewrite IH. f_equal.
    unfold Rsum. lra.
Qed.

Lemma totalDistance_refines :
  forall p group,
    fin_pixel p -> Forall fin_pixel group ->
    Metrics.totalDistance p group = Finite (Rsum (map (distance p) group)).
Proof.
  intros p group Hp Hall. unfold Metrics.totalDistance.
  change (ofZ 0) with (Finite 0).
  rewrite totalDistance_from by assumption. f_equal. lra.
Qed.

(** The members of a cluster, as the code filters them and as the
    specification names them. *)
Lemma members_refines :
  forall (pixels : list (list xreal)) labels idx l,
    (idx + length pixels <= length labels)%nat ->
    Metrics.members pixels labels idx (Some l)
    = UpdateSpec.members_of pixels (skipn idx labels) l.
Proof.
  induction pixels as [|p pixels IH]; intros labels idx l Hlen; simpl.
  - reflexivity.
  - simpl in Hlen.
    destruct (nth_error labels idx) as [x|] eqn:Hx;
      [|apply nth_error_None in Hx; lia].
    assert (Hskip : skipn idx labels = x :: skipn (S idx) labels).
    { clear -Hx. revert idx Hx. induction labels as [|y labels IHl]; intros [|idx] Hx;
        simpl in *; try discriminate.
      - congruence.
      - apply IHl. assumption. }
    rewrite Hskip. simpl.
    destruct (Nat.eqb x l); rewrite IH by lia; reflexivity.
Qed.

Lemma members_of_app :
  forall (p1 p2 : list (list xreal)) l1 l2 l,
    length p1 = length l1 ->
    UpdateSpec.members_of (p1 ++ p2) (l1 ++ l2) l
    = UpdateSpec.members_of p1 l1 l ++ UpdateSpec.members_of p2 l2 l.
Proof.
  induction p1 as [|p p1 IH]; intros p2 [|x l1] l2 l Hlen; simpl in *; try discriminate.
  - reflexivity.
  - destruct (Nat.eqb x l); rewrite IH by lia; reflexivity.
Qed.

Lemma members_of_fin :
  forall (pixels : list (list xreal)) labels l,
    Forall fin_pixel pixels -> Forall fin_pixel (UpdateSpec.members_of pixels labels l).
Proof.
  induction pixels as [|p pixels IH]; intros [|x labels] l Hall; simpl; try constructor.
  inversion Hall; subst.
  destruct (Nat.eqb x l); [constructor; auto|auto].
Qed.

(** The cluster of pixel [i] is its companions with the pixel itself
    somewhere among them. *)
Lemma own_cluster :
  forall (pixels : list (list xreal)) labels i p,
    length labels = length pixels ->
    nth_error pixels i = Some p ->
    exists A B,
      cluster pixels labels (nth i labels 0%nat) = A ++ p :: B
      /\ companions pixels labels i = A ++ B.
Proof.
  intros pixels labels i p Hlen Hp.
  assert (Hi : (i < length pixels)%nat) by (apply nth_error_Some; congruence).
  set (own := nth i labels 0%nat).
  assert (Hpx : pixels = firstn i pixels ++ p :: skipn (S i) pixels).
  { clear -Hp. revert i Hp. induction pixels as [|q pixels IH]; intros [|i] Hp;
      simpl in *; try discriminate.
    - congruence.
    - f_equal. apply IH. assumption. }
  assert (Hlb : labels = firstn i labels ++ own :: skipn (S i) labels).
  { unfold own. assert (Hi' : (i < length labels)%nat) by lia.
    clear -Hi'. revert i Hi'. induction labels as [|x labels IH]; intros [|i] Hi';
      simpl in *; try lia.
    - reflexivity.
    - f_equal. apply IH. lia. }
  exists (UpdateSpec.members_of (firstn i pixels) (firstn i labels) own),
         (UpdateSpec.members_of (skipn (S i) pixels) (skipn (S i) labels) own).
  split.
  - unfold cluster. rewrite Hpx at 1. rewrite Hlb at 1.
    rewrite members_of_app by (rewrite !length_firstn; lia).
    simpl. rewrite Nat.eqb_refl. reflexivity.
  - unfold companions, without. fold own.
    apply members_of_app. rewrite !length_firstn. lia.
Qed.

Lemma meanDistance_nonneg : forall p group, 0 <= meanDistance p group.
Proof.
  intros p group. unfold meanDistance.
  assert (Hs : 0 <= Rsum (map (distance p) group)).
  { apply Rsum_nonneg. apply Forall_forall. intros r Hr.
    apply in_map_iff in Hr. destruct Hr as (q & <- & _). apply distance_nonneg. }
  destruct group as [|q group].
  - simpl. lra.
  - apply Rmult_le_pos; [assumption|].
    apply Rlt_le, Rinv_0_lt_compat, lt_0_INR. simpl. lia.
Qed.

(** [interDistance / otherClusterPixels.length], guarded as in the code. *)
Lemma mean_refines :
  forall p group,
    fin_pixel p -> Forall fin_pixel group ->
    (if (0 <? length group)%nat
     then (Metrics.totalDistance p group / ofZ (Z.of_nat (length group)))%js
     else ofZ 0)
    = Finite (meanDistance p group).
Proof.
  intros p group Hp Hall. unfold meanDistance.
  destruct group as [|q group].
  - simpl. f_equal. lra.
  - rewrite (totalDistance_refines Hp Hall).
    replace (0 <? length (q :: group))%nat with true
      by (symmetry; apply Nat.ltb_lt; simpl; lia).
    cbn [ndiv ofZ xreal_Number x_div].
    rewrite <- INR_IZR_INZ.
    rewrite Reqb_false; [reflexivity|].
    apply not_0_INR. simpl. lia.
Qed.

(** [intraDistance / (sameClusterPixels.length - 1)], guarded as in the
    code: the mean distance to the companions of the pixel. *)
Lemma intra_refines :
  forall (pixels : list (list xreal)) labels i p,
    Forall fin_pixel pixels ->
    length labels = length pixels ->
    nth_error pixels i = Some p ->
    let same := Metrics.members pixels labels 0 (nth_error labels i) in
    (if (1 <? length same)%nat
     then (Metrics.totalDistance p same / ofZ (Z.of_nat (length same) - 1))%js
     else ofZ 0)
    = Finite (a_of pixels labels i p)
    /\ 0 <= a_of pixels labels i p.
Proof.
  intros pixels labels i p Hall Hlen Hp same.
  assert (Hi : (i < length labels)%nat) by (rewrite Hlen; apply nth_error_Some; congruence).
  assert (Hfp : fin_pixel p).
  { rewrite Forall_forall in Hall. apply Hall. eapply nth_error_In; eassumption. }
  assert (Hsame : same = cluster pixels labels (nth i labels 0%nat)).
  { unfold same. rewrite (nth_error_nth' labels 0%nat Hi).
    rewrite members_refines by (simpl; lia). reflexivity. }
  destruct (@own_cluster pixels labels i p Hlen Hp) as (A & B & Hcl & Hco).
  assert (Hfin : Forall fin_pixel (A ++ p :: B)).
  { rewrite <- Hcl. unfold cluster. apply members_of_fin. assumption. }
  split.
  - rewrite Hsame, Hcl.
    rewrite (totalDistance_refines Hfp Hfin).
    unfold a_of. rewrite Hco.
    rewrite map_app, Rsum_app. cbn [map Rsum fold_right]. rewrite distance_self.
    rewrite length_app. cbn [length].
    destruct (A ++ B) as [|q others] eqn:HAB.
    + apply app_eq_nil in HAB. destruct HAB as [-> ->]. simpl. reflexivity.
    + assert (Hn : (length A + length B = S (length others))%nat).
      { rewrite <- length_app, HAB. reflexivity. }
      replace (1 <? length A + S (length B))%nat with true
        by (symmetry; apply Nat.ltb_lt; lia).
      replace (Z.of_nat (length A + S (length B)) - 1)%Z
        with (Z.of_nat (length (q :: others))) by (simpl length; lia).
      cbn [ndiv ofZ xreal_Number x_div].
      rewrite <- INR_IZR_INZ.
      rewrite Reqb_false by (apply not_0_INR; simpl; lia).
      unfold meanDistance. f_equal. f_equal.
      fold (Rsum (map (distance p) B)).
      rewrite <- HAB, map_app, Rsum_app. lra.
  - unfold a_of. destruct (companions pixels labels i); [lra|apply meanDistance_nonneg].
Qed.

Lemma distinct_In :
  forall labels seen l,
    In l (Metrics.distinct labels seen) <-> In l labels /\ ~ In l seen.
Proof.
  induction labels as [|x labels IH]; intros seen l; simpl.
  - tauto.
  - destruct (existsb (Nat.eqb x) seen) eqn:Hex.
    + apply existsb_exists in Hex. destruct Hex as (y & Hy & Hxy).
      apply Nat.eqb_eq in Hxy. subst y.
      rewrite IH. split.
      * tauto.
      * intros [[->|Hin] Hnot]; [contradiction|tauto].
    + assert (Hx : ~ In x seen).
      { intros Hin. assert (existsb (Nat.eqb x) seen = true); [|congruence].
        apply existsb_exists. exists x. split; [assumption|apply Nat.eqb_refl]. }
      simpl. rewrite IH. simpl. split.
      * intros [->|[Hin Hnot]]; [tauto|]. split; [tauto|]. intros Hs. apply Hnot. tauto.
      * intros [[->|Hin] Hnot]; [tauto|].
        destruct (Nat.eq_dec x l) as [->|Hne]; [tauto|]. right. split; [assumption|].
        intros [Heq|Hs]; [contradiction|contradiction].
Qed.

Section Nearest.

Variable pixels : list (list xreal).
Variable labels : list nat.
Variable p : list xreal.
Variable own : nat.

Hypothesis pixels_finite : Forall fin_pixel pixels.
Hypothesis p_finite : fin_pixel p.
Hypothesis one_label_each : length labels = length pixels.

(** What [minInterDistance] holds once the labels [visited] have been
    looked at. *)
Definition best (visited : list nat) (b : xreal) : Prop :=
  (b = PInf /\ forall l, In l visited -> l = own)
  \/ (exists l, In l visited /\ l <> own
        /\ b = Finite (meanDistance p (cluster pixels labels l))
        /\ forall l', In l' visited -> l' <> own ->
             meanDistance p (cluster pixels labels l)
             <= meanDistance p (cluster pixels labels l')).

Lemma nearestCluster_best :
  forall uniqueLabels visited m,
    best visited m ->
    best (visited ++ uniqueLabels)
         (Metrics.nearestCluster pixels labels p (Some own) uniqueLabels m).
Proof.
  induction uniqueLabels as [|label rest IH]; intros visited m Hbest.
  - rewrite app_nil_r. exact Hbest.
  - cbn [Metrics.nearestCluster Metrics.same_label].
    replace (visited ++ label :: rest) with ((visited ++ [label]) ++ rest)
      by (rewrite <- app_assoc; reflexivity).
    destruct (Nat.eqb label own) eqn:Hown.
    + apply Nat.eqb_eq in Hown. subst label. apply IH.
      destruct Hbest as [[-> Hall]|(l & Hin & Hne & -> & Hmin)].
      * left. split; [reflexivity|]. intros l Hl.
        apply in_app_or in Hl. destruct Hl as [Hl|[<-|[]]]; auto.
      * right. exists l. repeat split; auto.
        -- apply in_or_app. left. assumption.
        -- intros l' Hl' Hne'. apply in_app_or in Hl'.
           destruct Hl' as [Hl'|[<-|[]]]; [auto|congruence].
    + apply Nat.eqb_neq in Hown. apply IH.
      rewrite members_refines by (simpl; lia). cbn [skipn].
      fold (cluster pixels labels label).
      rewrite mean_refines
        by (try assumption; unfold cluster; apply members_of_fin; assumption).
      set (mu := meanDistance p (cluster pixels labels label)).
      destruct Hbest as [[-> Hall]|(l & Hin & Hne & -> & Hmin)].
      * right. exists label. cbn [nmin xreal_Number x_min x_ltb].
        split; [apply in_or_app; right; left; reflexivity|].
        split; [assumption|]. split; [reflexivity|].
        intros l' Hl' Hne'. apply in_app_or in Hl'.
        destruct Hl' as [Hl'|[<-|[]]]; [|fold mu; lra].
        apply Hall in Hl'. contradiction.
      * cbn [nmin xreal_Number x_min x_ltb].
        destruct (Rltb (meanDistance p (cluster pixels labels l)) mu) eqn:Hlt.
        -- apply Rltb_spec in Hlt. right. exists l.
           split; [apply in_or_app; left; assumption|].
           split; [assumption|]. split; [reflexivity|].
           intros l' Hl' Hne'. apply in_app_or in Hl'.
           destruct Hl' as [Hl'|[<-|[]]]; [auto|fold mu; lra].
        -- assert (Hge : mu <= meanDistance p (cluster pixels labels l)).
           { destruct (Rle_dec mu (meanDistance p (cluster pixels labels l))) as [|Hn];
               [assumption|].
             assert (Rltb (meanDistance p (cluster pixels labels l)) mu = true);
               [apply Rltb_true; lra|congruence]. }
           right. exists label.
           split; [apply in_or_app; right; left; reflexivity|].
           split; [assumption|]. split; [reflexivity|].
           intros l' Hl' Hne'. apply in_app_or in Hl'.
           destruct Hl' as [Hl'|[<-|[]]]; [|fold mu; lra].
           specialize (Hmin l' Hl' Hne'). fold mu. lra.
Qed.

End Nearest.

(** [b] as the code computes it is [b] as the specification words it. *)
Lemma nearest_refines :
  forall (pixels : list (list xreal)) labels i p,
    Forall fin_pixel pixels ->
    length labels = length pixels ->
    nth_error pixels i = Some p ->
    b_of pixels labels i p
         (Metrics.nearestCluster pixels labels p (nth_error labels i)
                                 (Metrics.distinct labels []) infinity).
Proof.
  intros pixels labels i p Hall Hlen Hp.
  assert (Hi : (i < length labels)%nat) by (rewrite Hlen; apply nth_error_Some; congruence).
  assert (Hfp : fin_pixel p).
  { rewrite Forall_forall in Hall. apply Hall. eapply nth_error_In; eassumption. }
  rewrite (nth_error_nth' labels 0%nat Hi).
  set (own := nth i labels 0%nat).
  assert (Hstart : best pixels labels p own [] PInf).
  { left. split; [reflexivity|]. intros l []. }
  pose proof (@nearestCluster_best pixels labels p own Hall Hfp Hlen
                (Metrics.distinct labels []) [] PInf Hstart) as Hb.
  cbn [app] in Hb. unfold b_of. fold own.
  change (@infinity xreal _) with PInf.
  destruct Hb as [[-> Hsame]|(l & Hin & Hne & -> & Hmin)].
  - left. split; [|reflexivity]. intros l Hl. apply Hsame.
    apply distinct_In. split; [assumption|intros []].
  - right. exists l. apply distinct_In in Hin. destruct Hin as [Hin _].
    split; [assumption|]. split; [assumption|]. split; [reflexivity|].
    intros l' Hl' Hne'. apply Hmin; [|assumption].
    apply distinct_In. split; [assumption|intros []].
Qed.

(** The coefficient of one pixel. *)
Lemma pixelScore_refines :
  forall (pixels : list (list xreal)) labels i p,
    Forall fin_pixel pixels ->
    length labels = length pixels ->
    nth_error pixels i = Some p ->
    exists b,
      b_of pixels labels i p b
      /\ Metrics.pixelScore pixels labels (Metrics.distinct labels []) p i
         = score (a_of pixels labels i p) b.
Proof.
  intros pixels labels i p Hall Hlen Hp.
  pose proof (nearest_refines labels i Hall Hlen Hp) as Hb.
  destruct (intra_refines labels i Hall Hlen Hp) as [Ha Hpos].
  cbv zeta in Ha.
  eexists. split; [exact Hb|].
  unfold Metrics.pixelScore. rewrite Ha.
  set (a := a_of pixels labels i p) in *.
  set (b := Metrics.nearestCluster _ _ _ _ _ _) in *.
  unfold score.
  cbn [neqb ofZ xreal_Number x_eqb]. unfold Reqb.
  destruct (Req_dec_T a 0) as [|Hne]; [reflexivity|].
  destruct Hb as [[_ ->]|(l & _ & _ & -> & _)].
  - reflexivity.
  - pose proof (meanDistance_nonneg p (cluster pixels labels l)) as Hm.
    set (m := meanDistance p (cluster pixels labels l)) in *.
    cbn [nsub nmax ndiv xreal_Number x_sub x_add x_opp x_max x_ltb x_div].
    assert (Hmax : (if Rltb a m then Finite m else Finite a) = Finite (Rmax a m)).
    { unfold Rmax. destruct (Rle_dec a m) as [Hle|Hgt].
      - destruct (Rltb a m) eqn:Hlt; [reflexivity|].
        f_equal. destruct (Rlt_dec a m) as [Hl|Hl];
          [rewrite (Rltb_true Hl) in Hlt; discriminate|lra].
      - rewrite Rltb_false by lra. reflexivity. }
    rewrite Hmax.
    rewrite Reqb_false; [reflexivity|].
    pose proof (Rmax_l a m). lra.
Qed.

(** The main loop adds up the coefficients in pixel order. *)
Lemma scoreLoop_sum :
  forall (pixels : list (list xreal)) labels uniqueLabels todo i acc,
    Metrics.scoreLoop pixels labels uniqueLabels todo i acc
    = fold_left x_add
        (mapi_from (fun p j => Metrics.pixelScore pixels labels uniqueLabels p j) i todo)
        acc.
Proof.
  intros pixels labels uniqueLabels todo.
  induction todo as [|p todo IH]; intros i acc; simpl; [reflexivity|apply IH].
Qed.

Lemma mapi_from_length :
  forall (A B : Type) (f : A -> nat -> B) l i, length (mapi_from f i l) = length l.
Proof.
  induction l as [|a l IH]; intros i; simpl; [reflexivity|rewrite IH; reflexivity].
Qed.

Lemma mapi_from_nth :
  forall (A B : Type) (f : A -> nat -> B) l i j a,
    nth_error l j = Some a -> nth_error (mapi_from f i l) j = Some (f a (i + j)%nat).
Proof.
  induction l as [|x l IH]; intros i [|j] a Hj; simpl in *; try discriminate.
  - inversion Hj; subst. rewrite Nat.add_0_r. reflexivity.
  - rewrite (IH (S i) j a Hj). f_equal. f_equal. lia.
Qed.

End SilhouetteFacts.

(** C3: on an image and one label per pixel, [calculateSilhouetteScore]
    returns the mean of the per-pixel scores, where the score of pixel [i]
    is 0 when [a] is 0 and [(b - a) / max(a, b)] otherwise, [a] being the
    mean distance from the pixel to the other pixels of its own cluster
    (0 when it is alone there) and [b] the least, over the other clusters,
    of the mean distance from the pixel to the pixels of that cluster
    (+Infinity when there is no other cluster, which leaves the score
    undefined).  Arithmetic is exact. *)
Theorem silhouette_refines :
  forall h img labels,
    wf_image h img ->
    length labels = length (extractPixels (num := RealNumber.xreal) (bytes h img)) ->
    exists scores,
      length scores = length labels
      /\ Metrics.calculateSilhouetteScore h img labels = SilhouetteSpec.meanScore scores
      /\ forall i p,
           nth_error (extractPixels (bytes h img)) i = Some p ->
           exists b,
             SilhouetteSpec.b_of (extractPixels (bytes h img)) labels i p b
             /\ nth_error scores i
                = Some (SilhouetteSpec.score
                          (SilhouetteSpec.a_of (extractPixels (bytes h img)) labels i p) b).
Proof.
  intros h img labels Hwf Hlen.
  pose proof (wf_pixel_count (num := RealNumber.xreal) Hwf) as Hn.
  pose proof Hwf as (Hw & Hh & _ & Hlen4 & _).
  assert (Hbuf : length (bytes h img) = (4 * Z.to_nat (width img * height img))%nat)
    by (rewrite Hlen4; lia).
  pose proof (@KMeansReal.extractPixels_finite _ _ Hbuf) as Hfin.
  set (pixels := extractPixels (num := RealNumber.xreal) (bytes h img)) in *.
  exists (mapi_from (fun p j => Metrics.pixelScore pixels labels (Metrics.distinct labels []) p j)
                    0 pixels).
  split; [rewrite SilhouetteFacts.mapi_from_length; symmetry; exact Hlen|].
  split.
  - unfold Metrics.calculateSilhouetteScore, SilhouetteSpec.meanScore.
    fold pixels. rewrite SilhouetteFacts.scoreLoop_sum.
    rewrite SilhouetteFacts.mapi_from_length.
    cbn [ndiv ofZ RealNumber.xreal_Number]. rewrite <- INR_IZR_INZ. reflexivity.
  - intros i p Hp.
    destruct (@SilhouetteFacts.pixelScore_refines pixels labels i p Hfin Hlen Hp)
      as (b & Hb & Hscore).
    exists b. split; [exact Hb|].
    rewrite (SilhouetteFacts.mapi_from_nth _ _ 0 _ Hp). simpl. rewrite Hscore. reflexivity.
Qed.

Lemma silhouette_refines_witness :
  let pixels := extractPixels (num := RealNumber.xreal)
                  (bytes SampleImage.heap0 SampleImage.image0) in
  let labels := [0; 0; 1; 1]%nat in
  wf_image SampleImage.heap0 SampleImage.image0
  /\ length labels = length pixels
  /\ exists scores,
       length scores = length labels
       /\ Metrics.calculateSilhouetteScore SampleImage.heap0 SampleImage.image0 labels
          = SilhouetteSpec.meanScore scores
       /\ forall i p,
            nth_error pixels i = Some p ->
            exists b,
              SilhouetteSpec.b_of pixels labels i p b
              /\ nth_error scores i
                 = Some (SilhouetteSpec.score (SilhouetteSpec.a_of pixels labels i p) b).
Proof.
  intros pixels labels.
  assert (Hwf : wf_image SampleImage.heap0 SampleImage.image0).
  { unfold wf_image. simpl. repeat split; try lia.
    repeat (constructor; [lia|]). constructor. }
  assert (Hlen : length labels = length pixels) by reflexivity.
  split; [exact Hwf|]. split; [exact Hlen|].
  exact (@silhouette_refines SampleImage.heap0 SampleImage.image0 labels Hwf Hlen).
Defined.

(** The score of the sample image as IEEE doubles compute it: 0 when the
    labels separate the dark pixels from the light ones (every pixel
    coincides with its companion, so [a] is 0), and -1/2 when each cluster
    holds one dark and one light pixel. *)
Example silhouette_sample :
  Metrics.calculateSilhouetteScore (num := FloatNumber.float)
    SampleImage.heap0 SampleImage.image0 [0; 0; 1; 1]%nat = ofZ 0
  /\ Metrics.calculateSilhouetteScore (num := FloatNumber.float)
       SampleImage.heap0 SampleImage.image0 [0; 1; 0; 1]%nat
     = (ofZ 0 - lit 1 2)%js.
Proof. split; vm_compute; reflexivity. Qed.

(** * Further properties of the metrics *)

(** ** When the Davies-Bouldin index fails *)

Section DaviesBouldinOutcome.
Context {num : Type} `{Number num}.

Lemma scatter_some :
  forall (cluster : list (list num)) centroid,
    exists v, Metrics.calculateScatter (Some cluster) centroid = Ok v.
Proof.
  intros cluster centroid. unfold Metrics.calculateScatter.
  destruct (Nat.eqb (length cluster) 0); eauto.
Qed.

(** The inner loop needs [clusters[i]] and every [clusters[j]] with
    [j <> i]. *)
Lemma maxRatioLoop_needs :
  forall (centroids : list (list num)) clusters i ci todo j maxRatio j',
    (j <= j' < j + length todo)%nat -> j' <> i ->
    nth_error clusters i = None \/ nth_error clusters j' = None ->
    Metrics.maxRatioLoop centroids clusters i ci todo j maxRatio = Throw TypeError.
Proof.
  intros centroids clusters i ci todo.
  induction todo as [|cj todo IH]; intros j maxRatio j' Hj' Hne Hmiss.
  - simpl in Hj'. lia.
  - cbn [Metrics.maxRatioLoop]. simpl in Hj'.
    destruct (Nat.eqb i j) eqn:Hij.
    + apply Nat.eqb_eq in Hij. subst j.
      apply (IH (S i) maxRatio j'); [lia|assumption|assumption].
    + apply Nat.eqb_neq in Hij.
      destruct (nth_error clusters i) as [ci'|] eqn:Hci; [|reflexivity].
      destruct (scatter_some ci' ci) as [si Hsi]. rewrite Hsi. cbn [bind].
      destruct (nth_error clusters j) as [cj'|] eqn:Hcj; [|reflexivity].
      destruct (scatter_some cj' cj) as [sj Hsj]. rewrite Hsj. cbn [bind].
      assert (j' <> j).
      { intros ->. destruct Hmiss as [Hm|Hm]; congruence. }
      apply (IH (S j) _ j'); [lia|assumption|assumption].
Qed.

Lemma maxRatioLoop_defined :
  forall (centroids : list (list num)) clusters i ci todo j maxRatio,
    nth_error clusters i <> None ->
    (forall j', (j <= j' < j + length todo)%nat -> nth_error clusters j' <> None) ->
    exists v, Metrics.maxRatioLoop centroids clusters i ci todo j maxRatio = Ok v.
Proof.
  intros centroids clusters i ci todo.
  induction todo as [|cj todo IH]; intros j maxRatio Hi Hall.
  - simpl. eauto.
  - cbn [Metrics.maxRatioLoop].
    destruct (Nat.eqb i j).
    + apply IH; [assumption|]. intros j' Hj'. apply Hall. simpl. lia.
    + destruct (nth_error clusters i) as [ci'|] eqn:Hci; [|congruence].
      destruct (scatter_some ci' ci) as [si Hsi]. rewrite Hsi. cbn [bind].
      destruct (nth_error clusters j) as [cj'|] eqn:Hcj;
        [|exfalso; apply (Hall j); [simpl; lia|assumption]].
      destruct (scatter_some cj' cj) as [sj Hsj]. rewrite Hsj. cbn [bind].
      apply IH; [congruence|]. intros j' Hj'. apply Hall. simpl. lia.
Qed.

Lemma dbLoop_needs :
  forall (centroids : list (list num)) clusters todo i dbIndex i' j',
    (i <= i' < i + length todo)%nat -> (j' < length centroids)%nat -> j' <> i' ->
    nth_error clusters i' = None \/ nth_error clusters j' = None ->
    Metrics.dbLoop centroids clusters todo i dbIndex = Throw TypeError.
Proof.
  intros centroids clusters todo.
  induction todo as [|ci todo IH]; intros i dbIndex i' j' Hi' Hj' Hne Hmiss.
  - simpl in Hi'. lia.
  - cbn [Metrics.dbLoop]. simpl in Hi'.
    destruct (maxRatioLoop_outcome centroids clusters i ci centroids 0 (ofZ 0))
      as [[v Hv]|Hthrow]; [|rewrite Hthrow; reflexivity].
    rewrite Hv. cbn [bind].
    assert (i' <> i).
    { intros ->.
      rewrite (@maxRatioLoop_needs centroids clusters i ci centroids 0 (ofZ 0) j') in Hv;
        [discriminate|lia|assumption|assumption]. }
    apply (IH (S i) _ i' j'); [lia|assumption|assumption|assumption].
Qed.

Lemma dbLoop_defined :
  forall (centroids : list (list num)) clusters todo i dbIndex,
    (forall j, (j < length centroids)%nat -> nth_error clusters j <> None) ->
    (i + length todo <= length centroids)%nat ->
    exists v, Metrics.dbLoop centroids clusters todo i dbIndex = Ok v.
Proof.
  intros centroids clusters todo.
  induction todo as [|ci todo IH]; intros i dbIndex Hall Hlen.
  - simpl. eauto.
  - cbn [Metrics.dbLoop]. simpl in Hlen.
    destruct (@maxRatioLoop_defined centroids clusters i ci centroids 0 (ofZ 0))
      as [v Hv].
    + apply Hall. lia.
    + intros j' Hj'. apply Hall. lia.
    + rewrite Hv. cbn [bind]. apply IH; [assumption|lia].
Qed.

(** A [clusters] array shorter than [centroids]. *)
Lemma daviesBouldin_short :
  forall (centroids : list (list num)) clusters,
    (2 <= length centroids)%nat -> (length clusters < length centroids)%nat ->
    Metrics.calculateDaviesBouldinIndex centroids clusters = Throw TypeError.
Proof.
  intros centroids clusters Hk Hlen. unfold Metrics.calculateDaviesBouldinIndex.
  set (m := length clusters) in *.
  assert (Hm : nth_error clusters m = None) by (apply nth_error_None; unfold m; lia).
  rewrite (@dbLoop_needs centroids clusters centroids 0 (ofZ 0) m
             (if Nat.eqb m 0 then 1 else 0)%nat).
  - reflexivity.
  - simpl. lia.
  - destruct (Nat.eqb m 0); lia.
  - destruct (Nat.eqb m 0) eqn:E; [apply Nat.eqb_eq in E|apply Nat.eqb_neq in E]; lia.
  - left. exact Hm.
Qed.

End DaviesBouldinOutcome.

(** With two centroids or more, [calculateDaviesBouldinIndex] returns a
    number when [clusters] has an entry for every centroid, and fails with
    a [TypeError] (reading [length] of [undefined]) when [clusters] is
    shorter than [centroids]: in particular when it is the empty array. *)
Theorem daviesBouldin_needs_clusters :
  forall (num : Type) (N : Number num) (centroids : list (list num)) clusters,
    (2 <= length centroids)%nat ->
    (length centroids <= length clusters ->
     exists v, Metrics.calculateDaviesBouldinIndex centroids clusters = Ok v)%nat
    /\ (length clusters < length centroids ->
        Metrics.calculateDaviesBouldinIndex centroids clusters = Throw TypeError)%nat.
Proof.
  intros num N centroids clusters Hk. split.
  - intros Hlen. unfold Metrics.calculateDaviesBouldinIndex.
    destruct (@dbLoop_defined num N centroids clusters centroids 0 (ofZ 0)) as [v Hv].
    + intros j Hj Hnone. apply nth_error_None in Hnone. lia.
    + simpl. lia.
    + rewrite Hv. cbn [bind]. eauto.
  - intros Hlen. apply daviesBouldin_short; assumption.
Qed.

Lemma daviesBouldin_needs_clusters_witness :
  let dark : list FloatNumber.float := [ofZ 10; ofZ 10; ofZ 10] in
  let light : list FloatNumber.float := [ofZ 240; ofZ 240; ofZ 240] in
  (2 <= length [dark; light])%nat
  /\ (length (@nil (list (list FloatNumber.float))) < length [dark; light])%nat
  /\ Metrics.calculateDaviesBouldinIndex [dark; light] [] = Throw TypeError.
Proof.
  intros dark light.
  assert (H2 : (2 <= length [dark; light])%nat) by (simpl; lia).
  assert (H0 : (length (@nil (list (list FloatNumber.float))) < length [dark; light])%nat)
    by (simpl; lia).
  split; [exact H2|]. split; [exact H0|].
  exact (proj2 (@daviesBouldin_needs_clusters FloatNumber.float _ [dark; light] [] H2) H0).
Defined.

(** ** When the Calinski-Harabasz index fails *)

Section CalinskiOutcome.
Context {num : Type} `{Number num}.

Lemma withinLoop_defined :
  forall (centroids : list (list num)) labels todo i withinSS,
    (forall q, (i <= q < i + length todo)%nat ->
               exists l, nth_error labels q = Some l /\ (l < length centroids)%nat) ->
    exists v, Metrics.withinLoop centroids labels todo i withinSS = Ok v.
Proof.
  intros centroids labels todo.
  induction todo as [|p todo IH]; intros i withinSS Hall.
  - simpl. eauto.
  - cbn [Metrics.withinLoop].
    destruct (Hall i) as (l & Hl & Hlt); [simpl; lia|].
    rewrite Hl.
    destruct (nth_error centroids l) as [c|] eqn:Hc;
      [|apply nth_error_None in Hc; lia].
    apply IH. intros q Hq. apply Hall. simpl. lia.
Qed.

Lemma withinLoop_needs :
  forall (centroids : list (list num)) labels todo i withinSS q,
    (i <= q < i + length todo)%nat ->
    (forall l, nth_error labels q = Some l -> (length centroids <= l)%nat) ->
    Metrics.withinLoop centroids labels todo i withinSS = Throw TypeError.
Proof.
  intros centroids labels todo.
  induction todo as [|p todo IH]; intros i withinSS q Hq Hbad.
  - simpl in Hq. lia.
  - cbn [Metrics.withinLoop]. simpl in Hq.
    destruct (nth_error labels i) as [l|] eqn:Hl; [|reflexivity].
    destruct (nth_error centroids l) as [c|] eqn:Hc; [|reflexivity].
    assert (q <> i).
    { intros ->. specialize (Hbad l Hl).
      assert (l < length centroids)%nat by (apply nth_error_Some; congruence). lia. }
    apply (IH (S i) _ q); [lia|assumption].
Qed.

End CalinskiOutcome.

(** [calculateCalinskiHarabaszIndex] returns a number when every pixel has
    a label and every such label has a centroid; it fails with a
    [TypeError] (reading a channel of [undefined]) as soon as one pixel has
    no label, or a label at or beyond [centroids.length]. *)
Theorem calinskiHarabasz_needs_centroids :
  forall (num : Type) (N : Number num) h img (centroids : list (list num)) labels,
    ((forall i, (i < length (extractPixels (num := num) (bytes h img)))%nat ->
                exists l, nth_error labels i = Some l /\ (l < length centroids)%nat) ->
     exists v, Metrics.calculateCalinskiHarabaszIndex h img centroids labels = Ok v)
    /\ (forall i,
           (i < length (extractPixels (num := num) (bytes h img)))%nat ->
           (forall l, nth_error labels i = Some l -> (length centroids <= l)%nat) ->
           Metrics.calculateCalinskiHarabaszIndex h img centroids labels = Throw TypeError).
Proof.
  intros num N h img centroids labels. split.
  - intros Hall. unfold Metrics.calculateCalinskiHarabaszIndex.
    destruct (@withinLoop_defined num N centroids labels
                (extractPixels (bytes h img)) 0 (ofZ 0)) as [v Hv].
    + intros q Hq. apply Hall. lia.
    + rewrite Hv. cbn [bind]. eauto.
  - intros i Hi Hbad. unfold Metrics.calculateCalinskiHarabaszIndex.
    rewrite (@withinLoop_needs num N centroids labels
               (extractPixels (bytes h img)) 0 (ofZ 0) i); [reflexivity|lia|assumption].
Qed.

Lemma calinskiHarabasz_needs_centroids_witness :
  let grey : list FloatNumber.float := [ofZ 125; ofZ 125; ofZ 125] in
  (3 < length (extractPixels (num := FloatNumber.float)
                 (bytes SampleImage.heap0 SampleImage.image0)))%nat
  /\ (forall l, nth_error [0; 0; 0; 1]%nat 3 = Some l -> (length [grey] <= l)%nat)
  /\ Metrics.calculateCalinskiHarabaszIndex SampleImage.heap0 SampleImage.image0
       [grey] [0; 0; 0; 1]%nat = Throw TypeError.
Proof.
  intros grey.
  assert (H3 : (3 < length (extractPixels (num := FloatNumber.float)
                              (bytes SampleImage.heap0 SampleImage.image0)))%nat)
    by (simpl; lia).
  assert (Hbad : forall l, nth_error [0; 0; 0; 1]%nat 3 = Some l -> (length [grey] <= l)%nat).
  { intros l Hl. simpl in Hl. inversion Hl. simpl. lia. }
  split; [exact H3|]. split; [exact Hbad|].
  exact (proj2 (@calinskiHarabasz_needs_centroids FloatNumber.float _
                  SampleImage.heap0 SampleImage.image0 [grey] [0; 0; 0; 1]%nat)
               3%nat H3 Hbad).
Defined.

(** ** Values of the silhouette score, in exact arithmetic *)

Module SilhouetteValues.
Import RealNumber RealFacts KMeansReal SilhouetteSpec SilhouetteFacts.
Local Open Scope R_scope.

Lemma image_pixels_finite :
  forall h img,
    wf_image h img -> Forall fin_pixel (extractPixels (num := xreal) (bytes h img)).
Proof.
  intros h img (Hw & Hh & _ & Hlen4 & _).
  apply (@extractPixels_finite (Z.to_nat (width img * height img))).
  rewrite Hlen4. lia.
Qed.

Lemma image_has_pixels :
  forall h img,
    wf_image h img -> (0 < length (extractPixels (num := xreal) (bytes h img)))%nat.
Proof.
  intros h img Hwf. rewrite (wf_pixel_count (num := xreal) Hwf).
  destruct Hwf as (Hw & Hh & _). nia.
Qed.

Lemma mapi_from_inv :
  forall (A B : Type) (f : A -> nat -> B) l i j y,
    nth_error (mapi_from f i l) j = Some y ->
    exists a, nth_error l j = Some a /\ y = f a (i + j)%nat.
Proof.
  intros A B f l i j y Hy.
  assert (Hj : (j < length l)%nat).
  { rewrite <- (mapi_from_length f l i). apply nth_error_Some. congruence. }
  destruct (nth_error l j) as [a|] eqn:Ha; [|apply nth_error_None in Ha; lia].
  exists a. split; [reflexivity|].
  rewrite (mapi_from_nth f l i j Ha) in Hy. congruence.
Qed.

(** The score of the whole image is the mean of the per-pixel scores. *)
Lemma silhouette_as_mean :
  forall h img labels,
    Metrics.calculateSilhouetteScore h img labels
    = meanScore
        (mapi_from (fun p j => Metrics.pixelScore (extractPixels (bytes h img)) labels
                                 (Metrics.distinct labels []) p j)
                   0 (extractPixels (bytes h img))).
Proof.
  intros h img labels.
  unfold Metrics.calculateSilhouetteScore, meanScore.
  rewrite scoreLoop_sum, mapi_from_length.
  cbn [ndiv ofZ xreal_Number]. rewrite <- INR_IZR_INZ. reflexivity.
Qed.

Lemma a_of_nonneg : forall pixels labels i p, 0 <= a_of pixels labels i p.
Proof.
  intros. unfold a_of.
  destruct (companions pixels labels i); [lra|apply meanDistance_nonneg].
Qed.

(** A coefficient [(b - a) / max(a, b)] lies between -1 and 1. *)
Lemma score_bounded :
  forall a b, 0 <= a -> 0 <= b ->
    exists s, score a (Finite b) = Finite s /\ -1 <= s <= 1.
Proof.
  intros a b Ha Hb. unfold score.
  destruct (Req_dec_T a 0) as [|Hne]; [exists 0; split; [reflexivity|lra]|].
  eexists. split; [reflexivity|].
  pose proof (Rmax_l a b) as Hl. pose proof (Rmax_r a b) as Hr.
  set (M := Rmax a b) in *.
  assert (HM : 0 < M) by lra.
  assert (HiM : 0 < / M) by (apply Rinv_0_lt_compat; assumption).
  assert (H1 : M * / M = 1) by (apply Rinv_r; lra).
  unfold Rdiv. split.
  - assert (0 <= (b - a + M) * / M) by (apply Rmult_le_pos; lra). nra.
  - assert (0 <= (M - (b - a)) * / M) by (apply Rmult_le_pos; lra). nra.
Qed.

Lemma sum_bounded :
  forall scores a0,
    Forall (fun s => exists r, s = Finite r /\ -1 <= r <= 1) scores ->
    exists S, fold_left x_add scores (Finite a0) = Finite S
              /\ a0 - INR (length scores) <= S <= a0 + INR (length scores).
Proof.
  induction scores as [|s scores IH]; intros a0 Hall.
  - exists a0. simpl. split; [reflexivity|lra].
  - inversion Hall as [|? ? (r & -> & Hr) Hrest]; subst.
    cbn [fold_left x_add].
    destruct (IH (a0 + r) Hrest) as (S & HS & Hb).
    exists S. split; [exact HS|].
    change (length (Finite r :: scores)) with (Datatypes.S (length scores)).
    rewrite S_INR. lra.
Qed.

Lemma sum_nan :
  forall scores acc, In XNaN scores -> fold_left x_add scores acc = XNaN.
Proof.
  assert (Hnan : forall scores, fold_left x_add scores XNaN = XNaN).
  { induction scores as [|s scores IH]; [reflexivity|]. simpl. exact IH. }
  induction scores as [|s scores IH]; intros acc Hin; [contradiction|].
  simpl. destruct Hin as [->|Hin].
  - replace (x_add acc XNaN) with XNaN by (destruct acc; reflexivity). apply Hnan.
  - apply IH. assumption.
Qed.

Lemma members_of_In :
  forall (pixels : list (list xreal)) labels l q,
    In q (UpdateSpec.members_of pixels labels l) ->
    exists j, nth_error pixels j = Some q /\ nth_error labels j = Some l.
Proof.
  induction pixels as [|p pixels IH]; intros [|x labels] l q Hin; simpl in Hin;
    try contradiction.
  destruct (Nat.eqb x l) eqn:Hx.
  - apply Nat.eqb_eq in Hx. subst x. destruct Hin as [<-|Hin].
    + exists 0%nat. split; reflexivity.
    + destruct (IH labels l q Hin) as (j & Hj & Hl). exists (S j). split; assumption.
  - destruct (IH labels l q Hin) as (j & Hj & Hl). exists (S j). split; assumption.
Qed.

Lemma members_of_nth :
  forall (pixels : list (list xreal)) labels l q j,
    nth_error pixels j = Some q -> nth_error labels j = Some l ->
    In q (UpdateSpec.members_of pixels labels l).
Proof.
  induction pixels as [|p pixels IH]; intros [|x labels] l q [|j] Hq Hl;
    simpl in *; try discriminate.
  - inversion Hq; inversion Hl; subst. rewrite Nat.eqb_refl. left. reflexivity.
  - destruct (Nat.eqb x l); [right|]; eapply IH; eassumption.
Qed.

(** The companions of a pixel carry its label. *)
Lemma companions_In :
  forall (pixels : list (list xreal)) labels i p q,
    length labels = length pixels ->
    nth_error pixels i = Some p ->
    In q (companions pixels labels i) ->
    exists j, nth_error pixels j = Some q /\ nth_error labels j = nth_error labels i.
Proof.
  intros pixels labels i p q Hlen Hp Hin.
  assert (Hi : (i < length labels)%nat) by (rewrite Hlen; apply nth_error_Some; congruence).
  destruct (@own_cluster pixels labels i p Hlen Hp) as (A & B & Hcl & Hco).
  assert (Hq : In q (cluster pixels labels (nth i labels 0%nat))).
  { rewrite Hcl. rewrite Hco in Hin. apply in_app_or in Hin.
    apply in_or_app. destruct Hin; [left|right; right]; assumption. }
  destruct (members_of_In _ _ _ _ Hq) as (j & Hj & Hl).
  exists j. split; [assumption|].
  rewrite Hl. symmetry. apply nth_error_nth'. assumption.
Qed.

(** Another pixel of the same label is a companion. *)
Lemma companions_nth :
  forall (pixels : list (list xreal)) labels i j p q,
    length labels = length pixels ->
    nth_error pixels i = Some p -> nth_error pixels j = Some q ->
    nth_error labels j = nth_error labels i -> q <> p ->
    In q (companions pixels labels i).
Proof.
  intros pixels labels i j p q Hlen Hp Hq Hl Hne.
  assert (Hi : (i < length labels)%nat) by (rewrite Hlen; apply nth_error_Some; congruence).
  destruct (@own_cluster pixels labels i p Hlen Hp) as (A & B & Hcl & Hco).
  assert (Hin : In q (cluster pixels labels (nth i labels 0%nat))).
  { eapply members_of_nth; [exact Hq|]. rewrite Hl. apply nth_error_nth'. assumption. }
  rewrite Hcl in Hin. rewrite Hco.
  apply in_app_or in Hin. apply in_or_app.
  destruct Hin as [Hin|[Heq|Hin]]; [left; assumption|congruence|right; assumption].
Qed.

Lemma Rsum_zero :
  forall l, Forall (fun r => r = 0) l -> Rsum l = 0.
Proof.
  induction 1 as [|x l Hx _ IH]; unfold Rsum in *; simpl; [reflexivity|]. lra.
Qed.

Lemma Rsum_member :
  forall l x, Forall (fun r => 0 <= r) l -> In x l -> x <= Rsum l.
Proof.
  induction l as [|y l IH]; intros x Hall Hin; [contradiction|].
  inversion Hall as [|? ? Hy Hrest]; subst.
  pose proof (Rsum_nonneg Hrest) as Hs. unfold Rsum in *. simpl.
  destruct Hin as [->|Hin]; [lra|].
  specialize (IH x Hrest Hin). lra.
Qed.

Lemma distance_positive :
  forall p q, fin_pixel p -> fin_pixel q -> p <> q -> 0 < distance p q.
Proof.
  intros p q (a0 & a1 & a2 & ->) (b0 & b1 & b2 & ->) Hne.
  unfold distance. cbn [chan nth_error].
  apply sqrt_lt_R0.
  assert (Hd : a0 <> b0 \/ a1 <> b1 \/ a2 <> b2).
  { destruct (Req_dec_T a0 b0) as [->|]; [|tauto].
    destruct (Req_dec_T a1 b1) as [->|]; [|tauto].
    destruct (Req_dec_T a2 b2) as [->|]; [|tauto].
    exfalso. apply Hne. reflexivity. }
  pose proof (pow2_ge_0 (a0 - b0)). pose proof (pow2_ge_0 (a1 - b1)).
  pose proof (pow2_ge_0 (a2 - b2)).
  destruct Hd as [Hd|[Hd|Hd]].
  - assert (0 < (a0 - b0) ^ 2) by (rewrite <- Rsqr_pow2; apply Rsqr_pos_lt; lra). lra.
  - assert (0 < (a1 - b1) ^ 2) by (rewrite <- Rsqr_pow2; apply Rsqr_pos_lt; lra). lra.
  - assert (0 < (a2 - b2) ^ 2) by (rewrite <- Rsqr_pow2; apply Rsqr_pos_lt; lra). lra.
Qed.

Lemma sum_zero :
  forall scores,
    Forall (fun s => s = Finite 0) scores -> fold_left x_add scores (Finite 0) = Finite 0.
Proof.
  induction 1 as [|s scores Hs _ IH]; [reflexivity|].
  subst s. cbn [fold_left x_add]. rewrite Rplus_0_l. exact IH.
Qed.

Lemma mean_of_sum :
  forall S (n : nat),
    (0 < n)%nat -> - INR n <= S <= INR n ->
    exists v, x_div (Finite S) (Finite (INR n)) = Finite v /\ -1 <= v <= 1.
Proof.
  intros S n Hn HS.
  assert (Hpos : 0 < INR n) by (apply lt_0_INR; assumption).
  cbn [x_div]. rewrite Reqb_false by lra.
  eexists. split; [reflexivity|].
  assert (Hi : 0 < / INR n) by (apply Rinv_0_lt_compat; assumption).
  assert (H1 : INR n * / INR n = 1) by (apply Rinv_r; lra).
  unfold Rdiv. split.
  - assert (0 <= (S + INR n) * / INR n) by (apply Rmult_le_pos; lra). nra.
  - assert (0 <= (INR n - S) * / INR n) by (apply Rmult_le_pos; lra). nra.
Qed.

(** With two labels or more, every coefficient is a number of [-1, 1]. *)
Lemma scores_bounded :
  forall (pixels : list (list xreal)) labels l1 l2,
    Forall fin_pixel pixels -> length labels = length pixels ->
    In l1 labels -> In l2 labels -> l1 <> l2 ->
    Forall (fun s => exists r, s = Finite r /\ -1 <= r <= 1)
           (mapi_from (fun p j => Metrics.pixelScore pixels labels
                                    (Metrics.distinct labels []) p j) 0 pixels).
Proof.
  intros pixels labels l1 l2 Hfin Hlen H1 H2 Hne.
  apply Forall_forall. intros s Hin.
  apply In_nth_error in Hin. destruct Hin as [j Hj].
  apply mapi_from_inv in Hj. destruct Hj as (p & Hp & ->).
  cbn [Nat.add].
  destruct (@pixelScore_refines pixels labels j p Hfin Hlen Hp) as (b & Hb & ->).
  destruct Hb as [[Hall _]|(l & _ & _ & -> & _)].
  - exfalso. apply Hne. rewrite (Hall l1 H1), (Hall l2 H2). reflexivity.
  - apply score_bounded; [apply a_of_nonneg|apply meanDistance_nonneg].
Qed.

(** When the pixels of every cluster have one colour, [a] is 0 at every
    pixel. *)
Lemma a_of_uniform :
  forall (pixels : list (list xreal)) labels i p,
    length labels = length pixels ->
    (forall i j p q,
        nth_error pixels i = Some p -> nth_error pixels j = Some q ->
        nth_error labels i = nth_error labels j -> p = q) ->
    nth_error pixels i = Some p ->
    a_of pixels labels i p = 0.
Proof.
  intros pixels labels i p Hlen Huni Hp. unfold a_of.
  destruct (companions pixels labels i) as [|o others] eqn:Hco; [reflexivity|].
  unfold meanDistance. rewrite Rsum_zero; [unfold Rdiv; apply Rmult_0_l|].
  apply Forall_forall. intros r Hr. apply in_map_iff in Hr.
  destruct Hr as (q & <- & Hq). rewrite <- Hco in Hq.
  destruct (@companions_In pixels labels i p q Hlen Hp Hq) as (j & Hj & Hl).
  rewrite (Huni i j p q Hp Hj (eq_sym Hl)). apply distance_self.
Qed.

(** In a single cluster, a pixel that differs from another one has a
    positive [a]. *)
Lemma a_of_positive :
  forall (pixels : list (list xreal)) labels i j p q,
    Forall fin_pixel pixels -> length labels = length pixels ->
    nth_error pixels i = Some p -> nth_error pixels j = Some q ->
    nth_error labels j = nth_error labels i -> p <> q ->
    0 < a_of pixels labels i p.
Proof.
  intros pixels labels i j p q Hfin Hlen Hp Hq Hl Hne.
  assert (Hin : In q (companions pixels labels i)).
  { eapply companions_nth; eauto. }
  assert (Hfp : fin_pixel p).
  { rewrite Forall_forall in Hfin. apply Hfin. eapply nth_error_In; eassumption. }
  assert (Hfq : fin_pixel q).
  { rewrite Forall_forall in Hfin. apply Hfin. eapply nth_error_In; eassumption. }
  unfold a_of. destruct (companions pixels labels i) as [|o others] eqn:Hco;
    [contradiction|].
  unfold meanDistance.
  assert (Hd : distance p q <= Rsum (map (distance p) (o :: others))).
  { apply Rsum_member.
    - apply Forall_forall. intros r Hr. apply in_map_iff in Hr.
      destruct Hr as (x & <- & _). apply distance_nonneg.
    - apply in_map. assumption. }
  pose proof (@distance_positive p q Hfp Hfq Hne) as Hpos.
  apply Rmult_lt_0_compat; [lra|].
  apply Rinv_0_lt_compat, lt_0_INR. simpl. lia.
Qed.

End SilhouetteValues.

(** With one label per pixel and at least two different labels, the
    silhouette score is a number between -1 and 1 (exact arithmetic). *)
Theorem silhouette_between_minus_one_and_one :
  forall h img labels l1 l2,
    wf_image h img ->
    length labels = length (extractPixels (num := RealNumber.xreal) (bytes h img)) ->
    In l1 labels -> In l2 labels -> l1 <> l2 ->
    exists v : R,
      Metrics.calculateSilhouetteScore h img labels = RealNumber.Finite v
      /\ (-1 <= v <= 1)%R.
Proof.
  intros h img labels l1 l2 Hwf Hlen H1 H2 Hne.
  pose proof (@SilhouetteValues.image_pixels_finite h img Hwf) as Hfin.
  pose proof (@SilhouetteValues.image_has_pixels h img Hwf) as Hpos.
  rewrite SilhouetteValues.silhouette_as_mean.
  pose proof (@SilhouetteValues.scores_bounded _ labels l1 l2 Hfin Hlen H1 H2 Hne) as Hall.
  set (scores := mapi_from _ 0 _) in *.
  destruct (@SilhouetteValues.sum_bounded scores 0 Hall) as (S & HS & Hb).
  unfold SilhouetteSpec.meanScore. rewrite HS.
  apply SilhouetteValues.mean_of_sum.
  - unfold scores. rewrite SilhouetteFacts.mapi_from_length. exact Hpos.
  - lra.
Qed.

Lemma silhouette_between_minus_one_and_one_witness :
  wf_image SampleImage.heap0 SampleImage.image0
  /\ length [0; 1; 0; 1]%nat
     = length (extractPixels (num := RealNumber.xreal)
                 (bytes SampleImage.heap0 SampleImage.image0))
  /\ In 0%nat [0; 1; 0; 1]%nat /\ In 1%nat [0; 1; 0; 1]%nat /\ 0%nat <> 1%nat
  /\ exists v : R,
       Metrics.calculateSilhouetteScore SampleImage.heap0 SampleImage.image0
         [0; 1; 0; 1]%nat = RealNumber.Finite v
       /\ (-1 <= v <= 1)%R.
Proof.
  assert (Hwf : wf_image SampleImage.heap0 SampleImage.image0).
  { unfold wf_image. simpl. repeat split; try lia.
    repeat (constructor; [lia|]). constructor. }
  assert (Hlen : length [0; 1; 0; 1]%nat
                 = length (extractPixels (num := RealNumber.xreal)
                             (bytes SampleImage.heap0 SampleImage.image0)))
    by reflexivity.
  assert (H0 : In 0%nat [0; 1; 0; 1]%nat) by (simpl; auto).
  assert (H1 : In 1%nat [0; 1; 0; 1]%nat) by (simpl; auto).
  assert (Hne : 0%nat <> 1%nat) by lia.
  split; [exact Hwf|]. split; [exact Hlen|]. split; [exact H0|].
  split; [exact H1|]. split; [exact Hne|].
  exact (@silhouette_between_minus_one_and_one SampleImage.heap0 SampleImage.image0
           [0; 1; 0; 1]%nat 0%nat 1%nat Hwf Hlen H0 H1 Hne).
Defined.

(** When all the pixels that share a label have the same colour, the
    silhouette score is 0, however far apart the clusters are: [a] is 0 at
    every pixel, and the code scores such a pixel 0 (exact arithmetic). *)
Theorem silhouette_zero_on_uniform_clusters :
  forall h img labels,
    wf_image h img ->
    length labels = length (extractPixels (num := RealNumber.xreal) (bytes h img)) ->
    (forall i j p q,
        nth_error (extractPixels (bytes h img)) i = Some p ->
        nth_error (extractPixels (bytes h img)) j = Some q ->
        nth_error labels i = nth_error labels j -> p = q) ->
    Metrics.calculateSilhouetteScore h img labels = RealNumber.Finite 0.
Proof.
  intros h img labels Hwf Hlen Huni.
  pose proof (@SilhouetteValues.image_pixels_finite h img Hwf) as Hfin.
  pose proof (@SilhouetteValues.image_has_pixels h img Hwf) as Hpos.
  rewrite SilhouetteValues.silhouette_as_mean.
  set (pixels := extractPixels (num := RealNumber.xreal) (bytes h img)) in *.
  unfold SilhouetteSpec.meanScore.
  rewrite SilhouetteValues.sum_zero.
  - rewrite SilhouetteFacts.mapi_from_length.
    cbn [RealNumber.x_div].
    rewrite RealFacts.Reqb_false by (apply not_0_INR; lia).
    f_equal. unfold Rdiv. apply Rmult_0_l.
  - apply Forall_forall. intros s Hin.
    apply In_nth_error in Hin. destruct Hin as [j Hj].
    apply SilhouetteValues.mapi_from_inv in Hj. destruct Hj as (p & Hp & ->).
    cbn [Nat.add].
    destruct (@SilhouetteFacts.pixelScore_refines pixels labels j p Hfin Hlen Hp)
      as (b & _ & ->).
    rewrite (@SilhouetteValues.a_of_uniform pixels labels j p Hlen Huni Hp).
    unfold SilhouetteSpec.score.
    destruct (Req_dec_T 0 0) as [_|Hn]; [reflexivity|exfalso; apply Hn; reflexivity].
Qed.

Lemma silhouette_zero_on_uniform_clusters_witness :
  wf_image SampleImage.heap0 SampleImage.image0
  /\ length [0; 0; 1; 1]%nat
     = length (extractPixels (num := RealNumber.xreal)
                 (bytes SampleImage.heap0 SampleImage.image0))
  /\ Metrics.calculateSilhouetteScore SampleImage.heap0 SampleImage.image0
       [0; 0; 1; 1]%nat = RealNumber.Finite 0.
Proof.
  assert (Hwf : wf_image SampleImage.heap0 SampleImage.image0).
  { unfold wf_image. simpl. repeat split; try lia.
    repeat (constructor; [lia|]). constructor. }
  assert (Hlen : length [0; 0; 1; 1]%nat
                 = length (extractPixels (num := RealNumber.xreal)
                             (bytes SampleImage.heap0 SampleImage.image0)))
    by reflexivity.
  split; [exact Hwf|]. split; [exact Hlen|].
  apply (@silhouette_zero_on_uniform_clusters SampleImage.heap0 SampleImage.image0
           [0; 0; 1; 1]%nat Hwf Hlen).
  intros i j p q Hp Hq Hl.
  destruct i as [|[|[|[|i]]]]; destruct j as [|[|[|[|j]]]];
    simpl in Hp, Hq, Hl; try discriminate;
    try (destruct i; discriminate); try (destruct j; discriminate); congruence.
Defined.

(** With a single label, the silhouette score is NaN as soon as two pixels
    differ: [b] stays [Infinity] and a pixel with [a <> 0] scores
    [Infinity / Infinity] (exact arithmetic). *)
Theorem silhouette_undefined_for_one_cluster :
  forall h img labels l0 i j p q,
    wf_image h img ->
    length labels = length (extractPixels (num := RealNumber.xreal) (bytes h img)) ->
    (forall l, In l labels -> l = l0) ->
    nth_error (extractPixels (bytes h img)) i = Some p ->
    nth_error (extractPixels (bytes h img)) j = Some q ->
    p <> q ->
    Metrics.calculateSilhouetteScore h img labels = RealNumber.XNaN.
Proof.
  intros h img labels l0 i j p q Hwf Hlen Hone Hp Hq Hne.
  pose proof (@SilhouetteValues.image_pixels_finite h img Hwf) as Hfin.
  rewrite SilhouetteValues.silhouette_as_mean.
  set (pixels := extractPixels (num := RealNumber.xreal) (bytes h img)) in *.
  assert (Hlab : forall x, (x < length pixels)%nat -> nth_error labels x = Some l0).
  { intros x Hx. rewrite <- Hlen in Hx.
    rewrite (nth_error_nth' labels 0%nat Hx). f_equal.
    apply Hone. apply nth_In. assumption. }
  assert (Hi : (i < length pixels)%nat) by (apply nth_error_Some; congruence).
  assert (Hj : (j < length pixels)%nat) by (apply nth_error_Some; congruence).
  assert (Ha : (0 < SilhouetteSpec.a_of pixels labels i p)%R).
  { apply (@SilhouetteValues.a_of_positive pixels labels i j p q); try assumption.
    rewrite (Hlab i Hi), (Hlab j Hj). reflexivity. }
  unfold SilhouetteSpec.meanScore.
  rewrite SilhouetteValues.sum_nan; [reflexivity|].
  destruct (@SilhouetteFacts.pixelScore_refines pixels labels i p Hfin Hlen Hp)
    as (b & Hb & Hscore).
  assert (Hnan : Metrics.pixelScore pixels labels (Metrics.distinct labels []) p i
                 = RealNumber.XNaN).
  { rewrite Hscore. unfold SilhouetteSpec.score.
    destruct (Req_dec_T (SilhouetteSpec.a_of pixels labels i p) 0) as [E|_]; [lra|].
    destruct Hb as [[_ ->]|(l & Hin & Hl & _)]; [reflexivity|].
    exfalso. apply Hl. rewrite (Hone l Hin). symmetry. apply Hone.
    apply nth_In. rewrite Hlen. assumption. }
  rewrite <- Hnan.
  eapply nth_error_In.
  rewrite (SilhouetteFacts.mapi_from_nth _ _ 0 _ Hp). reflexivity.
Qed.

Lemma silhouette_undefined_for_one_cluster_witness :
  let dark := [RealNumber.Finite 10; RealNumber.Finite 10; RealNumber.Finite 10] in
  let light := [RealNumber.Finite 240; RealNumber.Finite 240; RealNumber.Finite 240] in
  wf_image SampleImage.heap0 SampleImage.image0
  /\ nth_error (extractPixels (bytes SampleImage.heap0 SampleImage.image0)) 0 = Some dark
  /\ nth_error (extractPixels (bytes SampleImage.heap0 SampleImage.image0)) 2 = Some light
  /\ dark <> light
  /\ Metrics.calculateSilhouetteScore SampleImage.heap0 SampleImage.image0
       [0; 0; 0; 0]%nat = RealNumber.XNaN.
Proof.
  intros dark light.
  assert (Hwf : wf_image SampleImage.heap0 SampleImage.image0).
  { unfold wf_image. simpl. repeat split; try lia.
    repeat (constructor; [lia|]). constructor. }
  assert (Hlen : length [0; 0; 0; 0]%nat
                 = length (extractPixels (num := RealNumber.xreal)
                             (bytes SampleImage.heap0 SampleImage.image0)))
    by reflexivity.
  assert (Hone : forall l, In l [0; 0; 0; 0]%nat -> l = 0%nat).
  { intros l Hl. simpl in Hl. intuition. }
  assert (Hp : nth_error (extractPixels (bytes SampleImage.heap0 SampleImage.image0)) 0
               = Some dark) by reflexivity.
  assert (Hq : nth_error (extractPixels (bytes SampleImage.heap0 SampleImage.image0)) 2
               = Some light) by reflexivity.
  assert (Hne : dark <> light).
  { intros E. inversion E as [E1]. apply eq_IZR in E1. discriminate. }
  split; [exact Hwf|]. split; [exact Hp|]. split; [exact Hq|]. split; [exact Hne|].
  exact (@silhouette_undefined_for_one_cluster SampleImage.heap0 SampleImage.image0
           [0; 0; 0; 0]%nat 0%nat 0%nat 2%nat dark light Hwf Hlen Hone Hp Hq Hne).
Defined.

(** * Further properties of the segmentations *)

(** ** The watershed *)

Section WatershedOutcome.
Context {num : Type} `{Number num}.

Lemma regions_labels :
  forall seg numRegions (regionCentroids : list (list num)) pixels i labels h,
    numRegions <> 0%nat -> length regionCentroids = numRegions ->
    exists h',
      Part001.regions h seg numRegions regionCentroids pixels i labels
      = (h', Ok (labels ++ map (fun q => q mod numRegions)%nat (seq i (length pixels)))).
Proof.
  intros seg numRegions regionCentroids pixels.
  induction pixels as [|p pixels IH]; intros i labels h Hn Hlen.
  - simpl. rewrite app_nil_r. eauto.
  - cbn [Part001.regions].
    replace (Nat.eqb numRegions 0) with false by (symmetry; apply Nat.eqb_neq; assumption).
    destruct (nth_error regionCentroids (i mod numRegions)) as [color|] eqn:Hc.
    + destruct (IH (S i) (labels ++ [(i mod numRegions)%nat])
                  (store (store (store (store h seg (i * 4) (elem color 0))
                                       seg (i * 4 + 1) (elem color 1))
                                seg (i * 4 + 2) (elem color 2))
                         seg (i * 4 + 3) (ofZ 255)) Hn Hlen) as [h' Hh'].
      exists h'. rewrite Hh'. rewrite <- app_assoc. reflexivity.
    + apply nth_error_None in Hc.
      pose proof (Nat.mod_upper_bound i numRegions Hn). lia.
Qed.

Lemma regions_none :
  forall seg (regionCentroids : list (list num)) p pixels i labels h,
    Part001.regions h seg 0 regionCentroids (p :: pixels) i labels = (h, Throw TypeError).
Proof. reflexivity. Qed.

Lemma zrange_empty : forall lo hi, (hi <= lo)%Z -> Part001.zrange lo hi = [].
Proof.
  intros lo hi Hle. unfold Part001.zrange.
  replace (Z.to_nat (hi - lo)) with 0%nat by lia. reflexivity.
Qed.

Lemma flat_map_nil :
  forall (A B : Type) (f : A -> list B) l, (forall a, f a = []) -> flat_map f l = [].
Proof.
  intros A B f l Hf. induction l as [|a l IH]; simpl; [reflexivity|].
  rewrite Hf, IH. reflexivity.
Qed.

(** An image less than three pixels wide or high has no interior pixel. *)
Lemma gradientMap_small :
  forall (d : buffer) w hg,
    (w < 3 \/ hg < 3)%Z -> Part001.gradientMap (num := num) d w hg = [].
Proof.
  intros d w hg [Hw|Hh]; unfold Part001.gradientMap.
  - apply flat_map_nil. intros y. rewrite zrange_empty by lia. reflexivity.
  - rewrite (@zrange_empty 1 (hg - 1)) by lia. reflexivity.
Qed.

Lemma image_pixels_cons :
  forall h img,
    wf_image h img ->
    exists p pixels, extractPixels (num := num) (bytes h img) = p :: pixels.
Proof.
  intros h img Hwf.
  pose proof (wf_pixel_count (num := num) Hwf) as Hn.
  destruct Hwf as (Hw & Hh & _).
  destruct (extractPixels (bytes h img)) as [|p pixels]; [simpl in Hn; nia|eauto].
Qed.

(** Without a seed the last loop reads a channel of [undefined]. *)
Lemma watershed_no_seed :
  forall h img (sigma : num),
    wf_image h img ->
    Part001.findSeeds (Part001.gradientMap (bytes h img) (width img) (height img))
                      (sigma * ofZ 15)%js 0 = [] ->
    Part001.watershedSegmentation h img sigma
    = (h ++ [repeat 0%Z (Z.to_nat (4 * width img * height img))], Throw TypeError).
Proof.
  intros h img sigma Hwf Hseeds.
  destruct (image_pixels_cons Hwf) as (p & pixels & Hpx).
  pose proof Hwf as (Hw & Hh & _).
  unfold Part001.watershedSegmentation.
  rewrite (newImageData_ok h Hw Hh). rewrite Hseeds. cbn [length Nat.min].
  rewrite Hpx. rewrite regions_none. reflexivity.
Qed.

Lemma watershed_seeded :
  forall h img (sigma : num),
    wf_image h img ->
    let seeds := Part001.findSeeds
                   (Part001.gradientMap (bytes h img) (width img) (height img))
                   (sigma * ofZ 15)%js 0 in
    let m := Nat.min (length seeds) 12 in
    seeds <> [] ->
    exists h' r,
      Part001.watershedSegmentation h img sigma = (h', Ok r)
      /\ Part001.labels r
         = map (fun i => i mod m)%nat (seq 0 (length (extractPixels (num := num) (bytes h img))))
      /\ Part001.centroids r = Part001.palette m (lit 85 100) (lit 65 100).
Proof.
  intros h img sigma Hwf seeds m Hseeds.
  pose proof Hwf as (Hw & Hh & _).
  assert (Hm : m <> 0%nat).
  { unfold m. destruct seeds; [congruence|simpl; lia]. }
  unfold Part001.watershedSegmentation.
  rewrite (newImageData_ok h Hw Hh).
  fold seeds. fold m.
  destruct (@regions_labels
              {| width := width img; height := height img; data := length h |}
              m (Part001.palette m (lit 85 100) (lit 65 100))
              (extractPixels (bytes h img)) 0 []
              (h ++ [repeat 0%Z (Z.to_nat (4 * width img * height img))])
              Hm (palette_length m _ _)) as [h' Hh'].
  rewrite Hh'. cbn [app].
  eexists. eexists. split; [reflexivity|]. split; reflexivity.
Qed.

End WatershedOutcome.

(** The watershed fails with a [TypeError] when no interior pixel has a
    gradient below [sigma * 15]; otherwise it returns, and the label of
    pixel [i] is [i mod m], where [m], the number of regions and of
    centroids, is the number of such pixels capped at 12: which pixels
    they are plays no part. *)
Theorem watershed_labels_by_position :
  forall (num : Type) (N : Number num) h img (sigma : num),
    wf_image h img ->
    let seeds := Part001.findSeeds
                   (Part001.gradientMap (bytes h img) (width img) (height img))
                   (sigma * ofZ 15)%js 0 in
    let m := Nat.min (length seeds) 12 in
    (seeds = [] -> snd (Part001.watershedSegmentation h img sigma) = Throw TypeError)
    /\ (seeds <> [] ->
        exists h' r,
          Part001.watershedSegmentation h img sigma = (h', Ok r)
          /\ Part001.labels r
             = map (fun i => i mod m)%nat
                   (seq 0 (length (extractPixels (num := num) (bytes h img))))
          /\ length (Part001.centroids r) = m
          /\ (1 <= m <= 12)%nat).
Proof.
  intros num N h img sigma Hwf seeds m. split.
  - intros Hseeds. rewrite (watershed_no_seed sigma Hwf Hseeds). reflexivity.
  - intros Hseeds.
    destruct (watershed_seeded sigma Hwf Hseeds) as (h' & r & Hrun & Hlabels & Hcs).
    exists h', r. split; [exact Hrun|]. split; [exact Hlabels|].
    split; [rewrite Hcs; apply palette_length|].
    unfold m. destruct seeds; [congruence|simpl; lia].
Qed.

Lemma watershed_labels_by_position_witness :
  wf_image SampleFlat.heap0 SampleFlat.image0
  /\ Part001.findSeeds
       (Part001.gradientMap (bytes SampleFlat.heap0 SampleFlat.image0) 4 3)
       (ofZ 1 * ofZ 15 : FloatNumber.float)%js 0 = [0; 1]%nat
  /\ exists h' r,
       Part001.watershedSegmentation SampleFlat.heap0 SampleFlat.image0
         (ofZ 1 : FloatNumber.float) = (h', Ok r)
       /\ Part001.labels r = [0; 1; 0; 1; 0; 1; 0; 1; 0; 1; 0; 1]%nat
       /\ length (Part001.centroids r) = 2%nat.
Proof.
  assert (Hwf : wf_image SampleFlat.heap0 SampleFlat.image0).
  { unfold wf_image. simpl. repeat split; try lia.
    repeat (constructor; [lia|]). constructor. }
  assert (Hseeds : Part001.findSeeds
                     (Part001.gradientMap (bytes SampleFlat.heap0 SampleFlat.image0) 4 3)
                     (ofZ 1 * ofZ 15 : FloatNumber.float)%js 0 = [0; 1]%nat)
    by (vm_compute; reflexivity).
  split; [exact Hwf|]. split; [exact Hseeds|].
  destruct (proj2 (@watershed_labels_by_position FloatNumber.float _
                     SampleFlat.heap0 SampleFlat.image0 (ofZ 1) Hwf))
    as (h' & r & Hrun & Hlabels & Hcs & _).
  - change (width SampleFlat.image0) with 4%Z.
    change (height SampleFlat.image0) with 3%Z.
    rewrite Hseeds. discriminate.
  - exists h', r. split; [exact Hrun|]. split.
    + rewrite Hlabels.
      change (width SampleFlat.image0) with 4%Z.
      change (height SampleFlat.image0) with 3%Z.
      rewrite Hseeds. reflexivity.
    + rewrite Hcs.
      change (width SampleFlat.image0) with 4%Z.
      change (height SampleFlat.image0) with 3%Z.
      rewrite Hseeds. reflexivity.
Defined.

(** On an image less than three pixels wide or less than three pixels
    high, the watershed always fails with a [TypeError], whatever
    [sigma]. *)
Theorem watershed_needs_interior_pixel :
  forall (num : Type) (N : Number num) h img (sigma : num),
    wf_image h img ->
    (width img < 3 \/ height img < 3)%Z ->
    snd (Part001.watershedSegmentation h img sigma) = Throw TypeError.
Proof.
  intros num N h img sigma Hwf Hsmall.
  rewrite (watershed_no_seed sigma Hwf); [reflexivity|].
  rewrite (gradientMap_small _ Hsmall). reflexivity.
Qed.

Lemma watershed_needs_interior_pixel_witness :
  wf_image SampleImage.heap0 SampleImage.image0
  /\ (width SampleImage.image0 < 3 \/ height SampleImage.image0 < 3)%Z
  /\ snd (Part001.watershedSegmentation SampleImage.heap0 SampleImage.image0
            (ofZ 1 : FloatNumber.float)) = Throw TypeError.
Proof.
  assert (Hwf : wf_image SampleImage.heap0 SampleImage.image0).
  { unfold wf_image. simpl. repeat split; try lia.
    repeat (constructor; [lia|]). constructor. }
  assert (Hsmall : (width SampleImage.image0 < 3 \/ height SampleImage.image0 < 3)%Z)
    by (left; simpl; lia).
  split; [exact Hwf|]. split; [exact Hsmall|].
  exact (@watershed_needs_interior_pixel FloatNumber.float _
           SampleImage.heap0 SampleImage.image0 (ofZ 1) Hwf Hsmall).
Defined.

Module WatershedReal.
Import RealNumber RealFacts.
Local Open Scope R_scope.

(** A gradient is a number that is not negative, or NaN. *)
Lemma gradient_not_below :
  forall (d : buffer) w x y t,
    t <= 0 -> x_ltb (Part001.gradientAt d w x y) (Finite t) = false.
Proof.
  intros d w x y t Ht. unfold Part001.gradientAt.
  cbn [nsub nadd nmul nsqrt xreal_Number].
  assert (Hb : forall i, exists r, Part001.byteAt (num := xreal) d i = Finite r
                                   \/ Part001.byteAt (num := xreal) d i = XNaN).
  { intros i. unfold Part001.byteAt. destruct (nth_error d (Z.to_nat i)).
    - eexists. left. reflexivity.
    - exists 0. right. reflexivity. }
  destruct (Hb ((y * w + x + 1) * 4)%Z) as (a & [-> | ->]);
    destruct (Hb ((y * w + x - 1) * 4)%Z) as (b & [-> | ->]);
    destruct (Hb (((y + 1) * w + x) * 4)%Z) as (c & [-> | ->]);
    destruct (Hb (((y - 1) * w + x) * 4)%Z) as (e & [-> | ->]);
    cbn [x_sub x_add x_opp x_mul x_sqrt x_ltb]; try reflexivity.
  pose proof (Rle_0_sqr (a + - b)) as S1. pose proof (Rle_0_sqr (c + - e)) as S2.
  unfold Rsqr in S1, S2.
  rewrite Rltb_false by lra. cbn [x_ltb].
  apply Rltb_false.
  pose proof (sqrt_pos ((a + - b) * (a + - b) + (c + - e) * (c + - e))). lra.
Qed.

Lemma findSeeds_none :
  forall gradients (t : xreal) i,
    Forall (fun g => x_ltb g t = false) gradients ->
    Part001.findSeeds gradients t i = [].
Proof.
  induction gradients as [|g gradients IH]; intros t i Hall; [reflexivity|].
  inversion Hall as [|? ? Hg Hrest]; subst.
  cbn [Part001.findSeeds nltb xreal_Number]. rewrite Hg. apply IH. assumption.
Qed.

Lemma gradientMap_not_below :
  forall (d : buffer) w hg t,
    t <= 0 ->
    Forall (fun g => x_ltb g (Finite t) = false) (Part001.gradientMap d w hg).
Proof.
  intros d w hg t Ht. unfold Part001.gradientMap.
  apply Forall_forall. intros g Hg.
  apply in_flat_map in Hg. destruct Hg as (y & _ & Hg).
  apply in_map_iff in Hg. destruct Hg as (x & <- & _).
  apply gradient_not_below. assumption.
Qed.

End WatershedReal.

(** With [sigma <= 0] no gradient is below the threshold, so the watershed
    fails with a [TypeError] on every image (exact arithmetic). *)
Theorem watershed_needs_positive_sigma :
  forall h img (sigma : R),
    wf_image h img -> (sigma <= 0)%R ->
    snd (Part001.watershedSegmentation h img (RealNumber.Finite sigma)) = Throw TypeError.
Proof.
  intros h img sigma Hwf Hsigma.
  rewrite (watershed_no_seed (RealNumber.Finite sigma) Hwf); [reflexivity|].
  apply WatershedReal.findSeeds_none.
  cbn [nmul ofZ RealNumber.xreal_Number RealNumber.x_mul].
  apply WatershedReal.gradientMap_not_below. lra.
Qed.

Lemma watershed_needs_positive_sigma_witness :
  wf_image SampleFlat.heap0 SampleFlat.image0 /\ (0 <= 0)%R
  /\ snd (Part001.watershedSegmentation SampleFlat.heap0 SampleFlat.image0
            (RealNumber.Finite 0)) = Throw TypeError.
Proof.
  assert (Hwf : wf_image SampleFlat.heap0 SampleFlat.image0).
  { unfold wf_image. simpl. repeat split; try lia.
    repeat (constructor; [lia|]). constructor. }
  assert (H0 : (0 <= 0)%R) by lra.
  split; [exact Hwf|]. split; [exact H0|].
  exact (@watershed_needs_positive_sigma SampleFlat.heap0 SampleFlat.image0 0%R Hwf H0).
Defined.

(** ** What the k-means++ variant returns *)

Section LastPass000.
Context {num : Type} `{Number num}.
Variable random : nat -> num.

Import UpdateSpec.

(** The state the loop returns comes from one last pass over the centroids
    [previous] of the pass before (the seeds, if there was none). *)
Lemma lloyd_last_pass :
  forall fuel pixels k iterations st st',
    (1 <= k)%Z ->
    length (Part000.centroids_at st) = Z.to_nat k ->
    length (Part000.labels_at st) = length pixels ->
    Part000.lloyd random fuel pixels k iterations st = Ok st' ->
    exists previous,
      length previous = Z.to_nat k
      /\ mapM (fun px => Part000.nearest px previous 0 infinity 0) pixels
         = Ok (Part000.labels_at st')
      /\ forall j,
           (j < Z.to_nat k)%nat ->
           let m := members_of pixels (Part000.labels_at st') j in
           exists c,
             nth_error (Part000.centroids_at st') j
             = Some (if (0 <? length m)%nat then Some (componentMean m)
                     else reseed (random c) previous).
Proof.
  induction fuel as [|fuel IH]; intros pixels k iterations st st' Hk Hcs Hls Hrun;
    simpl in Hrun; [discriminate|].
  destruct (Part000.newClusters k) as [clusters0| |] eqn:Hnew; simpl in Hrun;
    try discriminate.
  destruct (Part000.assign pixels 0 (Part000.centroids_at st) _) as [p| |] eqn:Hp;
    simpl in Hrun; try discriminate.
  destruct (Part000.update random (Part000.clusters_of p) _ _) as [cs c] eqn:Hu.
  pose proof (pass_rule random pixels (Part000.centroids_at st) (Part000.labels_at st)
                k (Part000.draws_at st) Hls Hnew Hp Hu) as [Hlen Hrule].
  pose proof Hp as Hspec. apply assign_spec in Hspec; [|simpl; lia].
  destruct Hspec as (ls & Hm & Hlab & _ & _).
  cbn [Part000.labels_of] in Hlab.
  assert (Hlabels : Part000.labels_of p = ls).
  { rewrite Hlab. simpl. rewrite <- Hls, skipn_all, app_nil_r. reflexivity. }
  assert (Hlsn : length ls = length pixels).
  { edestruct mapM_ok with (P := fun _ : nat => True) as [Hn _]; [exact Hm|auto|exact Hn]. }
  destruct (Part000.changed_of p && (iterations <? 100)%Z).
  - eapply IH; [exact Hk| | |exact Hrun]; simpl; congruence.
  - inversion Hrun; subst st'. cbn [Part000.labels_at Part000.centroids_at].
    exists (Part000.centroids_at st).
    split; [exact Hcs|]. split; [rewrite Hlabels; exact Hm|].
    intros j Hj. eexists. apply Hrule. exact Hj.
Qed.

Lemma cluster_pixels_last_pass :
  forall fuel d k st,
    (1 <= k)%Z ->
    Part000.cluster_pixels random fuel d k = Ok st ->
    exists previous,
      length previous = Z.to_nat k
      /\ mapM (fun px => Part000.nearest px previous 0 infinity 0) (extractPixels d)
         = Ok (Part000.labels_at st)
      /\ forall j,
           (j < Z.to_nat k)%nat ->
           let m := members_of (extractPixels d) (Part000.labels_at st) j in
           exists c,
             nth_error (Part000.centroids_at st) j
             = Some (if (0 <? length m)%nat then Some (componentMean m)
                     else reseed (random c) previous).
Proof.
  intros fuel d k st Hk Hrun. unfold Part000.cluster_pixels in Hrun.
  destruct (Nat.eqb (length d mod 4) 0) eqn:Hd; simpl in Hrun; [|discriminate].
  destruct (Part000.seed random fuel (extractPixels d) k _ 1) as [[cs c]| |] eqn:Hs;
    simpl in Hrun; try discriminate.
  apply seed_length in Hs; [|simpl; lia].
  eapply lloyd_last_pass; [exact Hk| | |exact Hrun]; simpl.
  - unfold Part000.centroid in *. lia.
  - rewrite repeat_length. symmetry. apply whole_pixels. assumption.
Qed.

End LastPass000.

(** What the k-means++ variant returns comes from one last pass over a
    centroid array [previous]: the labels are the nearest-centroid
    assignment against [previous], and the returned centroid of a label is
    the component-wise mean of the pixels that carry it, or, when no pixel
    carries it, the element of [previous] that a draw selects. *)
Theorem kMeans000_centroids_are_means :
  forall (num : Type) (N : Number num) (random : nat -> num) fuel h img k h' r,
    (1 <= k)%Z ->
    Part000.kMeansSegmentation random fuel h img k = (h', Ok r) ->
    exists previous,
      length previous = Z.to_nat k
      /\ mapM (fun px => Part000.nearest px previous 0 infinity 0)
              (extractPixels (bytes h img))
         = Ok (Part000.labels r)
      /\ forall j,
           (j < Z.to_nat k)%nat ->
           let m := UpdateSpec.members_of (extractPixels (bytes h img)) (Part000.labels r) j in
           exists c,
             nth_error (Part000.centroids r) j
             = Some (if (0 <? length m)%nat then Some (UpdateSpec.componentMean m)
                     else UpdateSpec.reseed (random c) previous).
Proof.
  intros num N random fuel h img k h' r Hk Hrun.
  unfold Part000.kMeansSegmentation in Hrun.
  destruct (newImageData h (width img) (height img)) as [h1 [seg| |]];
    try discriminate.
  destruct (Part000.cluster_pixels random fuel (bytes h img) k) as [st| |] eqn:Hc;
    try discriminate.
  destruct (Part000.paint h1 seg _ _ _ 0) as [h2 [[]| |]]; try discriminate.
  inversion Hrun; subst. cbn [Part000.labels Part000.centroids].
  eapply cluster_pixels_last_pass; eassumption.
Qed.

Lemma kMeans000_centroids_are_means_witness :
  (1 <= 2)%Z
  /\ exists h' r,
       Part000.kMeansSegmentation SampleImage.draws_half 101
         SampleImage.heap0 SampleImage.image0 2 = (h', Ok r)
       /\ exists previous,
            length previous = Z.to_nat 2
            /\ mapM (fun px => Part000.nearest px previous 0 infinity 0)
                    (extractPixels (bytes SampleImage.heap0 SampleImage.image0))
               = Ok (Part000.labels r)
            /\ forall j,
                 (j < Z.to_nat 2)%nat ->
                 let m := UpdateSpec.members_of
                            (extractPixels (bytes SampleImage.heap0 SampleImage.image0))
                            (Part000.labels r) j in
                 exists c,
                   nth_error (Part000.centroids r) j
                   = Some (if (0 <? length m)%nat then Some (UpdateSpec.componentMean m)
                           else UpdateSpec.reseed (SampleImage.draws_half c) previous).
Proof.
  assert (Hk : (1 <= 2)%Z) by lia.
  assert (Hrun : exists h' r,
             Part000.kMeansSegmentation SampleImage.draws_half 101
               SampleImage.heap0 SampleImage.image0 2 = (h', Ok r)).
  { vm_compute. eexists. eexists. reflexivity. }
  destruct Hrun as (h' & r & Hrun).
  split; [exact Hk|]. exists h', r. split; [exact Hrun|].
  exact (@kMeans000_centroids_are_means FloatNumber.float _ SampleImage.draws_half
           101%nat SampleImage.heap0 SampleImage.image0 2%Z h' r Hk Hrun).
Defined.

(** ** What the random-seeding variant returns *)

Section LastIteration001.
Context {num : Type} `{Number num}.
Variable random : nat -> num.

Import UpdateSpec.

(** The assignment loop labels every pixel with its nearest centroid and
    appends it to the members of that cluster. *)
Lemma assign001_members :
  forall pixels (centroids : list (list num)) clusters labels clusters' labels',
    Part001.assign pixels centroids clusters labels = Ok (clusters', labels') ->
    let ls := map (fun px => Part001.nearest px centroids 0 infinity 0) pixels in
    labels' = labels ++ ls
    /\ length clusters' = length clusters
    /\ forall j members,
         nth_error clusters j = Some members ->
         nth_error clusters' j = Some (members ++ members_of pixels ls j).
Proof.
  induction pixels as [|px pixels IH]; intros centroids clusters labels clusters' labels' Hrun.
  - simpl in Hrun. inversion Hrun; subst. simpl.
    split; [rewrite app_nil_r; reflexivity|]. split; [reflexivity|].
    intros j members Hj. rewrite app_nil_r. exact Hj.
  - cbn [Part001.assign] in Hrun.
    set (cl := Part001.nearest px centroids 0 infinity 0) in *.
    unfold Part001.push_member in Hrun.
    destruct (nth_error clusters cl) as [mem|] eqn:Hmem; [|discriminate].
    cbn [bind] in Hrun.
    apply IH in Hrun. destruct Hrun as (Hlab & Hlen & Hnth).
    cbn zeta. cbn [map]. fold cl.
    split; [rewrite Hlab, <- app_assoc; reflexivity|].
    split; [rewrite Hlen; apply list_set_length|].
    intros j members Hj. cbn [members_of].
    destruct (Nat.eqb cl j) eqn:Hcl.
    + apply Nat.eqb_eq in Hcl. subst j.
      rewrite (Hnth cl (mem ++ [px])).
      * rewrite <- app_assoc. simpl. congruence.
      * apply list_set_same. apply nth_error_Some. congruence.
    + apply Nat.eqb_neq in Hcl.
      apply Hnth. rewrite list_set_other by assumption. exact Hj.
Qed.

Lemma update001_rule :
  forall (clusters : list (list (list num))) centroids j members c,
    nth_error clusters j = Some members ->
    nth_error centroids j = Some c ->
    nth_error (Part001.update clusters centroids) j
    = Some (if (0 <? length members)%nat
            then [Part001.channelMean members 0; Part001.channelMean members 1;
                  Part001.channelMean members 2]
            else c).
Proof.
  induction clusters as [|m clusters IH]; intros [|c0 centroids] [|j] members c Hm Hc;
    simpl in *; try discriminate.
  - inversion Hm; inversion Hc; subst. reflexivity.
  - apply IH; assumption.
Qed.

Lemma iterate_S :
  forall n pixels k (centroids : list (list num)) labels,
    Part001.iterate (S n) pixels k centroids labels
    = if (k <? 0)%Z then Throw RangeError
      else st <- Part001.assign pixels centroids (repeat [] (Z.to_nat k)) [] ;;
           Part001.iterate n pixels k (Part001.update (fst st) centroids) (snd st).
Proof. reflexivity. Qed.

(** The iterations before the last one, and the last one. *)
Lemma iterate_last :
  forall n pixels k (centroids : list (list num)) labels centroids' labels',
    Part001.iterate (S n) pixels k centroids labels = Ok (centroids', labels') ->
    exists previous labels0,
      Part001.iterate n pixels k centroids labels = Ok (previous, labels0)
      /\ Part001.iterate 1 pixels k previous labels0 = Ok (centroids', labels').
Proof.
  induction n as [|n IH]; intros pixels k centroids labels centroids' labels' Hrun.
  - exists centroids, labels. split; [reflexivity|exact Hrun].
  - rewrite iterate_S in Hrun.
    destruct (k <? 0)%Z eqn:Hk; [discriminate|].
    destruct (Part001.assign pixels centroids _ []) as [st| |] eqn:Hst;
      cbn [bind] in Hrun; try discriminate.
    apply IH in Hrun. destruct Hrun as (previous & labels0 & Hfirst & Hlast).
    exists previous, labels0. split; [|exact Hlast].
    rewrite iterate_S, Hk, Hst. cbn [bind]. exact Hfirst.
Qed.

Lemma iterate_length :
  forall n pixels k (centroids : list (list num)) labels centroids' labels',
    Part001.iterate n pixels k centroids labels = Ok (centroids', labels') ->
    length centroids' = length centroids.
Proof.
  induction n as [|n IH]; intros pixels k centroids labels centroids' labels' Hrun.
  - simpl in Hrun. inversion Hrun. reflexivity.
  - rewrite iterate_S in Hrun.
    destruct (k <? 0)%Z; [discriminate|].
    destruct (Part001.assign pixels centroids _ []) as [st| |];
      cbn [bind] in Hrun; try discriminate.
    apply IH in Hrun. rewrite Hrun. apply update001_length.
Qed.

Lemma iterate_one :
  forall pixels k (previous : list (list num)) labels0 centroids' labels',
    length previous = Z.to_nat k ->
    Part001.iterate 1 pixels k previous labels0 = Ok (centroids', labels') ->
    labels' = map (fun px => Part001.nearest px previous 0 infinity 0) pixels
    /\ forall j c,
         nth_error previous j = Some c ->
         let m := members_of pixels labels' j in
         nth_error centroids' j
         = Some (if (0 <? length m)%nat
                 then [Part001.channelMean m 0; Part001.channelMean m 1;
                       Part001.channelMean m 2]
                 else c).
Proof.
  intros pixels k previous labels0 centroids' labels' Hlen Hrun.
  rewrite iterate_S in Hrun.
  destruct (k <? 0)%Z; [discriminate|].
  destruct (Part001.assign pixels previous _ []) as [[clusters ls]| |] eqn:Hst;
    cbn [bind fst snd Part001.iterate] in Hrun; try discriminate.
  inversion Hrun; subst centroids' labels'. clear Hrun.
  apply assign001_members in Hst. cbn zeta in Hst.
  destruct Hst as (Hls & Hclen & Hnth). cbn [app] in Hls.
  split; [exact Hls|].
  intros j c Hc. cbn zeta.
  assert (Hj : (j < Z.to_nat k)%nat) by (rewrite <- Hlen; apply nth_error_Some; congruence).
  specialize (Hnth j [] (repeat_nth_error _ Hj)). cbn [app] in Hnth.
  rewrite Hls. apply update001_rule; assumption.
Qed.

End LastIteration001.



(** The random-seeding variant does not check [k] either: on an image
    that has pixels, [k = 0] fails with the [TypeError] of pushing to the
    missing [clusters[0]], and [k < 0] with the [RangeError] of
    [Array(k)]. *)
Theorem kMeans001_rejects_bad_k :
  forall (num : Type) (N : Number num) (random : nat -> num) h img k,
    wf_image h img -> (k <= 0)%Z ->
    snd (Part001.kMeansSegmentation random h img k)
    = Throw (if (k <? 0)%Z then RangeError else TypeError).
Proof.
  intros num N random h img k Hwf Hk.
  destruct (image_pixels_cons (num := num) Hwf) as (p & pixels & Hpx).
  pose proof Hwf as (Hw & Hh & _).
  unfold Part001.kMeansSegmentation.
  rewrite (newImageData_ok h Hw Hh).
  replace (15%nat) with (S 14) by reflexivity. rewrite iterate_S.
  destruct (k <? 0)%Z eqn:Hneg; [reflexivity|].
  apply Z.ltb_ge in Hneg. replace k with 0%Z by lia.
  rewrite Hpx. reflexivity.
Qed.

Lemma kMeans001_rejects_bad_k_witness :
  wf_image SampleImage.heap0 SampleImage.image0 /\ (0 <= 0)%Z
  /\ snd (Part001.kMeansSegmentation SampleImage.draws_half
            SampleImage.heap0 SampleImage.image0 0) = Throw TypeError.
Proof.
  assert (Hwf : wf_image SampleImage.heap0 SampleImage.image0).
  { unfold wf_image. simpl. repeat split; try lia.
    repeat (constructor; [lia|]). constructor. }
  assert (H0 : (0 <= 0)%Z) by lia.
  split; [exact Hwf|]. split; [exact H0|].
  exact (@kMeans001_rejects_bad_k FloatNumber.float _ SampleImage.draws_half
           SampleImage.heap0 SampleImage.image0 0%Z Hwf H0).
Defined.

(** ** The nearest centroid, in exact arithmetic *)

Module NearestReal.
Import RealNumber RealFacts KMeansReal SilhouetteSpec.
Local Open Scope R_scope.

Lemma colorDistance_refines :
  forall p c, fin_pixel p -> fin_pixel c ->
    Part001.colorDistance p c = Finite (distance p c).
Proof.
  intros p c (a0 & a1 & a2 & ->) (b0 & b1 & b2 & ->).
  unfold Part001.colorDistance, distance.
  cbn [elem nth_error sqr nadd nsub nmul nsqrt xreal_Number
       x_add x_sub x_opp x_mul x_sqrt chan].
  pose proof (Rle_0_sqr (a0 + - b0)) as S0.
  pose proof (Rle_0_sqr (a1 + - b1)) as S1.
  pose proof (Rle_0_sqr (a2 + - b2)) as S2.
  unfold Rsqr in S0, S1, S2.
  rewrite Rltb_false by lra.
  f_equal. f_equal. ring.
Qed.

(** What the scan returns from centroid [j] on, when the least distance so
    far is [m], found at [cl]: [cl] itself when no later centroid is
    closer, else the first of the closest later ones. *)
Definition scanned (pixel : list xreal) (centroids : list (list xreal))
    (j : nat) (m : R) (cl i : nat) : Prop :=
  (i = cl /\ forall t c, nth_error centroids t = Some c -> m <= distance pixel c)
  \/ (exists t c,
         i = (j + t)%nat /\ nth_error centroids t = Some c
         /\ distance pixel c < m
         /\ (forall t' c', nth_error centroids t' = Some c' ->
                           distance pixel c <= distance pixel c')
         /\ (forall t' c', (t' < t)%nat -> nth_error centroids t' = Some c' ->
                           distance pixel c < distance pixel c')).

Lemma scanned_step :
  forall pixel c0 centroids j m cl i,
    (if Rlt_dec (distance pixel c0) m
     then scanned pixel centroids (S j) (distance pixel c0) j i
     else scanned pixel centroids (S j) m cl i) ->
    scanned pixel (c0 :: centroids) j m cl i.
Proof.
  intros pixel c0 centroids j m cl i Hrest.
  destruct (Rlt_dec (distance pixel c0) m) as [Hlt|Hge].
  - right. destruct Hrest as [[-> Hall]|(t & c & -> & Hc & Hd & Hmin & Hfirst)].
    + exists 0%nat, c0. split; [lia|]. split; [reflexivity|]. split; [assumption|].
      split.
      * intros [|t'] c' Hc'; simpl in Hc'; [inversion Hc'; lra|eauto].
      * intros t' c' Ht'. lia.
    + exists (S t), c. split; [lia|]. split; [exact Hc|]. split; [lra|].
      split.
      * intros [|t'] c' Hc'; simpl in Hc'; [inversion Hc'; subst; lra|eauto].
      * intros [|t'] c' Ht' Hc'; simpl in Hc'; [inversion Hc'; subst; lra|].
        apply (Hfirst t'); [lia|assumption].
  - destruct Hrest as [[-> Hall]|(t & c & -> & Hc & Hd & Hmin & Hfirst)].
    + left. split; [reflexivity|].
      intros [|t'] c' Hc'; simpl in Hc'; [inversion Hc'; subst; lra|eauto].
    + right. exists (S t), c. split; [lia|]. split; [exact Hc|]. split; [assumption|].
      split.
      * intros [|t'] c' Hc'; simpl in Hc'; [inversion Hc'; subst; lra|eauto].
      * intros [|t'] c' Ht' Hc'; simpl in Hc'; [inversion Hc'; subst; lra|].
        apply (Hfirst t'); [lia|assumption].
Qed.

Lemma nearest001_scanned :
  forall pixel centroids j m cl,
    fin_pixel pixel -> Forall fin_pixel centroids ->
    scanned pixel centroids j m cl (Part001.nearest pixel centroids j (Finite m) cl).
Proof.
  intros pixel centroids. induction centroids as [|c0 centroids IH];
    intros j m cl Hp Hall.
  - left. split; [reflexivity|]. intros [|t] c Hc; discriminate.
  - inversion Hall as [|? ? Hc0 Hrest]; subst.
    apply scanned_step. cbn [Part001.nearest].
    rewrite (colorDistance_refines Hp Hc0). cbn [nltb xreal_Number x_ltb].
    unfold Rltb. destruct (Rlt_dec (distance pixel c0) m); apply IH; assumption.
Qed.

Lemma nearest000_scanned :
  forall pixel centroids j m cl,
    fin_pixel pixel -> Forall fin_pixel centroids ->
    exists i, Part000.nearest pixel (map Some centroids) j (Finite m) cl = Ok i
              /\ scanned pixel centroids j m cl i.
Proof.
  intros pixel centroids. induction centroids as [|c0 centroids IH];
    intros j m cl Hp Hall.
  - exists cl. split; [reflexivity|].
    left. split; [reflexivity|]. intros [|t] c Hc; discriminate.
  - inversion Hall as [|? ? Hc0 Hrest]; subst.
    cbn [map Part000.nearest Part000.euclideanDistance bind].
    change (nsqrt (sumSquares pixel c0 0 (ofZ 0))) with (Metrics.euclideanDistance pixel c0).
    rewrite (SilhouetteFacts.distance_refines Hp Hc0). cbn [nltb xreal_Number x_ltb].
    unfold Rltb.
    destruct (Rlt_dec (distance pixel c0) m) as [Hlt|Hge] eqn:Hdec.
    + destruct (IH (S j) (distance pixel c0) j Hp Hrest) as (i & Hi & Hs).
      exists i. split; [exact Hi|]. apply scanned_step. rewrite Hdec. exact Hs.
    + destruct (IH (S j) m cl Hp Hrest) as (i & Hi & Hs).
      exists i. split; [exact Hi|]. apply scanned_step. rewrite Hdec. exact Hs.
Qed.

(** From [Infinity]: the first of the closest centroids. *)
Lemma scanned_first :
  forall pixel c0 centroids i,
    scanned pixel centroids 1 (distance pixel c0) 0 i ->
    exists c,
      nth_error (c0 :: centroids) i = Some c
      /\ (forall t c', nth_error (c0 :: centroids) t = Some c' ->
                       distance pixel c <= distance pixel c')
      /\ (forall t c', (t < i)%nat -> nth_error (c0 :: centroids) t = Some c' ->
                       distance pixel c < distance pixel c').
Proof.
  intros pixel c0 centroids i [[-> Hall]|(t & c & -> & Hc & Hd & Hmin & Hfirst)].
  - exists c0. split; [reflexivity|]. split.
    + intros [|t] c' Hc'; simpl in Hc'; [inversion Hc'; lra|eauto].
    + intros t c' Ht. lia.
  - exists c. split; [exact Hc|]. split.
    + intros [|t'] c' Hc'; simpl in Hc'; [inversion Hc'; subst; lra|eauto].
    + intros [|t'] c' Ht' Hc'; simpl in Hc'; [inversion Hc'; subst; lra|].
      apply (Hfirst t'); [lia|assumption].
Qed.

End NearestReal.

(** In both k-means, the scan for the nearest centroid returns the index
    of a centroid at the least distance from the pixel, and of the first
    such centroid (exact arithmetic, at least one centroid). *)
Theorem nearest_is_first_closest :
  forall pixel c0 centroids,
    KMeansReal.fin_pixel pixel -> Forall KMeansReal.fin_pixel (c0 :: centroids) ->
    let closest (i : nat) : Prop :=
      exists c,
        nth_error (c0 :: centroids) i = Some c
        /\ (forall t c', nth_error (c0 :: centroids) t = Some c' ->
                         (SilhouetteSpec.distance pixel c
                          <= SilhouetteSpec.distance pixel c')%R)
        /\ (forall t c', (t < i)%nat -> nth_error (c0 :: centroids) t = Some c' ->
                         (SilhouetteSpec.distance pixel c
                          < SilhouetteSpec.distance pixel c')%R) in
    closest (Part001.nearest pixel (c0 :: centroids) 0 infinity 0)
    /\ exists i, Part000.nearest pixel (map Some (c0 :: centroids)) 0 infinity 0 = Ok i
                 /\ closest i.
Proof.
  intros pixel c0 centroids Hp Hall closest.
  inversion Hall as [|? ? Hc0 Hrest]; subst. split.
  - unfold closest. apply NearestReal.scanned_first.
    cbn [Part001.nearest].
    rewrite (NearestReal.colorDistance_refines Hp Hc0).
    cbn [nltb infinity RealNumber.xreal_Number RealNumber.x_ltb].
    apply NearestReal.nearest001_scanned; assumption.
  - cbn [map Part000.nearest Part000.euclideanDistance bind].
    change (nsqrt (sumSquares pixel c0 0 (ofZ 0))) with (Metrics.euclideanDistance pixel c0).
    rewrite (SilhouetteFacts.distance_refines Hp Hc0).
    cbn [nltb infinity RealNumber.xreal_Number RealNumber.x_ltb].
    destruct (@NearestReal.nearest000_scanned pixel centroids 1
                (SilhouetteSpec.distance pixel c0) 0 Hp Hrest) as (i & Hi & Hs).
    exists i. split; [exact Hi|].
    unfold closest. apply NearestReal.scanned_first. exact Hs.
Qed.

Lemma nearest_is_first_closest_witness :
  let dark := [RealNumber.Finite 10; RealNumber.Finite 10; RealNumber.Finite 10] in
  let light := [RealNumber.Finite 240; RealNumber.Finite 240; RealNumber.Finite 240] in
  KMeansReal.fin_pixel dark /\ Forall KMeansReal.fin_pixel [light; dark]
  /\ exists c,
       nth_error [light; dark] (Part001.nearest dark [light; dark] 0 infinity 0) = Some c
       /\ forall t c', nth_error [light; dark] t = Some c' ->
                       (SilhouetteSpec.distance dark c <= SilhouetteSpec.distance dark c')%R.
Proof.
  intros dark light.
  assert (Hd : KMeansReal.fin_pixel dark) by (exists 10%R, 10%R, 10%R; reflexivity).
  assert (Hl : KMeansReal.fin_pixel light) by (exists 240%R, 240%R, 240%R; reflexivity).
  assert (Hall : Forall KMeansReal.fin_pixel [light; dark])
    by (constructor; [exact Hl|constructor; [exact Hd|constructor]]).
  split; [exact Hd|]. split; [exact Hall|].
  destruct (proj1 (@nearest_is_first_closest dark light [dark] Hd Hall))
    as (c & Hc & Hmin & _).
  exists c. split; [exact Hc|exact Hmin].
Defined.

(** ** The mean shift *)

Section ModesApart.
Context {num : Type} `{Number num}.

Lemma findMode_none :
  forall p (bandwidth : num) modes j c,
    Part001.findMode p bandwidth modes j = None -> In c modes ->
    (Part001.colorDistance p c <? bandwidth * ofZ 40)%js = false.
Proof.
  intros p bandwidth modes. induction modes as [|m modes IH]; intros j c Hnone Hin.
  - contradiction.
  - cbn [Part001.findMode] in Hnone.
    destruct (Part001.colorDistance p m <? bandwidth * ofZ 40)%js eqn:Hm; [discriminate|].
    destruct Hin as [<-|Hin]; [exact Hm|]. eapply IH; eassumption.
Qed.

(** No mode lies within the bandwidth of an earlier one. *)
Definition apart (bandwidth : num) (modes : list (list num)) : Prop :=
  forall j j' c c',
    (j < j')%nat -> nth_error modes j = Some c -> nth_error modes j' = Some c' ->
    (Part001.colorDistance c' c <? bandwidth * ofZ 40)%js = false.

Lemma bucket_apart :
  forall (bandwidth : num) pixels modes labels modes' labels',
    apart bandwidth modes ->
    Part001.bucket pixels bandwidth modes labels = (modes', labels') ->
    apart bandwidth modes'.
Proof.
  intros bandwidth pixels. induction pixels as [|p pixels IH];
    intros modes labels modes' labels' Hap Hrun.
  - simpl in Hrun. inversion Hrun; subst. exact Hap.
  - cbn [Part001.bucket] in Hrun.
    destruct (Part001.findMode p bandwidth modes 0) as [m|] eqn:Hfind.
    + eapply IH; eassumption.
    + eapply IH; [|exact Hrun].
      intros j j' c c' Hlt Hc Hc'.
      apply nth_error_snoc_inv in Hc'. destruct Hc' as [[Hj' Hc']|[-> ->]].
      * rewrite nth_error_snoc_lt in Hc by lia. exact (Hap j j' c c' Hlt Hc Hc').
      * rewrite nth_error_snoc_lt in Hc by assumption.
        eapply findMode_none; [exact Hfind|]. eapply nth_error_In. exact Hc.
Qed.

End ModesApart.

(** The mean shift never returns two modes of which the later one lies
    within the bandwidth of the earlier one: for centroids [c] before [c'],
    the test [dist(c', c) < bandwidth * 40] fails. *)
Theorem meanShift_modes_apart :
  forall (num : Type) (N : Number num) h img (bandwidth : num) h' r j j' c c',
    Part001.meanShiftSegmentation h img bandwidth = (h', Ok r) ->
    (j < j')%nat ->
    nth_error (Part001.centroids r) j = Some c ->
    nth_error (Part001.centroids r) j' = Some c' ->
    (Part001.colorDistance c' c <? bandwidth * ofZ 40)%js = false.
Proof.
  intros num N h img bandwidth h' r j j' c c' Hrun Hlt Hc Hc'.
  unfold Part001.meanShiftSegmentation in Hrun.
  destruct (newImageData h (width img) (height img)) as [h1 [seg| |]];
    try discriminate.
  destruct (Part001.bucket (extractPixels (bytes h img)) bandwidth [] [])
    as [modes labels] eqn:Hb.
  unfold Part001.finish in Hrun.
  destruct (Part001.paint h1 seg labels _ _ 0) as [h2 [[]| |]]; try discriminate.
  inversion Hrun; subst. cbn [Part001.centroids] in Hc, Hc'.
  assert (Hap : apart bandwidth modes).
  { eapply bucket_apart; [|exact Hb]. intros a b x y _ Hx. destruct a; discriminate. }
  exact (Hap j j' c c' Hlt Hc Hc').
Qed.

Lemma meanShift_modes_apart_witness :
  exists h' r c c',
    Part001.meanShiftSegmentation SampleImage.heap0 SampleImage.image0
      (ofZ 1 : FloatNumber.float) = (h', Ok r)
    /\ (0 < 1)%nat
    /\ nth_error (Part001.centroids r) 0 = Some c
    /\ nth_error (Part001.centroids r) 1 = Some c'
    /\ (Part001.colorDistance c' c <? ofZ 1 * ofZ 40)%js = false.
Proof.
  assert (Hrun : exists h' r c c',
             Part001.meanShiftSegmentation SampleImage.heap0 SampleImage.image0
               (ofZ 1 : FloatNumber.float) = (h', Ok r)
             /\ nth_error (Part001.centroids r) 0 = Some c
             /\ nth_error (Part001.centroids r) 1 = Some c').
  { vm_compute. do 4 eexists. split; [reflexivity|]. split; reflexivity. }
  destruct Hrun as (h' & r & c & c' & Hrun & Hc & Hc').
  assert (Hlt : (0 < 1)%nat) by lia.
  exists h', r, c, c'. split; [exact Hrun|]. split; [exact Hlt|].
  split; [exact Hc|]. split; [exact Hc'|].
  exact (@meanShift_modes_apart FloatNumber.float _ SampleImage.heap0 SampleImage.image0
           (ofZ 1) h' r 0%nat 1%nat c c' Hrun Hlt Hc Hc').
Defined.

Module MeanShiftReal.
Import RealNumber RealFacts KMeansReal SilhouetteSpec.
Local Open Scope R_scope.

Lemma findMode_nonpositive :
  forall p b modes j,
    b <= 0 -> fin_pixel p -> Forall fin_pixel modes ->
    Part001.findMode p (Finite b) modes j = None.
Proof.
  intros p b modes. induction modes as [|m modes IH]; intros j Hb Hp Hall;
    [reflexivity|].
  inversion Hall as [|? ? Hm Hrest]; subst.
  cbn [Part001.findMode]. rewrite (NearestReal.colorDistance_refines Hp Hm).
  cbn [nltb nmul ofZ xreal_Number x_mul x_ltb].
  pose proof (SilhouetteFacts.distance_nonneg p m).
  rewrite Rltb_false by lra. apply IH; assumption.
Qed.

(** With a bandwidth that is not positive every pixel opens a mode. *)
Lemma bucket_nonpositive :
  forall b pixels modes labels,
    b <= 0 -> Forall fin_pixel pixels -> Forall fin_pixel modes ->
    Part001.bucket pixels (Finite b) modes labels
    = (modes ++ pixels, labels ++ seq (length modes) (length pixels)).
Proof.
  intros b pixels. induction pixels as [|p pixels IH]; intros modes labels Hb Hpx Hmodes.
  - simpl. rewrite !app_nil_r. reflexivity.
  - inversion Hpx as [|? ? Hp Hrest]; subst.
    cbn [Part001.bucket]. rewrite (findMode_nonpositive 0 Hb Hp Hmodes).
    rewrite IH; [|assumption|assumption|apply Forall_app; auto].
    rewrite !length_app. cbn [length seq].
    replace (length modes + 1 - 1)%nat with (length modes) by lia.
    replace (length modes + 1)%nat with (S (length modes)) by lia.
    rewrite <- !app_assoc. reflexivity.
Qed.

(** The pixels of an image are colours made of bytes. *)
Lemma extractPixels_bytes :
  forall n (d : buffer),
    length d = (4 * n)%nat -> Forall (fun b => 0 <= b <= 255)%Z d ->
    Forall byte_color (extractPixels (num := xreal) d).
Proof.
  induction n as [|n IH]; intros d Hd Hall.
  - destruct d; [constructor|discriminate].
  - destruct d as [|r [|g [|b [|a rest]]]]; simpl in Hd; try lia.
    inversion Hall as [|? ? Hr H1]; subst. inversion H1 as [|? ? Hg H2]; subst.
    inversion H2 as [|? ? Hbb H3]; subst. inversion H3 as [|? ? _ H4]; subst.
    cbn [extractPixels]. constructor.
    + exists r, g, b. auto.
    + apply IH; [lia|assumption].
Qed.

Lemma image_pixels_bytes :
  forall h img,
    wf_image h img -> Forall byte_color (extractPixels (num := xreal) (bytes h img)).
Proof.
  intros h img (Hw & Hh & _ & Hlen4 & Hall).
  apply (@extractPixels_bytes (Z.to_nat (width img * height img))); [|assumption].
  rewrite Hlen4. lia.
Qed.

Lemma byte_color_finite : forall c, byte_color c -> fin_pixel c.
Proof.
  intros c (r & g & b & -> & _). exists (IZR r), (IZR g), (IZR b). reflexivity.
Qed.

(** Two colours made of bytes are less than 442 apart
    ([255 * sqrt 3 < 442]). *)
Lemma byte_distance :
  forall p q, byte_color p -> byte_color q -> distance p q < 442.
Proof.
  intros p q (r & g & b & -> & Hr & Hg & Hb) (r' & g' & b' & -> & Hr' & Hg' & Hb').
  unfold distance. cbn [chan nth_error].
  assert (Hsq : forall x y : Z, (0 <= x <= 255)%Z -> (0 <= y <= 255)%Z ->
                  0 <= (IZR x - IZR y) ^ 2 <= 65025).
  { intros x y [Hx0 Hx1] [Hy0 Hy1].
    apply IZR_le in Hx0, Hx1, Hy0, Hy1.
    split; [apply pow2_ge_0|]. nra. }
  pose proof (Hsq r r' Hr Hr'). pose proof (Hsq g g' Hg Hg'). pose proof (Hsq b b' Hb Hb').
  replace 442 with (sqrt (442 * 442)) by (apply sqrt_square; lra).
  apply sqrt_lt_1; lra.
Qed.

(** With [bandwidth * 40 >= 442] every pixel joins the mode that the first
    pixel opened. *)
Lemma bucket_one_mode :
  forall b pixels m0 labels,
    442 <= b * 40 -> byte_color m0 -> Forall byte_color pixels ->
    Part001.bucket pixels (Finite b) [m0] labels
    = ([m0], labels ++ repeat 0%nat (length pixels)).
Proof.
  intros b pixels. induction pixels as [|p pixels IH]; intros m0 labels Hb Hm Hpx.
  - simpl. rewrite app_nil_r. reflexivity.
  - inversion Hpx as [|? ? Hp Hrest]; subst.
    cbn [Part001.bucket Part001.findMode].
    rewrite (NearestReal.colorDistance_refines (byte_color_finite Hp) (byte_color_finite Hm)).
    cbn [nltb nmul ofZ xreal_Number x_mul x_ltb].
    pose proof (byte_distance Hp Hm).
    rewrite Rltb_true by lra.
    rewrite IH by assumption.
    cbn [length repeat]. rewrite <- app_assoc. reflexivity.
Qed.

End MeanShiftReal.

(** With a bandwidth that is not positive the mean shift groups nothing:
    every pixel, even one that repeats an earlier colour, opens a mode of
    its own, so pixel [i] gets the label [i] and the centroids are the
    pixels (exact arithmetic). *)
Theorem meanShift_every_pixel_a_mode :
  forall h img (b : R),
    wf_image h img -> (b <= 0)%R ->
    exists h' r,
      Part001.meanShiftSegmentation h img (RealNumber.Finite b) = (h', Ok r)
      /\ Part001.labels r = seq 0 (length (extractPixels (num := RealNumber.xreal) (bytes h img)))
      /\ Part001.centroids r = extractPixels (bytes h img).
Proof.
  intros h img b Hwf Hb.
  pose proof (@SilhouetteValues.image_pixels_finite h img Hwf) as Hfin.
  pose proof Hwf as (Hw & Hh & _).
  unfold Part001.meanShiftSegmentation.
  rewrite (newImageData_ok h Hw Hh).
  rewrite (@MeanShiftReal.bucket_nonpositive b _ [] [] Hb Hfin (Forall_nil _)).
  cbn [app length].
  set (pixels := extractPixels (num := RealNumber.xreal) (bytes h img)) in *.
  edestruct (@finish_ok RealNumber.xreal _
               {| width := width img; height := height img; data := length h |}
               (seq 0 (length pixels))
               (Part001.palette (length pixels) (lit 9 10) (lit 6 10))
               pixels pixels) as [h' Hfinish].
  - apply length_seq.
  - intros i l Hl. rewrite palette_length.
    apply nth_error_In in Hl. apply in_seq in Hl. lia.
  - rewrite Hfinish. eexists. eexists. split; [reflexivity|]. split; reflexivity.
Qed.

Lemma meanShift_every_pixel_a_mode_witness :
  wf_image SampleImage.heap0 SampleImage.image0 /\ (0 <= 0)%R
  /\ exists h' r,
       Part001.meanShiftSegmentation SampleImage.heap0 SampleImage.image0
         (RealNumber.Finite 0) = (h', Ok r)
       /\ Part001.labels r = [0; 1; 2; 3]%nat.
Proof.
  assert (Hwf : wf_image SampleImage.heap0 SampleImage.image0).
  { unfold wf_image. simpl. repeat split; try lia.
    repeat (constructor; [lia|]). constructor. }
  assert (H0 : (0 <= 0)%R) by lra.
  split; [exact Hwf|]. split; [exact H0|].
  destruct (@meanShift_every_pixel_a_mode SampleImage.heap0 SampleImage.image0 0%R Hwf H0)
    as (h' & r & Hrun & Hlabels & _).
  exists h', r. split; [exact Hrun|exact Hlabels].
Defined.

(** With [bandwidth * 40 >= 442] (more than the distance of black and
    white, [255 * sqrt 3]) the mean shift finds a single mode: every label
    is 0 and the only centroid is the first pixel (exact arithmetic). *)
Theorem meanShift_single_mode :
  forall h img (b : R),
    wf_image h img -> (442 <= b * 40)%R ->
    exists h' r p0,
      Part001.meanShiftSegmentation h img (RealNumber.Finite b) = (h', Ok r)
      /\ nth_error (extractPixels (bytes h img)) 0 = Some p0
      /\ Part001.labels r
         = repeat 0%nat (length (extractPixels (num := RealNumber.xreal) (bytes h img)))
      /\ Part001.centroids r = [p0].
Proof.
  intros h img b Hwf Hb.
  pose proof (@MeanShiftReal.image_pixels_bytes h img Hwf) as Hbytes.
  pose proof Hwf as (Hw & Hh & _).
  destruct (image_pixels_cons (num := RealNumber.xreal) Hwf) as (p0 & pixels & Hpx).
  unfold Part001.meanShiftSegmentation.
  rewrite (newImageData_ok h Hw Hh).
  rewrite Hpx in *. inversion Hbytes as [|? ? Hp0 Hrest]; subst.
  cbn [Part001.bucket Part001.findMode app length Nat.sub].
  rewrite (@MeanShiftReal.bucket_one_mode b pixels p0 [0%nat] Hb Hp0 Hrest).
  edestruct (@finish_ok RealNumber.xreal _
               {| width := width img; height := height img; data := length h |}
               ([0%nat] ++ repeat 0%nat (length pixels))
               (Part001.palette (length [p0]) (lit 9 10) (lit 6 10))
               [p0] (p0 :: pixels)) as [h' Hfinish].
  - simpl. rewrite repeat_length. reflexivity.
  - intros i l Hl. rewrite palette_length. simpl.
    assert (l = 0%nat); [|lia].
    apply nth_error_In in Hl.
    change ([0%nat] ++ repeat 0%nat (length pixels))
      with (repeat 0%nat (S (length pixels))) in Hl.
    apply repeat_spec in Hl. exact Hl.
  - rewrite Hfinish. exists h'. eexists. exists p0.
    split; [reflexivity|]. split; [reflexivity|]. split; reflexivity.
Qed.

Lemma meanShift_single_mode_witness :
  wf_image SampleImage.heap0 SampleImage.image0 /\ (442 <= 12 * 40)%R
  /\ exists h' r,
       Part001.meanShiftSegmentation SampleImage.heap0 SampleImage.image0
         (RealNumber.Finite 12) = (h', Ok r)
       /\ Part001.labels r = [0; 0; 0; 0]%nat
       /\ Part001.centroids r
          = [[RealNumber.Finite 10; RealNumber.Finite 10; RealNumber.Finite 10]].
Proof.
  assert (Hwf : wf_image SampleImage.heap0 SampleImage.image0).
  { unfold wf_image. simpl. repeat split; try lia.
    repeat (constructor; [lia|]). constructor. }
  assert (Hb : (442 <= 12 * 40)%R) by lra.
  split; [exact Hwf|]. split; [exact Hb|].
  destruct (@meanShift_single_mode SampleImage.heap0 SampleImage.image0 12%R Hwf Hb)
    as (h' & r & p0 & Hrun & Hp0 & Hlabels & Hcs).
  exists h', r. split; [exact Hrun|]. split; [exact Hlabels|].
  rewrite Hcs. simpl in Hp0. inversion Hp0. reflexivity.
Defined.

(** ** The colours of the output image *)

Section OutputColours.
Context {num : Type} `{Number num}.

(** The four stores of one pixel leave its four bytes. *)
Lemma pixel_stores_values :
  forall h seg i (c : list num),
    (data seg < length h)%nat ->
    (4 * i + 3 < length (bytes h seg))%nat ->
    pixelBytes
      (bytes (store (store (store (store h seg (i * 4) (elem c 0))
                                  seg (i * 4 + 1) (elem c 1))
                           seg (i * 4 + 2) (elem c 2))
                    seg (i * 4 + 3) (ofZ 255)) seg) i
    = shown c.
Proof.
  intros h seg i c Hd Hin.
  set (h1 := store h seg (i * 4) (elem c 0)).
  set (h2 := store h1 seg (i * 4 + 1) (elem c 1)).
  set (h3 := store h2 seg (i * 4 + 2) (elem c 2)).
  assert (F1 : frame h h1 seg) by (apply store_frame; assumption).
  assert (D1 : (data seg < length h1)%nat) by (rewrite (frame_heap F1); assumption).
  assert (F2 : frame h1 h2 seg) by (apply store_frame; assumption).
  assert (D2 : (data seg < length h2)%nat) by (rewrite (frame_heap F2); assumption).
  assert (F3 : frame h2 h3 seg) by (apply store_frame; assumption).
  assert (D3 : (data seg < length h3)%nat) by (rewrite (frame_heap F3); assumption).
  pose proof (frame_size F1) as S1. pose proof (frame_size F2) as S2.
  pose proof (frame_size F3) as S3.
  unfold pixelBytes, shown.
  replace (4 * i)%nat with (i * 4)%nat by lia.
  f_equal; [|f_equal; [|f_equal; [|f_equal]]].
  - rewrite store_below by (assumption || lia).
    unfold h3. rewrite store_below by (assumption || lia).
    unfold h2. rewrite store_below by (assumption || lia).
    unfold h1. apply store_at; [assumption|lia].
  - rewrite store_below by (assumption || lia).
    unfold h3. rewrite store_below by (assumption || lia).
    unfold h2. apply store_at; [assumption|lia].
  - rewrite store_below by (assumption || lia).
    unfold h3. apply store_at; [assumption|lia].
  - apply store_at; [assumption|lia].
Qed.

(** A loop that went on from pixel [i + 1] leaves pixel [i] alone. *)
Lemma painted_keeps :
  forall h h' seg i n ok,
    painted h h' seg (S i) n ok ->
    pixelBytes (bytes h' seg) i = pixelBytes (bytes h seg) i.
Proof.
  intros h h' seg i n ok [_ B _]. unfold pixelBytes.
  rewrite !B by lia. reflexivity.
Qed.

Lemma paint001_colours :
  forall seg labels (colors : list (list num)) pixels i h h',
    (data seg < length h)%nat ->
    Part001.paint h seg labels colors pixels i = (h', Ok tt) ->
    forall q, (i <= q < i + length pixels)%nat ->
      (4 * q + 3 < length (bytes h seg))%nat ->
      exists l c, nth_error labels q = Some l /\ nth_error colors l = Some c
                  /\ pixelBytes (bytes h' seg) q = shown c.
Proof.
  intros seg labels colors pixels.
  induction pixels as [|p pixels IH]; intros i h h' Hd Hp q Hq Hin; simpl in Hq; [lia|].
  cbn [Part001.paint] in Hp.
  destruct (nth_error labels i) as [cl|] eqn:Hl; [|inversion Hp].
  destruct (nth_error colors cl) as [color|] eqn:Hc; [|inversion Hp].
  set (h4 := store _ seg (i * 4 + 3) (ofZ 255)) in Hp.
  assert (D4 : (data seg < length h4)%nat) by (unfold h4; rewrite !store_length; assumption).
  assert (S4 : length (bytes h4 seg) = length (bytes h seg)).
  { destruct (@pixel_stores num _ h seg (i * 4) (elem color 0) (elem color 1)
                (elem color 2) (ofZ 255) Hd) as (F4 & _). exact (frame_size F4). }
  destruct (Nat.eq_dec q i) as [->|Hne].
  - exists cl, color. split; [exact Hl|]. split; [exact Hc|].
    rewrite (painted_keeps (@paint001_painted num _ _ _ _ _ _ _ _ _ D4 Hp)).
    apply pixel_stores_values; assumption.
  - apply (IH (S i) h4 h' D4 Hp q); [lia|]. rewrite S4. assumption.
Qed.

Lemma paint000_colours :
  forall seg labels (centroids : list (Part000.centroid (num := num))) pixels i h h',
    (data seg < length h)%nat ->
    Part000.paint h seg labels centroids pixels i = (h', Ok tt) ->
    forall q, (i <= q < i + length pixels)%nat ->
      (4 * q + 3 < length (bytes h seg))%nat ->
      exists l ce, nth_error labels q = Some l /\ nth_error centroids l = Some (Some ce)
                   /\ pixelBytes (bytes h' seg) q = shown ce.
Proof.
  intros seg labels centroids pixels.
  induction pixels as [|p pixels IH]; intros i h h' Hd Hp q Hq Hin; simpl in Hq; [lia|].
  cbn [Part000.paint] in Hp.
  destruct (nth_error labels i) as [cl|] eqn:Hl; [|inversion Hp].
  destruct (nth_error centroids cl) as [[ce|]|] eqn:Hc; try (inversion Hp; fail).
  set (h4 := store _ seg (i * 4 + 3) (ofZ 255)) in Hp.
  assert (D4 : (data seg < length h4)%nat) by (unfold h4; rewrite !store_length; assumption).
  assert (S4 : length (bytes h4 seg) = length (bytes h seg)).
  { destruct (@pixel_stores num _ h seg (i * 4) (elem ce 0) (elem ce 1)
                (elem ce 2) (ofZ 255) Hd) as (F4 & _). exact (frame_size F4). }
  destruct (Nat.eq_dec q i) as [->|Hne].
  - exists cl, ce. split; [exact Hl|]. split; [exact Hc|].
    rewrite (painted_keeps (@paint000_painted num _ _ _ _ _ _ _ _ _ D4 Hp)).
    apply pixel_stores_values; assumption.
  - apply (IH (S i) h4 h' D4 Hp q); [lia|]. rewrite S4. assumption.
Qed.

Lemma regions_colours :
  forall seg numRegions (regionCentroids : list (list num)) pixels i labels h h' labels',
    (data seg < length h)%nat ->
    Part001.regions h seg numRegions regionCentroids pixels i labels = (h', Ok labels') ->
    forall q, (i <= q < i + length pixels)%nat ->
      (4 * q + 3 < length (bytes h seg))%nat ->
      exists c, nth_error regionCentroids (q mod numRegions) = Some c
                /\ pixelBytes (bytes h' seg) q = shown c.
Proof.
  intros seg numRegions regionCentroids pixels.
  induction pixels as [|p pixels IH]; intros i labels h h' labels' Hd Hp q Hq Hin;
    simpl in Hq; [lia|].
  cbn [Part001.regions] in Hp.
  destruct (Nat.eqb numRegions 0); [inversion Hp|].
  destruct (nth_error regionCentroids (i mod numRegions)) as [color|] eqn:Hc;
    [|inversion Hp].
  set (h4 := store _ seg (i * 4 + 3) (ofZ 255)) in Hp.
  assert (D4 : (data seg < length h4)%nat) by (unfold h4; rewrite !store_length; assumption).
  assert (S4 : length (bytes h4 seg) = length (bytes h seg)).
  { destruct (@pixel_stores num _ h seg (i * 4) (elem color 0) (elem color 1)
                (elem color 2) (ofZ 255) Hd) as (F4 & _). exact (frame_size F4). }
  destruct (Nat.eq_dec q i) as [->|Hne].
  - exists color. split; [exact Hc|].
    rewrite (painted_keeps (@regions_painted num _ _ _ _ _ _ _ _ _ _ D4 Hp)).
    apply pixel_stores_values; assumption.
  - apply (IH (S i) _ h4 h' labels' D4 Hp q); [lia|]. rewrite S4. assumption.
Qed.

(** The buffer allocated for the output holds four bytes for every pixel
    of the input. *)
Lemma output_holds :
  forall h img q,
    wf_image h img ->
    let seg := {| width := width img; height := height img; data := length h |} in
    let h1 := h ++ [repeat 0%Z (Z.to_nat (4 * width img * height img))] in
    (q < length (extractPixels (num := num) (bytes h img)))%nat ->
    (data seg < length h1)%nat /\ (4 * q + 3 < length (bytes h1 seg))%nat.
Proof.
  intros h img q Hwf seg h1 Hq.
  rewrite (wf_pixel_count (num := num) Hwf) in Hq.
  destruct Hwf as (Hw & Hh & _).
  unfold h1, seg, bytes. cbn [data].
  rewrite length_app. cbn [length].
  rewrite app_nth2 by lia. rewrite Nat.sub_diag. cbn [nth].
  rewrite repeat_length. split; [lia|nia].
Qed.

End OutputColours.

(** The image the k-means++ variant returns shows every pixel in the
    colour of the returned centroid of its label: its four bytes are what
    storing the three channels of that centroid and 255 into a
    [Uint8ClampedArray] leaves. *)
Theorem kMeans000_shows_centroids :
  forall (num : Type) (N : Number num) (random : nat -> num) fuel h img k h' r q,
    wf_image h img ->
    Part000.kMeansSegmentation random fuel h img k = (h', Ok r) ->
    (q < length (extractPixels (num := num) (bytes h img)))%nat ->
    exists l ce,
      nth_error (Part000.labels r) q = Some l
      /\ nth_error (Part000.centroids r) l = Some (Some ce)
      /\ pixelBytes (bytes h' (Part000.imageData r)) q = shown ce.
Proof.
  intros num N random fuel h img k h' r q Hwf Hrun Hq.
  destruct (output_holds (num := num) Hwf Hq) as [Hd Hin]. cbv zeta in Hd, Hin.
  pose proof Hwf as (Hw & Hh & _).
  unfold Part000.kMeansSegmentation in Hrun.
  rewrite (newImageData_ok h Hw Hh) in Hrun.
  destruct (Part000.cluster_pixels random fuel (bytes h img) k) as [st| |];
    try discriminate.
  destruct (Part000.paint _ _ _ _ _ 0) as [h2 [[]| |]] eqn:Hp; try discriminate.
  inversion Hrun; subst. cbn [Part000.labels Part000.centroids Part000.imageData].
  apply (@paint000_colours num N _ _ _ _ 0%nat _ _ Hd Hp q); [lia|exact Hin].
Qed.

Lemma kMeans000_shows_centroids_witness :
  wf_image SampleImage.heap0 SampleImage.image0
  /\ (3 < length (extractPixels (num := FloatNumber.float)
                    (bytes SampleImage.heap0 SampleImage.image0)))%nat
  /\ exists h' r,
       Part000.kMeansSegmentation SampleImage.draws_half 101
         SampleImage.heap0 SampleImage.image0 2 = (h', Ok r)
       /\ exists l ce,
            nth_error (Part000.labels r) 3 = Some l
            /\ nth_error (Part000.centroids r) l = Some (Some ce)
            /\ pixelBytes (bytes h' (Part000.imageData r)) 3 = shown ce.
Proof.
  assert (Hwf : wf_image SampleImage.heap0 SampleImage.image0).
  { unfold wf_image. simpl. repeat split; try lia.
    repeat (constructor; [lia|]). constructor. }
  assert (H3 : (3 < length (extractPixels (num := FloatNumber.float)
                              (bytes SampleImage.heap0 SampleImage.image0)))%nat)
    by (simpl; lia).
  assert (Hrun : exists h' r,
             Part000.kMeansSegmentation SampleImage.draws_half 101
               SampleImage.heap0 SampleImage.image0 2 = (h', Ok r)).
  { vm_compute. eexists. eexists. reflexivity. }
  destruct Hrun as (h' & r & Hrun).
  split; [exact Hwf|]. split; [exact H3|]. exists h', r. split; [exact Hrun|].
  exact (@kMeans000_shows_centroids FloatNumber.float _ SampleImage.draws_half 101%nat
           SampleImage.heap0 SampleImage.image0 2%Z h' r 3%nat Hwf Hrun H3).
Defined.

(** The images of the second file show labels, not cluster colours: the
    random-seeding k-means and the mean shift paint every pixel in the
    entry of its label in a palette of evenly spaced hues (of [k] entries,
    saturation 0.8 and lightness 0.7; of as many entries as modes, 0.9 and
    0.6), whatever the centroids are; the watershed paints it in the
    returned centroid of its label, which is such a palette entry. *)
Theorem part001_shows_palette :
  forall (num : Type) (N : Number num) h img q,
    wf_image h img ->
    (q < length (extractPixels (num := num) (bytes h img)))%nat ->
    (forall random k h' r,
        Part001.kMeansSegmentation random h img k = (h', Ok r) ->
        exists l c,
          nth_error (Part001.labels r) q = Some l
          /\ nth_error (Part001.palette (Z.to_nat k) (lit 8 10) (lit 7 10)) l = Some c
          /\ pixelBytes (bytes h' (Part001.imageData r)) q = shown c)
    /\ (forall bandwidth h' r,
           Part001.meanShiftSegmentation h img bandwidth = (h', Ok r) ->
           exists l c,
             nth_error (Part001.labels r) q = Some l
             /\ nth_error (Part001.palette (length (Part001.centroids r))
                                           (lit 9 10) (lit 6 10)) l = Some c
             /\ pixelBytes (bytes h' (Part001.imageData r)) q = shown c)
    /\ (forall sigma h' r,
           Part001.watershedSegmentation h img sigma = (h', Ok r) ->
           exists c,
             nth_error (Part001.centroids r) (q mod length (Part001.centroids r)) = Some c
             /\ Part001.centroids r
                = Part001.palette (length (Part001.centroids r)) (lit 85 100) (lit 65 100)
             /\ pixelBytes (bytes h' (Part001.imageData r)) q = shown c).
Proof.
  intros num N h img q Hwf Hq.
  destruct (output_holds (num := num) Hwf Hq) as [Hd Hin]. cbv zeta in Hd, Hin.
  pose proof Hwf as (Hw & Hh & _).
  split; [|split].
  - intros random k h' r Hrun.
    unfold Part001.kMeansSegmentation in Hrun.
    rewrite (newImageData_ok h Hw Hh) in Hrun.
    destruct (Part001.iterate 15 _ k _ []) as [[centroids labels]| |]; try discriminate.
    unfold Part001.finish in Hrun.
    destruct (Part001.paint _ _ labels _ _ 0) as [h2 [[]| |]] eqn:Hp; try discriminate.
    inversion Hrun; subst. cbn [Part001.labels Part001.imageData].
    apply (@paint001_colours num N _ _ _ _ 0%nat _ _ Hd Hp q); [lia|exact Hin].
  - intros bandwidth h' r Hrun.
    unfold Part001.meanShiftSegmentation in Hrun.
    rewrite (newImageData_ok h Hw Hh) in Hrun.
    destruct (Part001.bucket _ bandwidth [] []) as [modes labels].
    unfold Part001.finish in Hrun.
    destruct (Part001.paint _ _ labels _ _ 0) as [h2 [[]| |]] eqn:Hp; try discriminate.
    inversion Hrun; subst. cbn [Part001.labels Part001.imageData Part001.centroids].
    apply (@paint001_colours num N _ _ _ _ 0%nat _ _ Hd Hp q); [lia|exact Hin].
  - intros sigma h' r Hrun.
    unfold Part001.watershedSegmentation in Hrun.
    rewrite (newImageData_ok h Hw Hh) in Hrun.
    destruct (Part001.regions _ _ _ _ _ 0 []) as [h2 [labels| |]] eqn:Hp;
      try discriminate.
    inversion Hrun; subst. cbn [Part001.labels Part001.imageData Part001.centroids].
    rewrite !palette_length.
    destruct (@regions_colours num N _ _ _ _ 0%nat _ _ _ _ Hd Hp q) as (c & Hc & Hshown);
      [lia|exact Hin|].
    exists c. split; [exact Hc|]. split; [reflexivity|exact Hshown].
Qed.

Lemma part001_shows_palette_witness :
  wf_image SampleImage.heap0 SampleImage.image0
  /\ (2 < length (extractPixels (num := FloatNumber.float)
                    (bytes SampleImage.heap0 SampleImage.image0)))%nat
  /\ exists h' r,
       Part001.meanShiftSegmentation SampleImage.heap0 SampleImage.image0
         (ofZ 1 : FloatNumber.float) = (h', Ok r)
       /\ exists l (c : list FloatNumber.float),
            nth_error (Part001.labels r) 2 = Some l
            /\ nth_error (Part001.palette (length (Part001.centroids r))
                                          (lit 9 10) (lit 6 10)) l = Some c
            /\ pixelBytes (bytes h' (Part001.imageData r)) 2 = shown c.
Proof.
  assert (Hwf : wf_image SampleImage.heap0 SampleImage.image0).
  { unfold wf_image. simpl. repeat split; try lia.
    repeat (constructor; [lia|]). constructor. }
  assert (H2 : (2 < length (extractPixels (num := FloatNumber.float)
                              (bytes SampleImage.heap0 SampleImage.image0)))%nat)
    by (simpl; lia).
  assert (Hrun : exists h' r,
             Part001.meanShiftSegmentation SampleImage.heap0 SampleImage.image0
               (ofZ 1 : FloatNumber.float) = (h', Ok r)).
  { vm_compute. eexists. eexists. reflexivity. }
  destruct Hrun as (h' & r & Hrun).
  split; [exact Hwf|]. split; [exact H2|]. exists h', r. split; [exact Hrun|].
  exact (proj1 (proj2 (@part001_shows_palette FloatNumber.float _
                         SampleImage.heap0 SampleImage.image0 2%nat Hwf H2))
               (ofZ 1) h' r Hrun).
Defined.

(** ** The seeding of the k-means++ variant, in exact arithmetic *)

Module SeedReal.
Import RealNumber RealFacts KMeansReal SilhouetteSpec SeedSpec.
Local Open Scope R_scope.

Lemma min_fold_eq :
  forall rs a, fold_left x_min (map Finite rs) (Finite a) = Finite (fold_left Rmin rs a).
Proof.
  induction rs as [|r rs IH]; intros a; [reflexivity|].
  cbn [map fold_left x_min x_ltb].
  assert (E : (if Rltb a r then Finite a else Finite r) = Finite (Rmin a r)).
  { unfold Rmin, Rltb. destruct (Rlt_dec a r); destruct (Rle_dec a r);
      try reflexivity; f_equal; lra. }
  rewrite E. apply IH.
Qed.

Lemma distances_refine :
  forall p cs,
    fin_pixel p -> Forall fin_pixel cs ->
    mapM (Part000.euclideanDistance p) (map Some cs)
    = Ok (map Finite (map (distance p) cs)).
Proof.
  intros p cs Hp Hall. induction Hall as [|c cs Hc _ IH]; [reflexivity|].
  cbn [map mapM Part000.euclideanDistance bind].
  change (nsqrt (sumSquares p c 0 (ofZ 0))) with (Metrics.euclideanDistance p c).
  rewrite (SilhouetteFacts.distance_refines Hp Hc).
  rewrite IH. reflexivity.
Qed.

Lemma nearestDistance_refines :
  forall p cs,
    fin_pixel p -> Forall fin_pixel cs -> cs <> [] ->
    Part000.nearestDistance (map Some cs) p = Ok (Finite (weight cs p)).
Proof.
  intros p cs Hp Hall Hne. unfold Part000.nearestDistance.
  rewrite (distances_refine Hp Hall). cbn [bind].
  destruct cs as [|c0 rest]; [congruence|].
  cbn [map fold_left nmin infinity xreal_Number x_min x_ltb weight].
  rewrite min_fold_eq. reflexivity.
Qed.

Lemma weights_refine :
  forall pixels cs,
    Forall fin_pixel pixels -> Forall fin_pixel cs -> cs <> [] ->
    mapM (Part000.nearestDistance (map Some cs)) pixels
    = Ok (map Finite (map (weight cs) pixels)).
Proof.
  intros pixels cs Hpx Hall Hne. induction Hpx as [|p pixels Hp _ IH]; [reflexivity|].
  cbn [mapM map]. rewrite (nearestDistance_refines Hp Hall Hne). cbn [bind].
  rewrite IH. reflexivity.
Qed.

Lemma total_refines :
  forall ws a, fold_left x_add (map Finite ws) (Finite a) = Finite (a + Rsum ws).
Proof.
  induction ws as [|w ws IH]; intros a; cbn [map fold_left x_add].
  - unfold Rsum. simpl. f_equal. lra.
  - rewrite IH. unfold Rsum. simpl. f_equal. lra.
Qed.

Lemma upTo_cons :
  forall w ws i, upTo (w :: ws) (S i) = w + upTo ws i.
Proof. intros. reflexivity. Qed.

(** The sampling loop stops at the first pixel at which the running sum
    reaches the threshold. *)
Lemma sample_rule :
  forall (pixels : list (list xreal)) ws c0 t i p,
    length ws = length pixels ->
    nth_error pixels i = Some p ->
    t <= c0 + upTo ws i ->
    (forall i', (i' < i)%nat -> c0 + upTo ws i' < t) ->
    Part000.sample pixels (map Finite ws) (Finite c0) (Finite t) = Some p.
Proof.
  induction pixels as [|p0 pixels IH]; intros [|w ws] c0 t i p Hlen Hp Hreach Hfirst;
    try discriminate; [destruct i; discriminate|].
  cbn [map Part000.sample nadd nleb xreal_Number x_add x_leb].
  destruct i as [|i].
  - simpl in Hp. inversion Hp; subst.
    assert (E : upTo (w :: ws) 0 = w) by (unfold upTo, Rsum; simpl; lra).
    rewrite E in Hreach. rewrite Rleb_true by lra. reflexivity.
  - assert (E : upTo (w :: ws) 0 = w) by (unfold upTo, Rsum; simpl; lra).
    pose proof (Hfirst 0%nat ltac:(lia)) as H0. rewrite E in H0.
    rewrite Rleb_false by lra.
    apply (IH ws (c0 + w) t i p).
    + simpl in Hlen. lia.
    + exact Hp.
    + rewrite upTo_cons in Hreach. lra.
    + intros i' Hi'. specialize (Hfirst (S i') ltac:(lia)).
      rewrite upTo_cons in Hfirst. lra.
Qed.

End SeedReal.

(** One round of the seeding loop, in exact arithmetic: the weight of a
    pixel is its distance (not its squared distance) to the nearest
    centroid chosen so far, and the draw [u] appends the first pixel at
    which the running sum of the weights reaches [u] times their total. *)
Theorem seed_weighs_by_distance :
  forall (random : nat -> RealNumber.xreal) fuel pixels k centroids c (u : R) i p,
    Forall KMeansReal.fin_pixel pixels ->
    Forall KMeansReal.fin_pixel centroids -> centroids <> [] ->
    (Z.of_nat (length centroids) < k)%Z ->
    random c = RealNumber.Finite u ->
    nth_error pixels i = Some p ->
    SeedSpec.selects (map (SeedSpec.weight centroids) pixels) u i ->
    Part000.seed random (S fuel) pixels k (map Some centroids) c
    = Part000.seed random fuel pixels k (map Some centroids ++ [Some p]) (S c).
Proof.
  intros random fuel pixels k centroids c u i p Hpx Hcs Hne Hk Hu Hp [Hreach Hfirst].
  cbn [Part000.seed]. rewrite length_map.
  replace (Z.of_nat (length centroids) <? k)%Z with true by (symmetry; apply Z.ltb_lt; lia).
  rewrite (SeedReal.weights_refine Hpx Hcs Hne). cbn [bind].
  cbn [ofZ nadd nmul RealNumber.xreal_Number].
  rewrite SeedReal.total_refines, Hu. cbn [RealNumber.x_mul].
  rewrite (@SeedReal.sample_rule pixels (map (SeedSpec.weight centroids) pixels) 0
             (u * (0 + SilhouetteSpec.Rsum (map (SeedSpec.weight centroids) pixels))) i p).
  - reflexivity.
  - apply length_map.
  - exact Hp.
  - lra.
  - intros i' Hi'. specialize (Hfirst i' Hi'). lra.
Qed.

Lemma seed_weighs_by_distance_witness :
  let black := [RealNumber.Finite 0; RealNumber.Finite 0; RealNumber.Finite 0] in
  let red := [RealNumber.Finite 1; RealNumber.Finite 0; RealNumber.Finite 0] in
  let green := [RealNumber.Finite 0; RealNumber.Finite 10; RealNumber.Finite 0] in
  let random := fun _ : nat => RealNumber.Finite (5 / 100) in
  map (SeedSpec.weight [black]) [black; red; green] = [0; 1; 10]%R
  /\ SeedSpec.selects (map (SeedSpec.weight [black]) [black; red; green]) (5 / 100) 1
  /\ Part000.seed random 1 [black; red; green] 2 (map Some [black]) 1
     = Part000.seed random 0 [black; red; green] 2 (map Some [black] ++ [Some red]) 2.
Proof.
  intros black red green random.
  assert (W : map (SeedSpec.weight [black]) [black; red; green] = [0; 1; 10]%R).
  { unfold SeedSpec.weight, SilhouetteSpec.distance, SilhouetteSpec.chan, black, red, green.
    cbn [map fold_left nth_error].
    f_equal; [|f_equal; [|f_equal]].
    - replace ((0 - 0) ^ 2 + (0 - 0) ^ 2 + (0 - 0) ^ 2)%R with 0%R by ring.
      apply sqrt_0.
    - replace ((1 - 0) ^ 2 + (0 - 0) ^ 2 + (0 - 0) ^ 2)%R with (1 * 1)%R by ring.
      apply sqrt_square. lra.
    - replace ((0 - 0) ^ 2 + (10 - 0) ^ 2 + (0 - 0) ^ 2)%R with (10 * 10)%R by ring.
      apply sqrt_square. lra. }
  assert (Hsel : SeedSpec.selects (map (SeedSpec.weight [black]) [black; red; green])
                                  (5 / 100) 1).
  { rewrite W. unfold SeedSpec.selects, SeedSpec.upTo, SilhouetteSpec.Rsum.
    split; [simpl; lra|].
    intros [|i'] Hi'; [simpl; lra|lia]. }
  assert (Hfin : forall a b c : R,
             KMeansReal.fin_pixel [RealNumber.Finite a; RealNumber.Finite b;
                                   RealNumber.Finite c]).
  { intros a b c. exists a, b, c. reflexivity. }
  split; [exact W|]. split; [exact Hsel|].
  apply (@seed_weighs_by_distance random 0%nat [black; red; green] 2%Z [black] 1%nat
           (5 / 100)%R 1%nat red).
  - repeat constructor; apply Hfin.
  - repeat constructor; apply Hfin.
  - discriminate.
  - simpl. lia.
  - reflexivity.
  - reflexivity.
  - exact Hsel.
Defined.

(** ** The colours of the watershed regions, as IEEE doubles compute them *)

Section Distinct.

(** No two elements of a list of byte quadruples are equal. *)
Fixpoint distinctb (l : list (list Z)) : bool :=
  match l with
  | [] => true
  | x :: l' =>
      negb (existsb (fun y => if list_eq_dec Z.eq_dec x y then true else false) l')
      && distinctb l'
  end.

Lemma distinctb_NoDup : forall l, distinctb l = true -> NoDup l.
Proof.
  induction l as [|x l IH]; intros Hd; [constructor|].
  simpl in Hd. apply andb_prop in Hd. destruct Hd as [Hx Hl].
  constructor; [|apply IH; exact Hl].
  intros Hin. apply negb_true_iff in Hx.
  assert (existsb (fun y => if list_eq_dec Z.eq_dec x y then true else false) l = true);
    [|congruence].
  apply existsb_exists. exists x. split; [exact Hin|].
  destruct (list_eq_dec Z.eq_dec x x); [reflexivity|congruence].
Qed.

Lemma region_palettes_distinct :
  forall m, (1 <= m <= 12)%nat ->
    NoDup (map shown (Part001.palette (num := FloatNumber.float) m (lit 85 100) (lit 65 100))).
Proof.
  intros m Hm. apply distinctb_NoDup.
  do 13 (destruct m as [|m]; [try lia; vm_compute; reflexivity|]). lia.
Qed.

End Distinct.

(** When the watershed returns, no two of its regions are painted alike:
    the bytes that its (at most twelve) centroids leave in the output are
    pairwise different, as IEEE doubles compute them. *)
Theorem watershed_regions_differ :
  forall h img (sigma : FloatNumber.float) h' r,
    wf_image h img ->
    Part001.watershedSegmentation h img sigma = (h', Ok r) ->
    NoDup (map shown (Part001.centroids r)).
Proof.
  intros h img sigma h' r Hwf Hrun.
  set (seeds := Part001.findSeeds
                  (Part001.gradientMap (bytes h img) (width img) (height img))
                  (sigma * ofZ 15)%js 0).
  destruct seeds as [|s seeds'] eqn:Hseeds.
  - rewrite (watershed_no_seed sigma Hwf Hseeds) in Hrun. discriminate.
  - assert (Hne : seeds <> []) by (rewrite Hseeds; discriminate).
    destruct (watershed_seeded sigma Hwf Hne) as (h2 & r2 & Hrun2 & _ & Hcs).
    rewrite Hrun in Hrun2. inversion Hrun2; subst r2.
    rewrite Hcs. apply region_palettes_distinct.
    fold seeds. rewrite Hseeds. simpl. lia.
Qed.

Lemma watershed_regions_differ_witness :
  wf_image SampleFlat.heap0 SampleFlat.image0
  /\ exists h' r,
       Part001.watershedSegmentation SampleFlat.heap0 SampleFlat.image0
         (ofZ 1 : FloatNumber.float) = (h', Ok r)
       /\ NoDup (map shown (Part001.centroids r)).
Proof.
  assert (Hwf : wf_image SampleFlat.heap0 SampleFlat.image0).
  { unfold wf_image. simpl. repeat split; try lia.
    repeat (constructor; [lia|]). constructor. }
  assert (Hrun : exists h' r,
             Part001.watershedSegmentation SampleFlat.heap0 SampleFlat.image0
               (ofZ 1 : FloatNumber.float) = (h', Ok r)).
  { vm_compute. eexists. eexists. reflexivity. }
  destruct Hrun as (h' & r & Hrun).
  split; [exact Hwf|]. exists h', r. split; [exact Hrun|].
  exact (@watershed_regions_differ SampleFlat.heap0 SampleFlat.image0 (ofZ 1) h' r
           Hwf Hrun).
Defined.

(** ** The value of the Davies-Bouldin index, in exact arithmetic *)

Module DaviesBouldinReal.
Import RealNumber RealFacts KMeansReal SilhouetteSpec.
Local Open Scope R_scope.

Lemma scatter_sum :
  forall centroid cluster a,
    fin_pixel centroid -> Forall fin_pixel cluster -> 0 <= a ->
    exists s,
      fold_left (fun scatter point => scatter + Metrics.euclideanDistance point centroid)%js
                cluster (Finite a) = Finite s
      /\ 0 <= s.
Proof.
  intros centroid cluster a Hc Hall. revert a.
  induction Hall as [|p cluster Hp _ IH]; intros a Ha; cbn [fold_left].
  - eauto.
  - rewrite (SilhouetteFacts.distance_refines Hp Hc). cbn [nadd xreal_Number x_add].
    apply IH. pose proof (SilhouetteFacts.distance_nonneg p centroid). lra.
Qed.

(** The scatter of a cluster is a number that is not negative. *)
Lemma scatter_nonneg :
  forall cluster centroid,
    fin_pixel centroid -> Forall fin_pixel cluster ->
    exists s, Metrics.calculateScatter (Some cluster) centroid = Ok (Finite s) /\ 0 <= s.
Proof.
  intros cluster centroid Hc Hall. unfold Metrics.calculateScatter.
  destruct (Nat.eqb (length cluster) 0) eqn:Hn.
  - exists 0. split; [reflexivity|lra].
  - apply Nat.eqb_neq in Hn.
    change (ofZ 0) with (Finite 0).
    destruct (@scatter_sum centroid cluster 0 Hc Hall (Rle_refl 0)) as (s & Hs & Hpos).
    rewrite Hs. cbn [ndiv ofZ xreal_Number x_div].
    rewrite <- INR_IZR_INZ.
    assert (Hlen : 0 < INR (length cluster)) by (apply lt_0_INR; lia).
    rewrite Reqb_false by lra.
    eexists. split; [reflexivity|].
    apply Rmult_le_pos; [assumption|]. apply Rlt_le, Rinv_0_lt_compat. assumption.
Qed.

Section Loops.

Variable centroids : list (list xreal).
Variable clusters : list (list (list xreal)).

Hypothesis centroids_finite : Forall fin_pixel centroids.
Hypothesis clusters_finite : Forall (Forall fin_pixel) clusters.
Hypothesis clusters_complete : (length centroids <= length clusters)%nat.
Hypothesis centroids_differ : NoDup centroids.

Lemma cluster_at :
  forall j, (j < length centroids)%nat ->
    exists cl, nth_error clusters j = Some cl /\ Forall fin_pixel cl.
Proof.
  intros j Hj.
  destruct (nth_error clusters j) as [cl|] eqn:Hcl;
    [|apply nth_error_None in Hcl; lia].
  exists cl. split; [reflexivity|].
  rewrite Forall_forall in clusters_finite. apply clusters_finite.
  eapply nth_error_In. eassumption.
Qed.

Lemma maxRatioLoop_nonneg :
  forall i ci todo j m,
    nth_error centroids i = Some ci ->
    (forall t cj, nth_error todo t = Some cj -> nth_error centroids (j + t) = Some cj) ->
    0 <= m ->
    exists m', Metrics.maxRatioLoop centroids clusters i ci todo j (Finite m) = Ok (Finite m')
               /\ 0 <= m'.
Proof.
  intros i ci todo. induction todo as [|cj todo IH]; intros j m Hci Htodo Hm.
  - simpl. eauto.
  - cbn [Metrics.maxRatioLoop].
    assert (Hrest : forall t c, nth_error todo t = Some c ->
                                nth_error centroids (S j + t) = Some c).
    { intros t c Ht. rewrite <- (Htodo (S t) c Ht). f_equal. lia. }
    destruct (Nat.eqb i j) eqn:Hij; [apply IH; assumption|].
    apply Nat.eqb_neq in Hij.
    assert (Hcj : nth_error centroids j = Some cj).
    { rewrite <- (Htodo 0%nat cj eq_refl). f_equal. lia. }
    assert (Hi : (i < length centroids)%nat) by (apply nth_error_Some; congruence).
    assert (Hj : (j < length centroids)%nat) by (apply nth_error_Some; congruence).
    assert (Hfi : fin_pixel ci).
    { rewrite Forall_forall in centroids_finite. apply centroids_finite.
      eapply nth_error_In. eassumption. }
    assert (Hfj : fin_pixel cj).
    { rewrite Forall_forall in centroids_finite. apply centroids_finite.
      eapply nth_error_In. eassumption. }
    destruct (cluster_at Hi) as (cli & Hcli & Hfcli).
    destruct (cluster_at Hj) as (clj & Hclj & Hfclj).
    rewrite Hcli, Hclj.
    destruct (scatter_nonneg Hfi Hfcli) as (si & Hsi & Hsi0).
    destruct (scatter_nonneg Hfj Hfclj) as (sj & Hsj & Hsj0).
    rewrite Hsi, Hsj. cbn [bind].
    rewrite (SilhouetteFacts.distance_refines Hfi Hfj).
    assert (Hd : 0 < distance ci cj).
    { apply SilhouetteValues.distance_positive; try assumption.
      intros ->. apply Hij.
      rewrite NoDup_nth_error in centroids_differ.
      apply centroids_differ; [assumption|congruence]. }
    cbn [nadd ndiv nmax xreal_Number x_add x_div x_max x_ltb].
    rewrite Reqb_false by lra.
    assert (Hr : 0 <= (si + sj) / distance ci cj).
    { apply Rmult_le_pos; [lra|]. apply Rlt_le, Rinv_0_lt_compat. assumption. }
    destruct (Rltb m ((si + sj) / distance ci cj)); apply IH; assumption.
Qed.

Lemma dbLoop_nonneg :
  forall todo i a,
    (forall t ci, nth_error todo t = Some ci -> nth_error centroids (i + t) = Some ci) ->
    0 <= a ->
    exists v, Metrics.dbLoop centroids clusters todo i (Finite a) = Ok (Finite v) /\ 0 <= v.
Proof.
  induction todo as [|ci todo IH]; intros i a Htodo Ha.
  - simpl. eauto.
  - cbn [Metrics.dbLoop].
    assert (Hci : nth_error centroids i = Some ci).
    { rewrite <- (Htodo 0%nat ci eq_refl). f_equal. lia. }
    change (ofZ 0) with (Finite 0).
    destruct (@maxRatioLoop_nonneg i ci centroids 0 0 Hci) as (m & Hm & Hm0);
      [intros t cj Ht; exact Ht|lra|].
    rewrite Hm. cbn [bind nadd xreal_Number x_add].
    apply IH; [|lra].
    intros t c Ht. rewrite <- (Htodo (S t) c Ht). f_equal. lia.
Qed.

End Loops.

End DaviesBouldinReal.

(** With at least one centroid, centroids that are pairwise different, and
    a cluster of pixels for every centroid, the Davies-Bouldin index is a
    number that is not negative (exact arithmetic). *)
Theorem daviesBouldin_nonnegative :
  forall (centroids : list (list RealNumber.xreal)) clusters,
    centroids <> [] ->
    Forall KMeansReal.fin_pixel centroids ->
    Forall (Forall KMeansReal.fin_pixel) clusters ->
    (length centroids <= length clusters)%nat ->
    NoDup centroids ->
    exists v : R,
      Metrics.calculateDaviesBouldinIndex centroids clusters = Ok (RealNumber.Finite v)
      /\ (0 <= v)%R.
Proof.
  intros centroids clusters Hne Hcs Hcl Hlen Hdiff.
  unfold Metrics.calculateDaviesBouldinIndex.
  change (ofZ 0) with (RealNumber.Finite 0).
  destruct (@DaviesBouldinReal.dbLoop_nonneg centroids clusters Hcs Hcl Hlen Hdiff
              centroids 0%nat 0%R) as (v & Hv & Hv0);
    [intros t ci Ht; exact Ht|lra|].
  rewrite Hv. cbn [bind ndiv ofZ RealNumber.xreal_Number RealNumber.x_div].
  rewrite <- INR_IZR_INZ.
  assert (Hk : (0 < INR (length centroids))%R).
  { apply lt_0_INR. destruct centroids; [congruence|simpl; lia]. }
  rewrite RealFacts.Reqb_false by lra.
  eexists. split; [reflexivity|].
  apply Rmult_le_pos; [assumption|]. apply Rlt_le, Rinv_0_lt_compat. assumption.
Qed.

Lemma daviesBouldin_nonnegative_witness :
  let dark := [RealNumber.Finite 10; RealNumber.Finite 10; RealNumber.Finite 10] in
  let light := [RealNumber.Finite 240; RealNumber.Finite 240; RealNumber.Finite 240] in
  [dark; light] <> [] /\ NoDup [dark; light]
  /\ exists v : R,
       Metrics.calculateDaviesBouldinIndex [dark; light] [[dark; dark]; [light]]
       = Ok (RealNumber.Finite v)
       /\ (0 <= v)%R.
Proof.
  intros dark light.
  assert (Hne : [dark; light] <> []) by discriminate.
  assert (Hfin : forall a b c : R,
             KMeansReal.fin_pixel [RealNumber.Finite a; RealNumber.Finite b;
                                   RealNumber.Finite c]).
  { intros a b c. exists a, b, c. reflexivity. }
  assert (Hcs : Forall KMeansReal.fin_pixel [dark; light])
    by (repeat constructor; apply Hfin).
  assert (Hcl : Forall (Forall KMeansReal.fin_pixel) [[dark; dark]; [light]])
    by (repeat constructor; apply Hfin).
  assert (Hlen : (length [dark; light] <= length [[dark; dark]; [light]])%nat)
    by (simpl; lia).
  assert (Hdiff : NoDup [dark; light]).
  { constructor; [|constructor; [intros []|constructor]].
    intros [E|[]]. inversion E as [E1]. apply eq_IZR in E1. discriminate. }
  split; [exact Hne|]. split; [exact Hdiff|].
  exact (@daviesBouldin_nonnegative [dark; light] [[dark; dark]; [light]]
           Hne Hcs Hcl Hlen Hdiff).
Defined.

(** * Properties of the tool *)

Import String.StringSyntax.
Local Open Scope string_scope.

Section ToolRuns.
Context {num : Type} `{Number num}.
Variable random : nat -> num.

(** Every label gets its entry, in order. *)
Lemma clusterImages_ids :
  forall img labels (centroids : list (list num)) count todo h,
    (1 <= width img)%Z -> (1 <= height img)%Z ->
    exists h' cls,
      Tool.clusterImages h img labels centroids count todo = (h', Ok cls)
      /\ map (@Tool.id num) cls = todo.
Proof.
  intros img labels centroids count todo.
  induction todo as [|label todo IH]; intros h Hw Hh.
  - exists h, []. split; reflexivity.
  - cbn [Tool.clusterImages]. rewrite (newImageData_ok h Hw Hh).
    match goal with
    | |- context [Tool.clusterImages ?h1 img labels centroids count todo] =>
        destruct (IH h1 Hw Hh) as (h' & cls & Hrun & Hids)
    end.
    rewrite Hrun. eexists. eexists. split; [reflexivity|].
    cbn [map Tool.id]. rewrite Hids. reflexivity.
Qed.

(** The k-means dispatched for every name but those of the other two. *)
Lemma segment_kmeans :
  forall selectedAlgorithm parameters h img,
    selectedAlgorithm <> "meanshift" -> selectedAlgorithm <> "watershed" ->
    Tool.segment random selectedAlgorithm parameters h img
    = Part001.kMeansSegmentation random h img (Tool.clusters parameters).
Proof.
  intros a p h img Hm Hw. unfold Tool.segment.
  destruct (String.eqb a "kmeans"); [reflexivity|].
  destruct (String.eqb_spec a "meanshift"); [contradiction|].
  destruct (String.eqb_spec a "watershed"); [contradiction|]. reflexivity.
Qed.

Lemma analyse_two_centroids :
  forall selectedAlgorithm parameters h img h1 r,
    Tool.segment random selectedAlgorithm parameters h img = (h1, Ok r) ->
    (2 <= length (Part001.centroids r))%nat ->
    Tool.analyse random selectedAlgorithm parameters h img = (h1, Throw TypeError).
Proof.
  intros a p h img h1 r Hseg Hk. unfold Tool.analyse. rewrite Hseg.
  rewrite daviesBouldin_short by (simpl; lia). reflexivity.
Qed.

End ToolRuns.

(** Whenever the segmentation returns two centroids or more, the analysis
    that follows it fails with a [TypeError]: it asks for the
    Davies-Bouldin index with an empty [clusters] array.  In particular it
    fails for the k-means (also the default of the [switch]) with two
    clusters or more, on every image. *)
Theorem analyse_fails_beyond_one_cluster :
  forall (num : Type) (N : Number num) (random : nat -> num)
         selectedAlgorithm parameters h img,
    (forall h1 r,
        Tool.segment random selectedAlgorithm parameters h img = (h1, Ok r) ->
        (2 <= length (Part001.centroids r))%nat ->
        Tool.analyse random selectedAlgorithm parameters h img = (h1, Throw TypeError))
    /\ (wf_image h img ->
        selectedAlgorithm <> "meanshift" -> selectedAlgorithm <> "watershed" ->
        (2 <= Tool.clusters parameters)%Z ->
        snd (Tool.analyse random selectedAlgorithm parameters h img) = Throw TypeError).
Proof.
  intros num N random a p h img. split.
  - intros h1 r Hseg Hk. apply analyse_two_centroids with (r := r); assumption.
  - intros Hwf Hm Hw Hk.
    destruct (@kMeans001_returns num N random h img (Tool.clusters p) Hwf ltac:(lia))
      as (h1 & r & Hrun & _ & _ & Hcs).
    rewrite (@analyse_two_centroids num N random a p h img h1 r).
    + reflexivity.
    + rewrite segment_kmeans by assumption. exact Hrun.
    + rewrite Hcs. lia.
Qed.

Lemma analyse_fails_beyond_one_cluster_witness :
  let parameters := Tool.mkParameters 5 (ofZ 1 : FloatNumber.float) (lit 5 10) 5 in
  wf_image SampleImage.heap0 SampleImage.image0
  /\ "kmeans" <> "meanshift" /\ "kmeans" <> "watershed"
  /\ (2 <= Tool.clusters parameters)%Z
  /\ snd (Tool.analyse SampleImage.draws_half "kmeans" parameters
            SampleImage.heap0 SampleImage.image0) = Throw TypeError.
Proof.
  intros parameters.
  assert (Hwf : wf_image SampleImage.heap0 SampleImage.image0).
  { unfold wf_image. simpl. repeat split; try lia.
    repeat (constructor; [lia|]). constructor. }
  assert (Hm : "kmeans" <> "meanshift") by discriminate.
  assert (Hw : "kmeans" <> "watershed") by discriminate.
  assert (Hk : (2 <= Tool.clusters parameters)%Z) by (simpl; lia).
  split; [exact Hwf|]. split; [exact Hm|]. split; [exact Hw|]. split; [exact Hk|].
  exact (proj2 (@analyse_fails_beyond_one_cluster FloatNumber.float _
                  SampleImage.draws_half "kmeans" parameters
                  SampleImage.heap0 SampleImage.image0) Hwf Hm Hw Hk).
Defined.

Local Close Scope string_scope.

(** ** The images of the clusters *)

Section ClusterImages.
Context {num : Type} `{Number num}.

Lemma four_stores_values :
  forall h seg idx (v0 v1 v2 v3 : num),
    (data seg < length h)%nat ->
    (idx + 3 < length (bytes h seg))%nat ->
    let h4 := store (store (store (store h seg idx v0) seg (idx + 1) v1)
                           seg (idx + 2) v2) seg (idx + 3) v3 in
    nth idx (bytes h4 seg) 0%Z = toUint8Clamp v0
    /\ nth (idx + 1) (bytes h4 seg) 0%Z = toUint8Clamp v1
    /\ nth (idx + 2) (bytes h4 seg) 0%Z = toUint8Clamp v2
    /\ nth (idx + 3) (bytes h4 seg) 0%Z = toUint8Clamp v3.
Proof.
  intros h seg idx v0 v1 v2 v3 Hd Hin.
  set (h1 := store h seg idx v0).
  set (h2 := store h1 seg (idx + 1) v1).
  set (h3 := store h2 seg (idx + 2) v2).
  assert (F1 : frame h h1 seg) by (apply store_frame; assumption).
  assert (D1 : (data seg < length h1)%nat) by (rewrite (frame_heap F1); assumption).
  assert (F2 : frame h1 h2 seg) by (apply store_frame; assumption).
  assert (D2 : (data seg < length h2)%nat) by (rewrite (frame_heap F2); assumption).
  assert (F3 : frame h2 h3 seg) by (apply store_frame; assumption).
  assert (D3 : (data seg < length h3)%nat) by (rewrite (frame_heap F3); assumption).
  pose proof (frame_size F1) as S1. pose proof (frame_size F2) as S2.
  pose proof (frame_size F3) as S3.
  cbv zeta. split; [|split; [|split]].
  - rewrite store_below by (assumption || lia).
    unfold h3. rewrite store_below by (assumption || lia).
    unfold h2. rewrite store_below by (assumption || lia).
    unfold h1. apply store_at; [assumption|lia].
  - rewrite store_below by (assumption || lia).
    unfold h3. rewrite store_below by (assumption || lia).
    unfold h2. apply store_at; [assumption|lia].
  - rewrite store_below by (assumption || lia).
    unfold h3. apply store_at; [assumption|lia].
  - apply store_at; [assumption|lia].
Qed.

(** The inner loop counts the pixels that carry the label. *)
Lemma fillCluster_count :
  forall img out labels label todo h c,
    snd (Tool.fillCluster (num := num) h img out labels label todo c)
    = (c + length (filter (carries labels label) todo))%nat.
Proof.
  intros img out labels label todo.
  induction todo as [|q todo IH]; intros h c; cbn [Tool.fillCluster].
  - simpl. lia.
  - cbn [filter]. unfold carries at 1.
    destruct (Metrics.same_label (nth_error labels q) (Some label)).
    + rewrite IH. simpl. lia.
    + rewrite IH. reflexivity.
Qed.

(** It writes to the image of the cluster only. *)
Lemma fillCluster_frame :
  forall img out labels label todo h c,
    (data out < length h)%nat ->
    frame h (fst (Tool.fillCluster (num := num) h img out labels label todo c)) out.
Proof.
  intros img out labels label todo.
  induction todo as [|q todo IH]; intros h c Hd; cbn [Tool.fillCluster].
  - apply frame_refl.
  - destruct (Metrics.same_label (nth_error labels q) (Some label)).
    + match goal with
      | |- frame h (fst (Tool.fillCluster (store (store (store (store h out ?i ?v0) out _ ?v1)
                                                         out _ ?v2) out _ ?v3) _ _ _ _ _ _)) out =>
          destruct (@pixel_stores num _ h out i v0 v1 v2 v3 Hd) as (F4 & _)
      end.
      eapply frame_trans; [exact F4|]. apply IH. rewrite (frame_heap F4). assumption.
    + match goal with
      | |- frame h (fst (Tool.fillCluster (store (store (store (store h out ?i ?v0) out _ ?v1)
                                                         out _ ?v2) out _ ?v3) _ _ _ _ _ _)) out =>
          destruct (@pixel_stores num _ h out i v0 v1 v2 v3 Hd) as (F4 & _)
      end.
      eapply frame_trans; [exact F4|]. apply IH. rewrite (frame_heap F4). assumption.
Qed.

Lemma store_elsewhere :
  forall h out img i (v : num),
    data img <> data out -> bytes (store h out i v) img = bytes h img.
Proof. intros. unfold bytes. apply store_other. assumption. Qed.

Lemma byteAt_nth :
  forall (d : buffer) idx,
    (idx < length d)%nat -> Part001.byteAt d (Z.of_nat idx) = ofZ (nth idx d 0%Z).
Proof.
  intros d idx Hidx. unfold Part001.byteAt. rewrite Nat2Z.id.
  rewrite (nth_error_nth' d 0%Z Hidx). reflexivity.
Qed.

(** The four stores of one round, the reads being from the input. *)
Definition filled (h : heap) (img out : ImageData) (labels : list nat) (label q : nat)
    : heap :=
  let d := bytes h img in
  let i := (4 * q)%nat in
  if carries labels label q
  then store (store (store (store h out i (Part001.byteAt d (Z.of_nat i)))
                           out (i + 1) (Part001.byteAt d (Z.of_nat (i + 1))))
                    out (i + 2) (Part001.byteAt d (Z.of_nat (i + 2))))
             out (i + 3) (ofZ 255)
  else store (store (store (store h out i (ofZ 0)) out (i + 1) (ofZ 0))
                    out (i + 2) (ofZ 0))
             out (i + 3) (ofZ 50).

Lemma fillCluster_step :
  forall img out labels label q todo h c,
    data img <> data out ->
    fst (Tool.fillCluster (num := num) h img out labels label (q :: todo) c)
    = fst (Tool.fillCluster (filled h img out labels label q) img out labels label todo
                            (if carries labels label q then S c else c)).
Proof.
  intros img out labels label q todo h c Hne.
  cbn [Tool.fillCluster]. unfold filled, carries.
  destruct (Metrics.same_label (nth_error labels q) (Some label)); [|reflexivity].
  rewrite !(@store_elsewhere _ out img _ _ Hne). reflexivity.
Qed.

Section Fill.

Variable img out : ImageData.
Variable labels : list nat.
Variable label : nat.

Hypothesis clamp_bytes : forall b, (0 <= b <= 255)%Z -> toUint8Clamp (ofZ b) = b.
Hypothesis separate : data img <> data out.

Lemma filled_frame :
  forall h q, (data out < length h)%nat -> frame h (filled h img out labels label q) out.
Proof.
  intros h q Hd. unfold filled.
  destruct (carries labels label q);
    match goal with
    | |- frame h (store (store (store (store h out ?i ?v0) out _ ?v1) out _ ?v2) out _ ?v3) out =>
        destruct (@pixel_stores num _ h out i v0 v1 v2 v3 Hd) as (F4 & _); exact F4
    end.
Qed.

Lemma filled_input :
  forall h q, bytes (filled h img out labels label q) img = bytes h img.
Proof.
  intros h q. unfold filled.
  destruct (carries labels label q); rewrite !(@store_elsewhere _ out img _ _ separate);
    reflexivity.
Qed.

Lemma filled_below :
  forall h q j,
    (data out < length h)%nat -> (j < 4 * q)%nat ->
    nth j (bytes (filled h img out labels label q) out) 0%Z = nth j (bytes h out) 0%Z.
Proof.
  intros h q j Hd Hj. unfold filled.
  destruct (carries labels label q);
    match goal with
    | |- nth j (bytes (store (store (store (store h out ?i ?v0) out _ ?v1) out _ ?v2)
                             out _ ?v3) out) _ = _ =>
        destruct (@pixel_stores num _ h out i v0 v1 v2 v3 Hd) as (_ & B4 & _);
        apply B4; lia
    end.
Qed.

Lemma filled_pixel :
  forall h q,
    (data out < length h)%nat ->
    (4 * q + 3 < length (bytes h out))%nat ->
    (4 * q + 3 < length (bytes h img))%nat ->
    Forall (fun b => 0 <= b <= 255)%Z (bytes h img) ->
    pixelBytes (bytes (filled h img out labels label q) out) q
    = clusterPixel (bytes h img) labels label q.
Proof.
  intros h q Hd Hout Hin Hrange.
  assert (Hbyte : forall idx, (idx < length (bytes h img))%nat ->
            toUint8Clamp (Part001.byteAt (bytes h img) (Z.of_nat idx))
            = nth idx (bytes h img) 0%Z).
  { intros idx Hidx. rewrite byteAt_nth by assumption. apply clamp_bytes.
    rewrite Forall_forall in Hrange. apply Hrange. apply nth_In. assumption. }
  unfold filled, clusterPixel, pixelBytes.
  destruct (carries labels label q).
  - match goal with
    | |- context [store (store (store (store h out ?i ?v0) out _ ?v1) out _ ?v2) out _ ?v3] =>
        destruct (@four_stores_values h out i v0 v1 v2 v3 Hd ltac:(lia))
          as (E0 & E1 & E2 & E3)
    end.
    cbv zeta in E0, E1, E2, E3. rewrite E0, E1, E2, E3.
    rewrite !Hbyte by lia. rewrite clamp_bytes by lia. reflexivity.
  - match goal with
    | |- context [store (store (store (store h out ?i ?v0) out _ ?v1) out _ ?v2) out _ ?v3] =>
        destruct (@four_stores_values h out i v0 v1 v2 v3 Hd ltac:(lia))
          as (E0 & E1 & E2 & E3)
    end.
    cbv zeta in E0, E1, E2, E3. rewrite E0, E1, E2, E3.
    rewrite !clamp_bytes by lia. reflexivity.
Qed.

(** The inner loop over the pixels [i .. i + n - 1]. *)
Lemma fillCluster_pixels :
  forall n i h c,
    (data out < length h)%nat ->
    Forall (fun b => 0 <= b <= 255)%Z (bytes h img) ->
    let h' := fst (Tool.fillCluster (num := num) h img out labels label (seq i n) c) in
    (forall j, (j < 4 * i)%nat -> nth j (bytes h' out) 0%Z = nth j (bytes h out) 0%Z)
    /\ forall q, (i <= q < i + n)%nat ->
         (4 * q + 3 < length (bytes h out))%nat ->
         (4 * q + 3 < length (bytes h img))%nat ->
         pixelBytes (bytes h' out) q = clusterPixel (bytes h img) labels label q.
Proof.
  induction n as [|n IH]; intros i h c Hd Hrange; cbv zeta.
  - simpl. split; [reflexivity|]. intros q Hq. lia.
  - cbn [seq]. rewrite fillCluster_step by exact separate.
    pose proof (@filled_frame h i Hd) as F.
    assert (Hd' : (data out < length (filled h img out labels label i))%nat)
      by (rewrite (frame_heap F); assumption).
    assert (Hrange' : Forall (fun b => 0 <= b <= 255)%Z
                             (bytes (filled h img out labels label i) img))
      by (rewrite filled_input; assumption).
    destruct (IH (S i) (filled h img out labels label i)
                 (if carries labels label i then S c else c) Hd' Hrange') as [Hbelow Hpix].
    cbv zeta in Hbelow, Hpix. split.
    + intros j Hj. rewrite Hbelow by lia. apply filled_below; assumption.
    + intros q Hq Hout Hin.
      destruct (Nat.eq_dec q i) as [->|Hne].
      * unfold pixelBytes. rewrite !Hbelow by lia.
        apply (@filled_pixel h i Hd Hout Hin Hrange).
      * rewrite Hpix; [rewrite filled_input; reflexivity|lia| |].
        -- rewrite (frame_size F). assumption.
        -- rewrite filled_input. assumption.
Qed.

End Fill.

End ClusterImages.

Section ClusterList.
Context {num : Type} `{Number num}.

Variable img : ImageData.
Variable labels : list nat.
Variable centroids : list (list num).
Variable count : nat.

(** What an entry of the result says about its label, given the bytes [d]
    of the input (of [n] pixels) and the final heap [h']. *)
Definition describes (d : buffer) (n : nat) (h' : heap) (cl : Tool.clusterInfo) : Prop :=
  width (Tool.image cl) = width img /\ height (Tool.image cl) = height img
  /\ Tool.size cl = length (filter (carries labels (Tool.id cl)) (seq 0 n))
  /\ Tool.centroid cl = match nth_error centroids (Tool.id cl) with
                        | Some c => c
                        | None => [ofZ 0; ofZ 0; ofZ 0]
                        end
  /\ Tool.hue cl = (ofZ (Z.of_nat (Tool.id cl)) * ofZ 360 / ofZ (Z.of_nat count))%js
  /\ ((forall b, (0 <= b <= 255)%Z -> toUint8Clamp (ofZ b) = b) ->
      forall q, (q < n)%nat ->
        pixelBytes (bytes h' (Tool.image cl)) q = clusterPixel d labels (Tool.id cl) q).

Lemma pixel_slots :
  forall h,
    wf_image h img ->
    length (bytes h img) = (4 * Z.to_nat (width img * height img))%nat
    /\ ((length (bytes h img) + 3) / 4 = Z.to_nat (width img * height img))%nat.
Proof.
  intros h (Hw & Hh & _ & Hlen & _).
  assert (E : length (bytes h img) = (4 * Z.to_nat (width img * height img))%nat)
    by (rewrite Hlen; lia).
  split; [exact E|]. rewrite E.
  set (m := Z.to_nat (width img * height img)).
  replace (4 * m + 3)%nat with (3 + m * 4)%nat by lia.
  rewrite Nat.div_add by lia. reflexivity.
Qed.

Lemma clusterImages_spec :
  forall todo h,
    wf_image h img ->
    exists h' cls,
      Tool.clusterImages h img labels centroids count todo = (h', Ok cls)
      /\ map (@Tool.id num) cls = todo
      /\ untouched h h'
      /\ length h' = (length h + length todo)%nat
      /\ forall t cl,
           nth_error cls t = Some cl ->
           data (Tool.image cl) = (length h + t)%nat
           /\ describes (bytes h img) (Z.to_nat (width img * height img)) h' cl.
Proof.
  induction todo as [|label todo IH]; intros h Hwf.
  - exists h, []. split; [reflexivity|]. split; [reflexivity|].
    split; [intros a _; reflexivity|]. split; [simpl; lia|].
    intros [|t] cl Hcl; discriminate.
  - pose proof Hwf as (Hw & Hh & Hdata & Hlen & Hrange).
    destruct (pixel_slots Hwf) as [Hlen4 Hslots].
    set (n := Z.to_nat (width img * height img)) in *.
    cbn [Tool.clusterImages]. rewrite (newImageData_ok h Hw Hh).
    set (h1 := h ++ [repeat 0%Z (Z.to_nat (4 * width img * height img))]).
    set (out := {| width := width img; height := height img; data := length h |}).
    assert (Hin1 : bytes h1 img = bytes h img).
    { unfold h1, bytes. apply app_nth1. assumption. }
    assert (Hout1 : bytes h1 out = repeat 0%Z (Z.to_nat (4 * width img * height img))).
    { unfold h1, out, bytes. cbn [data]. rewrite app_nth2 by lia.
      rewrite Nat.sub_diag. reflexivity. }
    assert (Hl1 : length h1 = S (length h)).
    { unfold h1. rewrite length_app. simpl. lia. }
    assert (Hd1 : (data out < length h1)%nat).
    { unfold out. cbn [data]. lia. }
    assert (Hsep : data img <> data out) by (unfold out; cbn [data]; lia).
    rewrite Hin1, Hslots.
    set (fill := Tool.fillCluster h1 img out labels label (seq 0 n) 0).
    pose proof (@fillCluster_frame num _ img out labels label (seq 0 n) h1 0%nat Hd1) as F.
    fold fill in F.
    assert (Hrange1 : Forall (fun b => 0 <= b <= 255)%Z (bytes h1 img))
      by (rewrite Hin1; assumption).
    assert (Hin2 : bytes (fst fill) img = bytes h img).
    { rewrite <- Hin1. unfold bytes. apply (frame_others F). assumption. }
    assert (Hwf2 : wf_image (fst fill) img).
    { unfold wf_image. rewrite Hin2, (frame_heap F).
      repeat split; try assumption. lia. }
    destruct (IH (fst fill) Hwf2) as (h' & cls & Hrun & Hids & Hunt & Hlen' & Hall).
    rewrite Hrun.
    eexists. eexists. split; [reflexivity|].
    split; [cbn [map Tool.id]; rewrite Hids; reflexivity|].
    split.
    { intros a Ha. rewrite Hunt by (rewrite (frame_heap F); lia).
      rewrite (frame_others F) by (unfold out; cbn [data]; lia).
      unfold h1. apply app_nth1. assumption. }
    split.
    { rewrite Hlen', (frame_heap F). simpl. lia. }
    intros [|t] cl Hcl.
    + simpl in Hcl. inversion Hcl; subst cl. clear Hcl.
      cbn [Tool.image Tool.id Tool.size Tool.centroid Tool.hue].
      split; [unfold out; cbn [data]; lia|].
      unfold describes. cbn [Tool.image Tool.id Tool.size Tool.centroid Tool.hue].
      split; [reflexivity|]. split; [reflexivity|].
      split; [unfold fill; rewrite fillCluster_count; reflexivity|].
      split; [reflexivity|]. split; [reflexivity|].
      intros clamp_bytes q Hq.
      destruct (@fillCluster_pixels num _ img out labels label clamp_bytes Hsep
                  n 0%nat h1 0%nat Hd1 Hrange1) as [_ Hpix].
      cbv zeta in Hpix. fold fill in Hpix.
      assert (Hb : bytes h' out = bytes (fst fill) out).
      { unfold bytes. apply Hunt. rewrite (frame_heap F). assumption. }
      rewrite Hb, <- Hin1. apply Hpix.
      * lia.
      * rewrite Hout1, repeat_length. lia.
      * rewrite Hin1. lia.
    + simpl in Hcl. destruct (Hall t cl Hcl) as [Haddr Hdesc].
      split.
      * rewrite Haddr, (frame_heap F). lia.
      * rewrite Hin2 in Hdesc. exact Hdesc.
Qed.

End ClusterList.

Section ClusterSizes.

Lemma distinct_NoDup :
  forall labels seen, NoDup (Metrics.distinct labels seen).
Proof.
  induction labels as [|l labels IH]; intros seen; cbn [Metrics.distinct].
  - constructor.
  - destruct (existsb (Nat.eqb l) seen); [apply IH|].
    constructor; [|apply IH].
    intros Hin. apply SilhouetteFacts.distinct_In in Hin.
    destruct Hin as [_ Hnot]. apply Hnot. left. reflexivity.
Qed.

Lemma list_sum_split :
  forall (A : Type) (f g : A -> nat) l,
    list_sum (map (fun a => f a + g a)%nat l)
    = (list_sum (map f l) + list_sum (map g l))%nat.
Proof.
  intros A f g l. induction l as [|a l IH]; simpl; [reflexivity|]. rewrite IH. lia.
Qed.

Lemma indicator_absent :
  forall x us, ~ In x us -> list_sum (map (fun l => if Nat.eqb x l then 1 else 0)%nat us) = 0%nat.
Proof.
  intros x us. induction us as [|u us IH]; intros Hnot; simpl; [reflexivity|].
  destruct (Nat.eqb x u) eqn:E.
  - apply Nat.eqb_eq in E. exfalso. apply Hnot. left. congruence.
  - apply IH. intros Hin. apply Hnot. right. assumption.
Qed.

Lemma indicator_once :
  forall x us,
    NoDup us -> In x us ->
    list_sum (map (fun l => if Nat.eqb x l then 1 else 0)%nat us) = 1%nat.
Proof.
  intros x us Hnd. induction Hnd as [|u us Hu Hnd IH]; intros Hin; [contradiction|].
  simpl. destruct (Nat.eqb x u) eqn:E.
  - apply Nat.eqb_eq in E. subst u. rewrite indicator_absent by assumption. reflexivity.
  - apply Nat.eqb_neq in E. destruct Hin as [->|Hin]; [congruence|]. apply IH. assumption.
Qed.

(** Every pixel that has a label counts for exactly one of the distinct
    labels. *)
Lemma sizes_add_up :
  forall labels us qs,
    NoDup us ->
    (forall q, In q qs -> exists l, nth_error labels q = Some l /\ In l us) ->
    list_sum (map (fun l => length (filter (carries labels l) qs)) us) = length qs.
Proof.
  intros labels us qs Hnd. induction qs as [|q qs IH]; intros Hall.
  - assert (Hnone : forall us', list_sum (map (fun l => length (filter (carries labels l) []))
                                             us') = 0%nat)
      by (induction us' as [|u us' IHu]; simpl; [reflexivity|exact IHu]).
    apply Hnone.
  - destruct (Hall q (or_introl eq_refl)) as (x & Hx & Hin).
    assert (E : forall l, length (filter (carries labels l) (q :: qs))
                          = ((if Nat.eqb x l then 1 else 0)
                             + length (filter (carries labels l) qs))%nat).
    { intros l. cbn [filter]. unfold carries at 1. rewrite Hx. cbn [Metrics.same_label].
      destruct (Nat.eqb x l); reflexivity. }
    rewrite (map_ext _ _ E), list_sum_split, indicator_once by assumption.
    rewrite IH; [reflexivity|]. intros q' Hq'. apply Hall. right. assumption.
Qed.

End ClusterSizes.

(** [generateClusterImages] returns one entry for each distinct label, in
    order of first appearance.  The size of an entry is the number of
    pixels that carry its label, its centroid is [centroids[label]] or,
    when there is none, [[0, 0, 0]]; with one label per pixel the sizes add
    up to the number of pixels. *)
Theorem clusterImages_sizes :
  forall (num : Type) (N : Number num) h img labels (centroids : list (list num)),
    wf_image h img ->
    let n := length (extractPixels (num := num) (bytes h img)) in
    exists h' cls,
      Tool.generateClusterImages h img labels centroids = (h', Ok cls)
      /\ map (@Tool.id num) cls = Metrics.distinct labels []
      /\ NoDup (map (@Tool.id num) cls)
      /\ (forall cl,
             In cl cls ->
             Tool.size cl = length (filter (carries labels (Tool.id cl)) (seq 0 n))
             /\ Tool.centroid cl = match nth_error centroids (Tool.id cl) with
                                   | Some c => c
                                   | None => [ofZ 0; ofZ 0; ofZ 0]
                                   end)
      /\ (length labels = n -> list_sum (map (@Tool.size num) cls) = n).
Proof.
  intros num N h img labels centroids Hwf n.
  unfold Tool.generateClusterImages.
  destruct (@clusterImages_spec num N img labels centroids
              (length (Metrics.distinct labels [])) (Metrics.distinct labels []) h Hwf)
    as (h' & cls & Hrun & Hids & _ & _ & Hall).
  assert (Hn : Z.to_nat (width img * height img) = n)
    by (unfold n; symmetry; apply wf_pixel_count; assumption).
  rewrite Hn in Hall.
  exists h', cls. split; [exact Hrun|]. split; [exact Hids|].
  split; [rewrite Hids; apply distinct_NoDup|].
  assert (Hsize : forall cl, In cl cls ->
            Tool.size cl = length (filter (carries labels (Tool.id cl)) (seq 0 n))).
  { intros cl Hin. apply In_nth_error in Hin. destruct Hin as [t Ht].
    destruct (Hall t cl Ht) as (_ & _ & _ & Hs & _). exact Hs. }
  split.
  - intros cl Hin. split; [apply Hsize; assumption|].
    apply In_nth_error in Hin. destruct Hin as [t Ht].
    destruct (Hall t cl Ht) as (_ & _ & _ & _ & Hc & _). exact Hc.
  - intros Hlen.
    assert (E : map (@Tool.size num) cls
                = map (fun l => length (filter (carries labels l) (seq 0 n)))
                      (map (@Tool.id num) cls)).
    { rewrite map_map. apply map_ext_in. intros cl Hin. apply Hsize. assumption. }
    rewrite E, Hids, sizes_add_up.
    + apply length_seq.
    + apply distinct_NoDup.
    + intros q Hq. apply in_seq in Hq.
      destruct (nth_error labels q) as [l|] eqn:Hl;
        [|apply nth_error_None in Hl; lia].
      exists l. split; [reflexivity|].
      apply SilhouetteFacts.distinct_In. split; [|intros []].
      eapply nth_error_In. eassumption.
Qed.

Lemma clusterImages_sizes_witness :
  wf_image SampleImage.heap0 SampleImage.image0
  /\ exists h' cls,
       Tool.generateClusterImages (num := FloatNumber.float)
         SampleImage.heap0 SampleImage.image0 [1; 0; 1; 1]%nat [] = (h', Ok cls)
       /\ map (@Tool.id FloatNumber.float) cls = [1; 0]%nat
       /\ map (@Tool.size FloatNumber.float) cls = [3; 1]%nat
       /\ list_sum (map (@Tool.size FloatNumber.float) cls) = 4%nat.
Proof.
  assert (Hwf : wf_image SampleImage.heap0 SampleImage.image0).
  { unfold wf_image. simpl. repeat split; try lia.
    repeat (constructor; [lia|]). constructor. }
  destruct (@clusterImages_sizes FloatNumber.float _ SampleImage.heap0 SampleImage.image0
              [1; 0; 1; 1]%nat [] Hwf) as (h' & cls & Hrun & Hids & _ & Hsizes & Hsum).
  split; [exact Hwf|]. exists h', cls. split; [exact Hrun|].
  split; [exact Hids|]. split; [|apply Hsum; reflexivity].
  destruct cls as [|c1 [|c2 [|c3 cls]]]; try discriminate.
  simpl in Hids. inversion Hids as [[H1 H2]].
  destruct (Hsizes c1 (or_introl eq_refl)) as [S1 _].
  destruct (Hsizes c2 (or_intror (or_introl eq_refl))) as [S2 _].
  cbn [map]. rewrite S1, S2, H1, H2. reflexivity.
Defined.

(** [generateClusterImages] leaves the input as it was and gives every
    cluster an image of its own, of the dimensions of the input: a pixel
    that carries the label keeps its three channels and becomes opaque,
    any other becomes black with alpha 50.  (The premise says that storing
    a byte leaves that byte; it holds for IEEE doubles and for the
    reals.) *)
Theorem clusterImages_pixels :
  forall (num : Type) (N : Number num) h img labels (centroids : list (list num)),
    wf_image h img ->
    (forall b, (0 <= b <= 255)%Z -> toUint8Clamp (ofZ b) = b) ->
    exists h' cls,
      Tool.generateClusterImages h img labels centroids = (h', Ok cls)
      /\ untouched h h'
      /\ forall t cl,
           nth_error cls t = Some cl ->
           data (Tool.image cl) = (length h + t)%nat
           /\ width (Tool.image cl) = width img /\ height (Tool.image cl) = height img
           /\ forall q,
                (q < length (extractPixels (num := num) (bytes h img)))%nat ->
                pixelBytes (bytes h' (Tool.image cl)) q
                = clusterPixel (bytes h img) labels (Tool.id cl) q.
Proof.
  intros num N h img labels centroids Hwf Hclamp.
  unfold Tool.generateClusterImages.
  destruct (@clusterImages_spec num N img labels centroids
              (length (Metrics.distinct labels [])) (Metrics.distinct labels []) h Hwf)
    as (h' & cls & Hrun & _ & Hunt & _ & Hall).
  rewrite <- (wf_pixel_count (num := num) Hwf) in Hall.
  exists h', cls. split; [exact Hrun|]. split; [exact Hunt|].
  intros t cl Hcl.
  destruct (Hall t cl Hcl) as (Haddr & Hw & Hh & _ & _ & _ & Hpix).
  split; [exact Haddr|]. split; [exact Hw|]. split; [exact Hh|].
  apply Hpix. exact Hclamp.
Qed.

(** Storing a byte leaves that byte, for IEEE doubles and for the reals. *)
Lemma float_clamp_bytes :
  forall b, (0 <= b <= 255)%Z -> toUint8Clamp (ofZ b : FloatNumber.float) = b.
Proof.
  intros b Hb.
  assert (Hall : forallb (fun z => Z.eqb (toUint8Clamp (ofZ z : FloatNumber.float)) z)
                         (map Z.of_nat (seq 0 256)) = true)
    by (vm_compute; reflexivity).
  rewrite forallb_forall in Hall. apply Z.eqb_eq. apply Hall.
  replace b with (Z.of_nat (Z.to_nat b)) by lia.
  apply in_map. apply in_seq. lia.
Qed.


Lemma clusterImages_pixels_witness :
  wf_image SampleImage.heap0 SampleImage.image0
  /\ (forall b, (0 <= b <= 255)%Z -> toUint8Clamp (ofZ b : FloatNumber.float) = b)
  /\ exists h' cls,
       Tool.generateClusterImages (num := FloatNumber.float)
         SampleImage.heap0 SampleImage.image0 [1; 0; 1; 1]%nat [] = (h', Ok cls)
       /\ untouched SampleImage.heap0 h'
       /\ forall t cl,
            nth_error cls t = Some cl ->
            data (Tool.image cl) = (length SampleImage.heap0 + t)%nat
            /\ width (Tool.image cl) = 2%Z /\ height (Tool.image cl) = 2%Z
            /\ forall q,
                 (q < 4)%nat ->
                 pixelBytes (bytes h' (Tool.image cl)) q
                 = clusterPixel (bytes SampleImage.heap0 SampleImage.image0)
                                [1; 0; 1; 1]%nat (Tool.id cl) q.
Proof.
  assert (Hwf : wf_image SampleImage.heap0 SampleImage.image0).
  { unfold wf_image. simpl. repeat split; try lia.
    repeat (constructor; [lia|]). constructor. }
  split; [exact Hwf|]. split; [exact float_clamp_bytes|].
  exact (@clusterImages_pixels FloatNumber.float _ SampleImage.heap0 SampleImage.image0
           [1; 0; 1; 1]%nat [] Hwf float_clamp_bytes).
Defined.

(** ** The analysis of a single cluster *)

Local Open Scope string_scope.

Section SingleCluster.
Context {num : Type} `{Number num}.
Variable random : nat -> num.

(** The image is still there, unchanged, after the random-seeding
    k-means. *)
Lemma kMeans001_keeps_image :
  forall h img k h' out,
    wf_image h img ->
    Part001.kMeansSegmentation random h img k = (h', out) ->
    wf_image h' img /\ bytes h' img = bytes h img.
Proof.
  intros h img k h' out Hwf Hrun.
  pose proof Hwf as (Hw & Hh & Hd & Hlen & Hrange).
  assert (Hkeep : length h' = S (length h) /\ bytes h' img = bytes h img).
  { unfold Part001.kMeansSegmentation in Hrun.
    rewrite (newImageData_ok h Hw Hh) in Hrun.
    set (h0 := h ++ [repeat 0%Z (Z.to_nat (4 * width img * height img))]) in *.
    assert (Hl0 : length h0 = S (length h)) by (unfold h0; rewrite length_app; simpl; lia).
    assert (Hb0 : bytes h0 img = bytes h img) by (unfold h0, bytes; apply app_nth1; lia).
    destruct (Part001.iterate 15 _ k _ []) as [[cs ls]| |].
    - unfold Part001.finish in Hrun.
      destruct (Part001.paint h0 _ ls _ _ 0) as [h2 o] eqn:Hp.
      apply paint001_painted in Hp; [|cbn [data]; lia].
      destruct Hp as [F _ _].
      assert (h' = h2) by (destruct o as [[]| |]; inversion Hrun; reflexivity).
      subst h2. split; [rewrite (frame_heap F); exact Hl0|].
      rewrite <- Hb0. unfold bytes. apply (frame_others F). cbn [data]. lia.
    - inversion Hrun; subst. split; assumption.
    - inversion Hrun; subst. split; assumption. }
  destruct Hkeep as [Hl Hb]. split; [|exact Hb].
  unfold wf_image. rewrite Hb, Hl. repeat split; try assumption. lia.
Qed.

Lemma distinct_seen :
  forall labels, Forall (fun l => l < 1)%nat labels -> Metrics.distinct labels [0%nat] = [].
Proof.
  induction 1 as [|l labels Hl _ IH]; [reflexivity|].
  cbn [Metrics.distinct existsb]. replace l with 0%nat by lia. exact IH.
Qed.

Lemma distinct_single :
  forall labels,
    labels <> [] -> Forall (fun l => l < 1)%nat labels -> Metrics.distinct labels [] = [0%nat].
Proof.
  intros [|l labels] Hne Hall; [congruence|].
  inversion Hall as [|? ? Hl Hrest]; subst.
  cbn [Metrics.distinct existsb]. replace l with 0%nat by lia.
  rewrite (distinct_seen Hrest). reflexivity.
Qed.

Lemma daviesBouldin_single :
  forall (c : list num) clusters,
    Metrics.calculateDaviesBouldinIndex [c] clusters = Ok ((ofZ 0 + ofZ 0) / ofZ 1)%js.
Proof. reflexivity. Qed.

Lemma all_carry :
  forall labels n,
    length labels = n -> Forall (fun l => l < 1)%nat labels ->
    length (filter (carries labels 0) (seq 0 n)) = n.
Proof.
  intros labels n Hlen Hall.
  rewrite forallb_filter_id; [apply length_seq|].
  apply forallb_forall. intros q Hq.
  apply in_seq in Hq. unfold carries.
  destruct (nth_error labels q) as [l|] eqn:Hl; [|apply nth_error_None in Hl; lia].
  rewrite Forall_forall in Hall. specialize (Hall l (nth_error_In _ _ Hl)).
  cbn [Metrics.same_label]. apply Nat.eqb_eq. lia.
Qed.

End SingleCluster.

(** With the k-means and one cluster the analysis returns: the
    Davies-Bouldin index is [(0 + 0) / 1], there is one segment, and the
    only cluster has the id 0 and holds every pixel. *)
Theorem analyse_single_cluster :
  forall (num : Type) (N : Number num) (random : nat -> num)
         selectedAlgorithm parameters h img,
    wf_image h img ->
    selectedAlgorithm <> "meanshift" -> selectedAlgorithm <> "watershed" ->
    Tool.clusters parameters = 1%Z ->
    exists h' res,
      Tool.analyse random selectedAlgorithm parameters h img = (h', Ok res)
      /\ Tool.numSegments (Tool.metrics res) = 1%nat
      /\ Tool.daviesBouldinIndex (Tool.metrics res) = ((ofZ 0 + ofZ 0) / ofZ 1)%js
      /\ map (@Tool.id num) (Tool.clusterList res) = [0%nat]
      /\ map (@Tool.size num) (Tool.clusterList res)
         = [length (extractPixels (num := num) (bytes h img))].
Proof.
  intros num N random a p h img Hwf Hm Hw Hk.
  destruct (@kMeans001_returns num N random h img 1%Z Hwf ltac:(lia))
    as (h1 & r & Hrun & Hlen & Hall & Hcs).
  destruct (@kMeans001_keeps_image num N random h img 1%Z h1 (Ok r) Hwf Hrun)
    as [Hwf1 Hb1].
  change (Z.to_nat 1) with 1%nat in Hall, Hcs.
  pose proof (wf_pixel_count (num := num) Hwf) as Hn.
  assert (Hpos : (0 < length (extractPixels (num := num) (bytes h img)))%nat).
  { rewrite Hn. destruct Hwf as (Hw0 & Hh0 & _). nia. }
  unfold Tool.analyse. rewrite segment_kmeans by assumption. rewrite Hk, Hrun.
  destruct (Part001.centroids r) as [|c [|c' cs]] eqn:Hc; try discriminate.
  rewrite daviesBouldin_single.
  unfold Metrics.calculateCalinskiHarabaszIndex.
  destruct (@withinLoop_defined num N [c] (Part001.labels r)
              (extractPixels (bytes h1 img)) 0%nat (ofZ 0)) as [v Hv].
  { intros q Hq. rewrite Hb1 in Hq.
    destruct (nth_error (Part001.labels r) q) as [l|] eqn:Hl;
      [|apply nth_error_None in Hl; lia].
    exists l. split; [reflexivity|].
    rewrite Forall_forall in Hall. apply Hall. eapply nth_error_In. eassumption. }
  rewrite Hv. cbn [bind].
  unfold Tool.generateClusterImages.
  rewrite distinct_single;
    [|intros E; rewrite E in Hlen; simpl in Hlen; lia|exact Hall].
  destruct (@clusterImages_spec num N img (Part001.labels r) [c] 1%nat [0%nat] h1 Hwf1)
    as (h' & cls & Hrun2 & Hids & _ & _ & Hdesc).
  cbn [length]. rewrite Hrun2.
  eexists. eexists. split; [reflexivity|].
  cbn [Tool.metrics Tool.numSegments Tool.daviesBouldinIndex Tool.clusterList].
  destruct cls as [|cl [|cl' cls]]; try discriminate.
  split; [reflexivity|]. split; [reflexivity|]. split; [exact Hids|].
  destruct (Hdesc 0%nat cl eq_refl) as (_ & _ & _ & Hsize & _).
  simpl in Hids. inversion Hids as [Hid].
  cbn [map]. rewrite Hsize, Hid, <- Hn.
  rewrite (all_carry Hlen Hall). reflexivity.
Qed.

Lemma analyse_single_cluster_witness :
  let parameters := Tool.mkParameters 1 (ofZ 1 : FloatNumber.float) (lit 5 10) 5 in
  wf_image SampleImage.heap0 SampleImage.image0
  /\ "kmeans" <> "meanshift" /\ "kmeans" <> "watershed"
  /\ Tool.clusters parameters = 1%Z
  /\ exists h' res,
       Tool.analyse SampleImage.draws_half "kmeans" parameters
         SampleImage.heap0 SampleImage.image0 = (h', Ok res)
       /\ Tool.numSegments (Tool.metrics res) = 1%nat
       /\ map (@Tool.size FloatNumber.float) (Tool.clusterList res) = [4%nat].
Proof.
  intros parameters.
  assert (Hwf : wf_image SampleImage.heap0 SampleImage.image0).
  { unfold wf_image. simpl. repeat split; try lia.
    repeat (constructor; [lia|]). constructor. }
  assert (Hm : "kmeans" <> "meanshift") by discriminate.
  assert (Hw : "kmeans" <> "watershed") by discriminate.
  assert (Hk : Tool.clusters parameters = 1%Z) by reflexivity.
  split; [exact Hwf|]. split; [exact Hm|]. split; [exact Hw|]. split; [exact Hk|].
  destruct (@analyse_single_cluster FloatNumber.float _ SampleImage.draws_half
              "kmeans" parameters SampleImage.heap0 SampleImage.image0 Hwf Hm Hw Hk)
    as (h' & res & Hrun & Hseg & _ & _ & Hsizes).
  exists h', res. split; [exact Hrun|]. split; [exact Hseg|exact Hsizes].
Defined.

Local Close Scope string_scope.

(** ** The mean shift takes the first mode that fits *)

Section FirstFit.
Context {num : Type} `{Number num}.

Lemma findMode_first :
  forall p (bandwidth : num) modes j0 j t c',
    Part001.findMode p bandwidth modes j0 = Some j ->
    (t < j - j0)%nat -> nth_error modes t = Some c' ->
    (Part001.colorDistance p c' <? bandwidth * ofZ 40)%js = false.
Proof.
  intros p bandwidth modes.
  induction modes as [|m modes IH]; intros j0 j t c' Hf Ht Hc; simpl in Hf; [discriminate|].
  destruct (Part001.colorDistance p m <? bandwidth * ofZ 40)%js eqn:Hnear.
  - inversion Hf; subst j. lia.
  - destruct t as [|t]; simpl in Hc.
    + inversion Hc; subst. exact Hnear.
    + pose proof Hf as Hj. apply findMode_some in Hj. destruct Hj as (_ & Hle & _).
      apply (IH (S j0) j t c' Hf); [lia|exact Hc].
Qed.

(** No pixel bucketed so far lies within the bandwidth of a mode before
    its own. *)
Definition first_fit (bandwidth : num) (done modes : list (list num)) (labels : list nat)
    : Prop :=
  forall i p l j' c',
    nth_error done i = Some p -> nth_error labels i = Some l ->
    (j' < l)%nat -> nth_error modes j' = Some c' ->
    (Part001.colorDistance p c' <? bandwidth * ofZ 40)%js = false.

Lemma bucket_first_fit :
  forall (bandwidth : num) pixels done modes labels modes' labels',
    bucket_inv bandwidth done modes labels ->
    first_fit bandwidth done modes labels ->
    Part001.bucket pixels bandwidth modes labels = (modes', labels') ->
    first_fit bandwidth (done ++ pixels) modes' labels'.
Proof.
  intros bandwidth pixels.
  induction pixels as [|p pixels IH]; intros done modes labels modes' labels' Hinv Hff Hb;
    simpl in Hb.
  - inversion Hb; subst. rewrite app_nil_r. assumption.
  - replace (done ++ p :: pixels) with ((done ++ [p]) ++ pixels)
      by (rewrite <- app_assoc; reflexivity).
    pose proof (inv_length Hinv) as Hlen.
    destruct (Part001.findMode p bandwidth modes 0) as [m|] eqn:Hf.
    + pose proof Hf as Hsome. apply findMode_some in Hsome.
      destruct Hsome as (c & _ & Hm & Hc). rewrite Nat.sub_0_r in Hm.
      eapply IH; [eapply bucket_inv_join; eauto| |exact Hb].
      intros i q l j' c' Hq Hl Hj' Hc'.
      apply nth_error_snoc_inv in Hq. destruct Hq as [[Hi Hq]|[-> ->]].
      * rewrite nth_error_snoc_lt in Hl by lia. exact (Hff i q l j' c' Hq Hl Hj' Hc').
      * rewrite <- Hlen, nth_error_snoc_eq in Hl. inversion Hl; subst l.
        apply (@findMode_first p bandwidth modes 0%nat m j' c' Hf); [lia|exact Hc'].
    + eapply IH; [apply bucket_inv_found; exact Hinv| |exact Hb].
      intros i q l j' c' Hq Hl Hj' Hc'.
      apply nth_error_snoc_inv in Hq. destruct Hq as [[Hi Hq]|[-> ->]].
      * rewrite nth_error_snoc_lt in Hl by lia.
        pose proof (inv_range Hinv _ Hl) as Hrange.
        rewrite nth_error_snoc_lt in Hc' by lia.
        exact (Hff i q l j' c' Hq Hl Hj' Hc').
      * rewrite <- Hlen, nth_error_snoc_eq in Hl. inversion Hl; subst l.
        rewrite length_app in Hj'. simpl in Hj'.
        rewrite nth_error_snoc_lt in Hc' by lia.
        eapply findMode_none; [exact Hf|]. eapply nth_error_In. exact Hc'.
Qed.

End FirstFit.

(** The mean shift gives every pixel the first mode that fits: a pixel
    never lies within the bandwidth of a mode that comes before the mode
    of its label. *)
Theorem meanShift_first_fit :
  forall (num : Type) (N : Number num) h img (bandwidth : num) h' r i p l j' c',
    Part001.meanShiftSegmentation h img bandwidth = (h', Ok r) ->
    nth_error (extractPixels (bytes h img)) i = Some p ->
    nth_error (Part001.labels r) i = Some l ->
    (j' < l)%nat ->
    nth_error (Part001.centroids r) j' = Some c' ->
    (Part001.colorDistance p c' <? bandwidth * ofZ 40)%js = false.
Proof.
  intros num N h img bandwidth h' r i p l j' c' Hrun Hp Hl Hj' Hc'.
  unfold Part001.meanShiftSegmentation in Hrun.
  destruct (newImageData h (width img) (height img)) as [h1 [seg| |]];
    try discriminate.
  destruct (Part001.bucket (extractPixels (bytes h img)) bandwidth [] [])
    as [modes labels] eqn:Hb.
  unfold Part001.finish in Hrun.
  destruct (Part001.paint h1 seg labels _ _ 0) as [h2 [[]| |]]; try discriminate.
  inversion Hrun; subst. cbn [Part001.centroids Part001.labels] in Hl, Hc'.
  assert (Hff : first_fit bandwidth ([] ++ extractPixels (bytes h img)) modes labels).
  { eapply bucket_first_fit; [apply bucket_inv_nil| |exact Hb].
    intros a q x y z Hq. destruct a; discriminate. }
  exact (Hff i p l j' c' Hp Hl Hj' Hc').
Qed.

Lemma meanShift_first_fit_witness :
  exists h' r p c',
    Part001.meanShiftSegmentation SampleImage.heap0 SampleImage.image0
      (ofZ 1 : FloatNumber.float) = (h', Ok r)
    /\ nth_error (extractPixels (bytes SampleImage.heap0 SampleImage.image0)) 2 = Some p
    /\ nth_error (Part001.labels r) 2 = Some 1%nat
    /\ (0 < 1)%nat
    /\ nth_error (Part001.centroids r) 0 = Some c'
    /\ (Part001.colorDistance p c' <? ofZ 1 * ofZ 40)%js = false.
Proof.
  assert (Hrun : exists h' r,
             Part001.meanShiftSegmentation SampleImage.heap0 SampleImage.image0
               (ofZ 1 : FloatNumber.float) = (h', Ok r)).
  { vm_compute. eexists. eexists. reflexivity. }
  destruct Hrun as (h' & r & Hrun).
  assert (Hp : nth_error (extractPixels (num := FloatNumber.float)
                            (bytes SampleImage.heap0 SampleImage.image0)) 2
               = Some [ofZ 240; ofZ 240; ofZ 240]) by reflexivity.
  assert (Hl : nth_error (Part001.labels r) 2 = Some 1%nat).
  { vm_compute in Hrun. inversion Hrun. reflexivity. }
  assert (Hc : nth_error (Part001.centroids r) 0 = Some [ofZ 10; ofZ 10; ofZ 10]).
  { vm_compute in Hrun. inversion Hrun. vm_compute. reflexivity. }
  assert (Hlt : (0 < 1)%nat) by lia.
  exists h', r, [ofZ 240; ofZ 240; ofZ 240], [ofZ 10; ofZ 10; ofZ 10].
  split; [exact Hrun|]. split; [exact Hp|]. split; [exact Hl|]. split; [exact Hlt|].
  split; [exact Hc|].
  exact (@meanShift_first_fit FloatNumber.float _ SampleImage.heap0 SampleImage.image0
           (ofZ 1) h' r 2%nat _ 1%nat 0%nat _ Hrun Hp Hl Hlt Hc).
Defined.

(** ** The Davies-Bouldin index of coinciding centroids *)

Module DaviesBouldinDegenerate.
Import RealNumber RealFacts KMeansReal SilhouetteSpec.
Local Open Scope R_scope.

(** Not a finite number: [Infinity] or NaN. *)
Definition unbounded (x : xreal) : Prop := x = PInf \/ x = XNaN.

(** A number that is not negative, [Infinity], or NaN. *)
Definition nonneg (x : xreal) : Prop :=
  unbounded x \/ exists r, x = Finite r /\ 0 <= r.

Lemma max_nonneg :
  forall a b, nonneg a -> nonneg b ->
    nonneg (x_max a b) /\ (unbounded a \/ unbounded b -> unbounded (x_max a b)).
Proof.
  intros a b [[-> | ->]|(r & -> & Hr)] [[-> | ->]|(s & -> & Hs)];
    cbn [x_max x_ltb]; unfold nonneg, unbounded;
    try (split; [left; auto|intros _; auto]; fail).
  destruct (Rltb r s); (split; [right; eauto|]);
    intros [[E|E]|[E|E]]; discriminate.
Qed.

Lemma add_nonneg :
  forall a b, nonneg a -> nonneg b ->
    nonneg (x_add a b) /\ (unbounded a \/ unbounded b -> unbounded (x_add a b)).
Proof.
  intros a b [[-> | ->]|(r & -> & Hr)] [[-> | ->]|(s & -> & Hs)];
    cbn [x_add]; unfold nonneg, unbounded;
    try (split; [left; auto|intros _; auto]; fail).
  split; [right; eexists; split; [reflexivity|lra]|].
  intros [[E|E]|[E|E]]; discriminate.
Qed.

(** A sum of scatters over a distance. *)
Lemma ratio_nonneg :
  forall s d, 0 <= s -> 0 <= d ->
    nonneg (x_div (Finite s) (Finite d))
    /\ (d = 0 -> unbounded (x_div (Finite s) (Finite d))).
Proof.
  intros s d Hs Hd. cbn [x_div x_negative].
  destruct (Req_dec_T d 0) as [->|Hne].
  - rewrite Reqb_true by reflexivity.
    rewrite Rltb_false by lra.
    destruct (Rltb 0 s); unfold nonneg, unbounded, x_inf; split; auto.
  - rewrite Reqb_false by assumption. split; [|contradiction].
    right. eexists. split; [reflexivity|].
    apply Rmult_le_pos; [assumption|]. apply Rlt_le, Rinv_0_lt_compat. lra.
Qed.

Section Loops.

Variable centroids : list (list xreal).
Variable clusters : list (list (list xreal)).

Hypothesis centroids_finite : Forall fin_pixel centroids.
Hypothesis clusters_finite : Forall (Forall fin_pixel) clusters.
Hypothesis clusters_complete : (length centroids <= length clusters)%nat.

Lemma maxRatioLoop_unbounded :
  forall i ci todo j m,
    nth_error centroids i = Some ci ->
    (forall t cj, nth_error todo t = Some cj -> nth_error centroids (j + t) = Some cj) ->
    nonneg m ->
    exists m',
      Metrics.maxRatioLoop centroids clusters i ci todo j m = Ok m'
      /\ nonneg m'
      /\ (unbounded m
          \/ (exists t, nth_error todo t = Some ci /\ (j + t)%nat <> i) ->
          unbounded m').
Proof.
  intros i ci todo. induction todo as [|cj todo IH]; intros j m Hci Htodo Hm.
  - exists m. split; [reflexivity|]. split; [assumption|].
    intros [Hu|(t & Ht & _)]; [assumption|destruct t; discriminate].
  - cbn [Metrics.maxRatioLoop].
    assert (Hrest : forall t c, nth_error todo t = Some c ->
                                nth_error centroids (S j + t) = Some c).
    { intros t c Ht. rewrite <- (Htodo (S t) c Ht). f_equal. lia. }
    destruct (Nat.eqb i j) eqn:Hij.
    + apply Nat.eqb_eq in Hij. subst j.
      destruct (IH (S i) m Hci Hrest Hm) as (m' & Hrun & Hn & Hu).
      exists m'. split; [exact Hrun|]. split; [exact Hn|].
      intros [Hb|(t & Ht & Hne)]; [apply Hu; left; assumption|].
      destruct t as [|t]; [lia|]. simpl in Ht.
      apply Hu. right. exists t. split; [assumption|lia].
    + apply Nat.eqb_neq in Hij.
      assert (Hcj : nth_error centroids j = Some cj).
      { rewrite <- (Htodo 0%nat cj eq_refl). f_equal. lia. }
      assert (Hi : (i < length centroids)%nat) by (apply nth_error_Some; congruence).
      assert (Hj : (j < length centroids)%nat) by (apply nth_error_Some; congruence).
      assert (Hfi : fin_pixel ci).
      { rewrite Forall_forall in centroids_finite. apply centroids_finite.
        eapply nth_error_In. eassumption. }
      assert (Hfj : fin_pixel cj).
      { rewrite Forall_forall in centroids_finite. apply centroids_finite.
        eapply nth_error_In. eassumption. }
      destruct (@DaviesBouldinReal.cluster_at centroids clusters clusters_finite clusters_complete i Hi)
        as (cli & Hcli & Hfcli).
      destruct (@DaviesBouldinReal.cluster_at centroids clusters clusters_finite clusters_complete j Hj)
        as (clj & Hclj & Hfclj).
      rewrite Hcli, Hclj.
      destruct (@DaviesBouldinReal.scatter_nonneg cli ci Hfi Hfcli) as (si & Hsi & Hsi0).
      destruct (@DaviesBouldinReal.scatter_nonneg clj cj Hfj Hfclj) as (sj & Hsj & Hsj0).
      rewrite Hsi, Hsj. cbn [bind].
      rewrite (SilhouetteFacts.distance_refines Hfi Hfj).
      cbn [nadd ndiv nmax xreal_Number x_add].
      pose proof (SilhouetteFacts.distance_nonneg ci cj) as Hd.
      destruct (@ratio_nonneg (si + sj) (distance ci cj) ltac:(lra) Hd) as [Hrn Hru].
      destruct (@max_nonneg _ _ Hm Hrn) as [Hmn Hmu].
      destruct (IH (S j) _ Hci Hrest Hmn) as (m' & Hrun & Hn & Hu).
      exists m'. split; [exact Hrun|]. split; [exact Hn|].
      intros [Hb|(t & Ht & Hne)].
      * apply Hu. left. apply Hmu. left. assumption.
      * destruct t as [|t]; simpl in Ht.
        -- assert (E : cj = ci) by congruence.
           apply Hu. left. apply Hmu. right. apply Hru.
           rewrite E. apply SilhouetteFacts.distance_self.
        -- apply Hu. right. exists t. split; [assumption|lia].
Qed.

Lemma dbLoop_unbounded :
  forall todo i a,
    (forall t ci, nth_error todo t = Some ci -> nth_error centroids (i + t) = Some ci) ->
    nonneg a ->
    exists v,
      Metrics.dbLoop centroids clusters todo i a = Ok v
      /\ nonneg v
      /\ (unbounded a
          \/ (exists t t' c, nth_error todo t = Some c /\ nth_error centroids t' = Some c
                             /\ t' <> (i + t)%nat) ->
          unbounded v).
Proof.
  induction todo as [|ci todo IH]; intros i a Htodo Ha.
  - exists a. split; [reflexivity|]. split; [assumption|].
    intros [Hu|(t & t' & c & Ht & _)]; [assumption|destruct t; discriminate].
  - cbn [Metrics.dbLoop].
    assert (Hci : nth_error centroids i = Some ci).
    { rewrite <- (Htodo 0%nat ci eq_refl). f_equal. lia. }
    assert (Hzero : nonneg (ofZ 0)).
    { right. exists 0. split; [reflexivity|lra]. }
    destruct (@maxRatioLoop_unbounded i ci centroids 0 (ofZ 0) Hci
                ltac:(intros t cj Ht; exact Ht) Hzero) as (m & Hm & Hmn & Hmu).
    rewrite Hm. cbn [bind nadd xreal_Number].
    destruct (@add_nonneg _ _ Ha Hmn) as [Hsn Hsu].
    destruct (IH (S i) (x_add a m)) as (v & Hv & Hvn & Hvu).
    + intros t c Ht. rewrite <- (Htodo (S t) c Ht). f_equal. lia.
    + exact Hsn.
    + exists v. split; [exact Hv|]. split; [exact Hvn|].
      intros [Hb|(t & t' & c & Ht & Ht' & Hne)].
      * apply Hvu. left. apply Hsu. left. assumption.
      * destruct t as [|t]; simpl in Ht.
        -- assert (E : ci = c) by congruence. rewrite <- E in Ht'.
           apply Hvu. left. apply Hsu. right.
           apply Hmu. right. exists t'. split; [exact Ht'|lia].
        -- apply Hvu. right. exists t, t', c. split; [exact Ht|]. split; [exact Ht'|lia].
Qed.

End Loops.

End DaviesBouldinDegenerate.

(** When two of the centroids coincide (as a reseeded centroid of the
    k-means++ variant coincides with the one it was copied from), the
    Davies-Bouldin index divides by their distance 0 and is not a finite
    number: it is [Infinity] or NaN (exact arithmetic; a cluster of pixels
    for every centroid). *)
Theorem daviesBouldin_of_coinciding_centroids :
  forall (centroids : list (list RealNumber.xreal)) clusters i j c,
    Forall KMeansReal.fin_pixel centroids ->
    Forall (Forall KMeansReal.fin_pixel) clusters ->
    (length centroids <= length clusters)%nat ->
    i <> j -> nth_error centroids i = Some c -> nth_error centroids j = Some c ->
    Metrics.calculateDaviesBouldinIndex centroids clusters = Ok RealNumber.PInf
    \/ Metrics.calculateDaviesBouldinIndex centroids clusters = Ok RealNumber.XNaN.
Proof.
  intros centroids clusters i j c Hcs Hcl Hlen Hne Hi Hj.
  unfold Metrics.calculateDaviesBouldinIndex.
  assert (Hzero : DaviesBouldinDegenerate.nonneg (ofZ 0)).
  { right. exists 0%R. split; [reflexivity|lra]. }
  destruct (@DaviesBouldinDegenerate.dbLoop_unbounded centroids clusters Hcs Hcl Hlen
              centroids 0%nat (ofZ 0) ltac:(intros t ci Ht; exact Ht) Hzero)
    as (v & Hv & _ & Hvu).
  rewrite Hv. cbn [bind ndiv ofZ RealNumber.xreal_Number].
  rewrite <- INR_IZR_INZ.
  assert (Hk : (0 < INR (length centroids))%R).
  { apply lt_0_INR.
    assert (i < length centroids)%nat by (apply nth_error_Some; congruence). lia. }
  destruct Hvu as [-> | ->].
  - right. exists i, j, c. split; [exact Hi|]. split; [exact Hj|]. simpl. lia.
  - left. cbn [RealNumber.x_div]. rewrite RealFacts.Rltb_false by lra. reflexivity.
  - right. reflexivity.
Qed.

Lemma daviesBouldin_of_coinciding_centroids_witness :
  let dark := [RealNumber.Finite 10; RealNumber.Finite 10; RealNumber.Finite 10] in
  let light := [RealNumber.Finite 240; RealNumber.Finite 240; RealNumber.Finite 240] in
  0%nat <> 1%nat
  /\ nth_error [dark; dark] 0 = Some dark /\ nth_error [dark; dark] 1 = Some dark
  /\ (Metrics.calculateDaviesBouldinIndex [dark; dark] [[dark; light]; []]
      = Ok RealNumber.PInf
      \/ Metrics.calculateDaviesBouldinIndex [dark; dark] [[dark; light]; []]
         = Ok RealNumber.XNaN).
Proof.
  intros dark light.
  assert (Hfin : forall a b c : R,
             KMeansReal.fin_pixel [RealNumber.Finite a; RealNumber.Finite b;
                                   RealNumber.Finite c]).
  { intros a b c. exists a, b, c. reflexivity. }
  assert (Hcs : Forall KMeansReal.fin_pixel [dark; dark])
    by (repeat constructor; apply Hfin).
  assert (Hcl : Forall (Forall KMeansReal.fin_pixel) [[dark; light]; []])
    by (repeat constructor; apply Hfin).
  assert (Hlen : (length [dark; dark] <= length [[dark; light]; []])%nat)
    by (simpl; lia).
  assert (Hne : 0%nat <> 1%nat) by lia.
  split; [exact Hne|]. split; [reflexivity|]. split; [reflexivity|].
  exact (@daviesBouldin_of_coinciding_centroids [dark; dark] [[dark; light]; []]
           0%nat 1%nat dark Hcs Hcl Hlen Hne eq_refl eq_refl).
Defined.

(** ** The k-means of a single cluster *)

Section OneCluster.
Context {num : Type} `{Number num}.

Lemma members_all :
  forall (pixels : list (list num)) labels,
    length labels = length pixels -> Forall (fun l => l < 1)%nat labels ->
    UpdateSpec.members_of pixels labels 0 = pixels.
Proof.
  induction pixels as [|p pixels IH]; intros [|l labels] Hlen Hall; simpl in Hlen;
    try discriminate; [reflexivity|].
  inversion Hall as [|? ? Hl Hrest]; subst.
  cbn [UpdateSpec.members_of]. replace l with 0%nat by lia. cbn [Nat.eqb].
  rewrite IH by (assumption || lia). reflexivity.
Qed.

Lemma single_list :
  forall (A : Type) (l : list A) x,
    length l = 1%nat -> nth_error l 0 = Some x -> l = [x].
Proof.
  intros A [|y [|z l]] x Hlen Hx; simpl in *; try discriminate. congruence.
Qed.

End OneCluster.

(** With [k = 1] each of the two k-means, when it returns, labels every
    pixel 0 and returns one centroid, the mean colour of the image
    (channel by channel, as the code of each sums and divides). *)
Theorem kMeans_of_one_cluster :
  forall (num : Type) (N : Number num) (random : nat -> num) h img,
    wf_image h img ->
    (forall fuel h' r,
        Part000.kMeansSegmentation random fuel h img 1 = (h', Ok r) ->
        Forall (fun l => l = 0%nat) (Part000.labels r)
        /\ Part000.centroids r
           = [Some (UpdateSpec.componentMean (extractPixels (bytes h img)))])
    /\ (forall h' r,
           Part001.kMeansSegmentation random h img 1 = (h', Ok r) ->
           Forall (fun l => l = 0%nat) (Part001.labels r)
           /\ Part001.centroids r
              = [[Part001.channelMean (extractPixels (bytes h img)) 0;
                  Part001.channelMean (extractPixels (bytes h img)) 1;
                  Part001.channelMean (extractPixels (bytes h img)) 2]]).
Proof.
  intros num N random h img Hwf.
  pose proof (wf_pixel_count (num := num) Hwf) as Hn.
  assert (Hpos : (0 < length (extractPixels (num := num) (bytes h img)))%nat).
  { rewrite Hn. destruct Hwf as (Hw0 & Hh0 & _). nia. }
  assert (Hzero : forall labels, Forall (fun l => l < Z.to_nat 1)%nat labels ->
                                 Forall (fun l => l = 0%nat) labels).
  { intros labels Hall. eapply Forall_impl; [|exact Hall].
    intros l Hl. simpl in Hl. lia. }
  split.
  - intros fuel h' r Hrun.
    destruct (@kMeans000_labels num N random fuel h img 1%Z h' r ltac:(lia) Hrun)
      as (Hlen & Hall & Hcs).
    split; [apply Hzero; exact Hall|].
    unfold Part000.kMeansSegmentation in Hrun.
    destruct (newImageData h (width img) (height img)) as [h1 [seg| |]];
      try discriminate.
    destruct (Part000.cluster_pixels random fuel (bytes h img) 1) as [st| |] eqn:Hc;
      try discriminate.
    destruct (Part000.paint h1 seg _ _ _ 0) as [h2 [[]| |]]; try discriminate.
    inversion Hrun; subst. cbn [Part000.labels Part000.centroids] in *.
    destruct (@cluster_pixels_last_pass num N random fuel (bytes h img) 1%Z st
                ltac:(lia) Hc) as (previous & _ & _ & Hrule).
    destruct (Hrule 0%nat ltac:(simpl; lia)) as (c & Hcentroid).
    rewrite (members_all _ Hlen Hall) in Hcentroid.
    replace (0 <? length (extractPixels (bytes h img)))%nat with true in Hcentroid
      by (symmetry; apply Nat.ltb_lt; exact Hpos).
    apply single_list; assumption.
  - intros h' r Hrun.
    destruct (@kMeans001_returns num N random h img 1%Z Hwf ltac:(lia))
      as (h2 & r2 & Hrun2 & Hlen & Hall & Hcs).
    rewrite Hrun in Hrun2. inversion Hrun2; subst h2 r2. clear Hrun2.
    split; [apply Hzero; exact Hall|].
    unfold Part001.kMeansSegmentation in Hrun.
    destruct (newImageData h (width img) (height img)) as [h1 [seg| |]];
      try discriminate.
    destruct (Part001.iterate 15 (extractPixels (bytes h img)) 1 _ [])
      as [[centroids labels]| |] eqn:Hit; try discriminate.
    unfold Part001.finish in Hrun.
    destruct (Part001.paint h1 seg labels _ _ 0) as [h3 [[]| |]]; try discriminate.
    inversion Hrun; subst. cbn [Part001.labels Part001.centroids] in *.
    apply iterate_last in Hit. destruct Hit as (previous & labels0 & Hfirst & Hlast).
    apply iterate_length in Hfirst. rewrite initCentroids_length in Hfirst.
    destruct (@iterate_one num N _ _ _ _ _ _ Hfirst Hlast) as [_ Hrule].
    destruct previous as [|c0 [|c1 previous]]; try discriminate.
    specialize (Hrule 0%nat c0 eq_refl). cbv zeta in Hrule.
    rewrite (members_all _ Hlen Hall) in Hrule.
    replace (0 <? length (extractPixels (bytes h img)))%nat with true in Hrule
      by (symmetry; apply Nat.ltb_lt; exact Hpos).
    apply single_list; assumption.
Qed.

Lemma kMeans_of_one_cluster_witness :
  wf_image SampleImage.heap0 SampleImage.image0
  /\ exists h' r,
       Part001.kMeansSegmentation SampleImage.draws_half
         SampleImage.heap0 SampleImage.image0 1 = (h', Ok r)
       /\ Forall (fun l => l = 0%nat) (Part001.labels r)
       /\ Part001.centroids r = [[ofZ 125; ofZ 125; ofZ 125]].
Proof.
  assert (Hwf : wf_image SampleImage.heap0 SampleImage.image0).
  { unfold wf_image. simpl. repeat split; try lia.
    repeat (constructor; [lia|]). constructor. }
  assert (Hrun : exists h' r,
             Part001.kMeansSegmentation SampleImage.draws_half
               SampleImage.heap0 SampleImage.image0 1 = (h', Ok r)).
  { vm_compute. eexists. eexists. reflexivity. }
  destruct Hrun as (h' & r & Hrun).
  destruct (proj2 (@kMeans_of_one_cluster FloatNumber.float _ SampleImage.draws_half
                     SampleImage.heap0 SampleImage.image0 Hwf) h' r Hrun)
    as [Hlabels Hcs].
  split; [exact Hwf|]. exists h', r. split; [exact Hrun|]. split; [exact Hlabels|].
  rewrite Hcs. vm_compute. reflexivity.
Defined.

(** ** The value of the Calinski-Harabasz index, in exact arithmetic *)

Module CalinskiHarabaszReal.
Import RealNumber RealFacts KMeansReal SilhouetteSpec.
Local Open Scope R_scope.

Lemma total_finite :
  forall pixels a b c,
    Forall fin_pixel pixels ->
    exists a' b' c',
      fold_left (fun acc pixel =>
                   [elem acc 0 + elem pixel 0; elem acc 1 + elem pixel 1;
                    elem acc 2 + elem pixel 2]%js)
                pixels [Finite a; Finite b; Finite c]
      = [Finite a'; Finite b'; Finite c'].
Proof.
  intros pixels a b c Hall. revert a b c.
  induction Hall as [|p pixels (x & y & z & ->) _ IH]; intros a b c; cbn [fold_left].
  - eauto.
  - cbn [elem nth_error nadd xreal_Number x_add]. apply IH.
Qed.

Lemma overall_finite :
  forall pixels,
    Forall fin_pixel pixels -> pixels <> [] ->
    fin_pixel (Metrics.overallCentroid pixels).
Proof.
  intros pixels Hall Hne. unfold Metrics.overallCentroid.
  change (ofZ 0) with (Finite 0).
  destruct (@total_finite pixels 0 0 0 Hall) as (a & b & c & ->).
  assert (Hn : IZR (Z.of_nat (length pixels)) <> 0).
  { apply not_0_IZR. destruct pixels; [congruence|simpl; lia]. }
  cbn [elem nth_error ndiv ofZ xreal_Number x_div].
  rewrite Reqb_false by assumption.
  unfold fin_pixel. eauto.
Qed.

Lemma betweenLoop_nonneg :
  forall labels overall todo i a,
    fin_pixel overall -> Forall fin_pixel todo -> 0 <= a ->
    exists b,
      Metrics.betweenLoop labels overall todo i (Finite a) = Finite b /\ 0 <= b.
Proof.
  intros labels overall todo i a Ho Hall. revert i a.
  induction Hall as [|ci todo Hci _ IH]; intros i a Ha; cbn [Metrics.betweenLoop].
  - eauto.
  - rewrite (SilhouetteFacts.distance_refines Hci Ho).
    cbn [nadd nmul ofZ xreal_Number x_add x_mul]. apply IH.
    pose proof (SilhouetteFacts.distance_nonneg ci overall) as Hd.
    assert (Hs : 0 <= IZR (Z.of_nat (Metrics.clusterSize labels i)))
      by (apply IZR_le; lia).
    pose proof (Rmult_le_pos _ _ (Rmult_le_pos _ _ Hs Hd) Hd). lra.
Qed.

Section Within.

Variable centroids : list (list xreal).
Variable labels : list nat.

Hypothesis centroids_finite : Forall fin_pixel centroids.

(** Pixel [p] at position [q] does not coincide with the centroid of its
    label. *)
Definition off_centre (q : nat) (p : list xreal) : Prop :=
  exists l c, nth_error labels q = Some l /\ nth_error centroids l = Some c /\ p <> c.

Lemma withinLoop_value :
  forall todo i a,
    Forall fin_pixel todo ->
    (forall t, (t < length todo)%nat ->
               exists l, nth_error labels (i + t) = Some l /\ (l < length centroids)%nat) ->
    0 <= a ->
    exists w,
      Metrics.withinLoop centroids labels todo i (Finite a) = Ok (Finite w)
      /\ a <= w
      /\ ((exists t p, nth_error todo t = Some p /\ off_centre (i + t) p) -> a < w)
      /\ ((forall t p, nth_error todo t = Some p -> ~ off_centre (i + t) p) -> w = a).
Proof.
  intros todo i a Hall. revert i a.
  induction Hall as [|p todo Hp _ IH]; intros i a Hlab Ha; cbn [Metrics.withinLoop].
  - exists a. split; [reflexivity|]. split; [lra|]. split; [|reflexivity].
    intros (t & q & Ht & _). destruct t; discriminate.
  - destruct (Hlab 0%nat ltac:(simpl; lia)) as (l & Hl & Hlt).
    rewrite Nat.add_0_r in Hl. rewrite Hl.
    destruct (nth_error centroids l) as [c|] eqn:Hc;
      [|apply nth_error_None in Hc; lia].
    assert (Hfc : fin_pixel c).
    { rewrite Forall_forall in centroids_finite. apply centroids_finite.
      eapply nth_error_In. exact Hc. }
    rewrite (SilhouetteFacts.distance_refines Hp Hfc).
    cbn [nadd nmul xreal_Number x_add x_mul].
    pose proof (SilhouetteFacts.distance_nonneg p c) as Hd.
    pose proof (Rmult_le_pos _ _ Hd Hd) as Hdd.
    destruct (IH (S i) (a + distance p c * distance p c)) as (w & Hrun & Hle & Hlt' & Heq).
    { intros t Ht. destruct (Hlab (S t) ltac:(simpl; lia)) as (l' & Hl' & Hb).
      exists l'. split; [|assumption]. rewrite <- Hl'. f_equal. lia. }
    { lra. }
    exists w. split; [exact Hrun|]. split; [lra|]. split.
    + intros ([|t] & q & Ht & Hoff).
      * simpl in Ht. inversion Ht; subst q. rewrite Nat.add_0_r in Hoff.
        destruct Hoff as (l' & c' & Hl' & Hc' & Hne).
        assert (l' = l) by congruence. subst l'.
        assert (c' = c) by congruence. subst c'.
        pose proof (SilhouetteValues.distance_positive Hp Hfc Hne) as Hpos.
        pose proof (Rmult_lt_0_compat _ _ Hpos Hpos). lra.
      * simpl in Ht.
        assert (Hlt2 : a + distance p c * distance p c < w).
        { apply Hlt'. exists t, q. split; [assumption|].
          replace (S i + t)%nat with (i + S t)%nat by lia. assumption. }
        lra.
    + intros Hnone.
      assert (Hz : distance p c = 0).
      { destruct (Rle_lt_dec (distance p c) 0) as [Hle0|Hgt]; [lra|].
        exfalso. apply (Hnone 0%nat p eq_refl). rewrite Nat.add_0_r.
        exists l, c. split; [assumption|]. split; [assumption|].
        intros E. subst c. rewrite SilhouetteFacts.distance_self in Hgt. lra. }
      rewrite Hz in *. rewrite Heq; [lra|].
      intros t q Ht. replace (S i + t)%nat with (i + S t)%nat by lia.
      apply (Hnone (S t) q). assumption.
Qed.

End Within.

End CalinskiHarabaszReal.

(** With more than one centroid, fewer centroids than pixels, and for
    every pixel a label that has a centroid, the Calinski-Harabasz index is
    a number that is not negative as soon as one pixel differs from the
    centroid of its label; when every pixel coincides with the centroid of
    its label the within-cluster sum is 0 and the index is [Infinity] or
    NaN (exact arithmetic). *)
Theorem calinskiHarabasz_value :
  forall h img (centroids : list (list RealNumber.xreal)) labels,
    wf_image h img ->
    Forall KMeansReal.fin_pixel centroids ->
    (forall i, (i < length (extractPixels (num := RealNumber.xreal) (bytes h img)))%nat ->
               exists l, nth_error labels i = Some l /\ (l < length centroids)%nat) ->
    (1 < length centroids
     < length (extractPixels (num := RealNumber.xreal) (bytes h img)))%nat ->
    ((exists i p,
         nth_error (extractPixels (bytes h img)) i = Some p
         /\ CalinskiHarabaszReal.off_centre centroids labels i p) ->
     exists v : R,
       Metrics.calculateCalinskiHarabaszIndex h img centroids labels
       = Ok (RealNumber.Finite v)
       /\ (0 <= v)%R)
    /\ ((forall i p,
            nth_error (extractPixels (bytes h img)) i = Some p ->
            ~ CalinskiHarabaszReal.off_centre centroids labels i p) ->
        Metrics.calculateCalinskiHarabaszIndex h img centroids labels = Ok RealNumber.PInf
        \/ Metrics.calculateCalinskiHarabaszIndex h img centroids labels
           = Ok RealNumber.XNaN).
Proof.
  intros h img centroids labels Hwf Hfin Hlab [Hk Hn].
  pose proof (SilhouetteValues.image_pixels_finite Hwf) as Hpix.
  set (pixels := extractPixels (num := RealNumber.xreal) (bytes h img)) in *.
  assert (Hne : pixels <> []) by (intros E; rewrite E in Hn; simpl in Hn; lia).
  pose proof (CalinskiHarabaszReal.overall_finite Hpix Hne) as Ho.
  destruct (@CalinskiHarabaszReal.betweenLoop_nonneg labels _ centroids 0%nat 0%R
              Ho Hfin (Rle_refl 0)) as (b & Hb & Hb0).
  destruct (@CalinskiHarabaszReal.withinLoop_value centroids labels Hfin pixels 0%nat 0%R
              Hpix Hlab (Rle_refl 0)) as (w & Hw & Hw0 & Hpos & Hzero).
  unfold Metrics.calculateCalinskiHarabaszIndex. fold pixels.
  change (ofZ 0) with (RealNumber.Finite 0) in *. cbv zeta.
  rewrite Hb, Hw. cbn [bind].
  assert (Hk1 : (0 < IZR (Z.of_nat (length centroids) - 1))%R) by (apply IZR_lt; lia).
  assert (Hnk : (0 < IZR (Z.of_nat (length pixels) - Z.of_nat (length centroids)))%R)
    by (apply IZR_lt; lia).
  cbn [ndiv ofZ RealNumber.xreal_Number].
  set (d1 := IZR (Z.of_nat (length centroids) - 1)) in *.
  set (d2 := IZR (Z.of_nat (length pixels) - Z.of_nat (length centroids))) in *.
  assert (E1 : RealNumber.x_div (RealNumber.Finite b) (RealNumber.Finite d1)
               = RealNumber.Finite (b / d1)).
  { cbn [RealNumber.x_div]. rewrite RealFacts.Reqb_false by lra. reflexivity. }
  assert (E2 : RealNumber.x_div (RealNumber.Finite w) (RealNumber.Finite d2)
               = RealNumber.Finite (w / d2)).
  { cbn [RealNumber.x_div]. rewrite RealFacts.Reqb_false by lra. reflexivity. }
  rewrite E1, E2.
  assert (Hb1 : (0 <= b / d1)%R).
  { apply Rmult_le_pos; [assumption|]. apply Rlt_le, Rinv_0_lt_compat. assumption. }
  split.
  - intros Hoff. specialize (Hpos Hoff).
    assert (Hw2 : (0 < w / d2)%R).
    { apply Rmult_lt_0_compat; [assumption|]. apply Rinv_0_lt_compat. assumption. }
    cbn [RealNumber.x_div]. rewrite RealFacts.Reqb_false by lra.
    eexists. split; [reflexivity|].
    apply Rmult_le_pos; [assumption|]. apply Rlt_le, Rinv_0_lt_compat. assumption.
  - intros Hnone. specialize (Hzero Hnone). subst w.
    assert (Hw2 : (0 / d2 = 0)%R) by (unfold Rdiv; ring).
    destruct (DaviesBouldinDegenerate.ratio_nonneg Hb1 (Rle_refl 0)) as [_ Hu].
    rewrite Hw2. destruct (Hu eq_refl) as [E|E]; rewrite E; auto.
Qed.

Lemma calinskiHarabasz_value_witness :
  wf_image SampleImage.heap0 SampleImage.image0
  /\ (exists v : R,
         Metrics.calculateCalinskiHarabaszIndex SampleImage.heap0 SampleImage.image0
           [[ofZ 20; ofZ 20; ofZ 20]; [ofZ 240; ofZ 240; ofZ 240]] [0; 0; 1; 1]%nat
         = Ok (RealNumber.Finite v)
         /\ (0 <= v)%R)
  /\ (Metrics.calculateCalinskiHarabaszIndex SampleImage.heap0 SampleImage.image0
        [[ofZ 10; ofZ 10; ofZ 10]; [ofZ 240; ofZ 240; ofZ 240]] [0; 0; 1; 1]%nat
      = Ok RealNumber.PInf
      \/ Metrics.calculateCalinskiHarabaszIndex SampleImage.heap0 SampleImage.image0
           [[ofZ 10; ofZ 10; ofZ 10]; [ofZ 240; ofZ 240; ofZ 240]] [0; 0; 1; 1]%nat
         = Ok RealNumber.XNaN).
Proof.
  assert (Hwf : wf_image SampleImage.heap0 SampleImage.image0).
  { unfold wf_image. simpl. repeat split; try lia.
    repeat (constructor; [lia|]). constructor. }
  assert (Hfin : forall a b : Z,
             Forall KMeansReal.fin_pixel
               [[ofZ a; ofZ a; ofZ a]; [ofZ b; ofZ b; ofZ b]]).
  { intros a b. repeat constructor; unfold KMeansReal.fin_pixel; simpl; eauto. }
  assert (Hlab : forall cs : list (list RealNumber.xreal),
             length cs = 2%nat ->
             forall i,
               (i < length (extractPixels (num := RealNumber.xreal)
                              (bytes SampleImage.heap0 SampleImage.image0)))%nat ->
               exists l, nth_error [0; 0; 1; 1]%nat i = Some l /\ (l < length cs)%nat).
  { intros cs Hcs i Hi. rewrite Hcs. simpl in Hi.
    destruct i as [|[|[|[|i]]]]; simpl; try (eexists; split; [reflexivity|lia]); lia. }
  assert (Hk : forall cs : list (list RealNumber.xreal),
             length cs = 2%nat ->
             (1 < length cs
              < length (extractPixels (num := RealNumber.xreal)
                          (bytes SampleImage.heap0 SampleImage.image0)))%nat).
  { intros cs Hcs. rewrite Hcs. simpl. lia. }
  split; [exact Hwf|]. split.
  - apply (proj1 (@calinskiHarabasz_value SampleImage.heap0 SampleImage.image0
                    [[ofZ 20; ofZ 20; ofZ 20]; [ofZ 240; ofZ 240; ofZ 240]]
                    [0; 0; 1; 1]%nat Hwf (Hfin 20%Z 240%Z)
                    (Hlab [[ofZ 20; ofZ 20; ofZ 20]; [ofZ 240; ofZ 240; ofZ 240]]
                          eq_refl)
                    (Hk [[ofZ 20; ofZ 20; ofZ 20]; [ofZ 240; ofZ 240; ofZ 240]]
                        eq_refl))).
    exists 0%nat, [ofZ 10; ofZ 10; ofZ 10]. split; [reflexivity|].
    exists 0%nat, [ofZ 20; ofZ 20; ofZ 20]. split; [reflexivity|].
    split; [reflexivity|].
    intros E. inversion E as [E0]. apply eq_IZR in E0. discriminate.
  - apply (proj2 (@calinskiHarabasz_value SampleImage.heap0 SampleImage.image0
                    [[ofZ 10; ofZ 10; ofZ 10]; [ofZ 240; ofZ 240; ofZ 240]]
                    [0; 0; 1; 1]%nat Hwf (Hfin 10%Z 240%Z)
                    (Hlab [[ofZ 10; ofZ 10; ofZ 10]; [ofZ 240; ofZ 240; ofZ 240]]
                          eq_refl)
                    (Hk [[ofZ 10; ofZ 10; ofZ 10]; [ofZ 240; ofZ 240; ofZ 240]]
                        eq_refl))).
    intros i p Hp (l & c & Hl & Hc & Hne). apply Hne.
    destruct i as [|[|[|[|i]]]]; simpl in Hp, Hl; try (destruct i; discriminate);
      inversion Hp; inversion Hl; subst; simpl in Hc; inversion Hc; reflexivity.
Defined.

(** * The segmentation operations: the input they keep, the output they allocate *)

Section Outputs.
Context {num : Type} `{Number num}.



End Outputs.



